(** * Area of Interest (aoi.h): a shallow embedding and its verification

    The development follows [aoi.h] function by function.  The engine state
    [struct aoi] is passed explicitly; a [struct aoi_object *] is the index of
    the slot it points to ([None] is the null pointer); the two heap blocks of
    an object ([n_list], [o_list]) are owned by that object alone, so they are
    stored by value as raw [int] arrays (cell 0 is the logical length, cell 1
    the capacity, cells 2.. the ids). *)

From Stdlib Require Import ZArith Lia.
From Stdlib Require Floats.SpecFloat.
From stdpp Require Import base tactics option numbers list sorting gmap.

Local Open Scope Z_scope.

(** ** Machine integers

    [int] is 32 bits wide.  Arithmetic on values supplied by the caller
    (coordinates, radii, ticks, the id counter) wraps around; array indices
    and logical lengths stay below the pool capacity and are computed in [Z]
    directly. *)

Module Int.

Definition INT_MIN : Z := -2147483648.
Definition INT_MAX : Z := 2147483647.

Definition wrap (z : Z) : Z := (z + 2147483648) mod 4294967296 - 2147483648.

Definition in_range (z : Z) : Prop := INT_MIN <= z <= INT_MAX.

Definition add (x y : Z) : Z := wrap (x + y).
Definition sub (x y : Z) : Z := wrap (x - y).
Definition mul (x y : Z) : Z := wrap (x * y).
Definition abs (x : Z) : Z := wrap (Z.abs x).
(* C division and remainder truncate toward zero *)
Definition div (x y : Z) : Z := wrap (Z.quot x y).
Definition rem (x y : Z) : Z := Z.rem x y.

Lemma wrap_id z : in_range z -> wrap z = z.
Proof.
  unfold in_range, INT_MIN, INT_MAX, wrap. intros H.
  rewrite Z.mod_small by lia. lia.
Qed.

Lemma wrap_range z : in_range (wrap z).
Proof.
  unfold in_range, INT_MIN, INT_MAX, wrap.
  pose proof (Z.mod_pos_bound (z + 2147483648) 4294967296). lia.
Qed.

End Int.

(** ** Single-precision floats

    [float] is IEEE-754 binary32, taken from the standard library's
    executable specification with precision 24 and maximal exponent 128.
    Every operator rounds to nearest-even after each operation.  A conversion
    to [int] of a value that does not fit (or of a NaN) yields [INT_MIN], as
    the x86-64 conversion instruction does. *)

Module F32.

Import SpecFloat.

Definition float : Type := spec_float.

Definition prec : Z := 24.
Definition emax : Z := 128.

Definition zero : float := S754_zero false.

Definition of_int (z : Z) : float := binary_normalize prec emax z 0 false.

Definition add : float -> float -> float := SFadd prec emax.
Definition mul : float -> float -> float := SFmul prec emax.
Definition div : float -> float -> float := SFdiv prec emax.
Definition sqrtf : float -> float := SFsqrt prec emax.
Definition ltb : float -> float -> bool := SFltb.

(* (int)f : truncation toward zero *)
Definition to_int (f : float) : Z :=
  match f with
  | S754_zero _ => 0
  | S754_finite s m e =>
      let mag := if 0 <=? e then Z.pos m * 2 ^ e else Z.pos m / 2 ^ (- e) in
      let v := if s then - mag else mag in
      if (Int.INT_MIN <=? v) && (v <=? Int.INT_MAX) then v else Int.INT_MIN
  | _ => Int.INT_MIN
  end.

(* (float)M_PI = 0x40490fdb *)
Definition M_PI : float := S754_finite false 13176795 (-22).

End F32.

Abbreviation float := F32.float.

(** ** Constants of the header *)

Definition AOI_MAX_AOI_P : Z := 16.
Definition AOI_MAX_AOI : Z := Z.shiftl 1 AOI_MAX_AOI_P.
Definition AOI_DEF_AOI : Z := 32.
Definition AOI_ENTER : Z := 1.
Definition AOI_LEAVE : Z := 2.
Definition AOI_OBJECT_INVALID : Z := 0.
Definition AOI_OBJECT_RESERVE : Z := 1.

Definition AOI_HASH_ID (id : Z) : Z := Int.rem id AOI_MAX_AOI.

(** ** Data *)

(** A two-element array indexed by the axis [0] or [1]. *)
Definition get2 {A : Type} (i : Z) (v : A * A) : A :=
  if i =? 0 then fst v else snd v.
Definition set2 {A : Type} (i : Z) (x : A) (v : A * A) : A * A :=
  if i =? 0 then (x, snd v) else (fst v, x).

(** A pointer to a slot of the pool. *)
Definition ptr : Type := option Z.

(** Raw [int] arrays: a read outside the block yields 0 and a write outside
    the block is dropped (in C both are out-of-bounds accesses). *)
Definition rd (l : list Z) (i : Z) : Z :=
  if i <? 0 then 0 else default 0 (l !! Z.to_nat i).
Definition wr (l : list Z) (i : Z) (v : Z) : list Z :=
  if i <? 0 then l else <[Z.to_nat i := v]> l.

Record aoi_event : Type := mk_event {
  ev_id : Z;    (* who enters or leaves sight *)
  ev_e : Z      (* AOI_ENTER or AOI_LEAVE *)
}.

Record aoi_object : Type := mk_object {
  obj_id : Z;
  obj_p : Z * Z;            (* cur pos in moving *)
  obj_sp : Z * Z;           (* pos when start move *)
  obj_dp : Z * Z;           (* move destination *)
  obj_d : float * float;
  obj_e : float;
  obj_p_tick : Z;           (* tick after move start *)
  obj_n_tick : Z;           (* tick before move end *)
  obj_type : Z;             (* invalid or reserve *)
  obj_speed : Z;
  obj_prev : ptr * ptr;
  obj_next : ptr * ptr;
  obj_n_list : list Z;      (* new version object list around *)
  obj_o_list : list Z;      (* old version object list around *)
  obj_ud : Z                (* user data: an opaque handle *)
}.

Record aoi : Type := mk_aoi {
  aoi_id : Z;
  aoi_slot : gmap Z aoi_object;   (* slot[AOI_MAX_AOI]; an absent key is an all-zero slot *)
  aoi_list : ptr * ptr;           (* heads of the x and y axis lists *)
  aoi_elist : gmap Z aoi_event    (* elist[AOI_MAX_AOI]; an absent key is an all-zero cell *)
}.

(** The all-zero object left by [memset]. *)
Definition zero_object : aoi_object :=
  mk_object 0 (0, 0) (0, 0) (0, 0) (F32.zero, F32.zero) F32.zero 0 0 0 0
            (None, None) (None, None) [] [] 0.

(** Field updates. *)
Definition set_id (v : Z) (o : aoi_object) : aoi_object :=
  mk_object v (obj_p o) (obj_sp o) (obj_dp o) (obj_d o) (obj_e o) (obj_p_tick o)
    (obj_n_tick o) (obj_type o) (obj_speed o) (obj_prev o) (obj_next o)
    (obj_n_list o) (obj_o_list o) (obj_ud o).
Definition set_p (v : Z * Z) (o : aoi_object) : aoi_object :=
  mk_object (obj_id o) v (obj_sp o) (obj_dp o) (obj_d o) (obj_e o) (obj_p_tick o)
    (obj_n_tick o) (obj_type o) (obj_speed o) (obj_prev o) (obj_next o)
    (obj_n_list o) (obj_o_list o) (obj_ud o).
Definition set_sp (v : Z * Z) (o : aoi_object) : aoi_object :=
  mk_object (obj_id o) (obj_p o) v (obj_dp o) (obj_d o) (obj_e o) (obj_p_tick o)
    (obj_n_tick o) (obj_type o) (obj_speed o) (obj_prev o) (obj_next o)
    (obj_n_list o) (obj_o_list o) (obj_ud o).
Definition set_dp (v : Z * Z) (o : aoi_object) : aoi_object :=
  mk_object (obj_id o) (obj_p o) (obj_sp o) v (obj_d o) (obj_e o) (obj_p_tick o)
    (obj_n_tick o) (obj_type o) (obj_speed o) (obj_prev o) (obj_next o)
    (obj_n_list o) (obj_o_list o) (obj_ud o).
Definition set_d (v : float * float) (o : aoi_object) : aoi_object :=
  mk_object (obj_id o) (obj_p o) (obj_sp o) (obj_dp o) v (obj_e o) (obj_p_tick o)
    (obj_n_tick o) (obj_type o) (obj_speed o) (obj_prev o) (obj_next o)
    (obj_n_list o) (obj_o_list o) (obj_ud o).
Definition set_e (v : float) (o : aoi_object) : aoi_object :=
  mk_object (obj_id o) (obj_p o) (obj_sp o) (obj_dp o) (obj_d o) v (obj_p_tick o)
    (obj_n_tick o) (obj_type o) (obj_speed o) (obj_prev o) (obj_next o)
    (obj_n_list o) (obj_o_list o) (obj_ud o).
Definition set_p_tick (v : Z) (o : aoi_object) : aoi_object :=
  mk_object (obj_id o) (obj_p o) (obj_sp o) (obj_dp o) (obj_d o) (obj_e o) v
    (obj_n_tick o) (obj_type o) (obj_speed o) (obj_prev o) (obj_next o)
    (obj_n_list o) (obj_o_list o) (obj_ud o).
Definition set_n_tick (v : Z) (o : aoi_object) : aoi_object :=
  mk_object (obj_id o) (obj_p o) (obj_sp o) (obj_dp o) (obj_d o) (obj_e o) (obj_p_tick o)
    v (obj_type o) (obj_speed o) (obj_prev o) (obj_next o)
    (obj_n_list o) (obj_o_list o) (obj_ud o).
Definition set_type (v : Z) (o : aoi_object) : aoi_object :=
  mk_object (obj_id o) (obj_p o) (obj_sp o) (obj_dp o) (obj_d o) (obj_e o) (obj_p_tick o)
    (obj_n_tick o) v (obj_speed o) (obj_prev o) (obj_next o)
    (obj_n_list o) (obj_o_list o) (obj_ud o).
Definition set_speed (v : Z) (o : aoi_object) : aoi_object :=
  mk_object (obj_id o) (obj_p o) (obj_sp o) (obj_dp o) (obj_d o) (obj_e o) (obj_p_tick o)
    (obj_n_tick o) (obj_type o) v (obj_prev o) (obj_next o)
    (obj_n_list o) (obj_o_list o) (obj_ud o).
Definition set_prev (i : Z) (v : ptr) (o : aoi_object) : aoi_object :=
  mk_object (obj_id o) (obj_p o) (obj_sp o) (obj_dp o) (obj_d o) (obj_e o) (obj_p_tick o)
    (obj_n_tick o) (obj_type o) (obj_speed o) (set2 i v (obj_prev o)) (obj_next o)
    (obj_n_list o) (obj_o_list o) (obj_ud o).
Definition set_next (i : Z) (v : ptr) (o : aoi_object) : aoi_object :=
  mk_object (obj_id o) (obj_p o) (obj_sp o) (obj_dp o) (obj_d o) (obj_e o) (obj_p_tick o)
    (obj_n_tick o) (obj_type o) (obj_speed o) (obj_prev o) (set2 i v (obj_next o))
    (obj_n_list o) (obj_o_list o) (obj_ud o).
Definition set_n_list (v : list Z) (o : aoi_object) : aoi_object :=
  mk_object (obj_id o) (obj_p o) (obj_sp o) (obj_dp o) (obj_d o) (obj_e o) (obj_p_tick o)
    (obj_n_tick o) (obj_type o) (obj_speed o) (obj_prev o) (obj_next o)
    v (obj_o_list o) (obj_ud o).
Definition set_o_list (v : list Z) (o : aoi_object) : aoi_object :=
  mk_object (obj_id o) (obj_p o) (obj_sp o) (obj_dp o) (obj_d o) (obj_e o) (obj_p_tick o)
    (obj_n_tick o) (obj_type o) (obj_speed o) (obj_prev o) (obj_next o)
    (obj_n_list o) v (obj_ud o).
Definition set_ud (v : Z) (o : aoi_object) : aoi_object :=
  mk_object (obj_id o) (obj_p o) (obj_sp o) (obj_dp o) (obj_d o) (obj_e o) (obj_p_tick o)
    (obj_n_tick o) (obj_type o) (obj_speed o) (obj_prev o) (obj_next o)
    (obj_n_list o) (obj_o_list o) v.

(** Reading and writing the pool through a slot pointer. *)
Definition slot_get (a : aoi) (i : Z) : aoi_object :=
  default zero_object (aoi_slot a !! i).
Definition slot_set (a : aoi) (i : Z) (o : aoi_object) : aoi :=
  mk_aoi (aoi_id a) (<[i := o]> (aoi_slot a)) (aoi_list a) (aoi_elist a).
Definition slot_upd (a : aoi) (i : Z) (f : aoi_object -> aoi_object) : aoi :=
  slot_set a i (f (slot_get a i)).
Definition set_aoi_id (a : aoi) (v : Z) : aoi :=
  mk_aoi v (aoi_slot a) (aoi_list a) (aoi_elist a).
Definition set_aoi_list (a : aoi) (i : Z) (v : ptr) : aoi :=
  mk_aoi (aoi_id a) (aoi_slot a) (set2 i v (aoi_list a)) (aoi_elist a).
Definition set_aoi_elist (a : aoi) (el : gmap Z aoi_event) : aoi :=
  mk_aoi (aoi_id a) (aoi_slot a) (aoi_list a) el.

(** [x->prev[i]], [x->next[i]] and [x->p[i]] for a slot pointer [x]. *)
Definition prev_of (a : aoi) (i : Z) (x : Z) : ptr := get2 i (obj_prev (slot_get a x)).
Definition next_of (a : aoi) (i : Z) (x : Z) : ptr := get2 i (obj_next (slot_get a x)).
Definition coord (a : aoi) (i : Z) (x : Z) : Z := get2 i (obj_p (slot_get a x)).

(** ** Pool *)

Definition aoi_init : aoi := mk_aoi 0 ∅ (None, None) ∅.

(** The loop of [_aoi_next_id]: at most [n] slots are tried. *)
Fixpoint _aoi_next_id_loop (n : nat) (a : aoi) : aoi * Z :=
  match n with
  | O => (a, -1)
  | S n' =>
      let id0 := aoi_id a in
      let a1 := set_aoi_id a (Int.add id0 1) in
      let id := if id0 <? 0 then Int.add (aoi_id a1) 2147483647 else id0 in
      let i := AOI_HASH_ID id in
      if obj_type (slot_get a1 i) =? AOI_OBJECT_INVALID then
        (slot_set a1 i (set_id id (set_type AOI_OBJECT_RESERVE zero_object)), id)
      else _aoi_next_id_loop n' a1
  end.

Definition _aoi_next_id (a : aoi) : aoi * Z :=
  _aoi_next_id_loop (Z.to_nat AOI_MAX_AOI) a.

Definition _aoi_object (a : aoi) (id : Z) : ptr :=
  if id <? 0 then None
  else
    let i := AOI_HASH_ID id in
    let obj := slot_get a i in
    if negb (obj_id obj =? id) || (obj_type obj =? AOI_OBJECT_INVALID) then None
    else Some i.

(** A fresh block of [AOI_DEF_AOI + 2] ints with its two header cells set;
    the cells that [malloc] leaves indeterminate are never read before they
    are written and are shown as 0. *)
Definition new_list : list Z :=
  0 :: AOI_DEF_AOI :: replicate (Z.to_nat AOI_DEF_AOI) 0.

(** One round of the linking loop of [aoi_enter]. *)
Definition _aoi_enter_link (a : aoi) (i : Z) (obj : Z) : aoi :=
  let a1 := slot_upd a obj (set_next i (get2 i (aoi_list a))) in
  let a2 := match get2 i (aoi_list a1) with
            | Some h => slot_upd a1 h (set_prev i (Some obj))
            | None => a1
            end in
  set_aoi_list a2 i (Some obj).

Definition aoi_enter (a : aoi) (ud : Z) : aoi * Z :=
  let '(a1, id) := _aoi_next_id a in
  if id =? -1 then (a1, -1)
  else
    match _aoi_object a1 id with
    | None => (a1, -1)
    | Some obj =>
        let a2 := _aoi_enter_link a1 0 obj in
        let a3 := _aoi_enter_link a2 1 obj in
        let a4 := slot_upd a3 obj (set_n_list new_list) in
        let a5 := slot_upd a4 obj (set_o_list new_list) in
        let a6 := slot_upd a5 obj (set_ud ud) in
        (a6, id)
    end.

(** ** Axis lists *)

Definition _aoi_list_erase (a : aoi) (list : Z) (obj : Z) : aoi :=
  let a1 := match prev_of a list obj with
            | Some pv => slot_upd a pv (set_next list (next_of a list obj))
            | None => set_aoi_list a list (next_of a list obj)
            end in
  let a2 := match next_of a1 list obj with
            | Some nx => slot_upd a1 nx (set_prev list (prev_of a1 list obj))
            | None => a1
            end in
  let a3 := slot_upd a2 obj (set_next list None) in
  slot_upd a3 obj (set_prev list None).

Definition _aoi_list_insert_after (a : aoi) (list : Z) (obj p : Z) : aoi :=
  if obj =? p then a
  else
    let a1 := slot_upd a obj (set_next list (next_of a list p)) in
    let a2 := slot_upd a1 obj (set_prev list (Some p)) in
    let a3 := match next_of a2 list p with
              | Some nx => slot_upd a2 nx (set_prev list (Some obj))
              | None => a2
              end in
    slot_upd a3 p (set_next list (Some obj)).

Definition _aoi_list_insert_before (a : aoi) (list : Z) (obj p : Z) : aoi :=
  if obj =? p then a
  else
    let a1 := slot_upd a obj (set_next list (Some p)) in
    let a2 := slot_upd a1 obj (set_prev list (prev_of a1 list p)) in
    let a3 := match prev_of a2 list p with
              | Some pv => slot_upd a2 pv (set_next list (Some obj))
              | None => set_aoi_list a2 list (Some obj)
              end in
    slot_upd a3 p (set_prev list (Some obj)).

(** The walks of [_aoi_update_list].  Each [while (p)] loop runs on fuel;
    [None] stands for a walk that has not ended after [fuel] nodes (on a
    cyclic list the C loop does not end at all). *)
Fixpoint _aoi_update_list_fwd (fuel : nat) (a : aoi) (i : Z) (obj : Z) (p : ptr)
  : option aoi :=
  match fuel with
  | O => None
  | S fuel' =>
      match p with
      | None => Some a
      | Some pi =>
          let stop := match next_of a i pi with
                      | Some nx => coord a i nx >? coord a i obj
                      | None => true
                      end in
          if stop then
            Some (if pi =? obj then a
                  else _aoi_list_insert_after (_aoi_list_erase a i obj) i obj pi)
          else _aoi_update_list_fwd fuel' a i obj (next_of a i pi)
      end
  end.

Fixpoint _aoi_update_list_bwd (fuel : nat) (a : aoi) (i : Z) (obj : Z) (p : ptr)
  : option aoi :=
  match fuel with
  | O => None
  | S fuel' =>
      match p with
      | None => Some a
      | Some pi =>
          let stop := match prev_of a i pi with
                      | Some pv => coord a i pv <? coord a i obj
                      | None => true
                      end in
          if stop then
            Some (if pi =? obj then a
                  else _aoi_list_insert_before (_aoi_list_erase a i obj) i obj pi)
          else _aoi_update_list_bwd fuel' a i obj (prev_of a i pi)
      end
  end.

(** Every walk visits each node of a list at most once, so the pool capacity
    plus one bounds its length on any acyclic list. *)
Definition walk_fuel : nat := S (Z.to_nat AOI_MAX_AOI).
Arguments walk_fuel : simpl never.

Definition _aoi_update_list_axis (a : aoi) (obj : Z) (i : Z) (di : Z) : option aoi :=
  if di >? 0 then _aoi_update_list_fwd walk_fuel a i obj (Some obj)
  else if di <? 0 then _aoi_update_list_bwd walk_fuel a i obj (Some obj)
  else Some a.

Definition _aoi_update_list (a : aoi) (obj : Z) (d : Z * Z) : option aoi :=
  a1 ← _aoi_update_list_axis a obj 0 (get2 0 d);
  _aoi_update_list_axis a1 obj 1 (get2 1 d).

Definition aoi_leave (a : aoi) (id : Z) : aoi :=
  match _aoi_object a id with
  | None => a
  | Some obj =>
      let a1 := _aoi_list_erase a 0 obj in
      let a2 := _aoi_list_erase a1 1 obj in
      (* free(n_list); free(o_list); memset(obj, 0); type = INVALID *)
      slot_set a2 obj (set_type AOI_OBJECT_INVALID zero_object)
  end.

Definition aoi_ud (a : aoi) (id : Z) : Z :=
  match _aoi_object a id with
  | Some obj => obj_ud (slot_get a obj)
  | None => 0
  end.

(** ** Movement *)

Definition aoi_locate (a : aoi) (id : Z) (x y : Z) : option aoi :=
  match _aoi_object a id with
  | None => Some a
  | Some obj =>
      let d0 := Int.sub x (coord a 0 obj) in
      let d1 := Int.sub y (coord a 1 obj) in
      let a1 := slot_upd a obj (fun o => set_p (set2 0 x (obj_p o)) o) in
      let a2 := slot_upd a1 obj (fun o => set_p (set2 1 y (obj_p o)) o) in
      _aoi_update_list a2 obj (d0, d1)
  end.

(** One round of the first loop of [aoi_move]; it returns [d[i]] as well. *)
Definition _aoi_move_axis (a : aoi) (obj : Z) (i : Z) (di : Z) : aoi * Z :=
  let a1 := slot_upd a obj (fun o => set_sp (set2 i (get2 i (obj_p o)) (obj_sp o)) o) in
  let a2 := slot_upd a1 obj (fun o => set_dp (set2 i di (obj_dp o)) o) in
  (a2, Int.sub di (coord a2 i obj)).

Definition aoi_move (a : aoi) (id : Z) (x y : Z) : aoi :=
  match _aoi_object a id with
  | None => a
  | Some obj =>
      let o := slot_get a obj in
      if (obj_speed o <=? 0) || ((x =? get2 0 (obj_p o)) && (y =? get2 1 (obj_p o)))
      then a
      else
        let '(a1, d0) := _aoi_move_axis a obj 0 x in
        let '(a2, d1) := _aoi_move_axis a1 obj 1 y in
        let c := F32.sqrtf (F32.of_int (Int.add (Int.mul d0 d0) (Int.mul d1 d1))) in
        let a3 := slot_upd a2 obj
                    (fun o => set_d (set2 0 (F32.div (F32.of_int d0) c) (obj_d o)) o) in
        let a4 := slot_upd a3 obj
                    (fun o => set_d (set2 1 (F32.div (F32.of_int d1) c) (obj_d o)) o) in
        let a5 := slot_upd a4 obj
                    (fun o => set_e (F32.div (F32.mul F32.M_PI (F32.of_int (obj_speed o))) c) o) in
        let a6 := slot_upd a5 obj
                    (fun o => set_n_tick (Int.div (F32.to_int c) (obj_speed o)) o) in
        slot_upd a6 obj (set_p_tick 0)
  end.

Definition aoi_speed (a : aoi) (id : Z) (speed : Z) : aoi :=
  match _aoi_object a id with
  | None => a
  | Some obj =>
      let a1 := slot_upd a obj (set_speed speed) in
      let o := slot_get a1 obj in
      if obj_n_tick o >? 0 then
        (* object in moving, take effect change of speed *)
        aoi_move a1 (obj_id o) (get2 0 (obj_dp o)) (get2 1 (obj_dp o))
      else a1
  end.

Definition aoi_pos (a : aoi) (id : Z) (pxy : Z * Z) : Z * Z :=
  match _aoi_object a id with
  | None => pxy
  | Some obj => (coord a 0 obj, coord a 1 obj)
  end.

Definition aoi_moving (a : aoi) (id : Z) : Z :=
  match _aoi_object a id with
  | None => 0
  | Some obj => if obj_n_tick (slot_get a obj) >? 0 then 1 else 0
  end.

(** ** Advancing a move

    [sinf] is the one library function whose results the C standard does not
    fix; the advance step takes it as a parameter. *)

Section Advance.

Variable sinf : float -> float.

(** [d[i] = ((obj->d[i] > 0) << 1) - 1] *)
Definition _aoi_dir_sign (o : aoi_object) (i : Z) : Z :=
  Z.shiftl (if F32.ltb F32.zero (get2 i (obj_d o)) then 1 else 0) 1 - 1.

(** One round of the interpolation loop of [_aoi_object_update]. *)
Definition _aoi_step_axis (s : float) (a : aoi) (obj : Z) (i : Z) : aoi :=
  slot_upd a obj
    (fun o =>
       let lin := F32.mul (F32.mul (get2 i (obj_d o)) (F32.of_int (obj_speed o)))
                          (F32.of_int (obj_p_tick o)) in
       let lat := F32.mul (F32.mul (F32.of_int (Z.shiftl i 1 - 1)) (get2 i (obj_d o))) s in
       let v := F32.to_int (F32.add (F32.add (F32.of_int (get2 i (obj_sp o))) lin) lat) in
       set_p (set2 i v (obj_p o)) o).

Definition _aoi_object_update (a : aoi) (obj : Z) (tick : Z) : option aoi :=
  let ti := Z.min tick (obj_n_tick (slot_get a obj)) in
  let a1 := slot_upd a obj (fun o => set_n_tick (Int.sub (obj_n_tick o) ti) o) in
  let a2 := slot_upd a1 obj (fun o => set_p_tick (Int.add (obj_p_tick o) ti) o) in
  let d := (_aoi_dir_sign (slot_get a2 obj) 0, _aoi_dir_sign (slot_get a2 obj) 1) in
  let a3 :=
    if obj_n_tick (slot_get a2 obj) <=? 0 then
      (* moving end, set cur position to destination *)
      let a' := slot_upd a2 obj (fun o => set_p (set2 0 (get2 0 (obj_dp o)) (obj_p o)) o) in
      slot_upd a' obj (fun o => set_p (set2 1 (get2 1 (obj_dp o)) (obj_p o)) o)
    else
      (* make moving step *)
      let o := slot_get a2 obj in
      let ph := F32.mul (obj_e o) (F32.of_int (obj_p_tick o)) in
      let s := F32.mul (sinf ph) (sinf ph) in
      _aoi_step_axis s (_aoi_step_axis s a2 obj 0) obj 1 in
  _aoi_update_list a3 obj d.

Definition aoi_update (a : aoi) (id : Z) (tick : Z) : option aoi :=
  match _aoi_object a id with
  | None => Some a
  | Some obj =>
      let o := slot_get a obj in
      if (obj_type o =? AOI_OBJECT_INVALID) || (obj_speed o <=? 0) then Some a
      else if obj_n_tick o <=? 0 then Some a
      else _aoi_object_update a obj tick
  end.

End Advance.

(** ** Neighbour lists *)

(** [realloc]: the block keeps its cells and gets indeterminate new ones. *)
Definition realloc (l : list Z) (n : Z) : list Z := resize (Z.to_nat n) 0 l.

(** [for (j = cur + 1; j >= i; j--) list[j + 1] = list[j];] with [n] rounds
    left and [j] the current index. *)
Fixpoint _insert_shift (n : nat) (l : list Z) (j : Z) : list Z :=
  match n with
  | O => l
  | S n' => _insert_shift n' (wr l (j + 1) (rd l j)) (j - 1)
  end.

(** [while (i <= cur + 1)] of [_insert_list], with [n] rounds left. *)
Fixpoint _insert_scan (n : nat) (l : list Z) (cur id i : Z) : list Z :=
  match n with
  | O => l
  | S n' =>
      if id <? rd l i then
        let l1 := _insert_shift (Z.to_nat (cur + 2 - i)) l (cur + 1) in
        let l2 := wr l1 i id in
        wr l2 0 (rd l2 0 + 1)
      else if id =? rd l i then l
      else _insert_scan n' l cur id (i + 1)
  end.

Definition _insert_list (lst : list Z) (id : Z) : list Z :=
  let cur := rd lst 0 in
  let lst1 :=
    if cur >=? rd lst 1 then
      let l' := realloc lst (rd lst 1 * 2 + 2) in
      wr l' 1 (rd l' 1 * 2)
    else lst in
  if (cur =? 0) || (id >? rd lst1 (cur + 1)) then
    let l2 := wr lst1 (cur + 2) id in
    wr l2 0 (rd l2 0 + 1)
  else _insert_scan (Z.to_nat cur) lst1 cur id 2.

(** [while (i <= cur + 1)] of [_find_list], with [n] rounds left. *)
Fixpoint _find_scan (n : nat) (l : list Z) (id i : Z) : Z :=
  match n with
  | O => 0
  | S n' => if id =? rd l i then 1 else _find_scan n' l id (i + 1)
  end.

Definition _find_list (lst : list Z) (id : Z) : Z :=
  let cur := rd lst 0 in
  if (cur =? 0) || (id >? rd lst (cur + 1)) then 0
  else _find_scan (Z.to_nat cur) lst id 2.

(** ** Trigger *)

(** The candidate walk of [aoi_trigger] in direction [i] (0: towards
    [prev[0]], 1: towards [next[0]]), on fuel like the walks above. *)
Fixpoint _aoi_trigger_walk (fuel : nat) (a : aoi) (obj : Z) (i : Z)
    (enter_r leave_r : Z) (p : ptr) (cur_list : list Z) : option (list Z) :=
  match fuel with
  | O => None
  | S fuel' =>
      match p with
      | None => Some cur_list
      | Some pi =>
          let dx := Int.abs (Int.sub (coord a 0 obj) (coord a 0 pi)) in
          let dy := Int.abs (Int.sub (coord a 1 obj) (coord a 1 pi)) in
          let d := Int.add (Int.mul dx dx) (Int.mul dy dy) in
          if dx >? leave_r then Some cur_list
          else
            let cur_list' :=
              if d <=? Int.mul enter_r enter_r then
                _insert_list cur_list (obj_id (slot_get a pi))
              else if d <=? Int.mul leave_r leave_r then
                if _find_list (obj_o_list (slot_get a obj)) (obj_id (slot_get a pi)) =? 0
                then cur_list
                else _insert_list cur_list (obj_id (slot_get a pi))
              else cur_list in
            _aoi_trigger_walk fuel' a obj i enter_r leave_r
              (if i =? 0 then prev_of a 0 pi else next_of a 0 pi) cur_list'
      end
  end.

(** [( *list)[r].id = id; ( *list)[r].e = e; r++] *)
Definition _emit (st : gmap Z aoi_event * Z) (id e : Z) : gmap Z aoi_event * Z :=
  (<[snd st := mk_event id e]> (fst st), snd st + 1).

(** [for (i = from; ...; i++) { emit src[i]; }] with [n] rounds left. *)
Fixpoint _emit_range (n : nat) (src : list Z) (i : Z) (e : Z)
    (st : gmap Z aoi_event * Z) : gmap Z aoi_event * Z :=
  match n with
  | O => st
  | S n' => _emit_range n' src (i + 1) e (_emit st (rd src i) e)
  end.

(** The [for (;;)] merge of the old and the new list.  Every round that does
    not leave the loop advances [o_i] or [n_i]; [merge_fuel_ok] below shows
    that the fuel handed over by [aoi_trigger] is never used up. *)
Fixpoint _aoi_trigger_merge (fuel : nat) (a : aoi) (o_list cur_list : list Z)
    (o_cnt n_cnt o_i n_i : Z) (st : gmap Z aoi_event * Z)
  : option (gmap Z aoi_event * Z) :=
  match fuel with
  | O => None
  | S fuel' =>
      if o_i >? o_cnt + 1 then
        Some (_emit_range (Z.to_nat (n_cnt + 2 - n_i)) cur_list n_i AOI_ENTER st)
      else if n_i >? n_cnt + 1 then
        Some (_emit_range (Z.to_nat (o_cnt + 2 - o_i)) o_list o_i AOI_LEAVE st)
      else
        let o := rd o_list o_i in
        match _aoi_object a o with
        | None => _aoi_trigger_merge fuel' a o_list cur_list o_cnt n_cnt (o_i + 1) n_i st
        | Some _ =>
            let n := rd cur_list n_i in
            if n <? o then
              _aoi_trigger_merge fuel' a o_list cur_list o_cnt n_cnt o_i (n_i + 1)
                (_emit st n AOI_ENTER)
            else if n =? o then
              _aoi_trigger_merge fuel' a o_list cur_list o_cnt n_cnt (o_i + 1) (n_i + 1) st
            else
              _aoi_trigger_merge fuel' a o_list cur_list o_cnt n_cnt (o_i + 1) n_i
                (_emit st o AOI_LEAVE)
        end
  end.

(** [aoi_trigger] returns the new state and [r]; the event list handed back
    through [*list] is [aoi_elist] of the new state. *)
Definition aoi_trigger (a : aoi) (id : Z) (enter_r leave_r : Z) : option (aoi * Z) :=
  match _aoi_object a id with
  | None => Some (a, 0)
  | Some obj =>
      let cur0 := wr (obj_n_list (slot_get a obj)) 0 0 in
      (* cur_list[0] = 0 writes through obj->n_list *)
      let a0 := slot_upd a obj (set_n_list cur0) in
      cur1 ← _aoi_trigger_walk walk_fuel a0 obj 0 enter_r leave_r (prev_of a0 0 obj) cur0;
      cur_list ← _aoi_trigger_walk walk_fuel a0 obj 1 enter_r leave_r (next_of a0 0 obj) cur1;
      let o_list := obj_o_list (slot_get a0 obj) in
      st ← (if rd o_list 0 =? 0 then
              Some (_emit_range (Z.to_nat (rd cur_list 0)) cur_list 2 AOI_ENTER
                      (aoi_elist a0, 0))
            else
              let o_cnt := rd o_list 0 in
              let n_cnt := rd cur_list 0 in
              _aoi_trigger_merge (Z.to_nat (o_cnt + n_cnt + 1)) a0 o_list cur_list
                o_cnt n_cnt 2 2 (aoi_elist a0, 0));
      (* change list version *)
      let a1 := set_aoi_elist a0 (fst st) in
      let a2 := slot_upd a1 obj (fun o => set_n_list (obj_o_list o) o) in
      let a3 := slot_upd a2 obj (set_o_list cur_list) in
      Some (a3, snd st)
  end.

(** The events of a scan, as the caller reads them from the list view. *)
Definition events (a : aoi) (r : Z) : list aoi_event :=
  map (fun i => default (mk_event 0 0) (aoi_elist a !! Z.of_nat i)) (seq 0 (Z.to_nat r)).

(** [aoi_around] fills the caller's array [list] and returns the count. *)
Fixpoint _aoi_around_copy (k : nat) (src : list Z) (i : Z) (out : list Z) : list Z :=
  match k with
  | O => out
  | S k' => _aoi_around_copy k' src (i + 1) (wr out i (rd src i))
  end.

Definition aoi_around (a : aoi) (id : Z) (out : list Z) (n : Z) : list Z * Z :=
  match _aoi_object a id with
  | None => (out, 0)
  | Some obj =>
      let nl := obj_n_list (slot_get a obj) in
      let n' := if n >? rd nl 0 then rd nl 0 else n in
      (_aoi_around_copy (Z.to_nat n') nl 0 out, n')
  end.

(** * Verification *)

(** ** Reading and writing slots *)

Lemma slot_get_set a i o j :
  slot_get (slot_set a i o) j = if decide (i = j) then o else slot_get a j.
Proof.
  unfold slot_get, slot_set; simpl. rewrite lookup_insert.
  destruct (decide (i = j)); reflexivity.
Qed.

Lemma slot_get_set_eq a i o : slot_get (slot_set a i o) i = o.
Proof. rewrite slot_get_set. destruct (decide (i = i)); congruence. Qed.

Lemma slot_get_set_ne a i o j : i ≠ j -> slot_get (slot_set a i o) j = slot_get a j.
Proof. intros H. rewrite slot_get_set. destruct (decide (i = j)); congruence. Qed.

Lemma slot_get_upd a i f j :
  slot_get (slot_upd a i f) j = if decide (i = j) then f (slot_get a i) else slot_get a j.
Proof. unfold slot_upd. apply slot_get_set. Qed.

Lemma slot_get_upd_eq a i f : slot_get (slot_upd a i f) i = f (slot_get a i).
Proof. unfold slot_upd. apply slot_get_set_eq. Qed.

Lemma slot_get_upd_ne a i f j : i ≠ j -> slot_get (slot_upd a i f) j = slot_get a j.
Proof. unfold slot_upd. apply slot_get_set_ne. Qed.

Lemma slot_get_set_aoi_id a v j : slot_get (set_aoi_id a v) j = slot_get a j.
Proof. reflexivity. Qed.

Lemma slot_get_set_aoi_list a i v j : slot_get (set_aoi_list a i v) j = slot_get a j.
Proof. reflexivity. Qed.

Lemma slot_get_set_aoi_elist a el j : slot_get (set_aoi_elist a el) j = slot_get a j.
Proof. reflexivity. Qed.

Lemma aoi_id_slot_set a i o : aoi_id (slot_set a i o) = aoi_id a.
Proof. reflexivity. Qed.

Lemma aoi_id_set_aoi_id a v : aoi_id (set_aoi_id a v) = v.
Proof. reflexivity. Qed.

Lemma AOI_MAX_AOI_eq : AOI_MAX_AOI = 65536.
Proof. reflexivity. Qed.

Lemma AOI_HASH_ID_range id : 0 <= id -> 0 <= AOI_HASH_ID id < AOI_MAX_AOI.
Proof.
  intros H. unfold AOI_HASH_ID, Int.rem. rewrite AOI_MAX_AOI_eq.
  rewrite Z.rem_mod_nonneg by lia. apply Z.mod_pos_bound. lia.
Qed.

Lemma AOI_HASH_ID_small id : 0 <= id < AOI_MAX_AOI -> AOI_HASH_ID id = id.
Proof.
  intros H. unfold AOI_HASH_ID, Int.rem. rewrite AOI_MAX_AOI_eq in *.
  apply Z.rem_small. lia.
Qed.

(** [_aoi_object] answers with the slot an id hashes to exactly when that
    slot is in use and holds this very id. *)
Lemma _aoi_object_Some a id obj :
  _aoi_object a id = Some obj <->
  0 <= id /\ obj = AOI_HASH_ID id /\
  obj_id (slot_get a obj) = id /\ obj_type (slot_get a obj) ≠ AOI_OBJECT_INVALID.
Proof.
  unfold _aoi_object.
  destruct (Z.ltb_spec id 0) as [Hneg|Hpos].
  - split; [discriminate | lia].
  - destruct (Z.eqb_spec (obj_id (slot_get a (AOI_HASH_ID id))) id) as [He|He];
      destruct (Z.eqb_spec (obj_type (slot_get a (AOI_HASH_ID id))) AOI_OBJECT_INVALID)
        as [Ht|Ht]; simpl; split; intros H;
      try discriminate; try (destruct H as (_ & -> & H1 & H2); congruence).
    inversion H; subst. auto.
Qed.

Lemma _aoi_object_None a id :
  _aoi_object a id = None <->
  id < 0 \/ obj_id (slot_get a (AOI_HASH_ID id)) ≠ id \/
  obj_type (slot_get a (AOI_HASH_ID id)) = AOI_OBJECT_INVALID.
Proof.
  unfold _aoi_object.
  destruct (Z.ltb_spec id 0) as [Hneg|Hpos]; [tauto|].
  destruct (Z.eqb_spec (obj_id (slot_get a (AOI_HASH_ID id))) id) as [He|He];
    destruct (Z.eqb_spec (obj_type (slot_get a (AOI_HASH_ID id))) AOI_OBJECT_INVALID)
      as [Ht|Ht]; simpl; split; intros H; try tauto; try discriminate.
  destruct H as [H|[H|H]]; [lia | congruence | congruence].
Qed.

(** [_aoi_object] only looks at the [id] and [type] fields. *)
Lemma _aoi_object_ext a a' id :
  (forall x, obj_id (slot_get a' x) = obj_id (slot_get a x)) ->
  (forall x, obj_type (slot_get a' x) = obj_type (slot_get a x)) ->
  _aoi_object a' id = _aoi_object a id.
Proof.
  intros Hid Hty. unfold _aoi_object. rewrite Hid, Hty. reflexivity.
Qed.

(** ** The concrete scenario *)

(** A scan together with the events the caller reads from the list view. *)
Definition scan (a : aoi) (id enter_r leave_r : Z) : option (aoi * list aoi_event) :=
  '(a', r) ← aoi_trigger a id enter_r leave_r;
  Some (a', events a' r).

(** The four scans of the scenario, from a state [a] in which [idA] sits at
    (0,0) and [idB] at (200,0). *)
Definition scenario_scans (a : aoi) (idA idB : Z) : option (list (list aoi_event)) :=
  '(a, e0) ← scan a idA 100 130;
  a ← aoi_locate a idB 90 0;
  '(a, e1) ← scan a idA 100 130;
  a ← aoi_locate a idB 125 0;
  '(a, e2) ← scan a idA 100 130;
  a ← aoi_locate a idB 140 0;
  '(a, e3) ← scan a idA 100 130;
  Some [e0; e1; e2; e3].

(** Each entity is created and placed in turn. *)
Definition scenario_create_place : option (Z * Z * list (list aoi_event)) :=
  let '(a, idA) := aoi_enter aoi_init 0 in
  a ← aoi_locate a idA 0 0;
  let '(a, idB) := aoi_enter a 0 in
  a ← aoi_locate a idB 200 0;
  es ← scenario_scans a idA idB;
  Some (idA, idB, es).

(** Both entities are created first and placed afterwards. *)
Definition scenario_create_create : option (Z * Z * list (list aoi_event)) :=
  let '(a, idA) := aoi_enter aoi_init 0 in
  let '(a, idB) := aoi_enter a 0 in
  a ← aoi_locate a idA 0 0;
  a ← aoi_locate a idB 200 0;
  es ← scenario_scans a idA idB;
  Some (idA, idB, es).

(** C1.  With A at (0,0), B at (200,0), enter radius 100 and leave radius
    130: the first scan of A reports nothing; after B is teleported to (90,0)
    the scan reports exactly one ENTER event for B; after B is teleported to
    (125,0) it reports nothing; after B is teleported to (140,0) it reports
    exactly one LEAVE event for B.  This holds whether each entity is placed
    right after its creation or both are created first. *)
Theorem concrete_scenario_events :
  scenario_create_place
    = Some (0, 1, [ []; [mk_event 1 AOI_ENTER]; []; [mk_event 1 AOI_LEAVE] ]) /\
  scenario_create_create
    = Some (0, 1, [ []; [mk_event 1 AOI_ENTER]; []; [mk_event 1 AOI_LEAVE] ]).
Proof. split; vm_compute; reflexivity. Qed.

(** ** moveTo *)

(** The guard [obj->speed <= 0] of [aoi_move] and of [aoi_update]. *)
Lemma aoi_move_slow (a : aoi) (id obj x y : Z) :
  _aoi_object a id = Some obj -> obj_speed (slot_get a obj) <= 0 ->
  aoi_move a id x y = a.
Proof.
  intros H Hs. unfold aoi_move. rewrite H.
  destruct (Z.leb_spec (obj_speed (slot_get a obj)) 0); [reflexivity | lia].
Qed.

Lemma aoi_update_slow (sinf : float -> float) (a : aoi) (id obj tick : Z) :
  _aoi_object a id = Some obj -> obj_speed (slot_get a obj) <= 0 ->
  aoi_update sinf a id tick = Some a.
Proof.
  intros H Hs. unfold aoi_update. rewrite H.
  destruct (obj_type (slot_get a obj) =? AOI_OBJECT_INVALID); [reflexivity|].
  destruct (Z.leb_spec (obj_speed (slot_get a obj)) 0); [reflexivity | lia].
Qed.

(** C8.  [aoi_move] leaves the whole engine state as it is when the id is
    stale or invalid, when the entity's speed is zero or negative, or when
    the destination is the entity's current position. *)
Theorem aoi_move_noop (a : aoi) (id x y : Z) :
  (_aoi_object a id = None \/
   exists obj, _aoi_object a id = Some obj /\
     (obj_speed (slot_get a obj) <= 0 \/
      (x = coord a 0 obj /\ y = coord a 1 obj))) ->
  aoi_move a id x y = a.
Proof.
  intros [H | (obj & H & Hc)]; unfold aoi_move; rewrite H; [reflexivity|].
  destruct Hc as [Hs | [Hx Hy]].
  - destruct (Z.leb_spec (obj_speed (slot_get a obj)) 0); [reflexivity | lia].
  - unfold coord in Hx, Hy. rewrite <- Hx, <- Hy, !Z.eqb_refl, orb_true_r.
    reflexivity.
Qed.

(** The three cases at concrete inputs: an id that was never handed out, a
    fresh entity (speed 0), and an entity of speed 5 sent to where it stands. *)
Lemma aoi_move_noop_witness :
  aoi_move aoi_init 7 1 1 = aoi_init /\
  aoi_move (fst (aoi_enter aoi_init 0)) 0 10 10 = fst (aoi_enter aoi_init 0) /\
  aoi_move (aoi_speed (fst (aoi_enter aoi_init 0)) 0 5) 0 0 0
    = aoi_speed (fst (aoi_enter aoi_init 0)) 0 5.
Proof.
  split; [|split].
  - apply aoi_move_noop. left. reflexivity.
  - apply aoi_move_noop. right. exists 0. split; [reflexivity|]. left.
    vm_compute. discriminate.
  - apply aoi_move_noop. right. exists 0. split; [reflexivity|]. right.
    split; reflexivity.
Defined.

(** ** setSpeed, advance, isMoving *)

(** A run of advance calls on one entity. *)
Fixpoint advances (sinf : float -> float) (a : aoi) (id : Z) (ticks : list Z)
  : option aoi :=
  match ticks with
  | [] => Some a
  | t :: ticks' => a' ← aoi_update sinf a id t; advances sinf a' id ticks'
  end.

(** C10.  When an entity is in the middle of a move (remaining ticks > 0),
    [aoi_speed] with speed 0 leaves the remaining-tick counter as it is, so
    [aoi_moving] still answers 1, while every later [aoi_update] on the
    entity returns the state unchanged (position and remaining ticks
    included), however many are made. *)
Theorem aoi_speed_zero_freezes_move (sinf : float -> float) (a : aoi) (id obj : Z) :
  _aoi_object a id = Some obj ->
  0 < obj_n_tick (slot_get a obj) ->
  let a' := aoi_speed a id 0 in
  obj_n_tick (slot_get a' obj) = obj_n_tick (slot_get a obj) /\
  obj_p (slot_get a' obj) = obj_p (slot_get a obj) /\
  aoi_moving a' id = 1 /\
  (forall tick, aoi_update sinf a' id tick = Some a') /\
  (forall ticks, advances sinf a' id ticks = Some a').
Proof.
  intros Hobj Hn.
  pose proof Hobj as Hobj0.
  apply _aoi_object_Some in Hobj as (Hid & Hh & Hoid & Hty).
  set (a1 := slot_upd a obj (set_speed 0)).
  assert (Ho1 : _aoi_object a1 id = Some obj).
  { rewrite <- Hobj0. apply _aoi_object_ext; intros x; unfold a1;
      rewrite slot_get_upd; destruct (decide (obj = x)); subst; reflexivity. }
  assert (Hsp : obj_speed (slot_get a1 obj) = 0).
  { unfold a1. rewrite slot_get_upd_eq. reflexivity. }
  assert (Hnt : obj_n_tick (slot_get a1 obj) = obj_n_tick (slot_get a obj)).
  { unfold a1. rewrite slot_get_upd_eq. reflexivity. }
  assert (Ha' : aoi_speed a id 0 = a1).
  { unfold aoi_speed. rewrite Hobj0. fold a1. rewrite Hnt.
    destruct (Z.gtb_spec (obj_n_tick (slot_get a obj)) 0); [|lia].
    apply (aoi_move_slow a1 _ obj); [|lia].
    assert (obj_id (slot_get a1 obj) = id) as ->; [|exact Ho1].
    unfold a1. rewrite slot_get_upd_eq. exact Hoid. }
  simpl. rewrite Ha'.
  assert (Hupd : forall tick, aoi_update sinf a1 id tick = Some a1).
  { intros tick. unfold aoi_update. rewrite Ho1, Hsp. simpl.
    rewrite orb_true_r. reflexivity. }
  split; [exact Hnt|]. split; [unfold a1; rewrite slot_get_upd_eq; reflexivity|].
  split.
  - unfold aoi_moving. rewrite Ho1, Hnt.
    destruct (Z.gtb_spec (obj_n_tick (slot_get a obj)) 0); [reflexivity | lia].
  - split; [exact Hupd|].
    intros ticks. induction ticks as [|t ticks IH]; simpl; [reflexivity|].
    rewrite Hupd. simpl. exact IH.
Qed.

(** An entity of speed 5 on its way from (0,0) to (100,0): 20 ticks remain. *)
Definition moving_entity : aoi :=
  aoi_move (aoi_speed (fst (aoi_enter aoi_init 0)) 0 5) 0 100 0.

Lemma moving_entity_ticks :
  _aoi_object moving_entity 0 = Some 0 /\
  obj_n_tick (slot_get moving_entity 0) = 20 /\
  obj_dp (slot_get moving_entity 0) = (100, 0) /\
  obj_p (slot_get moving_entity 0) = (0, 0).
Proof. vm_compute. auto. Qed.

Lemma aoi_speed_zero_freezes_move_witness :
  let a' := aoi_speed moving_entity 0 0 in
  obj_n_tick (slot_get a' 0) = obj_n_tick (slot_get moving_entity 0) /\
  obj_p (slot_get a' 0) = obj_p (slot_get moving_entity 0) /\
  aoi_moving a' 0 = 1 /\
  (forall tick, aoi_update (fun _ => F32.zero) a' 0 tick = Some a') /\
  (forall ticks, advances (fun _ => F32.zero) a' 0 ticks = Some a').
Proof.
  apply (aoi_speed_zero_freezes_move (fun _ => F32.zero) moving_entity 0 0).
  - reflexivity.
  - vm_compute. reflexivity.
Defined.


(** ** Stale ids in the diff *)

(** Three entities at the origin; A has scanned once, so its old list is
    [B; C]. *)
Definition three_at_origin_scanned : option aoi :=
  let '(a, _) := aoi_enter aoi_init 0 in
  let '(a, _) := aoi_enter a 0 in
  let '(a, _) := aoi_enter a 0 in
  fst <$> scan a 0 100 130.

(** What the next scan of A reports after entity [gone] was destroyed. *)
Definition scan_after_leave (gone : Z) : option (list aoi_event) :=
  a ← three_at_origin_scanned;
  snd <$> scan (aoi_leave a gone) 0 100 130.

(** C2, at a concrete input.  The destroyed id 1 comes first in A's old
    list [1; 2] and is dropped without an event.  The destroyed id 2 comes last: the new list [1] is
    used up before it is reached, and the loop that flushes the rest of the
    old list reports LEAVE for it although its slot is free. *)
Lemma stale_id_leave_depends_on_order :
  scan_after_leave 1 = Some [] /\
  scan_after_leave 2 = Some [mk_event 2 AOI_LEAVE] /\
  (a ← three_at_origin_scanned; Some (_aoi_object (aoi_leave a 2) 2)) = Some None.
Proof. vm_compute. auto. Qed.

(** ** neighborsOf *)

(** A at the origin with neighbours B and C, scanned once and twice. *)
Definition around_after_scans (scans : nat) (out : list Z) (n : Z) : option (list Z * Z) :=
  let '(a, _) := aoi_enter aoi_init 0 in
  let '(a, _) := aoi_enter a 0 in
  let '(a, _) := aoi_enter a 0 in
  a ← Nat.iter scans (fun s => a ← s; fst <$> scan a 0 100 130) (Some a);
  Some (aoi_around a 0 out n).

(** C6, at a concrete input.  After the first scan the snapshot of A is
    [1; 2], yet [aoi_around] reads the block that the scan has just swapped out and answers 0.  After the
    second scan it answers 2 and hands out the two header cells of the block
    (the length 2 and the capacity 32) in place of the ids 1 and 2. *)
Lemma aoi_around_reads_swapped_block_header :
  around_after_scans 1 [0; 0; 0] 3 = Some ([0; 0; 0], 0) /\
  around_after_scans 2 [0; 0; 0] 3 = Some ([2; 32; 0], 2) /\
  (let '(a, _) := aoi_enter aoi_init 0 in
   let '(a, _) := aoi_enter a 0 in
   let '(a, _) := aoi_enter a 0 in
   '(a, e) ← scan a 0 100 130;
   Some (e, take 4 (obj_o_list (slot_get a 0))))
  = Some ([mk_event 1 AOI_ENTER; mk_event 2 AOI_ENTER], [2; 32; 1; 2]).
Proof. vm_compute. auto. Qed.

(** On a stale id [aoi_around] answers 0 and leaves the caller's array alone. *)
Lemma aoi_around_stale a id out n :
  _aoi_object a id = None -> aoi_around a id out n = (out, 0).
Proof. intros H. unfold aoi_around. rewrite H. reflexivity. Qed.

(** ** Frames: which fields an operation leaves alone *)

(** [same_on F a a'] : the view [F] of every slot is the same in [a'] as in
    [a]. *)
Definition same_on {A : Type} (F : aoi_object -> A) (a a' : aoi) : Prop :=
  forall x, F (slot_get a' x) = F (slot_get a x).

(** A view that does not look at the links of axis [i]. *)
Definition link_blind {A : Type} (i : Z) (F : aoi_object -> A) : Prop :=
  (forall v o, F (set_next i v o) = F o) /\ (forall v o, F (set_prev i v o) = F o).

Lemma same_on_refl {A} (F : aoi_object -> A) a : same_on F a a.
Proof. intros x. reflexivity. Qed.

Lemma same_on_trans {A} (F : aoi_object -> A) a b c :
  same_on F a b -> same_on F b c -> same_on F a c.
Proof. intros H1 H2 x. rewrite H2. apply H1. Qed.

Lemma same_on_upd {A} (F : aoi_object -> A) a y f :
  (forall o, F (f o) = F o) -> same_on F a (slot_upd a y f).
Proof.
  intros Hf x. rewrite slot_get_upd. destruct (decide (y = x)); subst; auto.
Qed.

Lemma same_on_upd_r {A} (F : aoi_object -> A) a b y f :
  (forall o, F (f o) = F o) -> same_on F a b -> same_on F a (slot_upd b y f).
Proof. intros Hf H. eapply same_on_trans; [exact H | apply same_on_upd; exact Hf]. Qed.

Lemma same_on_set_aoi_list_r {A} (F : aoi_object -> A) a b i v :
  same_on F a b -> same_on F a (set_aoi_list b i v).
Proof. intros H x. apply H. Qed.

Lemma same_on_set_aoi_elist_r {A} (F : aoi_object -> A) a b el :
  same_on F a b -> same_on F a (set_aoi_elist b el).
Proof. intros H x. apply H. Qed.

Lemma same_on_set_aoi_id_r {A} (F : aoi_object -> A) a b v :
  same_on F a b -> same_on F a (set_aoi_id b v).
Proof. intros H x. apply H. Qed.

(** Peel the writes of an operation off its result, last write first. *)
Ltac same_on_tac :=
  repeat first
    [ apply same_on_refl
    | apply same_on_upd_r; [solve [auto] |]
    | apply same_on_set_aoi_list_r
    | apply same_on_set_aoi_elist_r
    | apply same_on_set_aoi_id_r
    | match goal with
      | |- same_on _ _ (match ?c with _ => _ end) => destruct c
      end ].

Lemma same_on_erase {A} (F : aoi_object -> A) i a x :
  link_blind i F -> same_on F a (_aoi_list_erase a i x).
Proof. intros [Hn Hp]. unfold _aoi_list_erase. cbv zeta. same_on_tac. Qed.

Lemma same_on_insert_after {A} (F : aoi_object -> A) i a x p :
  link_blind i F -> same_on F a (_aoi_list_insert_after a i x p).
Proof. intros [Hn Hp]. unfold _aoi_list_insert_after. cbv zeta. same_on_tac. Qed.

Lemma same_on_insert_before {A} (F : aoi_object -> A) i a x p :
  link_blind i F -> same_on F a (_aoi_list_insert_before a i x p).
Proof. intros [Hn Hp]. unfold _aoi_list_insert_before. cbv zeta. same_on_tac. Qed.

Lemma same_on_enter_link {A} (F : aoi_object -> A) i a x :
  link_blind i F -> same_on F a (_aoi_enter_link a i x).
Proof. intros [Hn Hp]. unfold _aoi_enter_link. cbv zeta. same_on_tac. Qed.

Lemma same_on_update_list_fwd {A} (F : aoi_object -> A) i fuel a x p a' :
  link_blind i F -> _aoi_update_list_fwd fuel a i x p = Some a' -> same_on F a a'.
Proof.
  intros HF. revert p. induction fuel as [|fuel IH]; intros p H; simpl in H; [discriminate|].
  destruct p as [pi|]; [|inversion H; apply same_on_refl].
  destruct (match next_of a i pi with Some nx => coord a i nx >? coord a i x | None => true end).
  - inversion H; subst. destruct (pi =? x); [apply same_on_refl|].
    eapply same_on_trans; [apply same_on_erase | apply same_on_insert_after]; exact HF.
  - eapply IH; exact H.
Qed.

Lemma same_on_update_list_bwd {A} (F : aoi_object -> A) i fuel a x p a' :
  link_blind i F -> _aoi_update_list_bwd fuel a i x p = Some a' -> same_on F a a'.
Proof.
  intros HF. revert p. induction fuel as [|fuel IH]; intros p H; simpl in H; [discriminate|].
  destruct p as [pi|]; [|inversion H; apply same_on_refl].
  destruct (match prev_of a i pi with Some pv => coord a i pv <? coord a i x | None => true end).
  - inversion H; subst. destruct (pi =? x); [apply same_on_refl|].
    eapply same_on_trans; [apply same_on_erase | apply same_on_insert_before]; exact HF.
  - eapply IH; exact H.
Qed.

Lemma same_on_update_list_axis {A} (F : aoi_object -> A) i a x di a' :
  link_blind i F -> _aoi_update_list_axis a x i di = Some a' -> same_on F a a'.
Proof.
  intros HF. unfold _aoi_update_list_axis.
  destruct (di >? 0); [apply same_on_update_list_fwd; exact HF|].
  destruct (di <? 0); [apply same_on_update_list_bwd; exact HF|].
  intros H; inversion H; apply same_on_refl.
Qed.

Lemma same_on_update_list {A} (F : aoi_object -> A) a x d a' :
  link_blind 0 F -> link_blind 1 F -> _aoi_update_list a x d = Some a' -> same_on F a a'.
Proof.
  intros H0 H1. unfold _aoi_update_list. intros H.
  destruct (_aoi_update_list_axis a x 0 (get2 0 d)) as [a1|] eqn:E; [|discriminate].
  change (_aoi_update_list_axis a1 x 1 (get2 1 d) = Some a') in H.
  apply (same_on_trans F a a1 a').
  - exact (same_on_update_list_axis F 0 a x _ a1 H0 E).
  - exact (same_on_update_list_axis F 1 a1 x _ a' H1 H).
Qed.

(** The views used below. *)
Lemma blind_id i : link_blind i obj_id.
Proof. split; reflexivity. Qed.
Lemma blind_type i : link_blind i obj_type.
Proof. split; reflexivity. Qed.
Lemma blind_p i : link_blind i obj_p.
Proof. split; reflexivity. Qed.
Lemma blind_o_list i : link_blind i obj_o_list.
Proof. split; reflexivity. Qed.
Lemma blind_n_list i : link_blind i obj_n_list.
Proof. split; reflexivity. Qed.
Lemma blind_n_tick i : link_blind i obj_n_tick.
Proof. split; reflexivity. Qed.
Lemma blind_p_tick i : link_blind i obj_p_tick.
Proof. split; reflexivity. Qed.
Lemma blind_dp i : link_blind i obj_dp.
Proof. split; reflexivity. Qed.
Lemma blind_speed i : link_blind i obj_speed.
Proof. split; reflexivity. Qed.
Lemma blind_prev_1_0 : link_blind 1 (fun o => get2 0 (obj_prev o)).
Proof. split; reflexivity. Qed.
Lemma blind_next_1_0 : link_blind 1 (fun o => get2 0 (obj_next o)).
Proof. split; reflexivity. Qed.
Lemma blind_prev_0_1 : link_blind 0 (fun o => get2 1 (obj_prev o)).
Proof. split; reflexivity. Qed.
Lemma blind_next_0_1 : link_blind 0 (fun o => get2 1 (obj_next o)).
Proof. split; reflexivity. Qed.

Create HintDb blind.
#[local] Hint Resolve blind_id blind_type blind_p blind_o_list blind_n_list
  blind_n_tick blind_p_tick blind_dp blind_speed
  blind_prev_1_0 blind_next_1_0 blind_prev_0_1 blind_next_0_1 : blind.

(** The counter and the event buffer are out of reach of the list code. *)
Lemma aoi_id_erase a i x : aoi_id (_aoi_list_erase a i x) = aoi_id a.
Proof.
  unfold _aoi_list_erase. simpl.
  destruct (prev_of a i x); simpl;
    match goal with |- context [next_of ?a1 i x] => destruct (next_of a1 i x) end;
    reflexivity.
Qed.

Lemma aoi_id_enter_link a i x : aoi_id (_aoi_enter_link a i x) = aoi_id a.
Proof.
  unfold _aoi_enter_link. simpl.
  match goal with |- context [get2 i (aoi_list ?a1)] => destruct (get2 i (aoi_list a1)) end;
    reflexivity.
Qed.

(** ** The pool *)

(** The object [_aoi_next_id] leaves in the slot it hands out. *)
Definition fresh_object (id : Z) : aoi_object :=
  set_id id (set_type AOI_OBJECT_RESERVE zero_object).

(** The allocation loop, as long as the counter stays within [int]: it
    either takes the first free slot met from the counter on, or finds all
    [n] slots tried in use and answers -1 with the counter moved on by [n]. *)
Lemma _aoi_next_id_loop_spec n a :
  0 <= aoi_id a -> aoi_id a + Z.of_nat n <= Int.INT_MAX ->
  (exists c, aoi_id a <= c < aoi_id a + Z.of_nat n /\
     (forall k, aoi_id a <= k < c ->
        obj_type (slot_get a (AOI_HASH_ID k)) ≠ AOI_OBJECT_INVALID) /\
     obj_type (slot_get a (AOI_HASH_ID c)) = AOI_OBJECT_INVALID /\
     _aoi_next_id_loop n a
       = (slot_set (set_aoi_id a (c + 1)) (AOI_HASH_ID c) (fresh_object c), c))
  \/ ((forall k, aoi_id a <= k < aoi_id a + Z.of_nat n ->
         obj_type (slot_get a (AOI_HASH_ID k)) ≠ AOI_OBJECT_INVALID) /\
      _aoi_next_id_loop n a = (set_aoi_id a (aoi_id a + Z.of_nat n), -1)).
Proof.
  revert a. induction n as [|n IH]; intros a Hpos Hmax.
  - right. split; [intros k Hk; lia|]. simpl. rewrite Z.add_0_r.
    destruct a; reflexivity.
  - cbn [_aoi_next_id_loop].
    assert (Hadd : Int.add (aoi_id a) 1 = aoi_id a + 1).
    { apply Int.wrap_id. unfold Int.in_range, Int.INT_MIN, Int.INT_MAX in *. lia. }
    destruct (Z.ltb_spec (aoi_id a) 0) as [?|_]; [lia|].
    rewrite Hadd.
    destruct (Z.eqb_spec
                (obj_type (slot_get (set_aoi_id a (aoi_id a + 1)) (AOI_HASH_ID (aoi_id a))))
                AOI_OBJECT_INVALID) as [Hfree|Hocc].
    + left. exists (aoi_id a). split; [lia|]. split; [intros k Hk; lia|].
      split; [exact Hfree | reflexivity].
    + rewrite slot_get_set_aoi_id in Hocc.
      destruct (IH (set_aoi_id a (aoi_id a + 1))) as [(c & Hc & Hbefore & Hc0 & Heq)|[Hall Heq]];
        simpl; try lia.
      * left. exists c. simpl in Hc. split; [lia|]. split; [|split].
        -- intros k Hk. destruct (decide (k = aoi_id a)) as [->|Hne]; [exact Hocc|].
           apply (Hbefore k). simpl. lia.
        -- exact Hc0.
        -- rewrite Heq. reflexivity.
      * right. split.
        -- intros k Hk. destruct (decide (k = aoi_id a)) as [->|Hne]; [exact Hocc|].
           apply (Hall k). simpl. lia.
        -- rewrite Heq. simpl. unfold set_aoi_id. simpl. do 2 f_equal. lia.
Qed.

(** No [ -1 ] ever names an entity: the failure value of [aoi_enter] is apart
    from every id that [_aoi_object] accepts. *)
Lemma _aoi_object_minus_one a : _aoi_object a (-1) = None.
Proof. reflexivity. Qed.

Lemma aoi_enter_fail a a1 ud :
  _aoi_next_id a = (a1, -1) -> aoi_enter a ud = (a1, -1).
Proof. intros H. unfold aoi_enter. rewrite H. reflexivity. Qed.

(** What [aoi_enter] does to the slot it was given. *)
Definition _aoi_enter_finish (a1 : aoi) (obj : Z) (ud : Z) : aoi :=
  let a2 := _aoi_enter_link a1 0 obj in
  let a3 := _aoi_enter_link a2 1 obj in
  let a4 := slot_upd a3 obj (set_n_list new_list) in
  let a5 := slot_upd a4 obj (set_o_list new_list) in
  slot_upd a5 obj (set_ud ud).

Lemma aoi_enter_ok a c ud :
  0 <= c ->
  _aoi_next_id a = (slot_set (set_aoi_id a (c + 1)) (AOI_HASH_ID c) (fresh_object c), c) ->
  aoi_enter a ud
    = (_aoi_enter_finish
         (slot_set (set_aoi_id a (c + 1)) (AOI_HASH_ID c) (fresh_object c))
         (AOI_HASH_ID c) ud, c).
Proof.
  intros Hc H. unfold aoi_enter. rewrite H.
  destruct (Z.eqb_spec c (-1)) as [?|_]; [lia|].
  assert (Ho : _aoi_object
                 (slot_set (set_aoi_id a (c + 1)) (AOI_HASH_ID c) (fresh_object c)) c
               = Some (AOI_HASH_ID c)).
  { apply _aoi_object_Some. rewrite slot_get_set_eq. repeat split; auto; try discriminate. }
  rewrite Ho. reflexivity.
Qed.

Lemma same_on_enter_finish {A} (F : aoi_object -> A) a1 obj ud :
  link_blind 0 F -> link_blind 1 F ->
  (forall v o, F (set_n_list v o) = F o) ->
  (forall v o, F (set_o_list v o) = F o) ->
  (forall v o, F (set_ud v o) = F o) ->
  same_on F a1 (_aoi_enter_finish a1 obj ud).
Proof.
  intros H0 H1 Hn Ho Hu. unfold _aoi_enter_finish. cbv zeta.
  do 3 (apply same_on_upd_r; [solve [auto]|]).
  eapply same_on_trans; apply same_on_enter_link; assumption.
Qed.

Lemma aoi_id_enter_finish a1 obj ud : aoi_id (_aoi_enter_finish a1 obj ud) = aoi_id a1.
Proof.
  change (aoi_id (_aoi_enter_link (_aoi_enter_link a1 0 obj) 1 obj) = aoi_id a1).
  rewrite !aoi_id_enter_link. reflexivity.
Qed.

(** [n] creations in a row; the payload of the [k]-th is [ud k]. *)
Fixpoint enters (n : nat) (ud : nat -> Z) (a : aoi) : aoi * list Z :=
  match n with
  | O => (a, [])
  | S n' =>
      let '(a1, ids) := enters n' ud a in
      let '(a2, id) := aoi_enter a1 (ud n') in
      (a2, ids ++ [id])
  end.

(** Slots [0 .. k-1] are in use and hold the ids [0 .. k-1]; the others are
    free; the counter is [k]. *)
Definition pool_prefix (k : Z) (a : aoi) : Prop :=
  aoi_id a = k /\
  (forall i, 0 <= i < k ->
     obj_type (slot_get a i) = AOI_OBJECT_RESERVE /\ obj_id (slot_get a i) = i) /\
  (forall i, ~ (0 <= i < k) -> obj_type (slot_get a i) = AOI_OBJECT_INVALID).

Lemma pool_prefix_enter k a ud :
  pool_prefix k a -> 0 <= k < AOI_MAX_AOI ->
  snd (aoi_enter a ud) = k /\ pool_prefix (k + 1) (fst (aoi_enter a ud)).
Proof.
  intros (Hid & Hused & Hfree) Hk. rewrite AOI_MAX_AOI_eq in Hk.
  assert (Hnext : _aoi_next_id a
                  = (slot_set (set_aoi_id a (k + 1)) (AOI_HASH_ID k) (fresh_object k), k)).
  { unfold _aoi_next_id.
    destruct (_aoi_next_id_loop_spec (Z.to_nat AOI_MAX_AOI) a)
      as [(c & Hc & Hbefore & Hc0 & Heq)|[Hall _]].
    - lia.
    - rewrite Hid, AOI_MAX_AOI_eq. unfold Int.INT_MAX. lia.
    - assert (c = k) as ->; [|exact Heq].
      destruct (decide (c = k)) as [|Hne]; [assumption|exfalso].
      apply (Hbefore k); [lia|]. rewrite AOI_HASH_ID_small by (rewrite AOI_MAX_AOI_eq; lia).
      apply Hfree. lia.
    - exfalso. apply (Hall k); [rewrite Hid, AOI_MAX_AOI_eq; lia|].
      rewrite AOI_HASH_ID_small by (rewrite AOI_MAX_AOI_eq; lia). apply Hfree. lia. }
  rewrite (aoi_enter_ok a k ud) by (lia || exact Hnext). simpl.
  split; [reflexivity|].
  rewrite AOI_HASH_ID_small by (rewrite AOI_MAX_AOI_eq; lia).
  set (a1 := slot_set (set_aoi_id a (k + 1)) k (fresh_object k)).
  assert (Hty : same_on obj_type a1 (_aoi_enter_finish a1 k ud))
    by (apply same_on_enter_finish; auto with blind).
  assert (Hoid : same_on obj_id a1 (_aoi_enter_finish a1 k ud))
    by (apply same_on_enter_finish; auto with blind).
  split; [rewrite aoi_id_enter_finish; reflexivity|]. split.
  - intros i Hi. rewrite Hty, Hoid. unfold a1. rewrite slot_get_set.
    destruct (decide (k = i)) as [->|Hne]; [split; reflexivity|].
    rewrite slot_get_set_aoi_id. apply Hused. lia.
  - intros i Hi. rewrite Hty. unfold a1. rewrite slot_get_set_ne by lia.
    rewrite slot_get_set_aoi_id. apply Hfree. lia.
Qed.

Lemma pool_prefix_init : pool_prefix 0 aoi_init.
Proof.
  split; [reflexivity|]. split; [intros i Hi; lia|]. intros i _. reflexivity.
Qed.

Lemma pool_prefix_enters n ud :
  Z.of_nat n <= AOI_MAX_AOI ->
  snd (enters n ud aoi_init) = seqZ 0 (Z.of_nat n) /\
  pool_prefix (Z.of_nat n) (fst (enters n ud aoi_init)).
Proof.
  induction n as [|n IH]; intros Hn.
  - split; [reflexivity | apply pool_prefix_init].
  - destruct IH as [Hids Hpre]; [lia|].
    cbn [enters]. destruct (enters n ud aoi_init) as [a1 ids]. simpl in Hids, Hpre.
    destruct (pool_prefix_enter (Z.of_nat n) a1 (ud n) Hpre) as [Hid Hpre']; [lia|].
    destruct (aoi_enter a1 (ud n)) as [a2 id]. simpl in Hid, Hpre' |- *.
    split.
    + rewrite Hids, Hid, seqZ_S. reflexivity.
    + rewrite Nat2Z.inj_succ. exact Hpre'.
Qed.

(** In a full pool whose counter is still far from [INT_MAX] the allocation
    loop finds nothing. *)
Lemma _aoi_next_id_full a :
  0 <= aoi_id a -> aoi_id a + AOI_MAX_AOI <= Int.INT_MAX ->
  (forall i, 0 <= i < AOI_MAX_AOI -> obj_type (slot_get a i) ≠ AOI_OBJECT_INVALID) ->
  _aoi_next_id a = (set_aoi_id a (aoi_id a + AOI_MAX_AOI), -1).
Proof.
  intros Hpos Hmax Hfull. unfold _aoi_next_id.
  assert (Hn : Z.of_nat (Z.to_nat AOI_MAX_AOI) = AOI_MAX_AOI)
    by (apply Z2Nat.id; rewrite AOI_MAX_AOI_eq; lia).
  destruct (_aoi_next_id_loop_spec (Z.to_nat AOI_MAX_AOI) a Hpos ltac:(rewrite Hn; exact Hmax))
    as [(c & Hc & _ & Hc0 & _)|[_ Heq]].
  - exfalso. apply (Hfull (AOI_HASH_ID c)); [apply AOI_HASH_ID_range; lia | exact Hc0].
  - rewrite Heq, Hn. reflexivity.
Qed.

(** With one free slot it finds an id. *)
Lemma _aoi_next_id_free a i :
  0 <= aoi_id a -> aoi_id a + AOI_MAX_AOI <= Int.INT_MAX ->
  0 <= i < AOI_MAX_AOI -> obj_type (slot_get a i) = AOI_OBJECT_INVALID ->
  exists c, aoi_id a <= c /\
    _aoi_next_id a = (slot_set (set_aoi_id a (c + 1)) (AOI_HASH_ID c) (fresh_object c), c).
Proof.
  intros Hpos Hmax Hi Hfree. unfold _aoi_next_id.
  assert (Hn : Z.of_nat (Z.to_nat AOI_MAX_AOI) = AOI_MAX_AOI)
    by (apply Z2Nat.id; rewrite AOI_MAX_AOI_eq; lia).
  destruct (_aoi_next_id_loop_spec (Z.to_nat AOI_MAX_AOI) a Hpos ltac:(rewrite Hn; exact Hmax))
    as [(c & Hc & _ & _ & Heq)|[Hall _]].
  - exists c. split; [lia | exact Heq].
  - exfalso. rewrite Hn in Hall. clear Hn.
    rewrite AOI_MAX_AOI_eq in *.
    (* the counter value in the window that hashes to slot [i] *)
    set (k := aoi_id a + (i - aoi_id a) mod 65536).
    pose proof (Z.mod_pos_bound (i - aoi_id a) 65536 ltac:(lia)) as Hm.
    apply (Hall k); [unfold k; lia|].
    assert (AOI_HASH_ID k = i) as ->; [|exact Hfree].
    unfold AOI_HASH_ID, Int.rem. rewrite AOI_MAX_AOI_eq.
    rewrite Z.rem_mod_nonneg by (unfold k; lia).
    unfold k. rewrite Zplus_mod_idemp_r.
    replace (aoi_id a + (i - aoi_id a)) with i by lia. apply Z.mod_small. lia.
Qed.

(** C5.  From a freshly initialised engine, [AOI_MAX_AOI] creations in a row
    succeed and hand out the ids 0 .. AOI_MAX_AOI-1; the next creation fails
    with -1, which names no entity; the live ids are then exactly
    0 .. AOI_MAX_AOI-1, and after any one of them is destroyed the next
    creation succeeds: it returns a non-negative id that names a live
    entity. *)
Theorem pool_exhaustion (ud : nat -> Z) (ud1 ud2 : Z) (id : Z) :
  0 <= id < AOI_MAX_AOI ->
  let full := enters (Z.to_nat AOI_MAX_AOI) ud aoi_init in
  let failed := aoi_enter (fst full) ud1 in
  let again := aoi_enter (aoi_leave (fst failed) id) ud2 in
  snd full = seqZ 0 AOI_MAX_AOI /\
  snd failed = -1 /\
  (forall a, _aoi_object a (snd failed) = None) /\
  (forall id', _aoi_object (fst failed) id' ≠ None <-> 0 <= id' < AOI_MAX_AOI) /\
  0 <= snd again /\
  _aoi_object (fst again) (snd again) ≠ None.
Proof.
  intros Hid. cbv zeta.
  destruct (pool_prefix_enters (Z.to_nat AOI_MAX_AOI) ud) as [Hids Hpre].
  { rewrite Z2Nat.id; [lia | rewrite AOI_MAX_AOI_eq; lia]. }
  rewrite Z2Nat.id in Hids, Hpre by (rewrite AOI_MAX_AOI_eq; lia).
  revert Hids Hpre. generalize (enters (Z.to_nat AOI_MAX_AOI) ud aoi_init).
  intros full Hids (Hcnt & Hused & Hfree).
  assert (Hnext : _aoi_next_id (fst full)
                  = (set_aoi_id (fst full) (aoi_id (fst full) + AOI_MAX_AOI), -1)).
  { apply _aoi_next_id_full.
    - rewrite Hcnt, AOI_MAX_AOI_eq. lia.
    - rewrite Hcnt, AOI_MAX_AOI_eq. unfold Int.INT_MAX. lia.
    - intros i Hi. destruct (Hused i Hi) as [-> _]. discriminate. }
  assert (Hfailed : aoi_enter (fst full) ud1
                    = (set_aoi_id (fst full) (aoi_id (fst full) + AOI_MAX_AOI), -1)).
  { apply aoi_enter_fail. exact Hnext. }
  rewrite Hfailed. clear Hfailed Hnext.
  change (fst (set_aoi_id (fst full) (aoi_id (fst full) + AOI_MAX_AOI), -1))
    with (set_aoi_id (fst full) (aoi_id (fst full) + AOI_MAX_AOI)).
  change (snd (set_aoi_id (fst full) (aoi_id (fst full) + AOI_MAX_AOI), -1)) with (-1).
  set (a2 := set_aoi_id (fst full) (aoi_id (fst full) + AOI_MAX_AOI)).
  assert (Hlive : forall id', _aoi_object a2 id' ≠ None <-> 0 <= id' < AOI_MAX_AOI).
  { intros id'. split.
    - intros Hne. destruct (_aoi_object a2 id') as [obj|] eqn:E; [|congruence].
      apply _aoi_object_Some in E as (Hpos & -> & Hoid & Hty).
      unfold a2 in Hoid, Hty. rewrite slot_get_set_aoi_id in Hoid, Hty.
      pose proof (AOI_HASH_ID_range id' Hpos) as Hr.
      destruct (Hused _ Hr) as [_ Hsame]. rewrite Hoid in Hsame. rewrite Hsame. exact Hr.
    - intros Hr. destruct (Hused _ Hr) as [Hty Hoid].
      assert (_aoi_object a2 id' = Some id') as ->; [|discriminate].
      apply _aoi_object_Some. unfold a2.
      rewrite slot_get_set_aoi_id, AOI_HASH_ID_small by exact Hr.
      rewrite Hty, Hoid. repeat split; auto; try lia; discriminate. }
  split; [exact Hids|]. split; [reflexivity|].
  split; [intros a; reflexivity|]. split; [exact Hlive|].
  (* the destroyed slot is free again *)
  assert (Hobj : _aoi_object a2 id = Some id).
  { destruct (_aoi_object a2 id) as [obj|] eqn:E.
    - apply _aoi_object_Some in E as (_ & -> & _). rewrite AOI_HASH_ID_small by exact Hid.
      reflexivity.
    - exfalso. apply (proj2 (Hlive id)); assumption. }
  set (a3 := aoi_leave a2 id).
  assert (Ha3 : a3 = slot_set (_aoi_list_erase (_aoi_list_erase a2 0 id) 1 id) id
                       (set_type AOI_OBJECT_INVALID zero_object)).
  { unfold a3, aoi_leave. rewrite Hobj. reflexivity. }
  assert (Hcnt3 : aoi_id a3 = 2 * AOI_MAX_AOI).
  { rewrite Ha3, aoi_id_slot_set, !aoi_id_erase. unfold a2.
    rewrite aoi_id_set_aoi_id. lia. }
  destruct (_aoi_next_id_free a3 id) as (c & Hc & Heq).
  - rewrite Hcnt3, AOI_MAX_AOI_eq. lia.
  - rewrite Hcnt3, AOI_MAX_AOI_eq. unfold Int.INT_MAX. lia.
  - exact Hid.
  - rewrite Ha3, slot_get_set_eq. reflexivity.
  - assert (Hc0 : 0 <= c) by (rewrite Hcnt3, AOI_MAX_AOI_eq in Hc; lia).
    rewrite (aoi_enter_ok a3 c ud2 Hc0 Heq).
    change (snd (?x, c)) with c. change (fst (?x, c)) with x.
    split; [exact Hc0|].
    set (a4 := slot_set (set_aoi_id a3 (c + 1)) (AOI_HASH_ID c) (fresh_object c)).
    assert (_aoi_object (_aoi_enter_finish a4 (AOI_HASH_ID c) ud2) c = Some (AOI_HASH_ID c))
      as ->; [|discriminate].
    apply _aoi_object_Some.
    rewrite (same_on_enter_finish obj_id a4) by auto with blind.
    rewrite (same_on_enter_finish obj_type a4) by auto with blind.
    unfold a4. rewrite slot_get_set_eq. repeat split; auto; discriminate.
Qed.

Lemma pool_exhaustion_witness :
  let full := enters (Z.to_nat AOI_MAX_AOI) (fun _ => 0) aoi_init in
  let failed := aoi_enter (fst full) 0 in
  let again := aoi_enter (aoi_leave (fst failed) 7) 0 in
  snd full = seqZ 0 AOI_MAX_AOI /\
  snd failed = -1 /\
  (forall a, _aoi_object a (snd failed) = None) /\
  (forall id', _aoi_object (fst failed) id' ≠ None <-> 0 <= id' < AOI_MAX_AOI) /\
  0 <= snd again /\
  _aoi_object (fst again) (snd again) ≠ None.
Proof.
  apply (pool_exhaustion (fun _ => 0) 0 0 7). rewrite AOI_MAX_AOI_eq. lia.
Defined.

(** ** Neighbour lists as sorted lists of ids *)

(** The ids a block holds: cells 2 .. length+1. *)
Definition elems (l : list Z) : list Z := take (Z.to_nat (rd l 0)) (drop 2 l).

(** [is_buf l E] : [l] is a well-formed block with ids [E]: the length cell
    counts [E], the capacity cell is positive and counts the cells after the
    header. *)
Definition is_buf (l : list Z) (E : list Z) : Prop :=
  exists cap rest,
    l = Z.of_nat (length E) :: cap :: E ++ rest /\
    Z.of_nat (length E + length rest) = cap /\ 1 <= cap.

(** [_insert_list] and [_find_list] on the ids alone. *)
Fixpoint ins_scan (id : Z) (E : list Z) : list Z :=
  match E with
  | [] => []
  | x :: E' =>
      if id <? x then id :: x :: E'
      else if id =? x then x :: E'
      else x :: ins_scan id E'
  end.

Definition ins (id : Z) (E : list Z) : list Z :=
  if (Z.of_nat (length E) =? 0) || (id >? default 0 (last E)) then E ++ [id]
  else ins_scan id E.

Definition find_abs (id : Z) (E : list Z) : Z :=
  if (Z.of_nat (length E) =? 0) || (id >? default 0 (last E)) then 0
  else if bool_decide (id ∈ E) then 1 else 0.

Lemma rd_app_r (A : list Z) x D : rd (A ++ x :: D) (Z.of_nat (length A)) = x.
Proof.
  unfold rd. destruct (Z.ltb_spec (Z.of_nat (length A)) 0); [lia|].
  rewrite Nat2Z.id, lookup_app_r, Nat.sub_diag by lia. reflexivity.
Qed.

Lemma wr_app_r (A : list Z) x D v :
  wr (A ++ x :: D) (Z.of_nat (length A)) v = A ++ v :: D.
Proof.
  unfold wr. destruct (Z.ltb_spec (Z.of_nat (length A)) 0); [lia|].
  rewrite Nat2Z.id, insert_app_r_alt, Nat.sub_diag by lia. reflexivity.
Qed.

Lemma rd_0 x (l : list Z) : rd (x :: l) 0 = x.
Proof. reflexivity. Qed.

Lemma wr_0 x (l : list Z) v : wr (x :: l) 0 v = v :: l.
Proof. reflexivity. Qed.

Lemma rd_at (A : list Z) x D (i : Z) :
  i = Z.of_nat (length A) -> rd (A ++ x :: D) i = x.
Proof. intros ->. apply rd_app_r. Qed.

Lemma wr_at (A : list Z) x D (i : Z) v :
  i = Z.of_nat (length A) -> wr (A ++ x :: D) i v = A ++ v :: D.
Proof. intros ->. apply wr_app_r. Qed.

(** The shifting loop moves the cells [B] one place to the right, over [c]. *)
Lemma _insert_shift_spec (B A : list Z) c D :
  _insert_shift (length B) (A ++ B ++ c :: D) (Z.of_nat (length A + length B) - 1)
  = A ++ match B with [] => c :: D | b0 :: _ => b0 :: B ++ D end.
Proof.
  revert c D. induction B as [|b B IH] using rev_ind; intros c D; [reflexivity|].
  rewrite length_app. simpl length. rewrite Nat.add_1_r. cbn [_insert_shift].
  replace (Z.of_nat (length A + S (length B)) - 1 + 1)
    with (Z.of_nat (length (A ++ B ++ [b]))) by (rewrite !length_app; simpl; lia).
  replace (Z.of_nat (length A + S (length B)) - 1)
    with (Z.of_nat (length (A ++ B))) by (rewrite !length_app; simpl; lia).
  replace (A ++ (B ++ [b]) ++ c :: D) with ((A ++ B ++ [b]) ++ c :: D)
    by (rewrite <- !app_assoc; reflexivity).
  rewrite wr_app_r.
  replace (rd ((A ++ B ++ [b]) ++ c :: D) (Z.of_nat (length (A ++ B)))) with b.
  2:{ replace ((A ++ B ++ [b]) ++ c :: D) with ((A ++ B) ++ b :: c :: D)
        by (rewrite <- !app_assoc; reflexivity).
      rewrite rd_app_r. reflexivity. }
  replace ((A ++ B ++ [b]) ++ b :: D) with (A ++ B ++ b :: b :: D)
    by (rewrite <- !app_assoc; reflexivity).
  replace (Z.of_nat (length (A ++ B)) - 1) with (Z.of_nat (length A + length B) - 1)
    by (rewrite length_app; lia).
  rewrite IH. f_equal. destruct B as [|b0 B]; simpl; [reflexivity|].
  rewrite <- !app_assoc. reflexivity.
Qed.

Lemma ins_scan_length id E :
  length (ins_scan id E) = length E \/ length (ins_scan id E) = S (length E).
Proof.
  induction E as [|x E IH]; simpl; [auto|].
  destruct (id <? x); simpl; [auto|]. destruct (id =? x); simpl; [auto|]. lia.
Qed.

Lemma ins_scan_same_length id E :
  length (ins_scan id E) = length E -> ins_scan id E = E.
Proof.
  induction E as [|x E IH]; simpl; [reflexivity|].
  destruct (id <? x); simpl; [lia|]. destruct (id =? x); simpl; [reflexivity|].
  intros H. f_equal. apply IH. lia.
Qed.

(** The scanning loop of [_insert_list] over the ids [E2] that are left,
    with the ids [E1] already passed and at least one spare cell [r]. *)
Lemma _insert_scan_spec id (E2 E1 : list Z) n cap r rest :
  n = Z.of_nat (length E1 + length E2) ->
  _insert_scan (length E2) (n :: cap :: E1 ++ E2 ++ r :: rest) n id
               (2 + Z.of_nat (length E1))
  = if decide (length (ins_scan id E2) = length E2)
    then n :: cap :: E1 ++ E2 ++ r :: rest
    else (n + 1) :: cap :: E1 ++ ins_scan id E2 ++ rest.
Proof.
  revert E1. induction E2 as [|x E2 IH]; intros E1 Hn.
  - simpl. reflexivity.
  - cbn [_insert_scan length ins_scan].
    assert (Hrd : rd (n :: cap :: E1 ++ (x :: E2) ++ r :: rest) (2 + Z.of_nat (length E1)) = x).
    { apply (rd_at (n :: cap :: E1) x (E2 ++ r :: rest)). simpl. lia. }
    rewrite Hrd.
    destruct (id <? x) eqn:Hlt.
    + rewrite decide_False by (simpl; lia).
      replace (Z.to_nat (n + 2 - (2 + Z.of_nat (length E1)))) with (length (x :: E2))
        by (simpl in *; lia).
      assert (Hshift : _insert_shift (length (x :: E2))
                         (n :: cap :: E1 ++ (x :: E2) ++ r :: rest) (n + 1)
                       = (n :: cap :: E1) ++ x :: (x :: E2) ++ rest).
      { replace (n + 1) with (Z.of_nat (length (n :: cap :: E1) + length (x :: E2)) - 1)
          by (simpl in *; lia).
        exact (_insert_shift_spec (x :: E2) (n :: cap :: E1) r rest). }
      rewrite Hshift.
      rewrite (wr_at (n :: cap :: E1) x ((x :: E2) ++ rest)) by (simpl; lia).
      reflexivity.
    + destruct (id =? x) eqn:Heq.
      * rewrite decide_True by reflexivity. reflexivity.
      * specialize (IH (E1 ++ [x])).
        replace (E1 ++ (x :: E2) ++ r :: rest) with ((E1 ++ [x]) ++ E2 ++ r :: rest)
          by (rewrite <- app_assoc; reflexivity).
        replace (2 + Z.of_nat (length E1) + 1) with (2 + Z.of_nat (length (E1 ++ [x])))
          by (rewrite length_app; simpl; lia).
        rewrite IH by (rewrite length_app; simpl in *; lia).
        simpl length. destruct (decide (length (ins_scan id E2) = length E2)) as [He|He].
        -- rewrite decide_True by lia. reflexivity.
        -- rewrite decide_False by lia. rewrite <- app_assoc. reflexivity.
Qed.

Lemma is_buf_rd0 l E : is_buf l E -> rd l 0 = Z.of_nat (length E).
Proof. intros (cap & rest & -> & _). reflexivity. Qed.

Lemma is_buf_elems l E : is_buf l E -> elems l = E.
Proof.
  intros (cap & rest & -> & _). unfold elems.
  change (rd (Z.of_nat (length E) :: cap :: E ++ rest) 0) with (Z.of_nat (length E)).
  change (drop 2 (Z.of_nat (length E) :: cap :: E ++ rest)) with (E ++ rest).
  rewrite Nat2Z.id. rewrite take_app_length. reflexivity.
Qed.

Lemma is_buf_new_list : is_buf new_list [].
Proof.
  exists AOI_DEF_AOI, (replicate (Z.to_nat AOI_DEF_AOI) 0).
  split; [reflexivity|]. split; [rewrite length_replicate; reflexivity | unfold AOI_DEF_AOI; lia].
Qed.

(** [cur_list[0] = 0] empties a block. *)
Lemma is_buf_reset l E : is_buf l E -> is_buf (wr l 0 0) [].
Proof.
  intros (cap & rest & -> & Hlen & Hcap).
  exists cap, (E ++ rest). split; [reflexivity|]. split; [|exact Hcap].
  rewrite length_app. simpl. lia.
Qed.

(** [_insert_list] keeps a block well formed and acts on its ids as [ins]. *)
Lemma _insert_list_spec l E id : is_buf l E -> is_buf (_insert_list l id) (ins id E).
Proof.
  intros (cap & rest & -> & Hlen & Hcap).
  unfold _insert_list.
  change (rd (Z.of_nat (length E) :: cap :: E ++ rest) 0) with (Z.of_nat (length E)).
  change (rd (Z.of_nat (length E) :: cap :: E ++ rest) 1) with cap.
  set (n := Z.of_nat (length E)).
  (* after the capacity check there is a spare cell *)
  assert (Hspare : exists cap1 r rest1,
    (if n >=? cap
     then wr (realloc (n :: cap :: E ++ rest) (cap * 2 + 2)) 1
             (rd (realloc (n :: cap :: E ++ rest) (cap * 2 + 2)) 1 * 2)
     else n :: cap :: E ++ rest) = n :: cap1 :: E ++ r :: rest1 /\
    Z.of_nat (length E + S (length rest1)) = cap1 /\ 1 <= cap1).
  { destruct (Z.geb_spec n cap) as [Hge|Hlt].
    - assert (rest = []) as -> by (destruct rest; [reflexivity | simpl in Hlen; lia]).
      rewrite app_nil_r in *. simpl in Hlen. rewrite Nat.add_0_r in Hlen.
      exists (cap * 2), 0, (replicate (Z.to_nat cap - 1) 0).
      unfold realloc.
      assert (Hres : resize (Z.to_nat (cap * 2 + 2)) 0 (n :: cap :: E)
                     = n :: cap :: E ++ 0 :: replicate (Z.to_nat cap - 1) 0).
      { rewrite resize_ge by (simpl; lia).
        change (n :: cap :: E) with ([n; cap] ++ E). rewrite <- !app_assoc. do 3 f_equal.
        simpl length.
        replace (Z.to_nat (cap * 2 + 2) - S (S (length E)))%nat with (S (Z.to_nat cap - 1))
          by lia.
        reflexivity. }
      rewrite Hres. split; [reflexivity|]. split; [|lia].
      rewrite length_replicate. lia.
    - destruct rest as [|r rest1]; [simpl in Hlen; lia|].
      exists cap, r, rest1. split; [reflexivity|]. split; [exact Hlen | exact Hcap]. }
  destruct Hspare as (cap1 & r & rest1 & -> & Hlen1 & Hcap1).
  assert (Hlast : rd (n :: cap1 :: E ++ r :: rest1) (n + 1) = default 0 (last E) \/ E = []).
  { destruct E as [|e E'] using rev_ind; [right; reflexivity|left].
    rewrite last_snoc. simpl.
    replace (n :: cap1 :: (E' ++ [e]) ++ r :: rest1) with ((n :: cap1 :: E') ++ e :: r :: rest1)
      by (simpl; rewrite <- app_assoc; reflexivity).
    apply rd_at. unfold n. rewrite length_app. simpl. lia. }
  unfold ins. fold n.
  assert (Hcond : (n =? 0) || (id >? rd (n :: cap1 :: E ++ r :: rest1) (n + 1))
                  = (n =? 0) || (id >? default 0 (last E))).
  { destruct Hlast as [-> | ->]; reflexivity. }
  rewrite Hcond.
  destruct ((n =? 0) || (id >? default 0 (last E))).
  - rewrite (wr_at (n :: cap1 :: E) r rest1) by (unfold n; simpl; lia).
    exists cap1, rest1. split; [|split; [|exact Hcap1]].
    + simpl. rewrite rd_0, wr_0, length_app, <- app_assoc. simpl. do 2 f_equal. unfold n. lia.
    + rewrite length_app. simpl. lia.
  - replace (Z.to_nat n) with (length E) by (unfold n; lia).
    assert (Hs : _insert_scan (length E) (n :: cap1 :: E ++ r :: rest1) n id 2
                 = if decide (length (ins_scan id E) = length E)
                   then n :: cap1 :: E ++ r :: rest1
                   else (n + 1) :: cap1 :: ins_scan id E ++ rest1)
      by exact (_insert_scan_spec id E [] n cap1 r rest1 eq_refl).
    rewrite Hs.
    destruct (decide (length (ins_scan id E) = length E)) as [He|He].
    + rewrite (ins_scan_same_length id E He).
      exists cap1, (r :: rest1). split; [reflexivity|]. split; [exact Hlen1 | exact Hcap1].
    + destruct (ins_scan_length id E) as [?|Hl]; [contradiction|].
      exists cap1, rest1. split; [|split; [|exact Hcap1]].
      * rewrite Hl. do 2 f_equal. unfold n. lia.
      * rewrite Hl. lia.
Qed.

Lemma _find_scan_spec id (E2 A rest : list Z) :
  _find_scan (length E2) (A ++ E2 ++ rest) id (Z.of_nat (length A))
  = if bool_decide (id ∈ E2) then 1 else 0.
Proof.
  revert A. induction E2 as [|x E2 IH]; intros A.
  - reflexivity.
  - cbn [_find_scan length]. simpl app. rewrite rd_app_r.
    destruct (Z.eqb_spec id x) as [->|Hne].
    + rewrite bool_decide_eq_true_2; [reflexivity | apply elem_of_cons; auto].
    + replace (A ++ x :: E2 ++ rest) with ((A ++ [x]) ++ E2 ++ rest)
        by (rewrite <- app_assoc; reflexivity).
      replace (Z.of_nat (length A) + 1) with (Z.of_nat (length (A ++ [x])))
        by (rewrite length_app; simpl; lia).
      rewrite IH. rewrite (bool_decide_ext (id ∈ x :: E2) (id ∈ E2)); [reflexivity|].
      rewrite elem_of_cons. tauto.
Qed.

Lemma _find_list_spec l E id : is_buf l E -> _find_list l id = find_abs id E.
Proof.
  intros (cap & rest & -> & Hlen & Hcap). unfold _find_list, find_abs.
  change (rd (Z.of_nat (length E) :: cap :: E ++ rest) 0) with (Z.of_nat (length E)).
  set (n := Z.of_nat (length E)).
  assert (Hlast : rd (n :: cap :: E ++ rest) (n + 1) = default 0 (last E) \/ E = []).
  { destruct E as [|e E'] using rev_ind; [right; reflexivity|left].
    rewrite last_snoc. simpl.
    replace (n :: cap :: (E' ++ [e]) ++ rest) with ((n :: cap :: E') ++ e :: rest)
      by (simpl; rewrite <- app_assoc; reflexivity).
    apply rd_at. unfold n. rewrite length_app. simpl. lia. }
  assert (Hcond : (n =? 0) || (id >? rd (n :: cap :: E ++ rest) (n + 1))
                  = (n =? 0) || (id >? default 0 (last E))).
  { destruct Hlast as [-> | ->]; reflexivity. }
  rewrite Hcond. destruct ((n =? 0) || (id >? default 0 (last E))); [reflexivity|].
  replace (Z.to_nat n) with (length E) by (unfold n; lia).
  apply (_find_scan_spec id E [n; cap] rest).
Qed.

(** Strictly increasing id lists. *)
Definition ssorted (E : list Z) : Prop := StronglySorted Z.lt E.

Lemma ssorted_nil : ssorted [].
Proof. constructor. Qed.

Lemma ssorted_last_max E y : ssorted E -> y ∈ E -> y <= default 0 (last E).
Proof.
  intros Hs. induction Hs as [|x E Hs IH Hall]; intros Hy; [inversion Hy|].
  apply elem_of_cons in Hy as [->|Hy].
  - destruct E as [|e E]; [simpl; lia|].
    rewrite last_cons_cons.
    assert (He : default 0 (last (e :: E)) ∈ e :: E).
    { destruct (last (e :: E)) as [z|] eqn:El.
      - simpl. apply last_Some_elem_of. exact El.
      - apply last_None in El. discriminate. }
    rewrite Forall_forall in Hall. specialize (Hall _ He). lia.
  - destruct E as [|e E]; [inversion Hy|]. rewrite last_cons_cons. apply IH. exact Hy.
Qed.

Lemma ssorted_snoc E id :
  ssorted E -> (forall y, y ∈ E -> y < id) -> ssorted (E ++ [id]).
Proof.
  intros Hs. induction Hs as [|x E Hs IH Hall]; intros Hlt; simpl.
  - constructor; [constructor | constructor].
  - constructor.
    + apply IH. intros y Hy. apply Hlt. apply elem_of_cons. auto.
    + apply Forall_app. split; [exact Hall|]. constructor; [|constructor].
      apply Hlt. apply elem_of_cons. auto.
Qed.

Lemma ins_scan_sorted id E :
  ssorted E -> ssorted (ins_scan id E) /\ (forall y, y ∈ ins_scan id E -> y = id \/ y ∈ E).
Proof.
  intros Hs. induction Hs as [|x E Hs IH Hall]; simpl.
  - split; [constructor | intros y Hy; inversion Hy].
  - destruct (Z.ltb_spec id x) as [Hlt|Hge].
    + split.
      * constructor; [constructor; assumption|].
        constructor; [exact Hlt|]. eapply Forall_impl; [exact Hall|]. simpl. intros; lia.
      * intros y Hy. apply elem_of_cons in Hy as [->|Hy]; auto.
    + destruct (Z.eqb_spec id x) as [->|Hne].
      * split; [constructor; assumption | auto].
      * destruct IH as [IH1 IH2]. split.
        -- constructor; [exact IH1|]. apply Forall_forall. intros y Hy.
           destruct (IH2 y Hy) as [->|Hy']; [lia|].
           rewrite Forall_forall in Hall. apply Hall. exact Hy'.
        -- intros y Hy. apply elem_of_cons in Hy as [->|Hy].
           ++ right. apply elem_of_cons. auto.
           ++ destruct (IH2 y Hy) as [->|Hy']; [auto|]. right. apply elem_of_cons. auto.
Qed.

Lemma ins_scan_elem id E :
  id <= default 0 (last E) -> E ≠ [] ->
  id ∈ ins_scan id E /\ (forall y, y ∈ E -> y ∈ ins_scan id E).
Proof.
  induction E as [|x E IH]; intros Hlast Hne; [congruence|]. simpl.
  destruct (Z.ltb_spec id x) as [Hlt|Hge].
  - split; [apply elem_of_cons; auto | intros y Hy; apply elem_of_cons; auto].
  - destruct (Z.eqb_spec id x) as [->|Hne'].
    + split; [apply elem_of_cons; auto | auto].
    + destruct E as [|e E]; [simpl in Hlast; lia|].
      rewrite last_cons_cons in Hlast. destruct IH as [IH1 IH2]; [exact Hlast | discriminate |].
      split; [apply elem_of_cons; auto|].
      intros y Hy. apply elem_of_cons in Hy as [->|Hy]; apply elem_of_cons; auto.
Qed.

(** On a sorted list [ins] is the sorted insertion without duplicates. *)
Lemma ins_sorted id E : ssorted E -> ssorted (ins id E).
Proof.
  intros Hs. unfold ins.
  destruct (Z.eqb_spec (Z.of_nat (length E)) 0) as [H0|H0]; simpl.
  - destruct E; [|simpl in H0; lia]. constructor; constructor.
  - destruct (Z.gtb_spec id (default 0 (last E))) as [Hgt|Hle].
    + apply ssorted_snoc; [exact Hs|]. intros y Hy.
      pose proof (ssorted_last_max E y Hs Hy). lia.
    + apply ins_scan_sorted. exact Hs.
Qed.

Lemma ins_elem id E y : ssorted E -> y ∈ ins id E <-> y = id \/ y ∈ E.
Proof.
  intros Hs. unfold ins.
  destruct (Z.eqb_spec (Z.of_nat (length E)) 0) as [H0|H0]; simpl.
  - rewrite elem_of_app, list_elem_of_singleton. tauto.
  - destruct (Z.gtb_spec id (default 0 (last E))) as [Hgt|Hle].
    + rewrite elem_of_app, list_elem_of_singleton. tauto.
    + assert (Hne : E ≠ []) by (destruct E; [simpl in H0; lia | discriminate]).
      destruct (ins_scan_elem id E Hle Hne) as [H1 H2].
      destruct (ins_scan_sorted id E Hs) as [_ H3].
      split; [apply H3|]. intros [->|Hy]; auto.
Qed.

Lemma find_abs_spec id E :
  ssorted E -> find_abs id E = if bool_decide (id ∈ E) then 1 else 0.
Proof.
  intros Hs. unfold find_abs.
  destruct (Z.eqb_spec (Z.of_nat (length E)) 0) as [H0|H0]; simpl.
  - destruct E; [|simpl in H0; lia]. reflexivity.
  - destruct (Z.gtb_spec id (default 0 (last E))) as [Hgt|Hle]; [|reflexivity].
    rewrite bool_decide_eq_false_2; [reflexivity|].
    intros Hin. pose proof (ssorted_last_max E id Hs Hin). lia.
Qed.

(** ** The axis lists as sequences of slots *)

Definition head_or (l : list Z) (d : ptr) : ptr :=
  match l with [] => d | x :: _ => Some x end.

Definition last_or (l : list Z) (d : ptr) : ptr :=
  match last l with Some x => Some x | None => d end.

(** [dseg pv nx pp l qn] : under the link maps [pv] and [nx], the slots [l]
    form a doubly linked segment entered from [pp] and left towards [qn]. *)
Fixpoint dseg (pv nx : Z -> ptr) (pp : ptr) (l : list Z) (qn : ptr) : Prop :=
  match l with
  | [] => True
  | x :: l' => pv x = pp /\ nx x = head_or l' qn /\ dseg pv nx (Some x) l' qn
  end.

(** [chain a i l] : the list of axis [i] is exactly the sequence [l]. *)
Definition chain (a : aoi) (i : Z) (l : list Z) : Prop :=
  get2 i (aoi_list a) = head_or l None /\
  dseg (prev_of a i) (next_of a i) None l None /\
  NoDup l.

Lemma head_or_app l1 l2 d : head_or (l1 ++ l2) d = head_or l1 (head_or l2 d).
Proof. destruct l1; reflexivity. Qed.

Lemma last_or_app l1 l2 d : last_or (l1 ++ l2) d = last_or l2 (last_or l1 d).
Proof.
  unfold last_or. destruct l2 as [|y l2] using rev_ind.
  - rewrite app_nil_r. reflexivity.
  - rewrite app_assoc, !last_snoc. reflexivity.
Qed.

Lemma last_or_cons x l d : last_or (x :: l) d = last_or l (Some x).
Proof. apply (last_or_app [x] l d). Qed.

Lemma last_or_snoc l y d : last_or (l ++ [y]) d = Some y.
Proof. unfold last_or. rewrite last_snoc. reflexivity. Qed.

Lemma last_or_elem l d y : last_or l d = Some y -> y ∈ l \/ (l = [] /\ d = Some y).
Proof.
  unfold last_or. destruct (last l) as [z|] eqn:E.
  - intros [= ->]. left. apply last_Some_elem_of. exact E.
  - intros ->. right. apply last_None in E. auto.
Qed.

Lemma head_or_elem l d y : head_or l d = Some y -> y ∈ l \/ (l = [] /\ d = Some y).
Proof.
  destruct l as [|x l]; simpl; [auto|]. intros [= ->]. left. apply elem_of_cons. auto.
Qed.

Lemma dseg_ext pv nx pv' nx' pp l qn :
  (forall z, z ∈ l -> pv' z = pv z /\ nx' z = nx z) ->
  dseg pv nx pp l qn -> dseg pv' nx' pp l qn.
Proof.
  revert pp. induction l as [|x l IH]; intros pp Hext H; simpl in *; [exact I|].
  destruct H as (Hp & Hn & H).
  destruct (Hext x) as [-> ->]; [apply elem_of_cons; auto|].
  repeat split; auto. apply IH; [|exact H].
  intros z Hz. apply Hext. apply elem_of_cons. auto.
Qed.

Lemma dseg_app pv nx pp l1 l2 qn :
  dseg pv nx pp (l1 ++ l2) qn <->
  dseg pv nx pp l1 (head_or l2 qn) /\ dseg pv nx (last_or l1 pp) l2 qn.
Proof.
  revert pp. induction l1 as [|x l1 IH]; intros pp; simpl.
  - unfold last_or. simpl. tauto.
  - rewrite IH, head_or_app, last_or_cons. tauto.
Qed.

(** Redirecting the way out of a segment: only the [next] link of its last
    slot changes. *)
Lemma dseg_set_qn pv nx pv' nx' pp l qn qn' :
  NoDup l -> dseg pv nx pp l qn ->
  (forall z, z ∈ l -> pv' z = pv z) ->
  (forall z, z ∈ l -> last l ≠ Some z -> nx' z = nx z) ->
  (forall y, last l = Some y -> nx' y = qn') ->
  dseg pv' nx' pp l qn'.
Proof.
  revert pp. induction l as [|x l IH]; intros pp Hnd H Hpv Hnx Hlast; simpl in *; [exact I|].
  destruct H as (Hp & Hn & H). apply NoDup_cons in Hnd as [Hx Hnd].
  split; [rewrite Hpv by (apply elem_of_cons; auto); exact Hp|].
  destruct l as [|e l].
  - split; [|exact I]. simpl. apply Hlast. reflexivity.
  - split.
    + rewrite Hnx; [exact Hn | apply elem_of_cons; auto |].
      rewrite last_cons_cons. intros Hl. apply last_Some_elem_of in Hl. contradiction.
    + apply IH; [exact Hnd | exact H | | |].
      * intros z Hz. apply Hpv. apply elem_of_cons. auto.
      * intros z Hz Hl. apply Hnx; [apply elem_of_cons; auto|].
        rewrite last_cons_cons. exact Hl.
      * intros y Hy. apply Hlast. rewrite last_cons_cons. exact Hy.
Qed.

(** Redirecting the way into a segment: only the [prev] link of its first
    slot changes. *)
Lemma dseg_set_pp pv nx pv' nx' pp pp' l qn :
  NoDup l -> dseg pv nx pp l qn ->
  (forall z, z ∈ l -> nx' z = nx z) ->
  (forall z, z ∈ l -> head l ≠ Some z -> pv' z = pv z) ->
  (forall y, head l = Some y -> pv' y = pp') ->
  dseg pv' nx' pp' l qn.
Proof.
  intros Hnd H Hnx Hpv Hhead. destruct l as [|x l]; simpl in *; [exact I|].
  destruct H as (Hp & Hn & H). apply NoDup_cons in Hnd as [Hx Hnd].
  split; [apply Hhead; reflexivity|].
  split; [rewrite Hnx by (apply elem_of_cons; auto); exact Hn|].
  eapply dseg_ext; [|exact H]. intros z Hz. split.
  - apply Hpv; [apply elem_of_cons; auto|]. intros [= ->]. contradiction.
  - apply Hnx. apply elem_of_cons. auto.
Qed.

(** The links of a slot inside a chain. *)
Lemma chain_links a i l1 x l2 :
  chain a i (l1 ++ x :: l2) ->
  prev_of a i x = last_or l1 None /\ next_of a i x = head_or l2 None.
Proof.
  intros (_ & H & _). apply dseg_app in H as [_ H]. simpl in H. tauto.
Qed.

(** ** Link maps after a write *)

Lemma get2_set2_eq {A} i (v : A) p : get2 i (set2 i v p) = v.
Proof. unfold get2, set2. destruct (i =? 0); reflexivity. Qed.

Lemma next_of_upd_next a y i v z :
  next_of (slot_upd a y (set_next i v)) i z = if decide (z = y) then v else next_of a i z.
Proof.
  unfold next_of. rewrite slot_get_upd.
  destruct (decide (y = z)), (decide (z = y)); try congruence.
  subst. simpl. apply get2_set2_eq.
Qed.

Lemma prev_of_upd_next a y i v z :
  prev_of (slot_upd a y (set_next i v)) i z = prev_of a i z.
Proof.
  unfold prev_of. rewrite slot_get_upd. destruct (decide (y = z)); subst; reflexivity.
Qed.

Lemma prev_of_upd_prev a y i v z :
  prev_of (slot_upd a y (set_prev i v)) i z = if decide (z = y) then v else prev_of a i z.
Proof.
  unfold prev_of. rewrite slot_get_upd.
  destruct (decide (y = z)), (decide (z = y)); try congruence.
  subst. simpl. apply get2_set2_eq.
Qed.

Lemma next_of_upd_prev a y i v z :
  next_of (slot_upd a y (set_prev i v)) i z = next_of a i z.
Proof.
  unfold next_of. rewrite slot_get_upd. destruct (decide (y = z)); subst; reflexivity.
Qed.

Lemma next_of_set_aoi_list a j v i z : next_of (set_aoi_list a j v) i z = next_of a i z.
Proof. reflexivity. Qed.

Lemma prev_of_set_aoi_list a j v i z : prev_of (set_aoi_list a j v) i z = prev_of a i z.
Proof. reflexivity. Qed.

Lemma head_upd a y f i : get2 i (aoi_list (slot_upd a y f)) = get2 i (aoi_list a).
Proof. reflexivity. Qed.

Lemma head_set_aoi_list a i v : get2 i (aoi_list (set_aoi_list a i v)) = v.
Proof. apply get2_set2_eq. Qed.

Create Rewrite HintDb links.
#[local] Hint Rewrite next_of_upd_next prev_of_upd_next prev_of_upd_prev next_of_upd_prev
  next_of_set_aoi_list prev_of_set_aoi_list head_upd head_set_aoi_list : links.

(** The link maps after [_aoi_list_erase], for a slot that is not linked to
    itself. *)
Lemma erase_view a i x :
  prev_of a i x ≠ Some x -> next_of a i x ≠ Some x ->
  get2 i (aoi_list (_aoi_list_erase a i x))
    = match prev_of a i x with
      | Some _ => get2 i (aoi_list a)
      | None => next_of a i x
      end /\
  (forall z, next_of (_aoi_list_erase a i x) i z
             = if decide (z = x) then None
               else if decide (prev_of a i x = Some z) then next_of a i x
               else next_of a i z) /\
  (forall z, prev_of (_aoi_list_erase a i x) i z
             = if decide (z = x) then None
               else if decide (next_of a i x = Some z) then prev_of a i x
               else prev_of a i z).
Proof.
  intros Hp Hn. unfold _aoi_list_erase. cbv zeta.
  destruct (prev_of a i x) as [pv|] eqn:Ep; destruct (next_of a i x) as [nx|] eqn:En.
  - assert (En' : next_of (slot_upd a pv (set_next i (Some nx))) i x = Some nx).
    { rewrite next_of_upd_next, decide_False by congruence. exact En. }
    rewrite En'. autorewrite with links. rewrite Ep.
    split; [reflexivity|]. split; intros z; autorewrite with links;
      repeat case_decide; subst; try congruence.
  - assert (En' : next_of (slot_upd a pv (set_next i None)) i x = None).
    { rewrite next_of_upd_next, decide_False by congruence. exact En. }
    rewrite En'. autorewrite with links.
    split; [reflexivity|]. split; intros z; autorewrite with links;
      repeat case_decide; subst; try congruence.
  - change (next_of (set_aoi_list a i (Some nx)) i x) with (next_of a i x). rewrite En.
    autorewrite with links. rewrite Ep.
    split; [reflexivity|]. split; intros z; autorewrite with links;
      repeat case_decide; subst; try congruence.
  - change (next_of (set_aoi_list a i None) i x) with (next_of a i x). rewrite En.
    autorewrite with links.
    split; [reflexivity|]. split; intros z; autorewrite with links;
      repeat case_decide; subst; try congruence.
Qed.

Lemma insert_after_view a i x p :
  x ≠ p -> next_of a i p ≠ Some x ->
  get2 i (aoi_list (_aoi_list_insert_after a i x p)) = get2 i (aoi_list a) /\
  (forall z, next_of (_aoi_list_insert_after a i x p) i z
             = if decide (z = p) then Some x
               else if decide (z = x) then next_of a i p
               else next_of a i z) /\
  (forall z, prev_of (_aoi_list_insert_after a i x p) i z
             = if decide (next_of a i p = Some z) then Some x
               else if decide (z = x) then Some p
               else prev_of a i z).
Proof.
  intros Hxp Hn. unfold _aoi_list_insert_after. cbv zeta.
  destruct (Z.eqb_spec x p) as [?|_]; [contradiction|].
  assert (En : next_of (slot_upd (slot_upd a x (set_next i (next_of a i p))) x
                          (set_prev i (Some p))) i p = next_of a i p).
  { autorewrite with links. rewrite decide_False by congruence. reflexivity. }
  rewrite En. destruct (next_of a i p) as [nx|] eqn:Enp.
  - split; [reflexivity|]. split; intros z; autorewrite with links;
      repeat case_decide; subst; try congruence.
  - split; [reflexivity|]. split; intros z; autorewrite with links;
      repeat case_decide; subst; try congruence.
Qed.

Lemma insert_before_view a i x p :
  x ≠ p -> prev_of a i p ≠ Some x ->
  get2 i (aoi_list (_aoi_list_insert_before a i x p))
    = match prev_of a i p with
      | Some _ => get2 i (aoi_list a)
      | None => Some x
      end /\
  (forall z, next_of (_aoi_list_insert_before a i x p) i z
             = if decide (prev_of a i p = Some z) then Some x
               else if decide (z = x) then Some p
               else next_of a i z) /\
  (forall z, prev_of (_aoi_list_insert_before a i x p) i z
             = if decide (z = p) then Some x
               else if decide (z = x) then prev_of a i p
               else prev_of a i z).
Proof.
  intros Hxp Hn. unfold _aoi_list_insert_before. cbv zeta.
  destruct (Z.eqb_spec x p) as [?|_]; [contradiction|].
  assert (E1 : prev_of (slot_upd a x (set_next i (Some p))) i p = prev_of a i p).
  { autorewrite with links. reflexivity. }
  rewrite E1.
  assert (E2 : prev_of (slot_upd (slot_upd a x (set_next i (Some p))) x
                          (set_prev i (prev_of a i p))) i p = prev_of a i p).
  { autorewrite with links. rewrite decide_False by congruence. reflexivity. }
  rewrite E2. destruct (prev_of a i p) as [pv|] eqn:Epp.
  - split; [reflexivity|]. split; intros z; autorewrite with links;
      repeat case_decide; subst; try congruence.
  - split; [autorewrite with links; reflexivity|].
    split; intros z; autorewrite with links;
      repeat case_decide; subst; try congruence.
Qed.

Lemma enter_link_view a i x :
  get2 i (aoi_list a) ≠ Some x ->
  get2 i (aoi_list (_aoi_enter_link a i x)) = Some x /\
  (forall z, next_of (_aoi_enter_link a i x) i z
             = if decide (z = x) then get2 i (aoi_list a) else next_of a i z) /\
  (forall z, prev_of (_aoi_enter_link a i x) i z
             = if decide (get2 i (aoi_list a) = Some z) then Some x else prev_of a i z).
Proof.
  intros Hh. unfold _aoi_enter_link. cbv zeta. rewrite head_upd.
  destruct (get2 i (aoi_list a)) as [h|] eqn:Eh.
  - split; [autorewrite with links; reflexivity|].
    split; intros z; autorewrite with links;
      repeat case_decide; subst; try congruence.
  - split; [autorewrite with links; reflexivity|].
    split; intros z; autorewrite with links;
      repeat case_decide; subst; try congruence.
Qed.

(** ** List surgery on chains *)

Lemma NoDup_mid (l1 : list Z) x l2 :
  NoDup (l1 ++ x :: l2) ->
  NoDup l1 /\ NoDup l2 /\ (x ∉ l1) /\ (x ∉ l2) /\ (forall z, z ∈ l1 -> z ∉ l2).
Proof.
  intros H. apply NoDup_app in H as (H1 & H12 & H2).
  apply NoDup_cons in H2 as [Hx H2].
  repeat split; auto.
  - intros Hin. apply (H12 x Hin). apply elem_of_cons. auto.
  - intros z Hz Hz2. apply (H12 z Hz). apply elem_of_cons. auto.
Qed.

Lemma last_or_None_Some l z : last_or l None = Some z <-> last l = Some z.
Proof. unfold last_or. destruct (last l); split; congruence. Qed.

Lemma head_or_None_Some l z : head_or l None = Some z <-> head l = Some z.
Proof. destruct l; simpl; split; congruence. Qed.

Lemma head_elem (l : list Z) z : head l = Some z -> z ∈ l.
Proof. destruct l; simpl; [discriminate|]. intros [= ->]. apply elem_of_cons. auto. Qed.

Lemma erase_chain a i l1 x l2 :
  chain a i (l1 ++ x :: l2) ->
  chain (_aoi_list_erase a i x) i (l1 ++ l2) /\
  prev_of (_aoi_list_erase a i x) i x = None /\
  next_of (_aoi_list_erase a i x) i x = None.
Proof.
  intros Hc. pose proof (chain_links _ _ _ _ _ Hc) as [Hpx Hnx].
  destruct Hc as (Hh & Hd & Hnd).
  pose proof (NoDup_mid _ _ _ Hnd) as (Hnd1 & Hnd2 & Hx1 & Hx2 & H12).
  apply dseg_app in Hd as [Hd1 Hd2]. simpl in Hd1, Hd2. destruct Hd2 as (_ & _ & Hd2).
  assert (Hp : prev_of a i x ≠ Some x).
  { rewrite Hpx. intros E. apply last_or_None_Some, last_Some_elem_of in E. contradiction. }
  assert (Hn : next_of a i x ≠ Some x).
  { rewrite Hnx. intros E. apply head_or_None_Some, head_elem in E. contradiction. }
  destruct (erase_view a i x Hp Hn) as (Hh' & Hnx' & Hpv').
  split; [|split].
  - split; [|split].
    + rewrite Hh'. destruct l1 as [|e l1].
      * rewrite Hpx. cbn. exact Hnx.
      * rewrite Hpx, last_or_cons. unfold last_or.
        destruct (last l1); rewrite Hh; reflexivity.
    + apply dseg_app. split.
      * eapply (dseg_set_qn _ _ _ _ _ _ _ _ Hnd1 Hd1).
        -- intros z Hz. rewrite Hpv', decide_False by congruence.
           rewrite decide_False; [reflexivity|].
           rewrite Hnx. intros E. apply head_or_None_Some, head_elem in E.
           exact (H12 z Hz E).
        -- intros z Hz Hl. rewrite Hnx', decide_False by congruence.
           rewrite decide_False; [reflexivity|].
           rewrite Hpx. intros E. apply last_or_None_Some in E. contradiction.
        -- intros y Hy. rewrite Hnx'.
           rewrite decide_False by (intros ->; apply last_Some_elem_of in Hy; contradiction).
           rewrite decide_True; [exact Hnx|].
           rewrite Hpx. apply last_or_None_Some. exact Hy.
      * eapply (dseg_set_pp _ _ _ _ _ _ _ _ Hnd2 Hd2).
        -- intros z Hz. rewrite Hnx', decide_False by congruence.
           rewrite decide_False; [reflexivity|].
           rewrite Hpx. intros E. apply last_or_None_Some, last_Some_elem_of in E.
           exact (H12 z E Hz).
        -- intros z Hz Hl. rewrite Hpv', decide_False by congruence.
           rewrite decide_False; [reflexivity|].
           rewrite Hnx. intros E. apply head_or_None_Some in E. contradiction.
        -- intros y Hy. rewrite Hpv'.
           rewrite decide_False by (intros ->; apply head_elem in Hy; contradiction).
           rewrite decide_True; [exact Hpx|].
           rewrite Hnx. apply head_or_None_Some. exact Hy.
    + apply NoDup_app. repeat split; auto.
  - rewrite Hpv', decide_True by reflexivity. reflexivity.
  - rewrite Hnx', decide_True by reflexivity. reflexivity.
Qed.

Lemma insert_after_chain a i l1 p l2 x :
  chain a i (l1 ++ p :: l2) -> x ∉ l1 ++ p :: l2 ->
  chain (_aoi_list_insert_after a i x p) i (l1 ++ p :: x :: l2).
Proof.
  intros Hc Hx. pose proof (chain_links _ _ _ _ _ Hc) as [Hpp Hnp].
  destruct Hc as (Hh & Hd & Hnd).
  pose proof (NoDup_mid _ _ _ Hnd) as (Hnd1 & Hnd2 & Hp1 & Hp2 & H12).
  apply dseg_app in Hd as [Hd1 Hd2]. simpl in Hd1, Hd2. destruct Hd2 as (_ & _ & Hd2).
  assert (Hx1 : x ∉ l1) by (intros E; apply Hx, elem_of_app; auto).
  assert (Hxp : x ≠ p) by (intros ->; apply Hx, elem_of_app; right; apply elem_of_cons; auto).
  assert (Hx2 : x ∉ l2)
    by (intros E; apply Hx, elem_of_app; right; apply elem_of_cons; auto).
  assert (Hn : next_of a i p ≠ Some x).
  { rewrite Hnp. intros E. apply head_or_None_Some, head_elem in E. contradiction. }
  destruct (insert_after_view a i x p Hxp Hn) as (Hh' & Hnx' & Hpv').
  split; [|split].
  - rewrite Hh', Hh, !head_or_app. reflexivity.
  - apply dseg_app. split.
    + simpl. eapply dseg_ext; [|exact Hd1]. intros z Hz. split.
      * rewrite Hpv'. rewrite decide_False.
        -- rewrite decide_False by congruence. reflexivity.
        -- rewrite Hnp. intros E. apply head_or_None_Some, head_elem in E.
           exact (H12 z Hz E).
      * rewrite Hnx'. rewrite !decide_False by congruence. reflexivity.
    + simpl. split; [|split; [|split; [|split]]].
      * rewrite Hpv'. rewrite decide_False.
        -- rewrite decide_False by congruence. exact Hpp.
        -- rewrite Hnp. intros E. apply head_or_None_Some, head_elem in E. contradiction.
      * rewrite Hnx', decide_True by reflexivity. reflexivity.
      * rewrite Hpv'. rewrite decide_False.
        -- rewrite decide_True by reflexivity. reflexivity.
        -- exact Hn.
      * rewrite Hnx', decide_False, decide_True by congruence. exact Hnp.
      * eapply (dseg_set_pp _ _ _ _ _ _ _ _ Hnd2 Hd2).
        -- intros z Hz. rewrite Hnx', !decide_False by congruence. reflexivity.
        -- intros z Hz Hl. rewrite Hpv'. rewrite decide_False.
           ++ rewrite decide_False by congruence. reflexivity.
           ++ rewrite Hnp. intros E. apply head_or_None_Some in E. contradiction.
        -- intros y Hy. rewrite Hpv', decide_True; [reflexivity|].
           rewrite Hnp. apply head_or_None_Some. exact Hy.
  - apply NoDup_app. split; [exact Hnd1|]. split.
    + intros z Hz E. apply elem_of_cons in E as [->|E]; [contradiction|].
      apply elem_of_cons in E as [->|E]; [contradiction|]. exact (H12 z Hz E).
    + apply NoDup_cons. split.
      * intros E. apply elem_of_cons in E as [->|E]; [congruence | contradiction].
      * apply NoDup_cons. auto.
Qed.

Lemma insert_before_chain a i l1 p l2 x :
  chain a i (l1 ++ p :: l2) -> x ∉ l1 ++ p :: l2 ->
  chain (_aoi_list_insert_before a i x p) i (l1 ++ x :: p :: l2).
Proof.
  intros Hc Hx. pose proof (chain_links _ _ _ _ _ Hc) as [Hpp Hnp].
  destruct Hc as (Hh & Hd & Hnd).
  pose proof (NoDup_mid _ _ _ Hnd) as (Hnd1 & Hnd2 & Hp1 & Hp2 & H12).
  apply dseg_app in Hd as [Hd1 Hd2]. simpl in Hd1, Hd2. destruct Hd2 as (_ & _ & Hd2).
  assert (Hx1 : x ∉ l1) by (intros E; apply Hx, elem_of_app; auto).
  assert (Hxp : x ≠ p) by (intros ->; apply Hx, elem_of_app; right; apply elem_of_cons; auto).
  assert (Hx2 : x ∉ l2)
    by (intros E; apply Hx, elem_of_app; right; apply elem_of_cons; auto).
  assert (Hn : prev_of a i p ≠ Some x).
  { rewrite Hpp. intros E. apply last_or_None_Some, last_Some_elem_of in E. contradiction. }
  destruct (insert_before_view a i x p Hxp Hn) as (Hh' & Hnx' & Hpv').
  split; [|split].
  - rewrite Hh'. destruct l1 as [|e l1].
    + rewrite Hpp. reflexivity.
    + rewrite Hpp, last_or_cons. unfold last_or.
      destruct (last l1); rewrite Hh; reflexivity.
  - apply dseg_app. split.
    + simpl. eapply (dseg_set_qn _ _ _ _ _ _ _ _ Hnd1 Hd1).
      * intros z Hz. rewrite Hpv', !decide_False by congruence. reflexivity.
      * intros z Hz Hl. rewrite Hnx'. rewrite decide_False.
        -- rewrite decide_False by congruence. reflexivity.
        -- rewrite Hpp. intros E. apply last_or_None_Some in E. contradiction.
      * intros y Hy. rewrite Hnx', decide_True; [reflexivity|].
        rewrite Hpp. apply last_or_None_Some. exact Hy.
    + simpl. split; [|split; [|split; [|split]]].
      * rewrite Hpv', decide_False, decide_True by congruence. exact Hpp.
      * rewrite Hnx'. rewrite decide_False by exact Hn.
        rewrite decide_True by reflexivity. reflexivity.
      * rewrite Hpv', decide_True by reflexivity. reflexivity.
      * rewrite Hnx'. rewrite decide_False.
        -- rewrite decide_False by congruence. exact Hnp.
        -- rewrite Hpp. intros E. apply last_or_None_Some, last_Some_elem_of in E.
           contradiction.
      * eapply dseg_ext; [|exact Hd2]. intros z Hz. split.
        -- rewrite Hpv', !decide_False by congruence. reflexivity.
        -- rewrite Hnx'. rewrite decide_False.
           ++ rewrite decide_False by congruence. reflexivity.
           ++ rewrite Hpp. intros E. apply last_or_None_Some, last_Some_elem_of in E.
              exact (H12 z E Hz).
  - apply NoDup_app. split; [exact Hnd1|]. split.
    + intros z Hz E. apply elem_of_cons in E as [->|E]; [contradiction|].
      apply elem_of_cons in E as [->|E]; [contradiction|]. exact (H12 z Hz E).
    + apply NoDup_cons. split.
      * intros E. apply elem_of_cons in E as [->|E]; [congruence | contradiction].
      * apply NoDup_cons. auto.
Qed.

Lemma enter_link_chain a i l x :
  chain a i l -> x ∉ l -> prev_of a i x = None ->
  chain (_aoi_enter_link a i x) i (x :: l).
Proof.
  intros (Hh & Hd & Hnd) Hx Hpx.
  assert (Hhx : get2 i (aoi_list a) ≠ Some x).
  { rewrite Hh. intros E. apply head_or_None_Some, head_elem in E. contradiction. }
  destruct (enter_link_view a i x Hhx) as (Hh' & Hnx' & Hpv').
  split; [exact Hh'|]. split; [|apply NoDup_cons; auto].
  simpl. split; [|split].
  - rewrite Hpv'. rewrite decide_False by exact Hhx. exact Hpx.
  - rewrite Hnx', decide_True by reflexivity. exact Hh.
  - eapply (dseg_set_pp _ _ _ _ _ _ _ _ Hnd Hd).
    + intros z Hz. rewrite Hnx', decide_False by congruence. reflexivity.
    + intros z Hz Hl. rewrite Hpv'. rewrite decide_False; [reflexivity|].
      rewrite Hh. intros E. apply head_or_None_Some in E. contradiction.
    + intros y Hy. rewrite Hpv', decide_True; [reflexivity|].
      rewrite Hh. apply head_or_None_Some. exact Hy.
Qed.

(** ** The re-sorting walks on a chain *)

Lemma chain_next_last a i l1 x vis rest p :
  chain a i (l1 ++ x :: vis ++ rest) -> last_or vis (Some x) = Some p ->
  next_of a i p = head_or rest None.
Proof.
  intros Hc Hp. destruct vis as [|q vis _] using rev_ind.
  - injection Hp as <-. exact (proj2 (chain_links _ _ _ _ _ Hc)).
  - rewrite last_or_snoc in Hp. injection Hp as <-.
    replace (l1 ++ x :: (vis ++ [q]) ++ rest) with ((l1 ++ x :: vis) ++ q :: rest) in Hc
      by (rewrite <- !app_assoc; reflexivity).
    exact (proj2 (chain_links _ _ _ _ _ Hc)).
Qed.

Lemma chain_prev_head a i rest vis x l2 p :
  chain a i (rest ++ vis ++ x :: l2) -> head_or vis (Some x) = Some p ->
  prev_of a i p = last_or rest None.
Proof.
  intros Hc Hp. destruct vis as [|q vis].
  - injection Hp as <-. exact (proj1 (chain_links _ _ _ _ _ Hc)).
  - injection Hp as <-. exact (proj1 (chain_links _ _ _ _ _ Hc)).
Qed.

(** What the forward walk does when it stops at [p], the last of the slots
    [vis] it has passed: [obj] is moved behind them. *)
Lemma fwd_stop a i l1 x vis dw p :
  chain a i (l1 ++ x :: vis ++ dw) -> last_or vis (Some x) = Some p ->
  chain (if p =? x then a
         else _aoi_list_insert_after (_aoi_list_erase a i x) i x p)
        i (l1 ++ vis ++ x :: dw).
Proof.
  intros Hc Hp. destruct vis as [|q vis _] using rev_ind.
  - injection Hp as <-. rewrite Z.eqb_refl. exact Hc.
  - rewrite last_or_snoc in Hp. injection Hp as <-.
    pose proof Hc as (_ & _ & Hnd).
    apply NoDup_mid in Hnd as (_ & Hnd2 & Hx1 & Hx2 & _).
    assert (Hqx : q ≠ x).
    { intros ->. apply Hx2. rewrite !elem_of_app, list_elem_of_singleton. auto. }
    destruct (Z.eqb_spec q x) as [?|_]; [contradiction|].
    destruct (erase_chain a i l1 x ((vis ++ [q]) ++ dw) Hc) as (Hc' & _ & _).
    replace (l1 ++ (vis ++ [q]) ++ dw) with ((l1 ++ vis) ++ q :: dw) in Hc'
      by (rewrite <- !app_assoc; reflexivity).
    replace (l1 ++ (vis ++ [q]) ++ x :: dw) with ((l1 ++ vis) ++ q :: x :: dw)
      by (rewrite <- !app_assoc; reflexivity).
    apply insert_after_chain; [exact Hc'|].
    rewrite <- app_assoc. intros E. apply elem_of_app in E as [E|E]; [contradiction|].
    apply Hx2. rewrite <- app_assoc. exact E.
Qed.

Lemma bwd_stop a i up vis x l2 p :
  chain a i (up ++ vis ++ x :: l2) -> head_or vis (Some x) = Some p ->
  chain (if p =? x then a
         else _aoi_list_insert_before (_aoi_list_erase a i x) i x p)
        i (up ++ x :: vis ++ l2).
Proof.
  intros Hc Hp. destruct vis as [|q vis].
  - injection Hp as <-. rewrite Z.eqb_refl. exact Hc.
  - injection Hp as <-.
    pose proof Hc as (_ & _ & Hnd).
    replace (up ++ (q :: vis) ++ x :: l2) with ((up ++ q :: vis) ++ x :: l2) in Hnd, Hc
      by (rewrite <- !app_assoc; reflexivity).
    apply NoDup_mid in Hnd as (_ & Hnd2 & Hx1 & Hx2 & _).
    assert (Hqx : q ≠ x).
    { intros ->. apply Hx1. rewrite elem_of_app, elem_of_cons. auto. }
    destruct (Z.eqb_spec q x) as [?|_]; [contradiction|].
    destruct (erase_chain a i (up ++ q :: vis) x l2 Hc) as (Hc' & _ & _).
    replace ((up ++ q :: vis) ++ l2) with (up ++ q :: (vis ++ l2)) in Hc'
      by (rewrite <- !app_assoc; reflexivity).
    apply (insert_before_chain _ i up q (vis ++ l2) x Hc').
    intros E. apply elem_of_app in E as [E|E].
    + apply Hx1. apply elem_of_app. auto.
    + apply elem_of_cons in E as [->|E]; [congruence|].
      apply elem_of_app in E as [E|E]; [|contradiction].
      apply Hx1. rewrite elem_of_app, elem_of_cons. auto.
Qed.

(** The forward walk: it passes the slots [tw] whose coordinate does not
    exceed that of [obj], stops before the first larger one, and leaves the
    chain with [obj] between the two. *)
Lemma fwd_walk a i l1 x rest :
  forall vis p fuel,
    chain a i (l1 ++ x :: vis ++ rest) -> last_or vis (Some x) = Some p ->
    (length rest < fuel)%nat ->
    exists tw dw a',
      rest = tw ++ dw /\
      (forall n, n ∈ tw -> coord a i n <= coord a i x) /\
      (forall n, head dw = Some n -> coord a i x < coord a i n) /\
      _aoi_update_list_fwd fuel a i x (Some p) = Some a' /\
      chain a' i (l1 ++ (vis ++ tw) ++ x :: dw).
Proof.
  induction rest as [|n rest IH]; intros vis p fuel Hc Hp Hfuel;
    (destruct fuel as [|fuel]; [simpl in Hfuel; lia|]);
    cbn [_aoi_update_list_fwd]; rewrite (chain_next_last _ _ _ _ _ _ _ Hc Hp).
  - exists [], [], (if p =? x then a
                    else _aoi_list_insert_after (_aoi_list_erase a i x) i x p).
    split; [reflexivity|]. split; [intros m Hm; inversion Hm|].
    split; [intros m Hm; discriminate|]. split; [reflexivity|].
    rewrite app_nil_r. apply fwd_stop; assumption.
  - change (head_or (n :: rest) None) with (Some n). cbv beta iota.
    destruct (Z.gtb_spec (coord a i n) (coord a i x)) as [Hgt|Hle].
    + exists [], (n :: rest), (if p =? x then a
                    else _aoi_list_insert_after (_aoi_list_erase a i x) i x p).
      split; [reflexivity|]. split; [intros m Hm; inversion Hm|].
      split; [intros m [= <-]; lia|]. split; [reflexivity|].
      rewrite app_nil_r. apply fwd_stop; assumption.
    + destruct (IH (vis ++ [n]) n fuel) as (tw & dw & a' & Hsplit & Htw & Hdw & Hrun & Hc').
      * rewrite <- app_assoc. exact Hc.
      * apply last_or_snoc.
      * simpl in Hfuel. lia.
      * exists (n :: tw), dw, a'. split; [rewrite Hsplit; reflexivity|].
        split; [|split; [exact Hdw|split; [exact Hrun|]]].
        -- intros m Hm. apply elem_of_cons in Hm as [->|Hm]; [lia | auto].
        -- replace (l1 ++ (vis ++ n :: tw) ++ x :: dw)
             with (l1 ++ ((vis ++ [n]) ++ tw) ++ x :: dw)
             by (rewrite <- !app_assoc; reflexivity).
           exact Hc'.
Qed.

(** The backward walk, symmetrically. *)
Lemma bwd_walk a i x l2 rest :
  forall vis p fuel,
    chain a i (rest ++ vis ++ x :: l2) -> head_or vis (Some x) = Some p ->
    (length rest < fuel)%nat ->
    exists up tw a',
      rest = up ++ tw /\
      (forall n, n ∈ tw -> coord a i x <= coord a i n) /\
      (forall n, last up = Some n -> coord a i n < coord a i x) /\
      _aoi_update_list_bwd fuel a i x (Some p) = Some a' /\
      chain a' i (up ++ x :: (tw ++ vis) ++ l2).
Proof.
  induction rest as [|n rest IH] using rev_ind; intros vis p fuel Hc Hp Hfuel;
    (destruct fuel as [|fuel]; [simpl in Hfuel; lia|]);
    cbn [_aoi_update_list_bwd]; rewrite (chain_prev_head _ _ _ _ _ _ _ Hc Hp).
  - exists [], [], (if p =? x then a
                    else _aoi_list_insert_before (_aoi_list_erase a i x) i x p).
    split; [reflexivity|]. split; [intros m Hm; inversion Hm|].
    split; [intros m Hm; discriminate|]. split; [reflexivity|].
    apply (bwd_stop a i [] vis x l2 p); assumption.
  - rewrite last_or_snoc. cbv beta iota.
    destruct (Z.ltb_spec (coord a i n) (coord a i x)) as [Hlt|Hge].
    + exists (rest ++ [n]), [], (if p =? x then a
                    else _aoi_list_insert_before (_aoi_list_erase a i x) i x p).
      split; [rewrite app_nil_r; reflexivity|]. split; [intros m Hm; inversion Hm|].
      split; [intros m Hm; rewrite last_snoc in Hm; injection Hm as <-; lia|].
      split; [reflexivity|].
      apply (bwd_stop a i (rest ++ [n]) vis x l2 p); assumption.
    + destruct (IH (n :: vis) n fuel) as (up & tw & a' & Hsplit & Htw & Hup & Hrun & Hc').
      * rewrite <- app_assoc in Hc. exact Hc.
      * reflexivity.
      * rewrite length_app in Hfuel. simpl in Hfuel. lia.
      * exists up, (tw ++ [n]), a'. split; [rewrite Hsplit, app_assoc; reflexivity|].
        split; [|split; [exact Hup|split; [exact Hrun|]]].
        -- intros m Hm. apply elem_of_app in Hm as [Hm|Hm]; [auto|].
           apply list_elem_of_singleton in Hm as ->. lia.
        -- replace (up ++ x :: ((tw ++ [n]) ++ vis) ++ l2)
             with (up ++ x :: (tw ++ n :: vis) ++ l2)
             by (rewrite <- !app_assoc; reflexivity).
           exact Hc'.
Qed.

(** The three ways [_aoi_update_list] treats one axis, on a chain that holds
    [obj] and is short enough for the fuel. *)
Lemma update_list_axis_spec a i x di l :
  chain a i l -> x ∈ l -> (length l < walk_fuel)%nat ->
  exists a', _aoi_update_list_axis a x i di = Some a' /\
    ((0 < di /\ exists l1 tw dw,
        l = l1 ++ x :: tw ++ dw /\
        (forall n, n ∈ tw -> coord a i n <= coord a i x) /\
        (forall n, head dw = Some n -> coord a i x < coord a i n) /\
        chain a' i (l1 ++ tw ++ x :: dw)) \/
     (di < 0 /\ exists up tw l2,
        l = up ++ tw ++ x :: l2 /\
        (forall n, n ∈ tw -> coord a i x <= coord a i n) /\
        (forall n, last up = Some n -> coord a i n < coord a i x) /\
        chain a' i (up ++ x :: tw ++ l2)) \/
     (di = 0 /\ a' = a)).
Proof.
  intros Hc Hx Hlen. apply list_elem_of_split in Hx as (l1 & l2 & ->).
  unfold _aoi_update_list_axis.
  destruct (Z.gtb_spec di 0) as [Hpos|Hnpos].
  - destruct (fwd_walk a i l1 x l2 [] x walk_fuel) as (tw & dw & a' & -> & Htw & Hdw & Hrun & Hc').
    + exact Hc.
    + reflexivity.
    + rewrite length_app in Hlen. simpl in Hlen. lia.
    + exists a'. split; [exact Hrun|]. left. split; [lia|].
      exists l1, tw, dw. auto.
  - destruct (Z.ltb_spec di 0) as [Hneg|Hnneg].
    + destruct (bwd_walk a i x l2 l1 [] x walk_fuel)
        as (up & tw & a' & -> & Htw & Hup & Hrun & Hc').
      * exact Hc.
      * reflexivity.
      * rewrite length_app in Hlen. lia.
      * exists a'. split; [exact Hrun|]. right. left. split; [lia|].
        exists up, tw, l2. rewrite app_nil_r in Hc'. rewrite <- app_assoc. auto.
    + exists a. split; [reflexivity|]. right. right. split; [lia | reflexivity].
Qed.

(** ** Sortedness along a chain *)

(** [sorted_by c l] : the coordinates [c] do not decrease along [l]. *)
Definition sorted_by (c : Z -> Z) (l : list Z) : Prop :=
  StronglySorted (fun u v => c u <= c v) l.

Lemma sorted_by_ext c c' l :
  (forall z, z ∈ l -> c' z = c z) -> sorted_by c l -> sorted_by c' l.
Proof.
  intros Hext Hs. induction Hs as [|x l Hs IH Hall]; [constructor|].
  constructor.
  - apply IH. intros z Hz. apply Hext. apply elem_of_cons. auto.
  - rewrite Forall_forall in *. intros z Hz.
    rewrite !Hext by (apply elem_of_cons; auto). apply Hall. exact Hz.
Qed.

Lemma sorted_by_head c l h v :
  sorted_by c l -> head l = Some h -> v ∈ l -> c h <= c v.
Proof.
  intros Hs Hh Hv. destruct l as [|e l]; [discriminate|]. injection Hh as ->.
  apply elem_of_cons in Hv as [->|Hv]; [lia|].
  apply StronglySorted_cons in Hs as [Hall _].
  rewrite Forall_forall in Hall. apply Hall. exact Hv.
Qed.

Lemma sorted_by_last c l h v :
  sorted_by c l -> last l = Some h -> v ∈ l -> c v <= c h.
Proof.
  intros Hs Hh Hv. destruct l as [|e l _] using rev_ind; [discriminate|].
  rewrite last_snoc in Hh. injection Hh as ->.
  apply elem_of_app in Hv as [Hv|Hv].
  - apply (StronglySorted_app_1_elem_of _ _ _ _ _ Hs Hv). apply list_elem_of_singleton.
    reflexivity.
  - apply list_elem_of_singleton in Hv as ->. lia.
Qed.

(** Moving [x] forward behind the slots it has overtaken keeps a chain
    sorted when its coordinate did not decrease. *)
Lemma resort_fwd_sorted c c' l1 x tw dw :
  sorted_by c (l1 ++ x :: tw ++ dw) -> NoDup (l1 ++ x :: tw ++ dw) ->
  (forall z, z ≠ x -> c' z = c z) -> c x <= c' x ->
  (forall n, n ∈ tw -> c' n <= c' x) ->
  (forall n, head dw = Some n -> c' x < c' n) ->
  sorted_by c' (l1 ++ tw ++ x :: dw).
Proof.
  intros Hs Hnd Hext Hx Htw Hdw.
  apply NoDup_mid in Hnd as (_ & _ & Hx1 & Hx2 & _).
  assert (Hxtw : x ∉ tw) by (intros E; apply Hx2, elem_of_app; auto).
  assert (Hxdw : x ∉ dw) by (intros E; apply Hx2, elem_of_app; auto).
  apply StronglySorted_app in Hs as (H1x & Hs1 & Hs2).
  apply StronglySorted_cons in Hs2 as [Hxall Hs2]. rewrite Forall_forall in Hxall.
  apply StronglySorted_app in Hs2 as (Htd & Hstw & Hsdw).
  assert (E1 : forall z, z ∈ l1 -> c' z = c z) by (intros z Hz; apply Hext; congruence).
  assert (E2 : forall z, z ∈ tw -> c' z = c z) by (intros z Hz; apply Hext; congruence).
  assert (E3 : forall z, z ∈ dw -> c' z = c z) by (intros z Hz; apply Hext; congruence).
  assert (Hxdw' : forall v, v ∈ dw -> c' x <= c' v).
  { intros v Hv. destruct dw as [|h dw]; [inversion Hv|].
    specialize (Hdw h eq_refl).
    pose proof (sorted_by_head c (h :: dw) h v Hsdw eq_refl Hv).
    rewrite (E3 v Hv). rewrite (E3 h) in Hdw by (apply elem_of_cons; auto). lia. }
  apply StronglySorted_app_2; [|apply (sorted_by_ext c); assumption|].
  - intros u v Hu Hv. rewrite (E1 u Hu).
    apply elem_of_app in Hv as [Hv|Hv].
    + rewrite (E2 v Hv). apply H1x; [exact Hu|].
      apply elem_of_cons. right. apply elem_of_app. auto.
    + apply elem_of_cons in Hv as [->|Hv].
      * specialize (H1x u x Hu ltac:(apply elem_of_cons; auto)). simpl in H1x. lia.
      * rewrite (E3 v Hv). apply H1x; [exact Hu|].
        apply elem_of_cons. right. apply elem_of_app. auto.
  - apply StronglySorted_app_2; [|apply (sorted_by_ext c); assumption|].
    + intros u v Hu Hv. apply elem_of_cons in Hv as [->|Hv]; [apply Htw; exact Hu|].
      rewrite (E2 u Hu), (E3 v Hv). apply Htd; assumption.
    + constructor; [apply (sorted_by_ext c); assumption|].
      apply Forall_forall. exact Hxdw'.
Qed.

(** Moving [x] backward, symmetrically, when its coordinate did not
    increase. *)
Lemma resort_bwd_sorted c c' up tw x l2 :
  sorted_by c (up ++ tw ++ x :: l2) -> NoDup (up ++ tw ++ x :: l2) ->
  (forall z, z ≠ x -> c' z = c z) -> c' x <= c x ->
  (forall n, n ∈ tw -> c' x <= c' n) ->
  (forall n, last up = Some n -> c' n < c' x) ->
  sorted_by c' (up ++ x :: tw ++ l2).
Proof.
  intros Hs Hnd Hext Hx Htw Hup.
  rewrite app_assoc in Hnd.
  apply NoDup_mid in Hnd as (_ & _ & Hx1 & Hx2 & _).
  assert (Hxup : x ∉ up) by (intros E; apply Hx1, elem_of_app; auto).
  assert (Hxtw : x ∉ tw) by (intros E; apply Hx1, elem_of_app; auto).
  apply StronglySorted_app in Hs as (Hut & Hsup & Hs2).
  apply StronglySorted_app in Hs2 as (Htx & Hstw & Hs3).
  apply StronglySorted_cons in Hs3 as [Hxall Hs2]. rewrite Forall_forall in Hxall.
  assert (E1 : forall z, z ∈ up -> c' z = c z) by (intros z Hz; apply Hext; congruence).
  assert (E2 : forall z, z ∈ tw -> c' z = c z) by (intros z Hz; apply Hext; congruence).
  assert (E3 : forall z, z ∈ l2 -> c' z = c z) by (intros z Hz; apply Hext; congruence).
  assert (Hupx : forall u, u ∈ up -> c' u <= c' x).
  { intros u Hu. destruct up as [|h up _] using rev_ind; [inversion Hu|].
    specialize (Hup h ltac:(apply last_snoc)).
    pose proof (sorted_by_last c (up ++ [h]) h u Hsup ltac:(apply last_snoc) Hu).
    rewrite (E1 u Hu). rewrite (E1 h) in Hup
      by (apply elem_of_app; right; apply list_elem_of_singleton; reflexivity).
    lia. }
  apply StronglySorted_app_2; [|apply (sorted_by_ext c); assumption|].
  - intros u v Hu Hv. apply elem_of_cons in Hv as [->|Hv]; [apply Hupx; exact Hu|].
    rewrite (E1 u Hu). apply elem_of_app in Hv as [Hv|Hv].
    + rewrite (E2 v Hv). apply Hut; [exact Hu|]. apply elem_of_app. auto.
    + rewrite (E3 v Hv). apply Hut; [exact Hu|].
      apply elem_of_app. right. apply elem_of_cons. auto.
  - constructor.
    + apply StronglySorted_app_2; try (apply (sorted_by_ext c); assumption).
      intros u v Hu Hv. rewrite (E2 u Hu), (E3 v Hv).
      apply Htx; [exact Hu|]. apply elem_of_cons. auto.
    + apply Forall_forall. intros v Hv. apply elem_of_app in Hv as [Hv|Hv].
      * apply Htw. exact Hv.
      * rewrite (E3 v Hv). specialize (Hxall v Hv). simpl in Hxall. lia.
Qed.

(** ** What the list code leaves alone besides the slots' other fields *)

(** [off_axis i a a'] : going from [a] to [a'] only the links and the head
    of axis [i] may have changed. *)
Definition off_axis (i : Z) (a a' : aoi) : Prop :=
  aoi_id a' = aoi_id a /\
  aoi_elist a' = aoi_elist a /\
  get2 (1 - i) (aoi_list a') = get2 (1 - i) (aoi_list a) /\
  forall (A : Type) (F : aoi_object -> A), link_blind i F -> same_on F a a'.

Lemma off_axis_refl i a : off_axis i a a.
Proof. repeat split; auto; intros; apply same_on_refl. Qed.

Lemma off_axis_trans i a b c : off_axis i a b -> off_axis i b c -> off_axis i a c.
Proof.
  intros (H1 & H2 & H3 & H4) (G1 & G2 & G3 & G4).
  split; [congruence|]. split; [congruence|]. split; [congruence|].
  intros A F HF. eapply same_on_trans; eauto.
Qed.

(** What neither axis touches. *)
Lemma off_axis_trans_any a b c :
  off_axis 0 a b -> off_axis 1 b c ->
  forall (A : Type) (F : aoi_object -> A),
    link_blind 0 F -> link_blind 1 F -> same_on F a c.
Proof.
  intros (_ & _ & _ & H0) (_ & _ & _ & H1) A F HF0 HF1.
  eapply same_on_trans; [apply H0 | apply H1]; assumption.
Qed.

Ltac destruct_matches :=
  repeat match goal with
         | |- context [match ?c with _ => _ end] => destruct c
         end.

Lemma off_axis_erase i a x : i = 0 \/ i = 1 -> off_axis i a (_aoi_list_erase a i x).
Proof.
  intros Hi. split; [apply aoi_id_erase|]. split; [|split].
  - unfold _aoi_list_erase. cbv zeta. destruct_matches; reflexivity.
  - unfold _aoi_list_erase. cbv zeta. destruct Hi as [-> | ->]; destruct_matches; reflexivity.
  - intros A F HF. apply same_on_erase. exact HF.
Qed.

Lemma off_axis_insert_after i a x p :
  i = 0 \/ i = 1 -> off_axis i a (_aoi_list_insert_after a i x p).
Proof.
  intros Hi. split; [|split; [|split]].
  - unfold _aoi_list_insert_after. cbv zeta. destruct_matches; reflexivity.
  - unfold _aoi_list_insert_after. cbv zeta. destruct_matches; reflexivity.
  - unfold _aoi_list_insert_after. cbv zeta.
    destruct Hi as [-> | ->]; destruct_matches; reflexivity.
  - intros A F HF. apply same_on_insert_after. exact HF.
Qed.

Lemma off_axis_insert_before i a x p :
  i = 0 \/ i = 1 -> off_axis i a (_aoi_list_insert_before a i x p).
Proof.
  intros Hi. split; [|split; [|split]].
  - unfold _aoi_list_insert_before. cbv zeta. destruct_matches; reflexivity.
  - unfold _aoi_list_insert_before. cbv zeta. destruct_matches; reflexivity.
  - unfold _aoi_list_insert_before. cbv zeta.
    destruct Hi as [-> | ->]; destruct_matches; reflexivity.
  - intros A F HF. apply same_on_insert_before. exact HF.
Qed.

Lemma off_axis_enter_link i a x :
  i = 0 \/ i = 1 -> off_axis i a (_aoi_enter_link a i x).
Proof.
  intros Hi. split; [apply aoi_id_enter_link|]. split; [|split].
  - unfold _aoi_enter_link. cbv zeta. destruct_matches; reflexivity.
  - unfold _aoi_enter_link. cbv zeta. destruct Hi as [-> | ->]; destruct_matches; reflexivity.
  - intros A F HF. apply same_on_enter_link. exact HF.
Qed.

Lemma off_axis_update_list_fwd i fuel a x p a' :
  i = 0 \/ i = 1 -> _aoi_update_list_fwd fuel a i x p = Some a' -> off_axis i a a'.
Proof.
  intros Hi. revert p. induction fuel as [|fuel IH]; intros p H; simpl in H; [discriminate|].
  destruct p as [pi|]; [|inversion H; apply off_axis_refl].
  destruct (match next_of a i pi with Some nx => coord a i nx >? coord a i x | None => true end).
  - inversion H; subst. destruct (pi =? x); [apply off_axis_refl|].
    eapply off_axis_trans; [apply off_axis_erase | apply off_axis_insert_after]; exact Hi.
  - eapply IH; exact H.
Qed.

Lemma off_axis_update_list_bwd i fuel a x p a' :
  i = 0 \/ i = 1 -> _aoi_update_list_bwd fuel a i x p = Some a' -> off_axis i a a'.
Proof.
  intros Hi. revert p. induction fuel as [|fuel IH]; intros p H; simpl in H; [discriminate|].
  destruct p as [pi|]; [|inversion H; apply off_axis_refl].
  destruct (match prev_of a i pi with Some pv => coord a i pv <? coord a i x | None => true end).
  - inversion H; subst. destruct (pi =? x); [apply off_axis_refl|].
    eapply off_axis_trans; [apply off_axis_erase | apply off_axis_insert_before]; exact Hi.
  - eapply IH; exact H.
Qed.

Lemma off_axis_update_list_axis i a x di a' :
  i = 0 \/ i = 1 -> _aoi_update_list_axis a x i di = Some a' -> off_axis i a a'.
Proof.
  intros Hi. unfold _aoi_update_list_axis.
  destruct (di >? 0); [apply off_axis_update_list_fwd; exact Hi|].
  destruct (di <? 0); [apply off_axis_update_list_bwd; exact Hi|].
  intros H; inversion H; apply off_axis_refl.
Qed.

(** A chain of axis [j] is untouched by what happens off axis [j]. *)
Lemma chain_off_axis i j a a' l :
  (i = 0 /\ j = 1) \/ (i = 1 /\ j = 0) ->
  off_axis i a a' -> chain a j l -> chain a' j l.
Proof.
  intros Hij (_ & _ & Hh & HF) (Hhead & Hd & Hnd).
  assert (Hp : same_on (fun o => get2 j (obj_prev o)) a a').
  { apply HF. destruct Hij as [[-> ->]|[-> ->]]; split; reflexivity. }
  assert (Hn : same_on (fun o => get2 j (obj_next o)) a a').
  { apply HF. destruct Hij as [[-> ->]|[-> ->]]; split; reflexivity. }
  split; [|split; [|exact Hnd]].
  - rewrite <- Hhead. destruct Hij as [[-> ->]|[-> ->]]; exact Hh.
  - eapply dseg_ext; [|exact Hd]. intros z _. split; [apply Hp | apply Hn].
Qed.

(** A chain only depends on the links of its slots and on the head. *)
Lemma chain_ext a a' i l :
  get2 i (aoi_list a') = get2 i (aoi_list a) ->
  (forall z, z ∈ l -> prev_of a' i z = prev_of a i z /\ next_of a' i z = next_of a i z) ->
  chain a i l -> chain a' i l.
Proof.
  intros Hh Hext (Hhead & Hd & Hnd).
  split; [congruence|]. split; [|exact Hnd].
  eapply dseg_ext; [|exact Hd]. exact Hext.
Qed.

(** In a chain whose slots are all nearer than the pool capacity the walks
    never run out of fuel. *)
Lemma NoDup_range_length (l : list Z) n :
  NoDup l -> (forall x, x ∈ l -> 0 <= x < Z.of_nat n) -> (length l <= n)%nat.
Proof.
  intros Hnd Hr.
  assert (Hsub : l ⊆ seqZ 0 (Z.of_nat n)).
  { intros x Hx. apply elem_of_seqZ. specialize (Hr x Hx). lia. }
  pose proof (submseteq_length _ _ (NoDup_submseteq _ _ Hnd Hsub)) as Hl.
  rewrite length_seqZ in Hl. lia.
Qed.

(** ** The invariant of the engine *)

(** A slot in use. *)
Definition live (a : aoi) (x : Z) : Prop :=
  obj_type (slot_get a x) ≠ AOI_OBJECT_INVALID.

(** The ids of the old list of a slot. *)
Definition old_ids (a : aoi) (x : Z) : list Z := elems (obj_o_list (slot_get a x)).

(** Every slot in use holds a non-negative id that hashes to it; each axis
    list is a chain of exactly the slots in use; both blocks of a slot in use
    are well formed and the old one is sorted. *)
Record inv (a : aoi) : Prop := mk_inv {
  inv_ids : forall x, live a x ->
    0 <= obj_id (slot_get a x) /\ AOI_HASH_ID (obj_id (slot_get a x)) = x;
  inv_chain : forall i, i = 0 \/ i = 1 ->
    exists l, chain a i l /\ forall x, x ∈ l <-> live a x;
  inv_bufs : forall x, live a x ->
    (exists En, is_buf (obj_n_list (slot_get a x)) En) /\
    (exists Eo, is_buf (obj_o_list (slot_get a x)) Eo /\ ssorted Eo)
}.

Lemma live_range a x : inv a -> live a x -> 0 <= x < AOI_MAX_AOI.
Proof.
  intros Hinv Hl. destruct (inv_ids a Hinv x Hl) as [Hpos Hh].
  rewrite <- Hh. apply AOI_HASH_ID_range. exact Hpos.
Qed.

Lemma live_object a x : inv a -> live a x -> _aoi_object a (obj_id (slot_get a x)) = Some x.
Proof.
  intros Hinv Hl. destruct (inv_ids a Hinv x Hl) as [Hpos Hh].
  apply _aoi_object_Some. rewrite Hh. auto.
Qed.

Lemma object_live a id x : _aoi_object a id = Some x -> live a x /\ obj_id (slot_get a x) = id.
Proof. intros H. apply _aoi_object_Some in H as (_ & _ & Hid & Hty). auto. Qed.

Lemma chain_fuel a i l :
  inv a -> chain a i l -> (forall x, x ∈ l <-> live a x) -> (length l < walk_fuel)%nat.
Proof.
  intros Hinv (_ & _ & Hnd) Hmem. unfold walk_fuel.
  assert (length l <= Z.to_nat AOI_MAX_AOI)%nat; [|lia].
  apply NoDup_range_length; [exact Hnd|].
  intros x Hx. rewrite Z2Nat.id by (rewrite AOI_MAX_AOI_eq; lia).
  apply (live_range a x Hinv). apply Hmem. exact Hx.
Qed.

(** The invariant only reads the heads, the links, the ids, the types and
    the two blocks. *)
Lemma inv_frame a a' :
  aoi_list a' = aoi_list a ->
  same_on obj_id a a' -> same_on obj_type a a' ->
  same_on obj_prev a a' -> same_on obj_next a a' ->
  same_on obj_n_list a a' -> same_on obj_o_list a a' ->
  inv a -> inv a'.
Proof.
  intros Hl Hid Hty Hpv Hnx Hnl Hol [H1 H2 H3].
  assert (Hlive : forall x, live a' x <-> live a x)
    by (intros x; unfold live; rewrite Hty; reflexivity).
  split.
  - intros x Hx. rewrite Hid. apply H1. apply Hlive. exact Hx.
  - intros i Hi. destruct (H2 i Hi) as (l & Hc & Hmem). exists l. split.
    + eapply chain_ext; [| |exact Hc]; [rewrite Hl; reflexivity|].
      intros z _. unfold prev_of, next_of. rewrite Hpv, Hnx. auto.
    + intros x. rewrite Hmem. symmetry. apply Hlive.
  - intros x Hx. rewrite Hnl, Hol. apply H3. apply Hlive. exact Hx.
Qed.

(** Re-sorting one axis keeps the invariant. *)
Lemma inv_update_list_axis a x i di a' :
  inv a -> live a x -> i = 0 \/ i = 1 ->
  _aoi_update_list_axis a x i di = Some a' -> inv a'.
Proof.
  intros Hinv Hx Hi Hrun. pose proof Hinv as [H1 H2 H3].
  pose proof (off_axis_update_list_axis i a x di a' Hi Hrun) as Hoff.
  pose proof Hoff as (_ & _ & _ & HF).
  assert (Hty : same_on obj_type a a') by (apply HF; auto with blind).
  assert (Hid : same_on obj_id a a') by (apply HF; auto with blind).
  assert (Hlive : forall z, live a' z <-> live a z)
    by (intros z; unfold live; rewrite Hty; reflexivity).
  split.
  - intros z Hz. rewrite Hid. apply H1. apply Hlive. exact Hz.
  - intros j Hj. destruct (decide (j = i)) as [->|Hne].
    + destruct (H2 i Hi) as (l & Hc & Hmem).
      destruct (update_list_axis_spec a i x di l Hc) as (a'' & Hrun' & Hcases).
      * apply Hmem. exact Hx.
      * apply (chain_fuel a i l Hinv Hc Hmem).
      * rewrite Hrun in Hrun'. injection Hrun' as <-.
        destruct Hcases as [(_ & l1 & tw & dw & -> & _ & _ & Hc')
                           |[(_ & up & tw & l2 & -> & _ & _ & Hc')|(_ & ->)]].
        -- eexists. split; [exact Hc'|]. intros z. rewrite Hlive, <- Hmem.
           repeat first [rewrite elem_of_app | rewrite elem_of_cons]. tauto.
        -- eexists. split; [exact Hc'|]. intros z. rewrite Hlive, <- Hmem.
           repeat first [rewrite elem_of_app | rewrite elem_of_cons]. tauto.
        -- exists l. auto.
    + destruct (H2 j Hj) as (l & Hc & Hmem). exists l. split.
      * eapply (chain_off_axis i j); [lia | exact Hoff | exact Hc].
      * intros z. rewrite Hmem. symmetry. apply Hlive.
  - intros z Hz.
    rewrite (HF _ obj_n_list) by auto with blind.
    rewrite (HF _ obj_o_list) by auto with blind.
    apply H3. apply Hlive. exact Hz.
Qed.

Lemma inv_update_list a x d a' :
  inv a -> live a x -> _aoi_update_list a x d = Some a' -> inv a'.
Proof.
  intros Hinv Hx. unfold _aoi_update_list. intros H.
  destruct (_aoi_update_list_axis a x 0 (get2 0 d)) as [a1|] eqn:E; [|discriminate].
  change (_aoi_update_list_axis a1 x 1 (get2 1 d) = Some a') in H.
  assert (Hinv1 : inv a1)
    by exact (inv_update_list_axis a x 0 _ a1 Hinv Hx (or_introl eq_refl) E).
  apply (inv_update_list_axis a1 x 1 (get2 1 d) a' Hinv1); [|right; reflexivity|exact H].
  unfold live. rewrite (same_on_update_list_axis obj_type 0 a x _ a1 (blind_type 0) E).
  exact Hx.
Qed.

(** On the invariant the re-sorting walks end. *)
Lemma update_list_total a x d :
  inv a -> live a x -> exists a', _aoi_update_list a x d = Some a'.
Proof.
  intros Hinv Hx. unfold _aoi_update_list.
  destruct (inv_chain a Hinv 0) as (l & Hc & Hmem); [auto|].
  destruct (update_list_axis_spec a 0 x (get2 0 d) l Hc) as (a1 & Hrun & _).
  { apply Hmem. exact Hx. }
  { apply (chain_fuel a 0 l Hinv Hc Hmem). }
  rewrite Hrun. change (exists a', _aoi_update_list_axis a1 x 1 (get2 1 d) = Some a').
  assert (Hinv1 : inv a1)
    by exact (inv_update_list_axis a x 0 _ a1 Hinv Hx (or_introl eq_refl) Hrun).
  assert (Hx1 : live a1 x).
  { unfold live. rewrite (same_on_update_list_axis obj_type 0 a x _ a1 (blind_type 0) Hrun).
    exact Hx. }
  destruct (inv_chain a1 Hinv1 1) as (l' & Hc' & Hmem'); [auto|].
  destruct (update_list_axis_spec a1 1 x (get2 1 d) l' Hc') as (a2 & Hrun2 & _).
  { apply Hmem'. exact Hx1. }
  { apply (chain_fuel a1 1 l' Hinv1 Hc' Hmem'). }
  exists a2. exact Hrun2.
Qed.

(** ** The movement calls keep the invariant *)

(** A view that does not look at the position and movement fields. *)
Record struct_blind {A : Type} (F : aoi_object -> A) : Prop := mk_struct_blind {
  sb_p : forall v o, F (set_p v o) = F o;
  sb_sp : forall v o, F (set_sp v o) = F o;
  sb_dp : forall v o, F (set_dp v o) = F o;
  sb_d : forall v o, F (set_d v o) = F o;
  sb_e : forall v o, F (set_e v o) = F o;
  sb_p_tick : forall v o, F (set_p_tick v o) = F o;
  sb_n_tick : forall v o, F (set_n_tick v o) = F o;
  sb_speed : forall v o, F (set_speed v o) = F o
}.

Lemma struct_blind_id : struct_blind obj_id.
Proof. split; reflexivity. Qed.
Lemma struct_blind_type : struct_blind obj_type.
Proof. split; reflexivity. Qed.
Lemma struct_blind_prev : struct_blind obj_prev.
Proof. split; reflexivity. Qed.
Lemma struct_blind_next : struct_blind obj_next.
Proof. split; reflexivity. Qed.
Lemma struct_blind_n_list : struct_blind obj_n_list.
Proof. split; reflexivity. Qed.
Lemma struct_blind_o_list : struct_blind obj_o_list.
Proof. split; reflexivity. Qed.

#[local] Hint Resolve struct_blind_id struct_blind_type struct_blind_prev struct_blind_next
  struct_blind_n_list struct_blind_o_list : blind.

(** [struct_eq a a'] : [a'] differs from [a] in position and movement fields
    only. *)
Definition struct_eq (a a' : aoi) : Prop :=
  aoi_id a' = aoi_id a /\ aoi_list a' = aoi_list a /\ aoi_elist a' = aoi_elist a /\
  forall (A : Type) (F : aoi_object -> A), struct_blind F -> same_on F a a'.

Lemma struct_eq_refl a : struct_eq a a.
Proof. repeat split; auto; intros; apply same_on_refl. Qed.

Lemma struct_eq_trans a b c : struct_eq a b -> struct_eq b c -> struct_eq a c.
Proof.
  intros (H1 & H2 & H3 & H4) (G1 & G2 & G3 & G4).
  split; [congruence|]. split; [congruence|]. split; [congruence|].
  intros A F HF. eapply same_on_trans; eauto.
Qed.

Lemma struct_eq_upd a y f :
  (forall (A : Type) (F : aoi_object -> A), struct_blind F -> forall o, F (f o) = F o) ->
  struct_eq a (slot_upd a y f).
Proof.
  intros Hf. repeat split; auto. intros A F HF. apply same_on_upd. apply Hf. exact HF.
Qed.

Lemma inv_struct_eq a a' : struct_eq a a' -> inv a -> inv a'.
Proof.
  intros (_ & Hl & _ & HF). apply inv_frame; [exact Hl|..]; apply HF; auto with blind.
Qed.

Lemma struct_eq_live a a' x : struct_eq a a' -> live a' x <-> live a x.
Proof.
  intros (_ & _ & _ & HF). unfold live. rewrite (HF _ obj_type) by auto with blind.
  reflexivity.
Qed.

(** Peel position and movement writes off a state. *)
Ltac struct_eq_tac :=
  repeat first
    [ apply struct_eq_refl
    | eapply struct_eq_trans;
      [|apply struct_eq_upd; intros ? ? [? ? ? ? ? ? ? ?] ?; cbv beta; congruence] ].

Lemma struct_eq_move a id x y : struct_eq a (aoi_move a id x y).
Proof.
  unfold aoi_move. destruct (_aoi_object a id) as [obj|]; [|apply struct_eq_refl].
  destruct (_ || _); [apply struct_eq_refl|].
  unfold _aoi_move_axis. cbv zeta beta iota. struct_eq_tac.
Qed.

Lemma struct_eq_speed a id speed : struct_eq a (aoi_speed a id speed).
Proof.
  unfold aoi_speed. destruct (_aoi_object a id) as [obj|]; [|apply struct_eq_refl].
  cbv zeta. destruct (_ >? 0).
  - eapply struct_eq_trans; [|apply struct_eq_move]. struct_eq_tac.
  - struct_eq_tac.
Qed.

Lemma inv_move a id x y : inv a -> inv (aoi_move a id x y).
Proof. apply inv_struct_eq, struct_eq_move. Qed.

Lemma inv_speed a id speed : inv a -> inv (aoi_speed a id speed).
Proof. apply inv_struct_eq, struct_eq_speed. Qed.

(** [aoi_locate]: the two position writes, then the re-sorting. *)
Definition _aoi_locate_place (a : aoi) (obj : Z) (x y : Z) : aoi :=
  slot_upd (slot_upd a obj (fun o => set_p (set2 0 x (obj_p o)) o)) obj
           (fun o => set_p (set2 1 y (obj_p o)) o).

Lemma struct_eq_locate_place a obj x y : struct_eq a (_aoi_locate_place a obj x y).
Proof. unfold _aoi_locate_place. struct_eq_tac. Qed.

Lemma aoi_locate_unfold a id x y obj :
  _aoi_object a id = Some obj ->
  aoi_locate a id x y
  = _aoi_update_list (_aoi_locate_place a obj x y) obj
      (Int.sub x (coord a 0 obj), Int.sub y (coord a 1 obj)).
Proof. intros H. unfold aoi_locate. rewrite H. reflexivity. Qed.

Lemma inv_locate a id x y a' : inv a -> aoi_locate a id x y = Some a' -> inv a'.
Proof.
  intros Hinv H. destruct (_aoi_object a id) as [obj|] eqn:Ho.
  - rewrite (aoi_locate_unfold a id x y obj Ho) in H.
    pose proof (inv_struct_eq _ _ (struct_eq_locate_place a obj x y) Hinv) as Hinv2.
    refine (inv_update_list _ obj _ a' Hinv2 _ H).
    apply (struct_eq_live _ _ _ (struct_eq_locate_place a obj x y)).
    apply (object_live a id obj Ho).
  - unfold aoi_locate in H. rewrite Ho in H. injection H as <-. exact Hinv.
Qed.

Lemma locate_total a id x y : inv a -> exists a', aoi_locate a id x y = Some a'.
Proof.
  intros Hinv. destruct (_aoi_object a id) as [obj|] eqn:Ho.
  - rewrite (aoi_locate_unfold a id x y obj Ho).
    apply update_list_total.
    + apply (inv_struct_eq _ _ (struct_eq_locate_place a obj x y) Hinv).
    + apply (struct_eq_live _ _ _ (struct_eq_locate_place a obj x y)).
      apply (object_live a id obj Ho).
  - exists a. unfold aoi_locate. rewrite Ho. reflexivity.
Qed.

(** ** The candidate walk of a scan on a chain *)

(** [path step p nodes] : following [step] from the pointer [p] visits the
    slots [nodes] and then reaches the null pointer. *)
Fixpoint path (step : Z -> ptr) (p : ptr) (nodes : list Z) : Prop :=
  match nodes with
  | [] => p = None
  | n :: rest => p = Some n /\ path step (step n) rest
  end.

Lemma dseg_path_next pv nx pp l :
  dseg pv nx pp l None -> path nx (head_or l None) l.
Proof.
  revert pp. induction l as [|x l IH]; intros pp H; simpl in *; [reflexivity|].
  destruct H as (_ & Hn & H). split; [reflexivity|]. rewrite Hn. eapply IH. exact H.
Qed.

Lemma dseg_path_prev pv nx l qn :
  dseg pv nx None l qn -> path pv (last_or l None) (rev l).
Proof.
  revert qn. induction l as [|x l IH] using rev_ind; intros qn H; [reflexivity|].
  apply dseg_app in H as [H1 H2]. simpl in H2. destruct H2 as (Hp & _ & _).
  rewrite rev_unit, last_or_snoc. simpl. split; [reflexivity|].
  rewrite Hp. eapply IH. exact H1.
Qed.

Lemma chain_paths a i l1 x l2 :
  chain a i (l1 ++ x :: l2) ->
  path (prev_of a i) (prev_of a i x) (rev l1) /\
  path (next_of a i) (next_of a i x) l2.
Proof.
  intros Hc. pose proof (chain_links _ _ _ _ _ Hc) as [Hp Hn].
  destruct Hc as (_ & Hd & _). apply dseg_app in Hd as [Hd1 Hd2].
  simpl in Hd2. destruct Hd2 as (_ & _ & Hd2). split.
  - rewrite Hp. eapply dseg_path_prev. exact Hd1.
  - rewrite Hn. eapply dseg_path_next. exact Hd2.
Qed.

(** Whether the walk takes the candidate [pi] into the new list, given the
    ids [O] of the old list. *)
Definition selected (a : aoi) (obj : Z) (enter_r leave_r : Z) (O : list Z) (pi : Z) : bool :=
  let dx := Int.abs (Int.sub (coord a 0 obj) (coord a 0 pi)) in
  let dy := Int.abs (Int.sub (coord a 1 obj) (coord a 1 pi)) in
  let d := Int.add (Int.mul dx dx) (Int.mul dy dy) in
  (d <=? Int.mul enter_r enter_r) ||
  ((d <=? Int.mul leave_r leave_r) && negb (find_abs (obj_id (slot_get a pi)) O =? 0)).

(** Whether the walk goes on past the candidate [pi]. *)
Definition in_x_range (a : aoi) (obj : Z) (leave_r : Z) (pi : Z) : bool :=
  negb (Int.abs (Int.sub (coord a 0 obj) (coord a 0 pi)) >? leave_r).

(** The walk on the ids: the candidates are taken in turn until one is out
    of range on the x axis. *)
Fixpoint walk_abs (a : aoi) (obj : Z) (enter_r leave_r : Z) (O : list Z)
    (nodes : list Z) (E : list Z) : list Z :=
  match nodes with
  | [] => E
  | pi :: rest =>
      if in_x_range a obj leave_r pi then
        walk_abs a obj enter_r leave_r O rest
          (if selected a obj enter_r leave_r O pi then ins (obj_id (slot_get a pi)) E else E)
      else E
  end.

Lemma _aoi_trigger_walk_spec a obj i enter_r leave_r O nodes :
  is_buf (obj_o_list (slot_get a obj)) O ->
  forall fuel p cur E,
    is_buf cur E ->
    path (if i =? 0 then prev_of a 0 else next_of a 0) p nodes ->
    (length nodes < fuel)%nat ->
    exists cur',
      _aoi_trigger_walk fuel a obj i enter_r leave_r p cur = Some cur' /\
      is_buf cur' (walk_abs a obj enter_r leave_r O nodes E).
Proof.
  intros HO. induction nodes as [|n rest IH]; intros fuel p cur E Hcur Hpath Hfuel;
    (destruct fuel as [|fuel]; [cbn [length] in Hfuel; lia|]); cbn [path] in Hpath.
  - subst p. exists cur. split; [reflexivity | exact Hcur].
  - destruct Hpath as [-> Hpath]. cbn [_aoi_trigger_walk walk_abs].
    cbn [length] in Hfuel.
    unfold in_x_range, selected. cbv zeta.
    rewrite (_find_list_spec _ O _ HO).
    generalize (Int.abs (Int.sub (coord a 0 obj) (coord a 0 n))). intros dx.
    generalize (Int.abs (Int.sub (coord a 1 obj) (coord a 1 n))). intros dy.
    generalize (Int.add (Int.mul dx dx) (Int.mul dy dy)). intros d.
    generalize (Int.mul enter_r enter_r). intros e2.
    generalize (Int.mul leave_r leave_r). intros l2.
    destruct (dx >? leave_r); cbn [negb].
    + exists cur. split; [reflexivity | exact Hcur].
    + assert (Hstep : (if i =? 0 then prev_of a 0 n else next_of a 0 n)
                      = (if i =? 0 then prev_of a 0 else next_of a 0) n)
        by (destruct (i =? 0); reflexivity).
      rewrite Hstep.
      destruct (d <=? e2); cbn [orb andb negb].
      * apply IH; [apply _insert_list_spec; exact Hcur | exact Hpath | lia].
      * destruct (d <=? l2); cbn [orb andb negb].
        -- destruct (find_abs (obj_id (slot_get a n)) O =? 0); cbn [negb].
           ++ apply IH; [exact Hcur | exact Hpath | lia].
           ++ apply IH; [apply _insert_list_spec; exact Hcur | exact Hpath | lia].
        -- apply IH; [exact Hcur | exact Hpath | lia].
Qed.

(** The new list stays sorted and holds ids of candidates only. *)
Lemma walk_abs_sorted a obj enter_r leave_r O nodes E :
  ssorted E -> ssorted (walk_abs a obj enter_r leave_r O nodes E).
Proof.
  revert E. induction nodes as [|n rest IH]; intros E Hs; cbn [walk_abs]; [exact Hs|].
  destruct (in_x_range a obj leave_r n); [|exact Hs].
  apply IH. destruct (selected a obj enter_r leave_r O n); [apply ins_sorted|]; exact Hs.
Qed.

(** The candidates the walk reaches before it leaves the x range. *)
Fixpoint reached (a : aoi) (obj : Z) (leave_r : Z) (nodes : list Z) : list Z :=
  match nodes with
  | [] => []
  | pi :: rest =>
      if in_x_range a obj leave_r pi then pi :: reached a obj leave_r rest else []
  end.

Lemma reached_elem a obj leave_r nodes n :
  n ∈ reached a obj leave_r nodes -> n ∈ nodes.
Proof.
  induction nodes as [|m rest IH]; cbn [reached]; [auto|].
  destruct (in_x_range a obj leave_r m); [|intros H; inversion H].
  intros H. apply elem_of_cons in H as [->|H]; apply elem_of_cons; auto.
Qed.

Lemma walk_abs_elem a obj enter_r leave_r O nodes E y :
  ssorted E ->
  y ∈ walk_abs a obj enter_r leave_r O nodes E <->
  y ∈ E \/ exists n, n ∈ reached a obj leave_r nodes /\
                     selected a obj enter_r leave_r O n = true /\
                     y = obj_id (slot_get a n).
Proof.
  revert E. induction nodes as [|m rest IH]; intros E Hs; cbn [walk_abs reached].
  - split; [auto|]. intros [H|(n & Hn & _)]; [exact H | inversion Hn].
  - destruct (in_x_range a obj leave_r m).
    + destruct (selected a obj enter_r leave_r O m) eqn:Hsel.
      * rewrite IH by (apply ins_sorted; exact Hs). rewrite ins_elem by exact Hs.
        split.
        -- intros [[->|H]|(n & Hn & Hsn & ->)]; auto.
           ++ right. exists m. split; [apply elem_of_cons; auto | auto].
           ++ right. exists n. split; [apply elem_of_cons; auto | auto].
        -- intros [H|(n & Hn & Hsn & ->)]; auto.
           apply elem_of_cons in Hn as [->|Hn]; auto.
           right. exists n. auto.
      * rewrite IH by exact Hs. split.
        -- intros [H|(n & Hn & Hsn & ->)]; auto.
           right. exists n. split; [apply elem_of_cons; auto | auto].
        -- intros [H|(n & Hn & Hsn & ->)]; auto.
           apply elem_of_cons in Hn as [->|Hn]; [congruence|].
           right. exists n. auto.
    + split; [auto|]. intros [H|(n & Hn & _)]; [exact H | inversion Hn].
Qed.

(** The walk reads positions, ids and nothing else. *)
Lemma walk_abs_ext a a' obj enter_r leave_r O nodes E :
  same_on obj_p a a' -> same_on obj_id a a' ->
  walk_abs a' obj enter_r leave_r O nodes E = walk_abs a obj enter_r leave_r O nodes E.
Proof.
  intros Hp Hid. revert E.
  induction nodes as [|n rest IH]; intros E; cbn [walk_abs]; [reflexivity|].
  unfold in_x_range, selected, coord. rewrite !Hp, !Hid.
  destruct (negb _); [|reflexivity]. apply IH.
Qed.

(** ** The diff of a scan on the ids *)

(** Writing a run of events into the buffer. *)
Definition emit_all (evs : list aoi_event) (st : gmap Z aoi_event * Z)
  : gmap Z aoi_event * Z :=
  fold_left (fun st ev => _emit st (ev_id ev) (ev_e ev)) evs st.

Lemma emit_all_count evs st : snd (emit_all evs st) = snd st + Z.of_nat (length evs).
Proof.
  revert st. induction evs as [|ev evs IH]; intros st; cbn [emit_all fold_left length].
  - lia.
  - change (fold_left _ evs ?s) with (emit_all evs s). rewrite IH.
    unfold _emit. cbn [snd]. lia.
Qed.

Lemma _emit_range_spec (L A rest : list Z) e st :
  _emit_range (length L) (A ++ L ++ rest) (Z.of_nat (length A)) e st
  = emit_all (map (fun id => mk_event id e) L) st.
Proof.
  revert A st. induction L as [|x L IH]; intros A st; [reflexivity|].
  cbn [_emit_range length map emit_all fold_left].
  change (fold_left _ (map _ L) ?s) with (emit_all (map (fun id => mk_event id e) L) s).
  replace (A ++ (x :: L) ++ rest) with ((A ++ [x]) ++ L ++ rest)
    by (rewrite <- app_assoc; reflexivity).
  replace (Z.of_nat (length A) + 1) with (Z.of_nat (length (A ++ [x])))
    by (rewrite length_app; cbn [length]; lia).
  rewrite IH. do 2 f_equal.
  replace ((A ++ [x]) ++ L ++ rest) with (A ++ x :: L ++ rest)
    by (rewrite <- app_assoc; reflexivity).
  rewrite rd_app_r. reflexivity.
Qed.

(** Whether an id still names an entity. *)
Definition alive (a : aoi) (id : Z) : bool :=
  match _aoi_object a id with Some _ => true | None => false end.

(** The merge loop on the ids that are left of the old list [O] and of the
    new list [N]. *)
Fixpoint merge_abs (al : Z -> bool) (O : list Z) : list Z -> list aoi_event :=
  fix go (N : list Z) : list aoi_event :=
    match O with
    | [] => map (fun id => mk_event id AOI_ENTER) N
    | o :: O' =>
        match N with
        | [] => map (fun id => mk_event id AOI_LEAVE) O
        | n :: N' =>
            if al o then
              if n <? o then mk_event n AOI_ENTER :: go N'
              else if n =? o then merge_abs al O' N'
              else mk_event o AOI_LEAVE :: merge_abs al O' N
            else merge_abs al O' N
        end
    end.

Lemma merge_abs_nil_l al N :
  merge_abs al [] N = map (fun id => mk_event id AOI_ENTER) N.
Proof. destruct N; reflexivity. Qed.

Lemma merge_abs_nil_r al o O :
  merge_abs al (o :: O) [] = map (fun id => mk_event id AOI_LEAVE) (o :: O).
Proof. reflexivity. Qed.

Lemma merge_abs_cons al o O n N :
  merge_abs al (o :: O) (n :: N)
  = if al o then
      if n <? o then mk_event n AOI_ENTER :: merge_abs al (o :: O) N
      else if n =? o then merge_abs al O N
      else mk_event o AOI_LEAVE :: merge_abs al O (n :: N)
    else merge_abs al O (n :: N).
Proof. reflexivity. Qed.

Lemma merge_abs_ext al al' O N :
  (forall o, al' o = al o) -> merge_abs al' O N = merge_abs al O N.
Proof.
  intros H. revert N. induction O as [|o O IHO]; intros N.
  - rewrite !merge_abs_nil_l. reflexivity.
  - induction N as [|n N IHN]; [reflexivity|].
    rewrite !merge_abs_cons, H.
    destruct (al o); [|apply IHO].
    destruct (n <? o); [f_equal; exact IHN|].
    destruct (n =? o); [apply IHO | f_equal; apply IHO].
Qed.

Lemma _aoi_trigger_merge_spec a (Or : list Z) :
  forall (Nr Ao An ro rn : list Z) o_cnt n_cnt fuel st,
    o_cnt + 2 = Z.of_nat (length Ao + length Or) ->
    n_cnt + 2 = Z.of_nat (length An + length Nr) ->
    (length Or + length Nr < fuel)%nat ->
    _aoi_trigger_merge fuel a (Ao ++ Or ++ ro) (An ++ Nr ++ rn) o_cnt n_cnt
      (Z.of_nat (length Ao)) (Z.of_nat (length An)) st
    = Some (emit_all (merge_abs (alive a) Or Nr) st).
Proof.
  induction Or as [|o Or IHO]; intros Nr.
  - intros Ao An ro rn o_cnt n_cnt fuel st Ho Hn Hfuel.
    destruct fuel as [|fuel]; [lia|]. cbn [_aoi_trigger_merge]. rewrite merge_abs_nil_l.
    cbn [length] in Ho. destruct (Z.gtb_spec (Z.of_nat (length Ao)) (o_cnt + 1)); [|lia].
    replace (Z.to_nat (n_cnt + 2 - Z.of_nat (length An))) with (length Nr) by lia.
    rewrite _emit_range_spec. reflexivity.
  - induction Nr as [|n Nr IHN]; intros Ao An ro rn o_cnt n_cnt fuel st Ho Hn Hfuel;
      (destruct fuel as [|fuel]; [lia|]); cbn [_aoi_trigger_merge];
      cbn [length] in Ho, Hn, Hfuel;
      (destruct (Z.gtb_spec (Z.of_nat (length Ao)) (o_cnt + 1)); [lia|]).
    + destruct (Z.gtb_spec (Z.of_nat (length An)) (n_cnt + 1)); [|lia].
      replace (Z.to_nat (o_cnt + 2 - Z.of_nat (length Ao))) with (length (o :: Or))
        by (cbn [length]; lia).
      rewrite _emit_range_spec. reflexivity.
    + destruct (Z.gtb_spec (Z.of_nat (length An)) (n_cnt + 1)); [lia|].
      rewrite merge_abs_cons.
      cbn [app]. rewrite !rd_app_r. unfold alive at 1.
      assert (Eo : Ao ++ o :: Or ++ ro = (Ao ++ [o]) ++ Or ++ ro)
        by (rewrite <- app_assoc; reflexivity).
      assert (En : An ++ n :: Nr ++ rn = (An ++ [n]) ++ Nr ++ rn)
        by (rewrite <- app_assoc; reflexivity).
      assert (Lo : Z.of_nat (length Ao) + 1 = Z.of_nat (length (Ao ++ [o])))
        by (rewrite length_app; cbn [length]; lia).
      assert (Ln : Z.of_nat (length An) + 1 = Z.of_nat (length (An ++ [n])))
        by (rewrite length_app; cbn [length]; lia).
      destruct (_aoi_object a o) as [so|].
      * destruct (n <? o).
        -- rewrite Ln. rewrite En.
           change (Ao ++ o :: Or ++ ro) with (Ao ++ (o :: Or) ++ ro).
           rewrite (IHN Ao (An ++ [n]) ro rn o_cnt n_cnt fuel);
             [reflexivity | cbn [length]; lia | rewrite length_app; cbn [length]; lia
             | cbn [length]; lia].
        -- destruct (n =? o).
           ++ rewrite Lo, Ln, Eo, En.
              apply IHO; [rewrite length_app; cbn [length]; lia
                         | rewrite length_app; cbn [length]; lia | lia].
           ++ rewrite Lo, Eo.
              change (An ++ n :: Nr ++ rn) with (An ++ (n :: Nr) ++ rn).
              rewrite (IHO (n :: Nr) (Ao ++ [o]) An ro rn o_cnt n_cnt fuel);
                [reflexivity | rewrite length_app; cbn [length]; lia
                | cbn [length]; lia | cbn [length]; lia].
      * rewrite Lo, Eo.
        change (An ++ n :: Nr ++ rn) with (An ++ (n :: Nr) ++ rn).
        apply IHO; [rewrite length_app; cbn [length]; lia | cbn [length]; lia
                   | cbn [length]; lia].
Qed.

(** The events a scan reports, from the ids of the old and of the new list. *)
Definition diff_events (a : aoi) (O N : list Z) : list aoi_event :=
  match O with
  | [] => map (fun id => mk_event id AOI_ENTER) N
  | _ :: _ => merge_abs (alive a) O N
  end.

(** The ids of the new list of a scan of the slot [x] that sits between
    [l1] and [l2] in the x chain. *)
Definition scan_ids (a : aoi) (x : Z) (enter_r leave_r : Z) (O l1 l2 : list Z) : list Z :=
  walk_abs a x enter_r leave_r O l2 (walk_abs a x enter_r leave_r O (rev l1) []).

Lemma path_ext step step' p nodes :
  (forall z, step' z = step z) -> path step p nodes -> path step' p nodes.
Proof.
  intros H. revert p. induction nodes as [|n rest IH]; intros p Hp; cbn [path] in *; [exact Hp|].
  destruct Hp as [-> Hp]. split; [reflexivity|]. rewrite H. apply IH. exact Hp.
Qed.

Lemma alive_ext a a' id :
  same_on obj_id a a' -> same_on obj_type a a' -> alive a' id = alive a id.
Proof.
  intros Hid Hty. unfold alive. rewrite (_aoi_object_ext a a' id); [reflexivity|..]; auto.
Qed.

(** A view that does not look at the two blocks. *)
Definition list_blind {A : Type} (F : aoi_object -> A) : Prop :=
  (forall v o, F (set_n_list v o) = F o) /\ (forall v o, F (set_o_list v o) = F o).

(** What a scan of a live entity does, on a state that satisfies the
    invariant: it ends; it reports the diff of the old list against the ids
    picked by the two walks; it leaves the picked ids as the old list and
    the former old block as the new one, and nothing else changes but the
    event buffer. *)
Lemma aoi_trigger_spec a id enter_r leave_r x l1 l2 O :
  inv a -> _aoi_object a id = Some x ->
  chain a 0 (l1 ++ x :: l2) -> (forall z, z ∈ l1 ++ x :: l2 <-> live a z) ->
  is_buf (obj_o_list (slot_get a x)) O ->
  exists a' cur_list,
    aoi_trigger a id enter_r leave_r
      = Some (a', Z.of_nat (length (diff_events a O
                                      (scan_ids a x enter_r leave_r O l1 l2)))) /\
    is_buf cur_list (scan_ids a x enter_r leave_r O l1 l2) /\
    aoi_id a' = aoi_id a /\ aoi_list a' = aoi_list a /\
    aoi_elist a'
      = fst (emit_all (diff_events a O (scan_ids a x enter_r leave_r O l1 l2))
                      (aoi_elist a, 0)) /\
    (forall (A : Type) (F : aoi_object -> A), list_blind F -> same_on F a a') /\
    obj_o_list (slot_get a' x) = cur_list /\
    obj_n_list (slot_get a' x) = obj_o_list (slot_get a x) /\
    (forall z, z ≠ x ->
       obj_o_list (slot_get a' z) = obj_o_list (slot_get a z) /\
       obj_n_list (slot_get a' z) = obj_n_list (slot_get a z)).
Proof.
  intros Hinv Hobj Hc Hmem HO.
  pose proof (object_live a id x Hobj) as [Hx _].
  destruct (inv_bufs a Hinv x Hx) as [(En & HEn) _].
  unfold aoi_trigger. rewrite Hobj. cbv zeta.
  set (cur0 := wr (obj_n_list (slot_get a x)) 0 0).
  set (a0 := slot_upd a x (set_n_list cur0)).
  assert (Hsame : forall (A : Type) (F : aoi_object -> A), list_blind F -> same_on F a a0).
  { intros A F [HF1 HF2]. unfold a0. apply same_on_upd. intros o. apply HF1. }
  assert (Hp0 : same_on obj_p a a0) by (apply Hsame; split; reflexivity).
  assert (Hid0 : same_on obj_id a a0) by (apply Hsame; split; reflexivity).
  assert (Hty0 : same_on obj_type a a0) by (apply Hsame; split; reflexivity).
  assert (Hpv0 : same_on obj_prev a a0) by (apply Hsame; split; reflexivity).
  assert (Hnx0 : same_on obj_next a a0) by (apply Hsame; split; reflexivity).
  assert (Hol0 : obj_o_list (slot_get a0 x) = obj_o_list (slot_get a x)).
  { unfold a0. rewrite slot_get_upd_eq. reflexivity. }
  assert (Hc0 : chain a0 0 (l1 ++ x :: l2)).
  { eapply chain_ext; [| |exact Hc]; [reflexivity|].
    intros z _. unfold prev_of, next_of. rewrite Hpv0, Hnx0. auto. }
  destruct (chain_paths a0 0 l1 x l2 Hc0) as [Hpath1 Hpath2].
  pose proof (chain_fuel a 0 _ Hinv Hc Hmem) as Hfuel.
  rewrite length_app in Hfuel. cbn [length] in Hfuel.
  assert (HO0 : is_buf (obj_o_list (slot_get a0 x)) O) by (rewrite Hol0; exact HO).
  destruct (_aoi_trigger_walk_spec a0 x 0 enter_r leave_r O (rev l1) HO0
              walk_fuel (prev_of a0 0 x) cur0 [])
    as (cur1 & Hw1 & Hb1).
  { apply (is_buf_reset _ En). exact HEn. }
  { exact Hpath1. }
  { rewrite length_rev. lia. }
  destruct (_aoi_trigger_walk_spec a0 x 1 enter_r leave_r O l2 HO0
              walk_fuel (next_of a0 0 x) cur1 _ Hb1)
    as (cur_list & Hw2 & Hb2).
  { exact Hpath2. }
  { lia. }
  rewrite Hw1. cbn [mbind option_bind]. rewrite Hw2. cbn [mbind option_bind].
  rewrite !(walk_abs_ext a a0) in Hb2 by assumption.
  fold (scan_ids a x enter_r leave_r O l1 l2) in Hb2.
  set (N := scan_ids a x enter_r leave_r O l1 l2) in *.
  rewrite Hol0.
  (* the diff *)
  assert (Hdiff :
    (if rd (obj_o_list (slot_get a x)) 0 =? 0
     then Some (_emit_range (Z.to_nat (rd cur_list 0)) cur_list 2 AOI_ENTER (aoi_elist a0, 0))
     else _aoi_trigger_merge
            (Z.to_nat (rd (obj_o_list (slot_get a x)) 0 + rd cur_list 0 + 1)) a0
            (obj_o_list (slot_get a x)) cur_list
            (rd (obj_o_list (slot_get a x)) 0) (rd cur_list 0) 2 2 (aoi_elist a0, 0))
    = Some (emit_all (diff_events a O N) (aoi_elist a0, 0))).
  { destruct HO as (capo & resto & -> & _ & _).
    destruct Hb2 as (capn & restn & -> & _ & _).
    rewrite !rd_0.
    destruct O as [|o O'].
    - cbn [length diff_events]. change (Z.of_nat 0 =? 0) with true. cbv iota.
      rewrite Nat2Z.id.
      exact (f_equal Some (_emit_range_spec N [Z.of_nat (length N); capn] restn AOI_ENTER _)).
    - destruct (Z.eqb_spec (Z.of_nat (length (o :: O'))) 0) as [E|_];
        [cbn [length] in E; lia|].
      unfold diff_events.
      rewrite (_aoi_trigger_merge_spec a0 (o :: O') N
                 [Z.of_nat (length (o :: O')); capo] [Z.of_nat (length N); capn]
                 resto restn (Z.of_nat (length (o :: O'))) (Z.of_nat (length N)));
        [| cbn [length]; lia | cbn [length]; lia | lia].
      f_equal. f_equal. apply merge_abs_ext. intros s. apply alive_ext; assumption. }
  rewrite Hdiff. cbn [mbind option_bind].
  eexists. exists cur_list. split.
  { rewrite emit_all_count. cbn [snd]. rewrite Z.add_0_l. reflexivity. }
  split; [exact Hb2|]. split; [reflexivity|]. split; [reflexivity|].
  split; [reflexivity|].
  split; [|split; [|split]].
  - intros A F [HF1 HF2].
    apply same_on_upd_r; [intros; apply HF2|].
    apply same_on_upd_r; [intros; apply HF1|].
    apply same_on_set_aoi_elist_r. apply Hsame. split; assumption.
  - rewrite slot_get_upd_eq. reflexivity.
  - rewrite slot_get_upd_eq. cbn [obj_n_list set_o_list].
    rewrite slot_get_upd_eq. cbn [obj_n_list set_n_list].
    rewrite slot_get_set_aoi_elist. exact Hol0.
  - intros z Hz. rewrite !slot_get_upd_ne by congruence.
    rewrite slot_get_set_aoi_elist. unfold a0. rewrite slot_get_upd_ne by congruence. auto.
Qed.

Lemma scan_ids_sorted a x enter_r leave_r O l1 l2 :
  ssorted (scan_ids a x enter_r leave_r O l1 l2).
Proof. unfold scan_ids. do 2 apply walk_abs_sorted. apply ssorted_nil. Qed.

(** The x chain around a live slot. *)
Lemma inv_chain_split a x :
  inv a -> live a x ->
  exists l1 l2, chain a 0 (l1 ++ x :: l2) /\ forall z, z ∈ l1 ++ x :: l2 <-> live a z.
Proof.
  intros Hinv Hx. destruct (inv_chain a Hinv 0) as (l & Hc & Hmem); [auto|].
  destruct (list_elem_of_split l x) as (l1 & l2 & ->); [apply Hmem; exact Hx|].
  exists l1, l2. auto.
Qed.

Lemma inv_trigger a id enter_r leave_r a' r :
  inv a -> aoi_trigger a id enter_r leave_r = Some (a', r) -> inv a'.
Proof.
  intros Hinv Hrun. destruct (_aoi_object a id) as [x|] eqn:Hobj.
  2:{ unfold aoi_trigger in Hrun. rewrite Hobj in Hrun. injection Hrun as <- _. exact Hinv. }
  pose proof (object_live a id x Hobj) as [Hx _].
  destruct (inv_chain_split a x Hinv Hx) as (l1 & l2 & Hc & Hmem).
  destruct (inv_bufs a Hinv x Hx) as [_ (O & HO & HsO)].
  destruct (aoi_trigger_spec a id enter_r leave_r x l1 l2 O Hinv Hobj Hc Hmem HO)
    as (a'' & cur_list & Hrun' & Hb & _ & Hlist & _ & HF & Hol & Hnl & Hother).
  rewrite Hrun in Hrun'. injection Hrun' as <- _.
  assert (Hty : same_on obj_type a a') by (apply HF; split; reflexivity).
  assert (Hlive : forall z, live a' z <-> live a z)
    by (intros z; unfold live; rewrite Hty; reflexivity).
  split.
  - intros z Hz. rewrite (HF _ obj_id) by (split; reflexivity).
    apply (inv_ids a Hinv). apply Hlive. exact Hz.
  - intros i Hi. destruct (inv_chain a Hinv i Hi) as (l & Hcl & Hml). exists l. split.
    + eapply chain_ext; [| |exact Hcl]; [rewrite Hlist; reflexivity|].
      intros z _. unfold prev_of, next_of.
      rewrite (HF _ obj_prev), (HF _ obj_next) by (split; reflexivity). auto.
    + intros z. rewrite Hml. symmetry. apply Hlive.
  - intros z Hz. apply Hlive in Hz. destruct (decide (z = x)) as [->|Hne].
    + rewrite Hol, Hnl. split; [exists O; exact HO|].
      eexists. split; [exact Hb | apply scan_ids_sorted].
    + destruct (Hother z Hne) as [-> ->]. apply (inv_bufs a Hinv z Hz).
Qed.

Lemma trigger_total a id enter_r leave_r :
  inv a -> exists a' r, aoi_trigger a id enter_r leave_r = Some (a', r).
Proof.
  intros Hinv. destruct (_aoi_object a id) as [x|] eqn:Hobj.
  2:{ exists a, 0. unfold aoi_trigger. rewrite Hobj. reflexivity. }
  pose proof (object_live a id x Hobj) as [Hx _].
  destruct (inv_chain_split a x Hinv Hx) as (l1 & l2 & Hc & Hmem).
  destruct (inv_bufs a Hinv x Hx) as [_ (O & HO & HsO)].
  destruct (aoi_trigger_spec a id enter_r leave_r x l1 l2 O Hinv Hobj Hc Hmem HO)
    as (a'' & cur_list & Hrun' & _).
  eauto.
Qed.

(** Destroying an entity. *)
Lemma inv_leave a id : inv a -> inv (aoi_leave a id).
Proof.
  intros Hinv. unfold aoi_leave. destruct (_aoi_object a id) as [x|] eqn:Hobj; [|exact Hinv].
  pose proof (object_live a id x Hobj) as [Hx _].
  set (a1 := _aoi_list_erase a 0 x). set (a2 := _aoi_list_erase a1 1 x).
  pose proof (off_axis_erase 0 a x (or_introl eq_refl)) as Hoff1. fold a1 in Hoff1.
  pose proof (off_axis_erase 1 a1 x (or_intror eq_refl)) as Hoff2. fold a2 in Hoff2.
  pose proof (off_axis_trans_any a a1 a2 Hoff1 Hoff2) as HF.
  set (a3 := slot_set a2 x (set_type AOI_OBJECT_INVALID zero_object)).
  assert (Hget : forall z, z ≠ x -> forall (A : Type) (F : aoi_object -> A),
             link_blind 0 F -> link_blind 1 F -> F (slot_get a3 z) = F (slot_get a z)).
  { intros z Hz A F H0 H1. unfold a3. rewrite slot_get_set_ne by congruence.
    apply HF; assumption. }
  assert (Hlive : forall z, live a3 z <-> live a z /\ z ≠ x).
  { intros z. unfold live. destruct (decide (z = x)) as [->|Hne].
    - unfold a3. rewrite slot_get_set_eq. cbn. split; [congruence | tauto].
    - rewrite (Hget z Hne _ obj_type) by auto with blind. tauto. }
  split.
  - intros z Hz. apply Hlive in Hz as [Hz Hne].
    rewrite (Hget z Hne _ obj_id) by auto with blind. apply (inv_ids a Hinv z Hz).
  - intros i Hi.
    destruct (inv_chain a Hinv 0) as (l & Hc & Hmem); [auto|].
    destruct (inv_chain a Hinv 1) as (m & Hcm & Hmemm); [auto|].
    destruct (list_elem_of_split l x) as (l1 & l2 & ->); [apply Hmem; exact Hx|].
    destruct (list_elem_of_split m x) as (m1 & m2 & ->); [apply Hmemm; exact Hx|].
    destruct (erase_chain a 0 l1 x l2 Hc) as (Hc1 & _ & _). fold a1 in Hc1.
    pose proof (chain_off_axis 0 1 a a1 _ ltac:(lia) Hoff1 Hcm) as Hcm1.
    destruct (erase_chain a1 1 m1 x m2 Hcm1) as (Hcm2 & _ & _). fold a2 in Hcm2.
    pose proof (chain_off_axis 1 0 a1 a2 _ ltac:(lia) Hoff2 Hc1) as Hc2.
    pose proof Hc as (_ & _ & Hnd). apply NoDup_mid in Hnd as (_ & _ & Hx1 & Hx2 & _).
    pose proof Hcm as (_ & _ & Hndm). apply NoDup_mid in Hndm as (_ & _ & Hy1 & Hy2 & _).
    destruct Hi as [-> | ->].
    + exists (l1 ++ l2). split.
      * eapply chain_ext; [| |exact Hc2]; [reflexivity|].
        intros z Hz. unfold prev_of, next_of, a3. rewrite slot_get_set_ne; [auto|].
        intros ->. apply elem_of_app in Hz as [?|?]; contradiction.
      * intros z. rewrite Hlive, <- Hmem.
        repeat first [rewrite elem_of_app | rewrite elem_of_cons].
        split; [intros [?|?]; split; auto; congruence | tauto].
    + exists (m1 ++ m2). split.
      * eapply chain_ext; [| |exact Hcm2]; [reflexivity|].
        intros z Hz. unfold prev_of, next_of, a3. rewrite slot_get_set_ne; [auto|].
        intros ->. apply elem_of_app in Hz as [?|?]; contradiction.
      * intros z. rewrite Hlive, <- Hmemm.
        repeat first [rewrite elem_of_app | rewrite elem_of_cons].
        split; [intros [?|?]; split; auto; congruence | tauto].
  - intros z Hz. apply Hlive in Hz as [Hz Hne].
    rewrite (Hget z Hne _ obj_n_list), (Hget z Hne _ obj_o_list) by auto with blind.
    apply (inv_bufs a Hinv z Hz).
Qed.

(** Creating an entity, while the counter stays within [int]. *)
Lemma aoi_enter_cases a ud :
  0 <= aoi_id a -> aoi_id a + AOI_MAX_AOI <= Int.INT_MAX ->
  (exists c, aoi_id a <= c < aoi_id a + AOI_MAX_AOI /\
     ~ live a (AOI_HASH_ID c) /\
     aoi_enter a ud
       = (_aoi_enter_finish
            (slot_set (set_aoi_id a (c + 1)) (AOI_HASH_ID c) (fresh_object c))
            (AOI_HASH_ID c) ud, c)) \/
  aoi_enter a ud = (set_aoi_id a (aoi_id a + AOI_MAX_AOI), -1).
Proof.
  intros Hpos Hmax.
  assert (Hn : Z.of_nat (Z.to_nat AOI_MAX_AOI) = AOI_MAX_AOI)
    by (apply Z2Nat.id; rewrite AOI_MAX_AOI_eq; lia).
  destruct (_aoi_next_id_loop_spec (Z.to_nat AOI_MAX_AOI) a Hpos ltac:(rewrite Hn; exact Hmax))
    as [(c & Hc & _ & Hc0 & Heq)|[_ Heq]].
  - left. exists c. rewrite Hn in Hc. split; [exact Hc|]. split.
    + unfold live. rewrite Hc0. congruence.
    + apply aoi_enter_ok; [lia | exact Heq].
  - right. apply aoi_enter_fail. unfold _aoi_next_id. rewrite Heq, Hn. reflexivity.
Qed.

Lemma enter_finish_lists a1 x ud :
  obj_n_list (slot_get (_aoi_enter_finish a1 x ud) x) = new_list /\
  obj_o_list (slot_get (_aoi_enter_finish a1 x ud) x) = new_list /\
  forall z, z ≠ x ->
    obj_n_list (slot_get (_aoi_enter_finish a1 x ud) z) = obj_n_list (slot_get a1 z) /\
    obj_o_list (slot_get (_aoi_enter_finish a1 x ud) z) = obj_o_list (slot_get a1 z).
Proof.
  unfold _aoi_enter_finish. cbv zeta. split; [|split].
  - rewrite !slot_get_upd_eq. reflexivity.
  - rewrite !slot_get_upd_eq. reflexivity.
  - intros z Hz. rewrite !slot_get_upd_ne by congruence.
    rewrite (same_on_enter_link obj_n_list 1), (same_on_enter_link obj_n_list 0)
      by auto with blind.
    rewrite (same_on_enter_link obj_o_list 1), (same_on_enter_link obj_o_list 0)
      by auto with blind.
    auto.
Qed.

Lemma enter_finish_chains a1 x ud l0 l1 :
  chain a1 0 l0 -> chain a1 1 l1 -> x ∉ l0 -> x ∉ l1 ->
  obj_prev (slot_get a1 x) = (None, None) ->
  chain (_aoi_enter_finish a1 x ud) 0 (x :: l0) /\
  chain (_aoi_enter_finish a1 x ud) 1 (x :: l1).
Proof.
  intros Hc0 Hc1 Hx0 Hx1 Hprev.
  set (a2 := _aoi_enter_link a1 0 x). set (a3 := _aoi_enter_link a2 1 x).
  pose proof (off_axis_enter_link 0 a1 x (or_introl eq_refl)) as Hoff1. fold a2 in Hoff1.
  pose proof (off_axis_enter_link 1 a2 x (or_intror eq_refl)) as Hoff2. fold a3 in Hoff2.
  assert (Hc20 : chain a2 0 (x :: l0)).
  { apply enter_link_chain; [exact Hc0 | exact Hx0|]. unfold prev_of. rewrite Hprev. reflexivity. }
  assert (Hc21 : chain a2 1 l1) by (apply (chain_off_axis 0 1 a1 a2); [lia|assumption..]).
  assert (Hc31 : chain a3 1 (x :: l1)).
  { apply enter_link_chain; [exact Hc21 | exact Hx1|]. unfold prev_of.
    destruct Hoff1 as (_ & _ & _ & HF).
    rewrite (HF _ (fun o => get2 1 (obj_prev o))) by auto with blind.
    rewrite Hprev. reflexivity. }
  assert (Hc30 : chain a3 0 (x :: l0)) by (apply (chain_off_axis 1 0 a2 a3); [lia|assumption..]).
  assert (Hlinks : forall i z,
            prev_of (_aoi_enter_finish a1 x ud) i z = prev_of a3 i z /\
            next_of (_aoi_enter_finish a1 x ud) i z = next_of a3 i z).
  { intros i z.
    assert (Hpv : same_on obj_prev a3 (_aoi_enter_finish a1 x ud))
      by (unfold _aoi_enter_finish; cbv zeta; fold a2; fold a3; same_on_tac).
    assert (Hnx : same_on obj_next a3 (_aoi_enter_finish a1 x ud))
      by (unfold _aoi_enter_finish; cbv zeta; fold a2; fold a3; same_on_tac).
    unfold prev_of, next_of. rewrite Hpv, Hnx. auto. }
  split; (eapply chain_ext; [| |eassumption]; [reflexivity | intros z _; apply Hlinks]).
Qed.

Lemma inv_enter a ud :
  inv a -> 0 <= aoi_id a -> aoi_id a + AOI_MAX_AOI <= Int.INT_MAX ->
  inv (fst (aoi_enter a ud)).
Proof.
  intros Hinv Hpos Hmax.
  destruct (aoi_enter_cases a ud Hpos Hmax) as [(c & Hc & Hfree & ->)| ->]; cbn [fst].
  2:{ revert Hinv. apply inv_frame; try reflexivity; intros z; reflexivity. }
  set (x := AOI_HASH_ID c) in *.
  set (a1 := slot_set (set_aoi_id a (c + 1)) x (fresh_object c)).
  assert (Hget1 : forall z, z ≠ x -> slot_get a1 z = slot_get a z).
  { intros z Hz. unfold a1. rewrite slot_get_set_ne by congruence. reflexivity. }
  assert (Hget1x : slot_get a1 x = fresh_object c) by (unfold a1; apply slot_get_set_eq).
  assert (Hty : same_on obj_type a1 (_aoi_enter_finish a1 x ud))
    by (apply same_on_enter_finish; auto with blind).
  assert (Hoid : same_on obj_id a1 (_aoi_enter_finish a1 x ud))
    by (apply same_on_enter_finish; auto with blind).
  assert (Hlive : forall z, live (_aoi_enter_finish a1 x ud) z <-> z = x \/ live a z).
  { intros z. unfold live. rewrite Hty. destruct (decide (z = x)) as [->|Hne].
    - rewrite Hget1x. cbn. split; [auto | intros _; discriminate].
    - rewrite Hget1 by exact Hne. tauto. }
  destruct (enter_finish_lists a1 x ud) as (Hnl & Hol & Hother).
  split.
  - intros z Hz. rewrite Hoid. apply Hlive in Hz.
    destruct (decide (z = x)) as [->|Hne].
    + rewrite Hget1x. cbn. split; [lia | reflexivity].
    + rewrite Hget1 by exact Hne. apply (inv_ids a Hinv). tauto.
  - intros i Hi.
    destruct (inv_chain a Hinv 0) as (l0 & Hc0 & Hmem0); [auto|].
    destruct (inv_chain a Hinv 1) as (l1 & Hc1 & Hmem1); [auto|].
    assert (Hx0 : x ∉ l0) by (intros E; apply Hfree, Hmem0, E).
    assert (Hx1 : x ∉ l1) by (intros E; apply Hfree, Hmem1, E).
    assert (Hc0' : chain a1 0 l0).
    { eapply chain_ext; [| |exact Hc0]; [reflexivity|].
      intros z Hz. unfold prev_of, next_of. rewrite Hget1 by congruence. auto. }
    assert (Hc1' : chain a1 1 l1).
    { eapply chain_ext; [| |exact Hc1]; [reflexivity|].
      intros z Hz. unfold prev_of, next_of. rewrite Hget1 by congruence. auto. }
    destruct (enter_finish_chains a1 x ud l0 l1 Hc0' Hc1' Hx0 Hx1) as [Hf0 Hf1].
    { rewrite Hget1x. reflexivity. }
    destruct Hi as [-> | ->].
    + exists (x :: l0). split; [exact Hf0|].
      intros z. rewrite Hlive, elem_of_cons, Hmem0. tauto.
    + exists (x :: l1). split; [exact Hf1|].
      intros z. rewrite Hlive, elem_of_cons, Hmem1. tauto.
  - intros z Hz. apply Hlive in Hz. destruct (decide (z = x)) as [->|Hne].
    + rewrite Hnl, Hol. split; [exists []; apply is_buf_new_list|].
      exists []. split; [apply is_buf_new_list | apply ssorted_nil].
    + destruct (Hother z Hne) as [-> ->]. rewrite Hget1 by exact Hne.
      apply (inv_bufs a Hinv). tauto.
Qed.

Lemma aoi_id_update_list a x d a' : _aoi_update_list a x d = Some a' -> aoi_id a' = aoi_id a.
Proof.
  unfold _aoi_update_list. intros H.
  destruct (_aoi_update_list_axis a x 0 (get2 0 d)) as [a1|] eqn:E; [|discriminate].
  change (_aoi_update_list_axis a1 x 1 (get2 1 d) = Some a') in H.
  destruct (off_axis_update_list_axis 0 a x _ a1 (or_introl eq_refl) E) as (H1 & _).
  destruct (off_axis_update_list_axis 1 a1 x _ a' (or_intror eq_refl) H) as (H2 & _).
  congruence.
Qed.

Lemma aoi_id_leave a id : aoi_id (aoi_leave a id) = aoi_id a.
Proof.
  unfold aoi_leave. destruct (_aoi_object a id); [|reflexivity].
  rewrite aoi_id_slot_set, !aoi_id_erase. reflexivity.
Qed.

Lemma aoi_id_locate a id x y a' : aoi_locate a id x y = Some a' -> aoi_id a' = aoi_id a.
Proof.
  unfold aoi_locate. destruct (_aoi_object a id); [|intros [= <-]; reflexivity].
  cbv zeta. intros H. apply aoi_id_update_list in H. exact H.
Qed.

Lemma aoi_id_trigger a id enter_r leave_r a' r :
  aoi_trigger a id enter_r leave_r = Some (a', r) -> aoi_id a' = aoi_id a.
Proof.
  unfold aoi_trigger. destruct (_aoi_object a id); [|intros [= <- _]; reflexivity].
  cbv zeta. intros H.
  repeat match type of H with
         | (?m ≫= _) = Some _ => destruct m; [cbn [mbind option_bind] in H | discriminate]
         end.
  injection H as <- _. reflexivity.
Qed.

Lemma aoi_id_enter a ud :
  0 <= aoi_id a -> aoi_id a + AOI_MAX_AOI <= Int.INT_MAX ->
  aoi_id a <= aoi_id (fst (aoi_enter a ud)).
Proof.
  intros Hpos Hmax.
  destruct (aoi_enter_cases a ud Hpos Hmax) as [(c & Hc & _ & ->)| ->]; cbn [fst].
  - rewrite aoi_id_enter_finish, aoi_id_slot_set, aoi_id_set_aoi_id. lia.
  - rewrite aoi_id_set_aoi_id, AOI_MAX_AOI_eq. lia.
Qed.

(** ** Reachable states *)

Section Reachable.

Variable sinf : float -> float.

(** [_aoi_object_update] up to the re-sorting: the tick counters and the
    position are written. *)
Definition _aoi_update_place (a : aoi) (obj : Z) (tick : Z) : aoi :=
  let ti := Z.min tick (obj_n_tick (slot_get a obj)) in
  let a1 := slot_upd a obj (fun o => set_n_tick (Int.sub (obj_n_tick o) ti) o) in
  let a2 := slot_upd a1 obj (fun o => set_p_tick (Int.add (obj_p_tick o) ti) o) in
  if obj_n_tick (slot_get a2 obj) <=? 0 then
    let a' := slot_upd a2 obj (fun o => set_p (set2 0 (get2 0 (obj_dp o)) (obj_p o)) o) in
    slot_upd a' obj (fun o => set_p (set2 1 (get2 1 (obj_dp o)) (obj_p o)) o)
  else
    let o := slot_get a2 obj in
    let ph := F32.mul (obj_e o) (F32.of_int (obj_p_tick o)) in
    let s := F32.mul (sinf ph) (sinf ph) in
    _aoi_step_axis s (_aoi_step_axis s a2 obj 0) obj 1.

Lemma _aoi_object_update_unfold a obj tick :
  _aoi_object_update sinf a obj tick
  = _aoi_update_list (_aoi_update_place a obj tick) obj
      (_aoi_dir_sign (slot_get a obj) 0, _aoi_dir_sign (slot_get a obj) 1).
Proof.
  unfold _aoi_object_update, _aoi_update_place. cbv zeta.
  rewrite !slot_get_upd_eq. reflexivity.
Qed.

Lemma struct_eq_update_place a obj tick : struct_eq a (_aoi_update_place a obj tick).
Proof.
  unfold _aoi_update_place. cbv zeta.
  destruct (_ <=? 0); [|unfold _aoi_step_axis]; struct_eq_tac.
Qed.

Lemma aoi_update_unfold a id tick obj :
  _aoi_object a id = Some obj ->
  0 < obj_speed (slot_get a obj) -> 0 < obj_n_tick (slot_get a obj) ->
  aoi_update sinf a id tick = _aoi_object_update sinf a obj tick.
Proof.
  intros Ho Hs Hn. unfold aoi_update. rewrite Ho.
  apply object_live in Ho as [Hl _]. unfold live in Hl.
  destruct (Z.eqb_spec (obj_type (slot_get a obj)) AOI_OBJECT_INVALID); [contradiction|].
  destruct (Z.leb_spec (obj_speed (slot_get a obj)) 0); [lia|].
  destruct (Z.leb_spec (obj_n_tick (slot_get a obj)) 0); [lia|]. reflexivity.
Qed.

Lemma aoi_update_cases a id tick :
  aoi_update sinf a id tick = Some a \/
  exists obj, _aoi_object a id = Some obj /\
    0 < obj_speed (slot_get a obj) /\ 0 < obj_n_tick (slot_get a obj) /\
    aoi_update sinf a id tick = _aoi_object_update sinf a obj tick.
Proof.
  unfold aoi_update. destruct (_aoi_object a id) as [obj|] eqn:Ho; [|auto].
  destruct (Z.eqb_spec (obj_type (slot_get a obj)) AOI_OBJECT_INVALID); [auto|].
  destruct (Z.leb_spec (obj_speed (slot_get a obj)) 0); [auto|].
  destruct (Z.leb_spec (obj_n_tick (slot_get a obj)) 0); [auto|].
  right. exists obj. auto.
Qed.

Lemma inv_update a id tick a' : inv a -> aoi_update sinf a id tick = Some a' -> inv a'.
Proof.
  intros Hinv H. destruct (aoi_update_cases a id tick) as [E|(obj & Ho & _ & _ & E)];
    rewrite E in H.
  - injection H as <-. exact Hinv.
  - rewrite _aoi_object_update_unfold in H.
    pose proof (inv_struct_eq _ _ (struct_eq_update_place a obj tick) Hinv) as Hinv2.
    refine (inv_update_list _ obj _ a' Hinv2 _ H).
    apply (struct_eq_live _ _ _ (struct_eq_update_place a obj tick)).
    apply (object_live a id obj Ho).
Qed.

Lemma update_total a id tick : inv a -> exists a', aoi_update sinf a id tick = Some a'.
Proof.
  intros Hinv. destruct (aoi_update_cases a id tick) as [E|(obj & Ho & _ & _ & E)];
    rewrite E; [eauto|].
  rewrite _aoi_object_update_unfold. apply update_list_total.
  - apply (inv_struct_eq _ _ (struct_eq_update_place a obj tick) Hinv).
  - apply (struct_eq_live _ _ _ (struct_eq_update_place a obj tick)).
    apply (object_live a id obj Ho).
Qed.

Lemma aoi_id_update a id tick a' : aoi_update sinf a id tick = Some a' -> aoi_id a' = aoi_id a.
Proof.
  intros H. destruct (aoi_update_cases a id tick) as [E|(obj & Ho & _ & _ & E)];
    rewrite E in H.
  - injection H as <-. reflexivity.
  - rewrite _aoi_object_update_unfold in H. apply aoi_id_update_list in H.
    rewrite H. apply (struct_eq_update_place a obj tick).
Qed.

(** The states the engine can be in: those that the API calls lead to from
    [aoi_init].  A call that walks a list contributes the state it returns.
    [aoi_enter] is only followed while its increments of the id counter
    cannot overflow [int]; the overflow of a signed increment has no defined
    result in C. *)
Inductive reachable : aoi -> Prop :=
| reach_init : reachable aoi_init
| reach_enter a ud :
    reachable a -> aoi_id a + AOI_MAX_AOI <= Int.INT_MAX ->
    reachable (fst (aoi_enter a ud))
| reach_leave a id : reachable a -> reachable (aoi_leave a id)
| reach_locate a id x y a' :
    reachable a -> aoi_locate a id x y = Some a' -> reachable a'
| reach_move a id x y : reachable a -> reachable (aoi_move a id x y)
| reach_speed a id speed : reachable a -> reachable (aoi_speed a id speed)
| reach_update a id tick a' :
    reachable a -> aoi_update sinf a id tick = Some a' -> reachable a'
| reach_trigger a id enter_r leave_r a' r :
    reachable a -> aoi_trigger a id enter_r leave_r = Some (a', r) -> reachable a'.

Lemma inv_init : inv aoi_init.
Proof.
  split.
  - intros x Hx. exfalso. apply Hx. reflexivity.
  - intros i _. exists []. split.
    + split; [destruct (i =? 0) eqn:E; unfold get2; rewrite E; reflexivity|].
      split; [exact I | constructor].
    + intros x. split; [intros H; inversion H|]. intros Hx. exfalso. apply Hx. reflexivity.
  - intros x Hx. exfalso. apply Hx. reflexivity.
Qed.

Lemma reachable_inv a : reachable a -> inv a /\ 0 <= aoi_id a.
Proof.
  induction 1 as [|a ud _ [IH Hpos] Hmax|a id _ [IH Hpos]|a id x y a' _ [IH Hpos] Hrun
                 |a id x y _ [IH Hpos]|a id speed _ [IH Hpos]
                 |a id tick a' _ [IH Hpos] Hrun|a id er lr a' r _ [IH Hpos] Hrun].
  - split; [apply inv_init | reflexivity].
  - split; [apply inv_enter; assumption|].
    pose proof (aoi_id_enter a ud Hpos Hmax). lia.
  - split; [apply inv_leave; exact IH | rewrite aoi_id_leave; exact Hpos].
  - split; [eapply inv_locate; eassumption|].
    rewrite (aoi_id_locate _ _ _ _ _ Hrun). exact Hpos.
  - split; [apply inv_move; exact IH|].
    destruct (struct_eq_move a id x y) as (-> & _). exact Hpos.
  - split; [apply inv_speed; exact IH|].
    destruct (struct_eq_speed a id speed) as (-> & _). exact Hpos.
  - split; [eapply inv_update; eassumption|].
    rewrite (aoi_id_update _ _ _ _ Hrun). exact Hpos.
  - split; [eapply inv_trigger; eassumption|].
    rewrite (aoi_id_trigger _ _ _ _ _ _ Hrun). exact Hpos.
Qed.

End Reachable.

(** ** Scanning twice *)

Lemma ssorted_NoDup E : ssorted E -> NoDup E.
Proof.
  intros Hs. induction Hs as [|x E Hs IH Hall]; [constructor|].
  apply NoDup_cons. split; [|exact IH].
  intros Hin. rewrite Forall_forall in Hall. specialize (Hall x Hin). lia.
Qed.

(** Two sorted id lists with the same ids are the same list. *)
Lemma ssorted_ext_eq E E' :
  ssorted E -> ssorted E' -> (forall y, y ∈ E <-> y ∈ E') -> E = E'.
Proof.
  intros Hs Hs' Hext.
  apply (StronglySorted_unique_strong Z.lt); try assumption.
  - intros; lia.
  - apply NoDup_Permutation; [apply ssorted_NoDup; exact Hs
                             | apply ssorted_NoDup; exact Hs' | exact Hext].
Qed.

Lemma scan_ids_elem a x enter_r leave_r O l1 l2 y :
  y ∈ scan_ids a x enter_r leave_r O l1 l2 <->
  exists n, n ∈ reached a x leave_r (rev l1) ++ reached a x leave_r l2 /\
            selected a x enter_r leave_r O n = true /\ y = obj_id (slot_get a n).
Proof.
  unfold scan_ids.
  rewrite walk_abs_elem by (apply walk_abs_sorted, ssorted_nil).
  rewrite walk_abs_elem by apply ssorted_nil.
  split.
  - intros [[H|(n & Hn & Hs & ->)]|(n & Hn & Hs & ->)]; [inversion H|..];
      exists n; rewrite elem_of_app; auto.
  - intros (n & Hn & Hs & ->). apply elem_of_app in Hn as [Hn|Hn];
      [left; right | right]; exists n; auto.
Qed.

Lemma selected_alt a x enter_r leave_r O n :
  ssorted O ->
  selected a x enter_r leave_r O n
  = selected a x enter_r leave_r [] n ||
    (selected a x enter_r leave_r [obj_id (slot_get a n)] n
     && bool_decide (obj_id (slot_get a n) ∈ O)).
Proof.
  intros Hs. unfold selected. cbv zeta.
  generalize (Int.add
    (Int.mul (Int.abs (Int.sub (coord a 0 x) (coord a 0 n)))
             (Int.abs (Int.sub (coord a 0 x) (coord a 0 n))))
    (Int.mul (Int.abs (Int.sub (coord a 1 x) (coord a 1 n)))
             (Int.abs (Int.sub (coord a 1 x) (coord a 1 n))))).
  intros d. generalize (Int.mul enter_r enter_r). intros e2.
  generalize (Int.mul leave_r leave_r). intros r2.
  rewrite (find_abs_spec (obj_id (slot_get a n)) O Hs).
  rewrite (find_abs_spec (obj_id (slot_get a n)) [] ssorted_nil).
  rewrite (find_abs_spec (obj_id (slot_get a n)) [obj_id (slot_get a n)])
    by (constructor; [constructor | constructor]).
  rewrite (bool_decide_eq_false_2 (_ ∈ [])) by (intros H; inversion H).
  rewrite (bool_decide_eq_true_2 (_ ∈ [_])) by (apply list_elem_of_singleton; reflexivity).
  destruct (d <=? e2), (d <=? r2), (bool_decide (obj_id (slot_get a n) ∈ O)); reflexivity.
Qed.

Lemma elem_of_rev (l : list Z) x : x ∈ rev l <-> x ∈ l.
Proof. rewrite !list_elem_of_In. symmetry. apply in_rev. Qed.

(** A second scan from the list the first one left picks the same ids. *)
Lemma scan_ids_idem a x enter_r leave_r O l1 l2 :
  ssorted O ->
  (forall n m, n ∈ l1 ++ l2 -> m ∈ l1 ++ l2 ->
     obj_id (slot_get a n) = obj_id (slot_get a m) -> n = m) ->
  scan_ids a x enter_r leave_r (scan_ids a x enter_r leave_r O l1 l2) l1 l2
  = scan_ids a x enter_r leave_r O l1 l2.
Proof.
  intros Hs Hinj. set (N := scan_ids a x enter_r leave_r O l1 l2).
  assert (HsN : ssorted N) by apply scan_ids_sorted.
  assert (Hnodes : forall n,
            n ∈ reached a x leave_r (rev l1) ++ reached a x leave_r l2 -> n ∈ l1 ++ l2).
  { intros n Hn. apply elem_of_app in Hn as [Hn|Hn]; apply reached_elem in Hn.
    - apply elem_of_app. left. apply elem_of_rev. exact Hn.
    - apply elem_of_app. auto. }
  apply ssorted_ext_eq; [apply scan_ids_sorted | exact HsN|].
  intros y. rewrite scan_ids_elem. unfold N at 2. rewrite scan_ids_elem.
  split; intros (n & Hn & Hsel & ->); exists n; (split; [exact Hn|]); (split; [|reflexivity]).
  - rewrite (selected_alt a x enter_r leave_r N n HsN) in Hsel.
    rewrite (selected_alt a x enter_r leave_r O n Hs).
    apply orb_true_iff in Hsel as [Hsel|Hsel]; [rewrite Hsel; reflexivity|].
    apply andb_true_iff in Hsel as [Hband Hin]. apply bool_decide_eq_true in Hin.
    unfold N in Hin. apply scan_ids_elem in Hin as (m & Hm & Hselm & Hid).
    assert (n = m) as <- by (apply Hinj; auto).
    rewrite (selected_alt a x enter_r leave_r O n Hs) in Hselm. exact Hselm.
  - assert (Hin : obj_id (slot_get a n) ∈ N).
    { unfold N. apply scan_ids_elem. exists n. auto. }
    rewrite (selected_alt a x enter_r leave_r O n Hs) in Hsel.
    rewrite (selected_alt a x enter_r leave_r N n HsN).
    apply orb_true_iff in Hsel as [Hsel|Hsel]; [rewrite Hsel; reflexivity|].
    apply andb_true_iff in Hsel as [Hband _]. rewrite Hband.
    rewrite (bool_decide_eq_true_2 _ Hin). apply orb_true_r.
Qed.

(** The merge of a list with itself reports nothing while all its ids are
    alive. *)
Lemma merge_abs_same al S :
  (forall s, s ∈ S -> al s = true) -> merge_abs al S S = [].
Proof.
  induction S as [|s S IH]; intros Hal; [reflexivity|].
  rewrite merge_abs_cons, (Hal s) by (apply elem_of_cons; auto).
  rewrite Z.ltb_irrefl, Z.eqb_refl. apply IH.
  intros t Ht. apply Hal. apply elem_of_cons. auto.
Qed.

Lemma diff_events_same a S :
  (forall s, s ∈ S -> alive a s = true) -> diff_events a S S = [].
Proof.
  intros Hal. unfold diff_events. destruct S; [reflexivity|].
  apply merge_abs_same. exact Hal.
Qed.

(** The ids a scan picks are ids of slots in use other than the scanned
    one. *)
Lemma scan_ids_live a x enter_r leave_r O l1 l2 y :
  y ∈ scan_ids a x enter_r leave_r O l1 l2 ->
  exists n, n ∈ l1 ++ l2 /\ y = obj_id (slot_get a n).
Proof.
  intros H. apply scan_ids_elem in H as (n & Hn & _ & ->). exists n. split; [|reflexivity].
  apply elem_of_app in Hn as [Hn|Hn]; apply reached_elem in Hn; apply elem_of_app.
  - left. apply elem_of_rev. exact Hn.
  - auto.
Qed.

Section ScanTwice.

Variable sinf : float -> float.


End ScanTwice.

(** ** The sort invariant of the axis lists *)

(** The coordinates do not decrease from any entity to its successor on
    axis [i]. *)
Definition axis_sorted (a : aoi) (i : Z) : Prop :=
  forall x y, live a x -> next_of a i x = Some y -> coord a i x <= coord a i y.

#[local] Instance le_on_trans (c : Z -> Z) : Transitive (fun u v => c u <= c v).
Proof. intros u v w. lia. Qed.

Lemma dseg_sorted pv nx c pp l :
  dseg pv nx pp l None ->
  (forall x y, x ∈ l -> nx x = Some y -> c x <= c y) ->
  Sorted (fun u v => c u <= c v) l.
Proof.
  revert pp. induction l as [|x l IH]; intros pp Hd Hadj; [constructor|].
  cbn [dseg] in Hd. destruct Hd as (_ & Hn & Hd). constructor.
  - eapply IH; [exact Hd|]. intros u v Hu. apply Hadj. apply elem_of_cons. auto.
  - destruct l as [|y l]; constructor. apply Hadj; [apply elem_of_cons; auto | exact Hn].
Qed.

Lemma axis_sorted_chain a i l :
  chain a i l -> (forall x, x ∈ l <-> live a x) ->
  axis_sorted a i <-> sorted_by (coord a i) l.
Proof.
  intros Hc Hmem. split.
  - intros Hs. apply Sorted_StronglySorted; [apply le_on_trans|].
    destruct Hc as (_ & Hd & _). eapply dseg_sorted; [exact Hd|].
    intros x y Hx. apply Hs. apply Hmem. exact Hx.
  - intros Hs x y Hx Hn. apply Hmem in Hx.
    apply list_elem_of_split in Hx as (l1 & l2 & ->).
    destruct (chain_links a i l1 x l2 Hc) as [_ Hnx]. rewrite Hnx in Hn.
    apply head_or_None_Some, head_elem in Hn.
    apply StronglySorted_app_1_r in Hs. apply StronglySorted_cons in Hs as [Hall _].
    rewrite Forall_forall in Hall. apply Hall. exact Hn.
Qed.

(** Re-sorting axis [i] after the slot [x] has moved from a sorted chain in
    the direction that [di] tells restores the order. *)
Lemma axis_resorted a0 a i x di a' :
  inv a -> live a x -> i = 0 \/ i = 1 ->
  (forall z, prev_of a i z = prev_of a0 i z /\ next_of a i z = next_of a0 i z) ->
  get2 i (aoi_list a) = get2 i (aoi_list a0) ->
  (forall z, live a z <-> live a0 z) ->
  axis_sorted a0 i ->
  (forall z, z ≠ x -> coord a i z = coord a0 i z) ->
  (0 < di -> coord a0 i x <= coord a i x) ->
  (di < 0 -> coord a i x <= coord a0 i x) ->
  (di = 0 -> coord a i x = coord a0 i x) ->
  _aoi_update_list_axis a x i di = Some a' ->
  axis_sorted a' i.
Proof.
  intros Hinv Hx Hi Hlinks Hhead Hlive Hs0 Hc Hpos Hneg Hzero Hrun.
  destruct (inv_chain a Hinv i Hi) as (l & Hcl & Hmem).
  assert (Hcl0 : chain a0 i l).
  { eapply chain_ext; [| |exact Hcl]; [congruence|]. intros z _.
    destruct (Hlinks z) as [-> ->]. auto. }
  assert (Hmem0 : forall z, z ∈ l <-> live a0 z) by (intros z; rewrite Hmem; apply Hlive).
  apply (axis_sorted_chain a0 i l Hcl0 Hmem0) in Hs0.
  pose proof (inv_update_list_axis a x i di a' Hinv Hx Hi Hrun) as Hinv'.
  pose proof (off_axis_update_list_axis i a x di a' Hi Hrun) as (_ & _ & _ & HF).
  assert (Hp : forall z, coord a' i z = coord a i z).
  { intros z. unfold coord. rewrite (HF _ obj_p) by auto with blind. reflexivity. }
  assert (Hlive' : forall z, live a' z <-> live a z).
  { intros z. unfold live. rewrite (HF _ obj_type) by auto with blind. reflexivity. }
  destruct (update_list_axis_spec a i x di l Hcl) as (a'' & Hrun' & Hcases).
  { apply Hmem. exact Hx. }
  { apply (chain_fuel a i l Hinv Hcl Hmem). }
  rewrite Hrun in Hrun'. injection Hrun' as <-.
  pose proof Hcl as (_ & _ & Hnd).
  destruct Hcases as [(Hd & l1 & tw & dw & -> & Htw & Hdw & Hc')
                     |[(Hd & up & tw & l2 & -> & Htw & Hup & Hc')|(Hd & ->)]].
  - apply (axis_sorted_chain a' i _ Hc').
    + intros z. rewrite Hlive', <- Hmem.
      repeat first [rewrite elem_of_app | rewrite elem_of_cons]. tauto.
    + apply (resort_fwd_sorted (coord a0 i)); try assumption.
      * intros z Hz. rewrite Hp. apply Hc. exact Hz.
      * rewrite Hp. apply Hpos. exact Hd.
      * intros n Hn. rewrite !Hp. apply Htw. exact Hn.
      * intros n Hn. rewrite !Hp. apply Hdw. exact Hn.
  - apply (axis_sorted_chain a' i _ Hc').
    + intros z. rewrite Hlive', <- Hmem.
      repeat first [rewrite elem_of_app | rewrite elem_of_cons]. tauto.
    + apply (resort_bwd_sorted (coord a0 i)); try assumption.
      * intros z Hz. rewrite Hp. apply Hc. exact Hz.
      * rewrite Hp. apply Hneg. exact Hd.
      * intros n Hn. rewrite !Hp. apply Htw. exact Hn.
      * intros n Hn. rewrite !Hp. apply Hup. exact Hn.
  - apply (axis_sorted_chain a i l Hcl Hmem).
    apply (sorted_by_ext (coord a0 i)); [|exact Hs0].
    intros z _. destruct (decide (z = x)) as [->|Hne]; [apply Hzero; exact Hd | apply Hc; exact Hne].
Qed.

(** An axis that is not re-sorted stays as it is. *)
Lemma axis_sorted_off_axis i j a a' :
  (i = 0 /\ j = 1) \/ (i = 1 /\ j = 0) ->
  off_axis i a a' -> axis_sorted a j -> axis_sorted a' j.
Proof.
  intros Hij (_ & _ & _ & HF) Hs x y Hx Hn.
  assert (Hp : same_on obj_p a a') by (apply HF; auto with blind).
  assert (Hty : same_on obj_type a a') by (apply HF; auto with blind).
  assert (Hnx : same_on (fun o => get2 j (obj_next o)) a a').
  { apply HF. destruct Hij as [[-> ->]|[-> ->]]; split; reflexivity. }
  unfold coord. rewrite !Hp. apply Hs.
  - unfold live. rewrite <- Hty. exact Hx.
  - unfold next_of. rewrite <- Hnx. exact Hn.
Qed.

(** Both axes: from sorted lists, after a move of [x] that agrees with the
    direction [d] handed to [_aoi_update_list], the lists are sorted. *)
Lemma update_list_sorted a0 a x d a' :
  inv a0 -> struct_eq a0 a -> live a0 x ->
  axis_sorted a0 0 -> axis_sorted a0 1 ->
  (forall z, z ≠ x -> obj_p (slot_get a z) = obj_p (slot_get a0 z)) ->
  (forall i, i = 0 \/ i = 1 ->
     (0 < get2 i d -> coord a0 i x <= coord a i x) /\
     (get2 i d < 0 -> coord a i x <= coord a0 i x) /\
     (get2 i d = 0 -> coord a i x = coord a0 i x)) ->
  _aoi_update_list a x d = Some a' ->
  axis_sorted a' 0 /\ axis_sorted a' 1.
Proof.
  intros Hinv0 Hse Hx0 Hs0 Hs1 Hp Hdir Hrun.
  pose proof (inv_struct_eq _ _ Hse Hinv0) as Hinv.
  pose proof Hse as (_ & Hlist & _ & HF).
  assert (Hlive : forall z, live a z <-> live a0 z) by (intros z; apply struct_eq_live; exact Hse).
  assert (Hx : live a x) by (apply Hlive; exact Hx0).
  assert (Hlinks : forall i z,
            prev_of a i z = prev_of a0 i z /\ next_of a i z = next_of a0 i z).
  { intros i z. unfold prev_of, next_of.
    rewrite (HF _ obj_prev), (HF _ obj_next) by auto with blind. auto. }
  assert (Hc : forall i z, z ≠ x -> coord a i z = coord a0 i z).
  { intros i z Hz. unfold coord. rewrite Hp by exact Hz. reflexivity. }
  unfold _aoi_update_list in Hrun.
  destruct (_aoi_update_list_axis a x 0 (get2 0 d)) as [a1|] eqn:E; [|discriminate].
  change (_aoi_update_list_axis a1 x 1 (get2 1 d) = Some a') in Hrun.
  destruct (Hdir 0 (or_introl eq_refl)) as (Hd0p & Hd0n & Hd0z).
  destruct (Hdir 1 (or_intror eq_refl)) as (Hd1p & Hd1n & Hd1z).
  pose proof (axis_resorted a0 a 0 x (get2 0 d) a1 Hinv Hx (or_introl eq_refl)
                (Hlinks 0) ltac:(rewrite Hlist; reflexivity) Hlive Hs0 (Hc 0)
                Hd0p Hd0n Hd0z E) as Hs0'.
  pose proof (off_axis_update_list_axis 0 a x (get2 0 d) a1 (or_introl eq_refl) E) as Hoff0.
  pose proof (off_axis_update_list_axis 1 a1 x _ a' (or_intror eq_refl) Hrun) as Hoff1.
  pose proof (inv_update_list_axis a x 0 _ a1 Hinv Hx (or_introl eq_refl) E) as Hinv1.
  pose proof Hoff0 as (_ & _ & Hh1 & HF0).
  assert (Hx1 : live a1 x).
  { unfold live. rewrite (HF0 _ obj_type) by auto with blind. exact Hx. }
  split.
  - apply (axis_sorted_off_axis 1 0 a1 a'); [lia | exact Hoff1 | exact Hs0'].
  - apply (axis_resorted a0 a1 1 x (get2 1 d) a' Hinv1 Hx1 (or_intror eq_refl)); try assumption.
    + intros z. unfold prev_of, next_of.
      rewrite (HF0 _ (fun o => get2 1 (obj_prev o))) by auto with blind.
      rewrite (HF0 _ (fun o => get2 1 (obj_next o))) by auto with blind.
      apply (Hlinks 1 z).
    + change (1 - 0) with 1 in Hh1. rewrite Hh1, Hlist. reflexivity.
    + intros z. rewrite <- Hlive. unfold live.
      rewrite (HF0 _ obj_type) by auto with blind. reflexivity.
    + intros z Hz. unfold coord. rewrite (HF0 _ obj_p) by auto with blind. apply (Hc 1 z Hz).
    + intros H. unfold coord. rewrite (HF0 _ obj_p) by auto with blind. apply Hd1p. exact H.
    + intros H. unfold coord. rewrite (HF0 _ obj_p) by auto with blind. apply Hd1n. exact H.
    + intros H. unfold coord. rewrite (HF0 _ obj_p) by auto with blind. apply Hd1z. exact H.
Qed.

(** A run of the sort check along axis [i] from the pointer [p]. *)
Fixpoint sorted_from (fuel : nat) (a : aoi) (i : Z) (p : ptr) : bool :=
  match fuel with
  | O => false
  | S fuel' =>
      match p with
      | None => true
      | Some x =>
          match next_of a i x with
          | None => true
          | Some y => (coord a i x <=? coord a i y) && sorted_from fuel' a i (Some y)
          end
      end
  end.

(** The sort invariant as a check that walks the list from its head. *)
Definition axis_sortedb (a : aoi) (i : Z) : bool :=
  sorted_from walk_fuel a i (get2 i (aoi_list a)).

Lemma sorted_from_sound fuel a i pp l :
  dseg (prev_of a i) (next_of a i) pp l None ->
  sorted_from fuel a i (head_or l None) = true ->
  forall x y, x ∈ l -> next_of a i x = Some y -> coord a i x <= coord a i y.
Proof.
  revert fuel pp. induction l as [|z l IH]; intros fuel pp Hd Hrun x y Hx Hn; [inversion Hx|].
  destruct fuel as [|fuel]; [discriminate|].
  cbn [dseg] in Hd. destruct Hd as (_ & Hnz & Hd).
  cbn [sorted_from head_or] in Hrun. rewrite Hnz in Hrun.
  apply elem_of_cons in Hx as [->|Hx].
  - rewrite Hnz in Hn. rewrite Hn in Hrun.
    apply andb_true_iff in Hrun as [Hle _]. apply Z.leb_le. exact Hle.
  - destruct l as [|w l]; [inversion Hx|]. cbn [head_or] in Hrun.
    apply andb_true_iff in Hrun as [_ Hrun].
    apply (IH fuel (Some z) Hd Hrun x y Hx Hn).
Qed.

Lemma axis_sortedb_sound a i :
  inv a -> i = 0 \/ i = 1 -> axis_sortedb a i = true -> axis_sorted a i.
Proof.
  intros Hinv Hi Hb. destruct (inv_chain a Hinv i Hi) as (l & (Hh & Hd & _) & Hmem).
  unfold axis_sortedb in Hb. rewrite Hh in Hb.
  intros x y Hx. apply (sorted_from_sound walk_fuel a i None l Hd Hb).
  apply Hmem. exact Hx.
Qed.

Lemma _aoi_dir_sign_cases o i : _aoi_dir_sign o i = 1 \/ _aoi_dir_sign o i = -1.
Proof. unfold _aoi_dir_sign. destruct (F32.ltb _ _); [left | right]; reflexivity. Qed.

Lemma locate_place_coords a obj x y :
  coord (_aoi_locate_place a obj x y) 0 obj = x /\
  coord (_aoi_locate_place a obj x y) 1 obj = y /\
  forall z, z ≠ obj -> slot_get (_aoi_locate_place a obj x y) z = slot_get a z.
Proof.
  unfold _aoi_locate_place, coord. split; [|split].
  - rewrite !slot_get_upd_eq. reflexivity.
  - rewrite !slot_get_upd_eq. reflexivity.
  - intros z Hz. rewrite !slot_get_upd_ne by congruence. reflexivity.
Qed.

Section SortInvariant.

Variable sinf : float -> float.

Lemma update_place_other a obj tick z :
  z ≠ obj -> slot_get (_aoi_update_place sinf a obj tick) z = slot_get a z.
Proof.
  intros Hz. unfold _aoi_update_place. cbv zeta.
  destruct (_ <=? 0); [|unfold _aoi_step_axis]; rewrite !slot_get_upd_ne by congruence;
    reflexivity.
Qed.


End SortInvariant.

(** A teleport that leaves the x list unsorted: A is created and placed at
    (-10,0); B is created (at the head of both lists, at the origin) and
    teleported to (-5,0).  Its x coordinate decreased, so the walk goes
    towards the head, where B already is: B stays in front of A. *)
Definition teleport_behind_head : option aoi :=
  let '(a, idA) := aoi_enter aoi_init 0 in
  a ← aoi_locate a idA (-10) 0;
  let '(a, idB) := aoi_enter a 0 in
  aoi_locate a idB (-5) 0.


(** ** Concrete reachable states *)

(** Two entities: 0 at the origin, 1 teleported to (200,0). *)
Definition pair_at_origin : aoi := fst (aoi_enter (fst (aoi_enter aoi_init 0)) 0).
Definition pair_apart : aoi :=
  Eval vm_compute in default aoi_init (aoi_locate pair_at_origin 1 200 0).

Lemma reachable_pair_apart sinf : reachable sinf pair_apart.
Proof.
  apply (reach_locate sinf pair_at_origin 1 200 0).
  - apply reach_enter; [apply reach_enter; [apply reach_init|]|]; vm_compute; discriminate.
  - vm_compute. reflexivity.
Qed.

(** Two entities at the origin: the first scan of 0 reports ENTER 1, the
    second scan nothing. *)
Lemma reachable_pair_at_origin sinf : reachable sinf pair_at_origin.
Proof.
  apply reach_enter; [apply reach_enter; [apply reach_init|]|]; vm_compute; discriminate.
Qed.



(** ** Advancing to the end of a move *)

Section Advance.

Variable sinf : float -> float.

Lemma update_place_snap a obj tick :
  0 < obj_n_tick (slot_get a obj) -> obj_n_tick (slot_get a obj) <= tick ->
  obj_n_tick (slot_get (_aoi_update_place sinf a obj tick) obj) = 0 /\
  obj_p_tick (slot_get (_aoi_update_place sinf a obj tick) obj)
    = Int.add (obj_p_tick (slot_get a obj)) (obj_n_tick (slot_get a obj)) /\
  obj_p (slot_get (_aoi_update_place sinf a obj tick) obj) = obj_dp (slot_get a obj).
Proof.
  intros Hn Ht. unfold _aoi_update_place. cbv zeta.
  rewrite Z.min_r by lia.
  assert (Hz : Int.sub (obj_n_tick (slot_get a obj)) (obj_n_tick (slot_get a obj)) = 0).
  { unfold Int.sub. rewrite Z.sub_diag. reflexivity. }
  assert (Hcond : obj_n_tick
            (slot_get
               (slot_upd
                  (slot_upd a obj
                     (fun o => set_n_tick
                                 (Int.sub (obj_n_tick o) (obj_n_tick (slot_get a obj))) o))
                  obj
                  (fun o => set_p_tick
                              (Int.add (obj_p_tick o) (obj_n_tick (slot_get a obj))) o))
               obj) = 0).
  { rewrite !slot_get_upd_eq. cbn [obj_n_tick set_p_tick set_n_tick]. exact Hz. }
  rewrite Hcond. change (0 <=? 0) with true. cbv iota.
  rewrite !slot_get_upd_eq.
  cbn [obj_n_tick obj_p_tick obj_p obj_dp set_p set_p_tick set_n_tick].
  split; [exact Hz|]. split; [reflexivity|].
  destruct (obj_dp (slot_get a obj)). reflexivity.
Qed.


End Advance.

Lemma reachable_moving_entity sinf : reachable sinf moving_entity.
Proof.
  apply reach_move, reach_speed, reach_enter; [apply reach_init|].
  vm_compute. discriminate.
Qed.


(** ** How many events a scan can report *)

(** The ids that count against the old list of [x]: its own ids, and the
    ids of live entities that are smaller than one of them. *)
Definition in_reach (a : aoi) (x u : Z) : Prop :=
  u ∈ old_ids a x \/
  exists n s, live a n /\ obj_id (slot_get a n) = u /\ s ∈ old_ids a x /\ u < s.

(** The ids in use and the ids in the old lists are below the counter; the
    ids that count against an old list hash to different slots.  (An id in an
    old list was live when the list was made, and so was every entity that is
    live now and has a smaller id.) *)
Record cinv (a : aoi) : Prop := mk_cinv {
  cinv_ids : forall x, live a x -> obj_id (slot_get a x) < aoi_id a;
  cinv_old : forall x s, live a x -> s ∈ old_ids a x -> 0 <= s < aoi_id a;
  cinv_inj : forall x u v, live a x -> in_reach a x u -> in_reach a x v ->
    AOI_HASH_ID u = AOI_HASH_ID v -> u = v
}.

(** Steps after which every slot in use is either as before or fresh. *)
Lemma cinv_mono a a' :
  aoi_id a <= aoi_id a' ->
  (forall z, live a' z ->
     (live a z /\ obj_id (slot_get a' z) = obj_id (slot_get a z) /\
      old_ids a' z = old_ids a z) \/
     (aoi_id a <= obj_id (slot_get a' z) < aoi_id a' /\ old_ids a' z = [])) ->
  cinv a -> cinv a'.
Proof.
  intros Hcnt Hslots [H1 H2 H3]. split.
  - intros x Hx. destruct (Hslots x Hx) as [(Hl & -> & _)|(Hr & _)]; [|lia].
    specialize (H1 x Hl). lia.
  - intros x s Hx Hs. destruct (Hslots x Hx) as [(Hl & _ & E)|(_ & E)]; rewrite E in Hs.
    + specialize (H2 x s Hl Hs). lia.
    + inversion Hs.
  - intros x u v Hx Hu Hv. destruct (Hslots x Hx) as [(Hl & _ & E)|(_ & E)].
    + assert (Hback : forall w, in_reach a' x w -> in_reach a x w).
      { intros w [Hw|(n & s & Hn & Hid & Hs & Hlt)]; rewrite E in *; [left; exact Hw|].
        destruct (Hslots n Hn) as [(Hln & Hidn & _)|(Hr & _)].
        - right. exists n, s. rewrite <- Hidn. auto.
        - specialize (H2 x s Hl Hs). lia. }
      apply (H3 x u v Hl); auto.
    + exfalso. destruct Hu as [Hu|(n & s & _ & _ & Hs & _)]; rewrite E in *;
        [inversion Hu | inversion Hs].
Qed.

Lemma cinv_frame a a' :
  aoi_id a' = aoi_id a ->
  same_on obj_id a a' -> same_on obj_type a a' -> same_on obj_o_list a a' ->
  cinv a -> cinv a'.
Proof.
  intros Hcnt Hid Hty Hol. apply cinv_mono; [lia|].
  intros z Hz. left. unfold live, old_ids in *. rewrite <- Hty, Hid, Hol. auto.
Qed.

Lemma cinv_struct_eq a a' : struct_eq a a' -> cinv a -> cinv a'.
Proof.
  intros (Hcnt & _ & _ & HF). apply cinv_frame; [exact Hcnt|..]; apply HF; auto with blind.
Qed.

Lemma cinv_update_list a x d a' : _aoi_update_list a x d = Some a' -> cinv a -> cinv a'.
Proof.
  intros H. apply cinv_frame; [apply (aoi_id_update_list _ _ _ _ H)|..];
    (eapply same_on_update_list; [| |exact H]; auto with blind).
Qed.

Lemma cinv_locate a id x y a' : aoi_locate a id x y = Some a' -> cinv a -> cinv a'.
Proof.
  intros H Hc. destruct (_aoi_object a id) as [obj|] eqn:Ho.
  - rewrite (aoi_locate_unfold a id x y obj Ho) in H.
    apply (cinv_update_list _ _ _ _ H).
    apply (cinv_struct_eq _ _ (struct_eq_locate_place a obj x y) Hc).
  - unfold aoi_locate in H. rewrite Ho in H. injection H as <-. exact Hc.
Qed.

Lemma cinv_leave a id : cinv a -> cinv (aoi_leave a id).
Proof.
  apply cinv_mono; [rewrite aoi_id_leave; lia|].
  intros z Hz. left. unfold aoi_leave in *.
  destruct (_aoi_object a id) as [x|] eqn:Hobj; [|auto].
  set (a1 := _aoi_list_erase a 0 x) in *. set (a2 := _aoi_list_erase a1 1 x) in *.
  pose proof (off_axis_erase 0 a x (or_introl eq_refl)) as Hoff1. fold a1 in Hoff1.
  pose proof (off_axis_erase 1 a1 x (or_intror eq_refl)) as Hoff2. fold a2 in Hoff2.
  pose proof (off_axis_trans_any a a1 a2 Hoff1 Hoff2) as HF.
  destruct (decide (z = x)) as [->|Hne].
  - exfalso. apply Hz. unfold live. rewrite slot_get_set_eq. reflexivity.
  - unfold live, old_ids in *. rewrite slot_get_set_ne in * by congruence.
    rewrite (HF _ obj_type) in Hz by auto with blind.
    rewrite (HF _ obj_id), (HF _ obj_o_list) by auto with blind. auto.
Qed.

Lemma cinv_enter a ud :
  0 <= aoi_id a -> aoi_id a + AOI_MAX_AOI <= Int.INT_MAX ->
  cinv a -> cinv (fst (aoi_enter a ud)).
Proof.
  intros Hpos Hmax.
  apply cinv_mono; [apply aoi_id_enter; assumption|].
  destruct (aoi_enter_cases a ud Hpos Hmax) as [(c & Hc & Hfree & ->)| ->]; cbn [fst].
  2:{ intros z Hz. left. auto. }
  set (x := AOI_HASH_ID c) in *.
  set (a1 := slot_set (set_aoi_id a (c + 1)) x (fresh_object c)).
  destruct (enter_finish_lists a1 x ud) as (_ & Hol & Hother).
  assert (Hty : same_on obj_type a1 (_aoi_enter_finish a1 x ud))
    by (apply same_on_enter_finish; auto with blind).
  assert (Hoid : same_on obj_id a1 (_aoi_enter_finish a1 x ud))
    by (apply same_on_enter_finish; auto with blind).
  intros z Hz. unfold live, old_ids in *. rewrite Hty in Hz. rewrite Hoid.
  rewrite aoi_id_enter_finish. destruct (decide (z = x)) as [->|Hne].
  - right. rewrite Hol. unfold a1. rewrite slot_get_set_eq.
    rewrite aoi_id_slot_set, aoi_id_set_aoi_id. cbn [obj_id fresh_object set_id].
    split; [lia | reflexivity].
  - left. destruct (Hother z Hne) as [_ ->]. unfold a1 in *.
    rewrite slot_get_set_ne in * by congruence. auto.
Qed.

Lemma cinv_init : cinv aoi_init.
Proof.
  split; intros x; intros; exfalso; match goal with H : live _ _ |- _ => apply H end;
    reflexivity.
Qed.

Lemma cinv_trigger a id enter_r leave_r a' r :
  inv a -> cinv a -> aoi_trigger a id enter_r leave_r = Some (a', r) -> cinv a'.
Proof.
  intros Hinv Hc Hrun. destruct (_aoi_object a id) as [x|] eqn:Hobj.
  2:{ unfold aoi_trigger in Hrun. rewrite Hobj in Hrun. injection Hrun as <- _. exact Hc. }
  pose proof (object_live a id x Hobj) as [Hx _].
  destruct (inv_chain_split a x Hinv Hx) as (l1 & l2 & Hch & Hmem).
  destruct (inv_bufs a Hinv x Hx) as [_ (O & HO & HsO)].
  destruct (aoi_trigger_spec a id enter_r leave_r x l1 l2 O Hinv Hobj Hch Hmem HO)
    as (a'' & cur_list & Hrun' & Hb & Hcnt & _ & _ & HF & Hol & _ & Hother).
  rewrite Hrun in Hrun'. injection Hrun' as <- _.
  assert (Hty : same_on obj_type a a') by (apply HF; split; reflexivity).
  assert (Hid : same_on obj_id a a') by (apply HF; split; reflexivity).
  assert (Hlive : forall z, live a' z <-> live a z)
    by (intros z; unfold live; rewrite Hty; reflexivity).
  assert (Hold : forall z, z ≠ x -> old_ids a' z = old_ids a z)
    by (intros z Hz; unfold old_ids; destruct (Hother z Hz) as [-> _]; reflexivity).
  assert (Hnew : forall s, s ∈ old_ids a' x ->
            exists n, live a n /\ s = obj_id (slot_get a n)).
  { intros s Hs. unfold old_ids in Hs. rewrite Hol, (is_buf_elems _ _ Hb) in Hs.
    apply scan_ids_live in Hs as (n & Hn & ->). exists n. split; [|reflexivity].
    apply Hmem. revert Hn. repeat first [rewrite elem_of_app | rewrite elem_of_cons]. tauto. }
  destruct Hc as [H1 H2 H3]. split.
  - intros z Hz. rewrite Hid, Hcnt. apply H1, Hlive, Hz.
  - intros z s Hz Hs. rewrite Hcnt. apply Hlive in Hz.
    destruct (decide (z = x)) as [->|Hne].
    + destruct (Hnew s Hs) as (n & Hn & ->).
      pose proof (inv_ids a Hinv n Hn). specialize (H1 n Hn). lia.
    + rewrite (Hold z Hne) in Hs. apply (H2 z s Hz Hs).
  - intros z u v Hz Hu Hv Heq. apply Hlive in Hz.
    destruct (decide (z = x)) as [->|Hne].
    + assert (Hlid : forall w, in_reach a' x w ->
                exists n, live a n /\ w = obj_id (slot_get a n)).
      { intros w [Hw|(n & s & Hn & Hw & _)]; [apply Hnew; exact Hw|].
        exists n. rewrite <- Hid. split; [apply Hlive; exact Hn | auto]. }
      destruct (Hlid u Hu) as (n & Hn & ->). destruct (Hlid v Hv) as (m & Hm & ->).
      destruct (inv_ids a Hinv n Hn) as [_ En]. destruct (inv_ids a Hinv m Hm) as [_ Em].
      rewrite En, Em in Heq. subst m. reflexivity.
    + assert (Hback : forall w, in_reach a' z w -> in_reach a z w).
      { intros w [Hw|(n & s & Hn & Hw & Hs & Hlt)]; rewrite (Hold z Hne) in *;
          [left; exact Hw|].
        right. exists n, s. rewrite <- Hid. split; [apply Hlive; exact Hn | auto]. }
      apply (H3 z u v Hz); auto.
Qed.

Section EventCount.
Variable sinf : float -> float.

Lemma cinv_update a id tick a' : cinv a -> aoi_update sinf a id tick = Some a' -> cinv a'.
Proof.
  intros Hc H. destruct (aoi_update_cases sinf a id tick) as [E|(obj & Ho & _ & _ & E)];
    rewrite E in H.
  - injection H as <-. exact Hc.
  - rewrite _aoi_object_update_unfold in H.
    apply (cinv_update_list _ _ _ _ H).
    apply (cinv_struct_eq _ _ (struct_eq_update_place sinf a obj tick) Hc).
Qed.

Lemma reachable_cinv a : reachable sinf a -> cinv a.
Proof.
  induction 1 as [|a ud Hr IH Hmax|a id _ IH|a id x y a' _ IH Hrun
                 |a id x y _ IH|a id speed _ IH
                 |a id tick a' _ IH Hrun|a id er lr a' r Hr IH Hrun].
  - apply cinv_init.
  - apply cinv_enter; [apply (reachable_inv sinf a Hr) | exact Hmax | exact IH].
  - apply cinv_leave. exact IH.
  - exact (cinv_locate _ _ _ _ _ Hrun IH).
  - exact (cinv_struct_eq _ _ (struct_eq_move a id x y) IH).
  - exact (cinv_struct_eq _ _ (struct_eq_speed a id speed) IH).
  - exact (cinv_update _ _ _ _ IH Hrun).
  - refine (cinv_trigger _ _ _ _ _ _ _ IH Hrun). apply (reachable_inv sinf a Hr).
Qed.

End EventCount.

(** The ids of the events of a merge come out in increasing order; each is
    an id of the new list, or an id of the old list that is alive or above
    the whole new list (the flush after the new list is used up). *)
Lemma ev_id_mk_event e L : map ev_id (map (fun id => mk_event id e) L) = L.
Proof. induction L as [|x L IH]; cbn [map ev_id]; [reflexivity | rewrite IH; reflexivity]. Qed.

Lemma ssorted_inv x E : ssorted (x :: E) -> ssorted E /\ forall y, y ∈ E -> x < y.
Proof.
  intros H. apply StronglySorted_inv in H as [Hs Hall]. split; [exact Hs|].
  apply Forall_forall. exact Hall.
Qed.

Lemma ssorted_cons x E : ssorted E -> (forall y, y ∈ E -> x < y) -> ssorted (x :: E).
Proof. intros Hs Hall. constructor; [exact Hs | apply Forall_forall; exact Hall]. Qed.

Definition from_merge (al : Z -> bool) (O N : list Z) (id : Z) : Prop :=
  id ∈ N \/ (id ∈ O /\ (al id = true \/ forall n, n ∈ N -> n < id)).

Lemma merge_abs_ids al O N :
  ssorted O -> ssorted N ->
  ssorted (map ev_id (merge_abs al O N)) /\
  forall id, id ∈ map ev_id (merge_abs al O N) -> from_merge al O N id.
Proof.
  revert N. induction O as [|o O IHO]; intros N HO HN.
  { rewrite merge_abs_nil_l, ev_id_mk_event. split; [exact HN|]. intros id H. left. exact H. }
  apply ssorted_inv in HO as [HO' Ho].
  induction N as [|n N IHN].
  { rewrite merge_abs_nil_r, ev_id_mk_event. split; [apply ssorted_cons; assumption|].
    intros id H. right. split; [exact H|]. right. intros n Hn. inversion Hn. }
  pose proof HN as HN0. apply ssorted_inv in HN0 as [HN' Hn].
  rewrite merge_abs_cons. destruct (al o) eqn:Hal.
  - destruct (Z.ltb_spec n o) as [Hlt|Hge].
    + destruct (IHN HN') as [Hs Hfrom]. cbn [map ev_id].
      assert (Hrest : forall id, id ∈ map ev_id (merge_abs al (o :: O) N) ->
                n < id /\ from_merge al (o :: O) (n :: N) id).
      { intros id Hid. destruct (Hfrom id Hid) as [HinN|(HinO & Hwhy)].
        - split; [apply Hn; exact HinN|]. left. apply elem_of_cons. auto.
        - assert (o <= id).
          { apply elem_of_cons in HinO as [->|HinO]; [lia|]. specialize (Ho id HinO). lia. }
          split; [lia|]. right. split; [exact HinO|].
          destruct Hwhy as [?|Hall]; [auto|]. right. intros m Hm.
          apply elem_of_cons in Hm as [->|Hm]; [lia | auto]. }
      split; [apply ssorted_cons; [exact Hs|]; intros y Hy; apply Hrest; exact Hy|].
      intros id Hid. apply elem_of_cons in Hid as [->|Hid]; [|apply Hrest; exact Hid].
      left. apply elem_of_cons. auto.
    + destruct (Z.eqb_spec n o) as [->|Hne].
      * destruct (IHO N HO' HN') as [Hs Hfrom]. split; [exact Hs|].
        intros id Hid. destruct (Hfrom id Hid) as [HinN|(HinO & Hwhy)].
        -- left. apply elem_of_cons. auto.
        -- right. split; [apply elem_of_cons; auto|].
           destruct Hwhy as [?|Hall]; [auto|]. right. intros m Hm.
           apply elem_of_cons in Hm as [->|Hm]; [apply Ho; exact HinO | auto].
      * destruct (IHO (n :: N) HO' HN) as [Hs Hfrom]. cbn [map ev_id].
        assert (Hrest : forall id, id ∈ map ev_id (merge_abs al O (n :: N)) ->
                  o < id /\ from_merge al (o :: O) (n :: N) id).
        { intros id Hid. destruct (Hfrom id Hid) as [HinN|(HinO & Hwhy)].
          - split; [|left; exact HinN].
            apply elem_of_cons in HinN as [->|HinN]; [lia|]. specialize (Hn id HinN). lia.
          - split; [apply Ho; exact HinO|]. right. split; [apply elem_of_cons; auto | exact Hwhy]. }
        split; [apply ssorted_cons; [exact Hs|]; intros y Hy; apply Hrest; exact Hy|].
        intros id Hid. apply elem_of_cons in Hid as [->|Hid]; [|apply Hrest; exact Hid].
        right. split; [apply elem_of_cons; auto | auto].
  - destruct (IHO (n :: N) HO' HN) as [Hs Hfrom]. split; [exact Hs|].
    intros id Hid. destruct (Hfrom id Hid) as [HinN|(HinO & Hwhy)]; [left; exact HinN|].
    right. split; [apply elem_of_cons; auto | exact Hwhy].
Qed.

Lemma diff_events_ids a O N :
  ssorted O -> ssorted N ->
  ssorted (map ev_id (diff_events a O N)) /\
  forall id, id ∈ map ev_id (diff_events a O N) -> from_merge (alive a) O N id.
Proof.
  intros HO HN. destruct O as [|o O]; [|apply merge_abs_ids; assumption].
  cbn [diff_events]. rewrite ev_id_mk_event. split; [exact HN|]. intros id H. left. exact H.
Qed.

(** The events of a diff of the old list of a live slot against a list of
    ids of live entities hash to different slots, so there are at most
    [AOI_MAX_AOI] of them. *)
Lemma diff_events_hash_inj a x N u v :
  inv a -> cinv a -> live a x ->
  (forall n, n ∈ N -> exists z, live a z /\ n = obj_id (slot_get a z)) ->
  u ∈ N -> from_merge (alive a) (old_ids a x) N v ->
  AOI_HASH_ID u = AOI_HASH_ID v -> u = v.
Proof.
  intros Hinv Hc Hx HN Hu Hv Heq.
  assert (Hslot : forall z, live a z -> AOI_HASH_ID u = AOI_HASH_ID (obj_id (slot_get a z)) ->
            u = obj_id (slot_get a z)).
  { intros z Hz E. destruct (HN u Hu) as (zu & Hzu & ->).
    destruct (inv_ids a Hinv zu Hzu) as [_ E1]. destruct (inv_ids a Hinv z Hz) as [_ E2].
    rewrite E1, E2 in E. subst z. reflexivity. }
  destruct Hv as [Hv|(Hv & [Hal|Hall])].
  - destruct (HN v Hv) as (z & Hz & ->). apply Hslot; assumption.
  - unfold alive in Hal. destruct (_aoi_object a v) as [z|] eqn:Ho; [|discriminate].
    destruct (object_live a v z Ho) as [Hz <-]. apply Hslot; [exact Hz|].
    rewrite Heq. reflexivity.
  - apply (cinv_inj a Hc x u v Hx); [|left; exact Hv|exact Heq].
    destruct (HN u Hu) as (z & Hz & E). right. exists z, v. rewrite <- E. auto.
Qed.

Lemma diff_events_bound a x N :
  inv a -> cinv a -> live a x -> ssorted (old_ids a x) -> ssorted N ->
  (forall n, n ∈ N -> exists z, live a z /\ n = obj_id (slot_get a z)) ->
  Z.of_nat (length (diff_events a (old_ids a x) N)) <= AOI_MAX_AOI.
Proof.
  intros Hinv Hc Hx HO HsN HN.
  destruct (diff_events_ids a (old_ids a x) N HO HsN) as [Hs Hfrom].
  set (W := map ev_id (diff_events a (old_ids a x) N)) in *.
  assert (Hlen : (length (map AOI_HASH_ID W) <= Z.to_nat AOI_MAX_AOI)%nat).
  { apply NoDup_range_length.
    - apply NoDup_fmap_2_strong; [|apply ssorted_NoDup; exact Hs].
      intros u v Hu Hv Heq. pose proof (Hfrom u Hu) as Fu. pose proof (Hfrom v Hv) as Fv.
      destruct Fu as [Hu1|(Hu1 & Hu2)].
      + apply (diff_events_hash_inj a x N u v); assumption.
      + destruct Fv as [Hv1|(Hv1 & Hv2)].
        * symmetry. apply (diff_events_hash_inj a x N v u); unfold from_merge; auto.
        * apply (cinv_inj a Hc x u v Hx); [left; exact Hu1 | left; exact Hv1 | exact Heq].
    - intros h Hh. apply list_elem_of_fmap in Hh as (u & -> & Hu).
      rewrite Z2Nat.id by (rewrite AOI_MAX_AOI_eq; lia).
      apply AOI_HASH_ID_range.
      destruct (Hfrom u Hu) as [Hu1|(Hu1 & _)].
      + destruct (HN u Hu1) as (z & Hz & ->). apply (inv_ids a Hinv z Hz).
      + apply (cinv_old a Hc x u Hx Hu1). }
  unfold W in Hlen. rewrite !length_map in Hlen.
  apply Nat2Z.inj_le in Hlen. rewrite Z2Nat.id in Hlen by (rewrite AOI_MAX_AOI_eq; lia).
  exact Hlen.
Qed.

(** The cells of the event buffer that [emit_all] writes are those from the
    count it starts at up to the count it ends at. *)
Lemma emit_all_frame evs m r0 k :
  fst (emit_all evs (m, r0)) !! k ≠ m !! k -> r0 <= k < r0 + Z.of_nat (length evs).
Proof.
  revert m r0. induction evs as [|ev evs IH]; intros m r0 Hk.
  - exfalso. apply Hk. reflexivity.
  - cbn [emit_all fold_left] in Hk.
    change (fold_left _ evs ?s) with (emit_all evs s) in Hk.
    unfold _emit in Hk. cbn [fst snd] in Hk. cbn [length].
    destruct (decide (k = r0)) as [->|Hne]; [lia|].
    assert (r0 + 1 <= k < r0 + 1 + Z.of_nat (length evs)); [|lia].
    apply (IH (<[r0 := mk_event (ev_id ev) (ev_e ev)]> m)).
    rewrite lookup_insert_ne by congruence. exact Hk.
Qed.

Section EventsFit.
Variable sinf : float -> float.

(** Before the id counter overflows the events fit.  In every state of
    [reachable], whose creations stop short of the overflow of the id
    counter, a scan ends and returns a count between 0 and the pool capacity
    [AOI_MAX_AOI], which is the size of the event buffer of the engine; the
    only cells of the buffer that the scan changes are the cells below the
    count it returns. *)
Theorem trigger_events_fit a id enter_r leave_r :
  reachable sinf a ->
  exists a' r,
    aoi_trigger a id enter_r leave_r = Some (a', r) /\
    0 <= r <= AOI_MAX_AOI /\
    forall k, aoi_elist a' !! k ≠ aoi_elist a !! k -> 0 <= k < r.
Proof.
  intros Hr. destruct (reachable_inv sinf a Hr) as [Hinv _].
  pose proof (reachable_cinv sinf a Hr) as Hc.
  destruct (_aoi_object a id) as [x|] eqn:Hobj.
  2:{ exists a, 0. unfold aoi_trigger. rewrite Hobj.
      split; [reflexivity|]. split; [rewrite AOI_MAX_AOI_eq; lia|].
      intros k Hk. exfalso. apply Hk. reflexivity. }
  pose proof (object_live a id x Hobj) as [Hx _].
  destruct (inv_chain_split a x Hinv Hx) as (l1 & l2 & Hch & Hmem).
  destruct (inv_bufs a Hinv x Hx) as [_ (O & HO & HsO)].
  destruct (aoi_trigger_spec a id enter_r leave_r x l1 l2 O Hinv Hobj Hch Hmem HO)
    as (a' & cur_list & Hrun & _ & _ & _ & Helist & _).
  assert (HOx : old_ids a x = O) by (apply is_buf_elems; exact HO).
  set (N := scan_ids a x enter_r leave_r O l1 l2) in *.
  assert (Hbound : Z.of_nat (length (diff_events a O N)) <= AOI_MAX_AOI).
  { rewrite <- HOx. apply diff_events_bound; [exact Hinv | exact Hc | exact Hx | | |].
    - rewrite HOx. exact HsO.
    - apply scan_ids_sorted.
    - intros n Hn. apply scan_ids_live in Hn as (z & Hz & ->). exists z.
      split; [|reflexivity]. apply Hmem. revert Hz.
      repeat first [rewrite elem_of_app | rewrite elem_of_cons]. tauto. }
  exists a', (Z.of_nat (length (diff_events a O N))).
  split; [exact Hrun|]. split; [lia|].
  intros k Hk. rewrite Helist in Hk. apply emit_all_frame in Hk. lia.
Qed.

End EventsFit.

Lemma trigger_events_fit_witness :
  snd <$> aoi_trigger pair_at_origin 0 100 130 = Some 1 /\
  exists a' r,
    aoi_trigger pair_at_origin 0 100 130 = Some (a', r) /\
    0 <= r <= AOI_MAX_AOI /\
    forall k, aoi_elist a' !! k ≠ aoi_elist pair_at_origin !! k -> 0 <= k < r.
Proof.
  split; [vm_compute; reflexivity|].
  apply (trigger_events_fit (fun _ => F32.zero) pair_at_origin 0 100 130).
  apply reachable_pair_at_origin.
Defined.

(** * Further properties *)

(** ** The sorted id blocks: [_insert_list] and [_find_list] *)

Lemma ins_present id E : ssorted E -> id ∈ E -> ins id E = E.
Proof.
  intros Hs Hin. apply ssorted_ext_eq; [apply ins_sorted; exact Hs | exact Hs|].
  intros y. rewrite (ins_elem id E y Hs). split; [intros [->|?]; assumption | auto].
Qed.

Lemma ins_absent id E : ssorted E -> id ∉ E -> length (ins id E) = S (length E).
Proof.
  intros Hs Hout.
  assert (Hp : ins id E ≡ₚ id :: E).
  { apply NoDup_Permutation.
    - apply ssorted_NoDup, ins_sorted, Hs.
    - apply NoDup_cons. split; [exact Hout | apply ssorted_NoDup, Hs].
    - intros y. rewrite (ins_elem id E y Hs), elem_of_cons. reflexivity. }
  rewrite Hp. reflexivity.
Qed.

(** X1.  On a well-formed block whose ids are strictly increasing,
    [_insert_list] yields a well-formed block whose ids are strictly
    increasing again and are the old ids together with [id]: an id that is
    already there leaves the ids as they are, a new one makes the block one
    id longer. *)
Theorem insert_list_sorted_set (l E : list Z) (id : Z) :
  is_buf l E -> ssorted E ->
  exists E',
    is_buf (_insert_list l id) E' /\ elems (_insert_list l id) = E' /\
    ssorted E' /\
    (forall y, y ∈ E' <-> y = id \/ y ∈ E) /\
    (id ∈ E -> E' = E) /\
    (id ∉ E -> length E' = S (length E)).
Proof.
  intros Hb Hs. exists (ins id E).
  pose proof (_insert_list_spec l E id Hb) as Hb'.
  split; [exact Hb'|]. split; [apply is_buf_elems; exact Hb'|].
  split; [apply ins_sorted; exact Hs|].
  split; [intros y; apply ins_elem; exact Hs|].
  split; [apply ins_present; exact Hs | apply ins_absent; exact Hs].
Qed.

Lemma insert_list_sorted_set_witness :
  exists E',
    is_buf (_insert_list (_insert_list new_list 7) 3) E' /\
    elems (_insert_list (_insert_list new_list 7) 3) = E' /\
    ssorted E' /\
    (forall y, y ∈ E' <-> y = 3 \/ y ∈ [7]) /\
    (3 ∈ [7] -> E' = [7]) /\
    (3 ∉ [7] -> length E' = S (length [7])).
Proof.
  apply (insert_list_sorted_set (_insert_list new_list 7) [7] 3).
  - exact (_insert_list_spec new_list [] 7 is_buf_new_list).
  - repeat constructor.
Defined.

(** X2.  On a well-formed block whose ids are strictly increasing,
    [_find_list] answers 1 for the ids of the block and 0 for every other
    id. *)
Theorem find_list_member (l E : list Z) (id : Z) :
  is_buf l E -> ssorted E ->
  (id ∈ E -> _find_list l id = 1) /\ (id ∉ E -> _find_list l id = 0).
Proof.
  intros Hb Hs. rewrite (_find_list_spec l E id Hb), (find_abs_spec id E Hs).
  split; intros H.
  - rewrite bool_decide_eq_true_2 by exact H. reflexivity.
  - rewrite bool_decide_eq_false_2 by exact H. reflexivity.
Qed.

Lemma find_list_member_witness :
  (7 ∈ [7] -> _find_list (_insert_list new_list 7) 7 = 1) /\
  (7 ∉ [7] -> _find_list (_insert_list new_list 7) 7 = 0).
Proof.
  apply (find_list_member (_insert_list new_list 7) [7] 7).
  - exact (_insert_list_spec new_list [] 7 is_buf_new_list).
  - repeat constructor.
Defined.

(** X3.  Lookup after insertion: on a well-formed sorted block, the id just
    inserted is found, and every other id is found exactly if it was found
    before. *)
Theorem find_after_insert (l E : list Z) (id : Z) :
  is_buf l E -> ssorted E ->
  _find_list (_insert_list l id) id = 1 /\
  forall y, y ≠ id -> _find_list (_insert_list l id) y = _find_list l y.
Proof.
  intros Hb Hs.
  pose proof (_insert_list_spec l E id Hb) as Hb'.
  pose proof (ins_sorted id E Hs) as Hs'.
  split.
  - rewrite (_find_list_spec _ _ id Hb'), (find_abs_spec id _ Hs').
    rewrite bool_decide_eq_true_2; [reflexivity|]. apply ins_elem; auto.
  - intros y Hne.
    rewrite (_find_list_spec _ _ y Hb'), (find_abs_spec y _ Hs').
    rewrite (_find_list_spec _ _ y Hb), (find_abs_spec y _ Hs).
    apply (f_equal (fun b : bool => if b then 1 else 0)).
    apply bool_decide_ext. rewrite (ins_elem id E y Hs). tauto.
Qed.

Lemma find_after_insert_witness :
  _find_list (_insert_list (_insert_list new_list 7) 3) 3 = 1 /\
  forall y, y ≠ 3 ->
    _find_list (_insert_list (_insert_list new_list 7) 3) y
    = _find_list (_insert_list new_list 7) y.
Proof.
  apply (find_after_insert (_insert_list new_list 7) [7] 3).
  - exact (_insert_list_spec new_list [] 7 is_buf_new_list).
  - repeat constructor.
Defined.

(** A well-formed block of capacity [cap]: [cap + 2] cells in all. *)
Definition is_buf_cap (l : list Z) (E : list Z) (cap : Z) : Prop :=
  exists rest,
    l = Z.of_nat (length E) :: cap :: E ++ rest /\
    Z.of_nat (length E + length rest) = cap /\ 1 <= cap.

Lemma is_buf_cap_is_buf l E cap : is_buf_cap l E cap -> is_buf l E.
Proof. intros (rest & H). exists cap, rest. exact H. Qed.

Lemma is_buf_cap_cells l E cap :
  is_buf_cap l E cap ->
  rd l 0 = Z.of_nat (length E) /\ rd l 1 = cap /\ Z.of_nat (length l) = cap + 2.
Proof.
  intros (rest & -> & Hlen & _). split; [reflexivity|]. split; [reflexivity|].
  cbn [length]. rewrite length_app. lia.
Qed.

Lemma _insert_list_grow l E cap id :
  is_buf_cap l E cap ->
  is_buf_cap (_insert_list l id) (ins id E)
    (if Z.of_nat (length E) >=? cap then cap * 2 else cap).
Proof.
  intros (rest & -> & Hlen & Hcap).
  unfold _insert_list.
  change (rd (Z.of_nat (length E) :: cap :: E ++ rest) 0) with (Z.of_nat (length E)).
  change (rd (Z.of_nat (length E) :: cap :: E ++ rest) 1) with cap.
  set (n := Z.of_nat (length E)).
  set (cap1 := if n >=? cap then cap * 2 else cap).
  assert (Hspare : exists r rest1,
    (if n >=? cap
     then wr (realloc (n :: cap :: E ++ rest) (cap * 2 + 2)) 1
             (rd (realloc (n :: cap :: E ++ rest) (cap * 2 + 2)) 1 * 2)
     else n :: cap :: E ++ rest) = n :: cap1 :: E ++ r :: rest1 /\
    Z.of_nat (length E + S (length rest1)) = cap1 /\ 1 <= cap1).
  { unfold cap1. destruct (Z.geb_spec n cap) as [Hge|Hlt].
    - assert (rest = []) as -> by (destruct rest; [reflexivity | cbn [length] in Hlen; lia]).
      rewrite app_nil_r in *. cbn [length] in Hlen. rewrite Nat.add_0_r in Hlen.
      exists 0, (replicate (Z.to_nat cap - 1) 0).
      unfold realloc.
      assert (Hres : resize (Z.to_nat (cap * 2 + 2)) 0 (n :: cap :: E)
                     = n :: cap :: E ++ 0 :: replicate (Z.to_nat cap - 1) 0).
      { rewrite resize_ge by (cbn [length]; lia).
        change (n :: cap :: E) with ([n; cap] ++ E). rewrite <- !app_assoc. do 3 f_equal.
        simpl length.
        replace (Z.to_nat (cap * 2 + 2) - S (S (length E)))%nat with (S (Z.to_nat cap - 1))
          by lia.
        reflexivity. }
      rewrite Hres. split; [reflexivity|]. split; [|lia].
      rewrite length_replicate. lia.
    - destruct rest as [|r rest1]; [cbn [length] in Hlen; lia|].
      exists r, rest1. split; [reflexivity|]. split; [exact Hlen | exact Hcap]. }
  destruct Hspare as (r & rest1 & -> & Hlen1 & Hcap1). clearbody cap1.
  assert (Hlast : rd (n :: cap1 :: E ++ r :: rest1) (n + 1) = default 0 (last E) \/ E = []).
  { destruct E as [|e E'] using rev_ind; [right; reflexivity|left].
    rewrite last_snoc. cbn [default].
    replace (n :: cap1 :: (E' ++ [e]) ++ r :: rest1) with ((n :: cap1 :: E') ++ e :: r :: rest1)
      by (cbn [app]; rewrite <- app_assoc; reflexivity).
    apply rd_at. unfold n. rewrite length_app. cbn [length]. lia. }
  unfold ins. fold n.
  assert (Hcond : (n =? 0) || (id >? rd (n :: cap1 :: E ++ r :: rest1) (n + 1))
                  = (n =? 0) || (id >? default 0 (last E))).
  { destruct Hlast as [-> | ->]; reflexivity. }
  rewrite Hcond.
  destruct ((n =? 0) || (id >? default 0 (last E))).
  - rewrite (wr_at (n :: cap1 :: E) r rest1) by (unfold n; cbn [length]; lia).
    exists rest1. split; [|split; [|exact Hcap1]].
    + cbn [app]. rewrite rd_0, wr_0, length_app, <- app_assoc. cbn [length app].
      do 2 f_equal. unfold n. lia.
    + rewrite length_app. cbn [length]. lia.
  - replace (Z.to_nat n) with (length E) by (unfold n; lia).
    assert (Hs : _insert_scan (length E) (n :: cap1 :: E ++ r :: rest1) n id 2
                 = if decide (length (ins_scan id E) = length E)
                   then n :: cap1 :: E ++ r :: rest1
                   else (n + 1) :: cap1 :: ins_scan id E ++ rest1)
      by exact (_insert_scan_spec id E [] n cap1 r rest1 eq_refl).
    rewrite Hs.
    destruct (decide (length (ins_scan id E) = length E)) as [He|He].
    + rewrite (ins_scan_same_length id E He).
      exists (r :: rest1). split; [reflexivity|]. split; [exact Hlen1 | exact Hcap1].
    + destruct (ins_scan_length id E) as [?|Hl]; [contradiction|].
      exists rest1. split; [|split; [|exact Hcap1]].
      * rewrite Hl. do 2 f_equal. unfold n. lia.
      * rewrite Hl. lia.
Qed.

(** X4.  [_insert_list] keeps the count within the capacity.  A block that
    is not full keeps its capacity; a full block is reallocated to twice its
    capacity before anything is written, even when the id turns out to be in
    the block already.  In both cases the block has its capacity plus two
    header cells, and no more ids than its capacity. *)
Theorem insert_list_capacity (l E : list Z) (cap id : Z) :
  is_buf_cap l E cap ->
  let l' := _insert_list l id in
  rd l' 1 = (if rd l 0 >=? cap then cap * 2 else cap) /\
  Z.of_nat (length l') = rd l' 1 + 2 /\
  0 <= rd l' 0 <= rd l' 1 /\
  rd l 0 <= rd l' 0 <= rd l 0 + 1.
Proof.
  intros Hb l'.
  destruct (is_buf_cap_cells l E cap Hb) as (H0 & H1 & Hlen).
  pose proof (_insert_list_grow l E cap id Hb) as Hb'. fold l' in Hb'.
  destruct (is_buf_cap_cells _ _ _ Hb') as (H0' & H1' & Hlen').
  rewrite H0, H0', H1'. split; [reflexivity|]. split; [exact Hlen'|].
  destruct Hb' as (rest' & _ & Hl' & _).
  assert (Hcnt : length (ins id E) = length E \/ length (ins id E) = S (length E)).
  { unfold ins. destruct (_ || _); [right; rewrite length_app; cbn [length]; lia|].
    apply ins_scan_length. }
  lia.
Qed.

(** A block of capacity 1 that holds one id grows to capacity 2. *)
Lemma insert_list_capacity_witness :
  let l' := _insert_list [1; 1; 7] 9 in
  rd l' 1 = (if rd [1; 1; 7] 0 >=? 1 then 1 * 2 else 1) /\
  Z.of_nat (length l') = rd l' 1 + 2 /\
  0 <= rd l' 0 <= rd l' 1 /\
  rd [1; 1; 7] 0 <= rd l' 0 <= rd [1; 1; 7] 0 + 1.
Proof.
  apply (insert_list_capacity [1; 1; 7] [7] 1 9).
  exists []. split; [reflexivity|]. split; [reflexivity | lia].
Defined.

(** ** Destroying an entity *)

Lemma leave_slot a id x :
  _aoi_object a id = Some x ->
  slot_get (aoi_leave a id) x = set_type AOI_OBJECT_INVALID zero_object.
Proof. intros H. unfold aoi_leave. rewrite H. apply slot_get_set_eq. Qed.

Lemma leave_frame a id x z {A} (F : aoi_object -> A) :
  _aoi_object a id = Some x -> z ≠ x -> link_blind 0 F -> link_blind 1 F ->
  F (slot_get (aoi_leave a id) z) = F (slot_get a z).
Proof.
  intros H Hz H0 H1. unfold aoi_leave. rewrite H.
  rewrite slot_get_set_ne by congruence.
  pose proof (off_axis_erase 0 a x (or_introl eq_refl)) as Hoff1.
  pose proof (off_axis_erase 1 (_aoi_list_erase a 0 x) x (or_intror eq_refl)) as Hoff2.
  apply (off_axis_trans_any _ _ _ Hoff1 Hoff2); assumption.
Qed.

Lemma leave_object_same a id : _aoi_object (aoi_leave a id) id = None.
Proof.
  destruct (_aoi_object a id) as [x|] eqn:H.
  - pose proof (leave_slot a id x H) as Hs.
    apply _aoi_object_Some in H as (_ & -> & _).
    apply _aoi_object_None. right. right. rewrite Hs. reflexivity.
  - unfold aoi_leave. rewrite H. exact H.
Qed.

Lemma leave_object_other a id id' :
  id' ≠ id -> _aoi_object (aoi_leave a id) id' = _aoi_object a id'.
Proof.
  intros Hne. destruct (_aoi_object a id) as [x|] eqn:H.
  2:{ unfold aoi_leave. rewrite H. reflexivity. }
  pose proof (leave_slot a id x H) as Hs.
  pose proof (fun z Hz => leave_frame a id x z obj_id H Hz (blind_id 0) (blind_id 1)) as Hid.
  pose proof (fun z Hz => leave_frame a id x z obj_type H Hz (blind_type 0) (blind_type 1))
    as Hty.
  apply _aoi_object_Some in H as (_ & Hx & Hidx & _).
  unfold _aoi_object. destruct (id' <? 0); [reflexivity|]. cbv zeta.
  destruct (decide (AOI_HASH_ID id' = x)) as [E|E].
  - rewrite E, Hs. cbn [obj_type obj_id set_type zero_object].
    rewrite Hidx. change (AOI_OBJECT_INVALID =? AOI_OBJECT_INVALID) with true.
    rewrite orb_true_r.
    destruct (Z.eqb_spec id id') as [->|_]; [contradiction | reflexivity].
  - rewrite (Hid _ E), (Hty _ E). reflexivity.
Qed.

(** X5.  After [aoi_leave] the id is stale, whatever the state and the id
    were: the lookup fails, a second [aoi_leave] changes nothing, the
    queries answer 0 (or leave the caller's variables alone), and every
    operation on the id hands the state back as it is, a scan with 0 events. *)
Theorem leave_makes_stale (sinf : float -> float) (a : aoi) (id : Z) :
  let a' := aoi_leave a id in
  _aoi_object a' id = None /\
  aoi_leave a' id = a' /\
  aoi_ud a' id = 0 /\ aoi_moving a' id = 0 /\
  (forall pxy, aoi_pos a' id pxy = pxy) /\
  (forall out n, aoi_around a' id out n = (out, 0)) /\
  (forall x y, aoi_locate a' id x y = Some a') /\
  (forall x y, aoi_move a' id x y = a') /\
  (forall speed, aoi_speed a' id speed = a') /\
  (forall tick, aoi_update sinf a' id tick = Some a') /\
  (forall enter_r leave_r, aoi_trigger a' id enter_r leave_r = Some (a', 0)).
Proof.
  intros a'. pose proof (leave_object_same a id) as H. fold a' in H.
  unfold aoi_leave at 1, aoi_ud, aoi_moving, aoi_pos, aoi_around, aoi_locate, aoi_move,
    aoi_speed, aoi_update, aoi_trigger.
  rewrite H. repeat split.
Qed.

(** X6.  [aoi_leave] of one id leaves every other id as it was: the lookup
    of another id gives what it gave before, and so do its user data, its
    position and its moving flag. *)
Theorem leave_keeps_others (a : aoi) (id id' : Z) :
  id' ≠ id ->
  let a' := aoi_leave a id in
  _aoi_object a' id' = _aoi_object a id' /\
  aoi_ud a' id' = aoi_ud a id' /\
  aoi_moving a' id' = aoi_moving a id' /\
  (forall pxy, aoi_pos a' id' pxy = aoi_pos a id' pxy).
Proof.
  intros Hne a'. pose proof (leave_object_other a id id' Hne) as Ho. fold a' in Ho.
  split; [exact Ho|].
  unfold aoi_ud, aoi_moving, aoi_pos. rewrite Ho.
  destruct (_aoi_object a id') as [z|] eqn:Hz; [|auto].
  destruct (_aoi_object a id) as [x|] eqn:Hx.
  2:{ unfold a', aoi_leave. rewrite Hx. auto. }
  assert (Hzx : z ≠ x).
  { intros ->. apply _aoi_object_Some in Hz as (_ & _ & E1 & _).
    apply _aoi_object_Some in Hx as (_ & _ & E2 & _). congruence. }
  unfold coord, a'.
  rewrite (leave_frame a id x z obj_ud Hx Hzx) by (split; reflexivity).
  rewrite (leave_frame a id x z obj_n_tick Hx Hzx) by (split; reflexivity).
  rewrite (leave_frame a id x z obj_p Hx Hzx) by (split; reflexivity).
  auto.
Qed.

(** Of three entities the middle one leaves. *)
Definition three_entities : aoi :=
  fst (aoi_enter (fst (aoi_enter (fst (aoi_enter aoi_init 10)) 11)) 12).

Lemma leave_keeps_others_witness :
  let a' := aoi_leave three_entities 1 in
  _aoi_object a' 2 = _aoi_object three_entities 2 /\
  aoi_ud a' 2 = aoi_ud three_entities 2 /\
  aoi_moving a' 2 = aoi_moving three_entities 2 /\
  (forall pxy, aoi_pos a' 2 pxy = aoi_pos three_entities 2 pxy).
Proof. apply (leave_keeps_others three_entities 1 2). lia. Defined.

Lemma leave_chains a id x l1 l2 m1 m2 :
  _aoi_object a id = Some x ->
  chain a 0 (l1 ++ x :: l2) -> chain a 1 (m1 ++ x :: m2) ->
  chain (aoi_leave a id) 0 (l1 ++ l2) /\ chain (aoi_leave a id) 1 (m1 ++ m2).
Proof.
  intros Hobj Hc Hcm. unfold aoi_leave. rewrite Hobj.
  set (a1 := _aoi_list_erase a 0 x). set (a2 := _aoi_list_erase a1 1 x).
  pose proof (off_axis_erase 0 a x (or_introl eq_refl)) as Hoff1. fold a1 in Hoff1.
  pose proof (off_axis_erase 1 a1 x (or_intror eq_refl)) as Hoff2. fold a2 in Hoff2.
  destruct (erase_chain a 0 l1 x l2 Hc) as (Hc1 & _ & _). fold a1 in Hc1.
  pose proof (chain_off_axis 0 1 a a1 _ ltac:(lia) Hoff1 Hcm) as Hcm1.
  destruct (erase_chain a1 1 m1 x m2 Hcm1) as (Hcm2 & _ & _). fold a2 in Hcm2.
  pose proof (chain_off_axis 1 0 a1 a2 _ ltac:(lia) Hoff2 Hc1) as Hc2.
  pose proof Hc as (_ & _ & Hnd). apply NoDup_mid in Hnd as (_ & _ & Hx1 & Hx2 & _).
  pose proof Hcm as (_ & _ & Hndm). apply NoDup_mid in Hndm as (_ & _ & Hy1 & Hy2 & _).
  split.
  - eapply chain_ext; [| |exact Hc2]; [reflexivity|].
    intros z Hz. unfold prev_of, next_of. rewrite slot_get_set_ne; [auto|].
    intros ->. apply elem_of_app in Hz as [?|?]; contradiction.
  - eapply chain_ext; [| |exact Hcm2]; [reflexivity|].
    intros z Hz. unfold prev_of, next_of. rewrite slot_get_set_ne; [auto|].
    intros ->. apply elem_of_app in Hz as [?|?]; contradiction.
Qed.

Lemma live_pair_apart_0 : live pair_apart 0.
Proof. vm_compute. discriminate. Qed.

Section EngineState.
Variable sinf : float -> float.



(** X9.  As long as the id counter has not overflowed (the states of
    [reachable], whose creations stop short of the overflow), a slot in use
    lies within the pool and holds an id that is not negative and below the
    id counter; the lookup of that id finds this slot, so no two slots in use
    hold the same id. *)
Theorem reachable_ids (a : aoi) (z : Z) :
  reachable sinf a -> live a z ->
  0 <= z < AOI_MAX_AOI /\
  0 <= obj_id (slot_get a z) < aoi_id a /\
  _aoi_object a (obj_id (slot_get a z)) = Some z /\
  forall z', live a z' -> obj_id (slot_get a z') = obj_id (slot_get a z) -> z' = z.
Proof.
  intros Hr Hz. destruct (reachable_inv sinf a Hr) as [Hinv _].
  pose proof (reachable_cinv sinf a Hr) as Hc.
  split; [apply (live_range a z Hinv Hz)|].
  destruct (inv_ids a Hinv z Hz) as [Hpos Hh].
  split; [split; [exact Hpos | apply (cinv_ids a Hc z Hz)]|].
  split; [apply live_object; assumption|].
  intros z' Hz' E. destruct (inv_ids a Hinv z' Hz') as [_ Hh']. congruence.
Qed.

End EngineState.



Lemma reachable_ids_witness :
  0 <= 0 < AOI_MAX_AOI /\
  0 <= obj_id (slot_get pair_apart 0) < aoi_id pair_apart /\
  _aoi_object pair_apart (obj_id (slot_get pair_apart 0)) = Some 0 /\
  forall z', live pair_apart z' ->
    obj_id (slot_get pair_apart z') = obj_id (slot_get pair_apart 0) -> z' = 0.
Proof.
  apply (reachable_ids (fun _ => F32.zero) pair_apart 0).
  - apply reachable_pair_apart.
  - exact live_pair_apart_0.
Defined.

(** ** Creating an entity *)

Lemma AOI_HASH_ID_mod id : 0 <= id -> AOI_HASH_ID id = id mod 65536.
Proof.
  intros H. unfold AOI_HASH_ID, Int.rem. rewrite AOI_MAX_AOI_eq.
  apply Z.rem_mod_nonneg; lia.
Qed.

(** Any [AOI_MAX_AOI] ids in a row hash onto every slot. *)
Lemma hash_window c0 z :
  0 <= c0 -> 0 <= z < AOI_MAX_AOI ->
  exists k, c0 <= k < c0 + AOI_MAX_AOI /\ AOI_HASH_ID k = z.
Proof.
  rewrite AOI_MAX_AOI_eq. intros Hc Hz.
  pose proof (Z.mod_pos_bound (z - c0) 65536 ltac:(lia)) as Hm.
  exists (c0 + (z - c0) mod 65536). split; [lia|].
  rewrite AOI_HASH_ID_mod by lia.
  rewrite Z.add_mod_idemp_r by lia.
  replace (c0 + (z - c0)) with z by lia. apply Z.mod_small. lia.
Qed.

Lemma aoi_enter_first_free a ud :
  0 <= aoi_id a -> aoi_id a + AOI_MAX_AOI <= Int.INT_MAX ->
  (exists c, aoi_id a <= c < aoi_id a + AOI_MAX_AOI /\
     (forall k, aoi_id a <= k < c -> live a (AOI_HASH_ID k)) /\
     ~ live a (AOI_HASH_ID c) /\
     aoi_enter a ud
       = (_aoi_enter_finish
            (slot_set (set_aoi_id a (c + 1)) (AOI_HASH_ID c) (fresh_object c))
            (AOI_HASH_ID c) ud, c)) \/
  ((forall k, aoi_id a <= k < aoi_id a + AOI_MAX_AOI -> live a (AOI_HASH_ID k)) /\
   aoi_enter a ud = (set_aoi_id a (aoi_id a + AOI_MAX_AOI), -1)).
Proof.
  intros Hpos Hmax.
  assert (Hn : Z.of_nat (Z.to_nat AOI_MAX_AOI) = AOI_MAX_AOI)
    by (apply Z2Nat.id; rewrite AOI_MAX_AOI_eq; lia).
  destruct (_aoi_next_id_loop_spec (Z.to_nat AOI_MAX_AOI) a Hpos ltac:(rewrite Hn; exact Hmax))
    as [(c & Hc & Hused & Hc0 & Heq)|[Hused Heq]].
  - left. exists c. rewrite Hn in Hc. split; [exact Hc|]. split; [exact Hused|]. split.
    + unfold live. rewrite Hc0. congruence.
    + apply aoi_enter_ok; [lia | exact Heq].
  - right. rewrite Hn in Hused. split; [exact Hused|].
    apply aoi_enter_fail. unfold _aoi_next_id. rewrite Heq, Hn. reflexivity.
Qed.

(** X10.  As long as the id counter cannot overflow, [aoi_enter] answers -1
    exactly when every slot of the pool is in use.  A failed call still
    moves the id counter on by [AOI_MAX_AOI], one for each slot tried, and
    changes nothing else. *)
Theorem enter_fails_iff_full (a : aoi) (ud : Z) :
  0 <= aoi_id a -> aoi_id a + AOI_MAX_AOI <= Int.INT_MAX ->
  (snd (aoi_enter a ud) = -1 <-> forall z, 0 <= z < AOI_MAX_AOI -> live a z) /\
  (snd (aoi_enter a ud) = -1 ->
   fst (aoi_enter a ud) = set_aoi_id a (aoi_id a + AOI_MAX_AOI)).
Proof.
  intros Hpos Hmax.
  destruct (aoi_enter_first_free a ud Hpos Hmax)
    as [(c & Hc & _ & Hfree & ->)|[Hused ->]]; cbn [fst snd].
  - split; [|lia]. split; [lia|]. intros Hall. exfalso. apply Hfree.
    apply Hall. apply AOI_HASH_ID_range. lia.
  - split; [|reflexivity]. split; [|reflexivity]. intros _ z Hz.
    destruct (hash_window (aoi_id a) z Hpos Hz) as (k & Hk & <-). apply Hused. exact Hk.
Qed.

Lemma enter_fails_iff_full_witness :
  (snd (aoi_enter three_entities 0) = -1 <->
     forall z, 0 <= z < AOI_MAX_AOI -> live three_entities z) /\
  (snd (aoi_enter three_entities 0) = -1 ->
   fst (aoi_enter three_entities 0)
   = set_aoi_id three_entities (aoi_id three_entities + AOI_MAX_AOI)).
Proof.
  apply (enter_fails_iff_full three_entities 0); vm_compute; discriminate.
Defined.

Lemma enter_finish_other a1 x ud z {A} (F : aoi_object -> A) :
  z ≠ x -> link_blind 0 F -> link_blind 1 F ->
  F (slot_get (_aoi_enter_finish a1 x ud) z) = F (slot_get a1 z).
Proof.
  intros Hz H0 H1. unfold _aoi_enter_finish. cbv zeta.
  rewrite !slot_get_upd_ne by congruence.
  rewrite (same_on_enter_link F 1 _ x H1 z). apply (same_on_enter_link F 0 _ x H0 z).
Qed.

Lemma enter_finish_ud a1 x ud : obj_ud (slot_get (_aoi_enter_finish a1 x ud) x) = ud.
Proof. unfold _aoi_enter_finish. cbv zeta. rewrite slot_get_upd_eq. reflexivity. Qed.

(** X11.  As long as the id counter cannot overflow, [aoi_enter] leaves
    every entity that is there as it was: the lookup of its id finds the
    same slot, and its user data, position, speed, moving flag and the ids
    of its two blocks are unchanged, whether the call succeeds or not. *)
Theorem enter_keeps_others (a : aoi) (ud id' z : Z) :
  0 <= aoi_id a -> aoi_id a + AOI_MAX_AOI <= Int.INT_MAX ->
  _aoi_object a id' = Some z ->
  let a' := fst (aoi_enter a ud) in
  _aoi_object a' id' = Some z /\
  aoi_ud a' id' = aoi_ud a id' /\
  aoi_moving a' id' = aoi_moving a id' /\
  (forall pxy, aoi_pos a' id' pxy = aoi_pos a id' pxy) /\
  obj_speed (slot_get a' z) = obj_speed (slot_get a z) /\
  obj_n_list (slot_get a' z) = obj_n_list (slot_get a z) /\
  obj_o_list (slot_get a' z) = obj_o_list (slot_get a z).
Proof.
  intros Hpos Hmax Hobj a'.
  assert (HF : forall {A} (F : aoi_object -> A), link_blind 0 F -> link_blind 1 F ->
            F (slot_get a' z) = F (slot_get a z)).
  { intros A F H0 H1. unfold a'.
    destruct (aoi_enter_cases a ud Hpos Hmax) as [(c & _ & Hfree & ->)| ->]; cbn [fst].
    2:{ reflexivity. }
    assert (Hz : z ≠ AOI_HASH_ID c).
    { intros ->. apply Hfree. apply (object_live a id' _ Hobj). }
    rewrite (enter_finish_other _ _ ud z F Hz H0 H1).
    rewrite slot_get_set_ne by congruence. reflexivity. }
  assert (Hobj' : _aoi_object a' id' = Some z).
  { apply _aoi_object_Some in Hobj as (H1 & H2 & H3 & H4). apply _aoi_object_Some.
    rewrite (HF _ obj_id), (HF _ obj_type) by auto with blind. auto. }
  split; [exact Hobj'|].
  unfold aoi_ud, aoi_moving, aoi_pos, coord. rewrite Hobj', Hobj.
  rewrite (HF _ obj_ud) by (split; reflexivity).
  rewrite (HF _ obj_n_tick), (HF _ obj_p), (HF _ obj_speed) by auto with blind.
  rewrite (HF _ obj_n_list), (HF _ obj_o_list) by auto with blind.
  repeat split.
Qed.

Lemma enter_keeps_others_witness :
  let a' := fst (aoi_enter three_entities 0) in
  _aoi_object a' 1 = Some 1 /\
  aoi_ud a' 1 = aoi_ud three_entities 1 /\
  aoi_moving a' 1 = aoi_moving three_entities 1 /\
  (forall pxy, aoi_pos a' 1 pxy = aoi_pos three_entities 1 pxy) /\
  obj_speed (slot_get a' 1) = obj_speed (slot_get three_entities 1) /\
  obj_n_list (slot_get a' 1) = obj_n_list (slot_get three_entities 1) /\
  obj_o_list (slot_get a' 1) = obj_o_list (slot_get three_entities 1).
Proof.
  apply (enter_keeps_others three_entities 0 1 1).
  - vm_compute. discriminate.
  - vm_compute. discriminate.
  - reflexivity.
Defined.

Section EnterFresh.
Variable sinf : float -> float.

(** X12.  In a reachable state, as long as the id counter cannot overflow, a
    successful [aoi_enter] hands out the first id from the counter on whose
    slot is free.  The id was stale before and is live afterwards; it is
    above the id of every entity that is there and occurs in none of their
    snapshots.  The new entity carries the user data, stands at (0,0) with
    speed 0, is not moving, and both its blocks are empty. *)
Theorem enter_fresh (a a' : aoi) (ud id : Z) :
  reachable sinf a -> aoi_id a + AOI_MAX_AOI <= Int.INT_MAX ->
  aoi_enter a ud = (a', id) -> id ≠ -1 ->
  let x := AOI_HASH_ID id in
  aoi_id a <= id /\ aoi_id a' = id + 1 /\
  (forall k, aoi_id a <= k < id -> live a (AOI_HASH_ID k)) /\
  _aoi_object a id = None /\ _aoi_object a' id = Some x /\
  aoi_ud a' id = ud /\ (forall pxy, aoi_pos a' id pxy = (0, 0)) /\
  aoi_moving a' id = 0 /\ obj_speed (slot_get a' x) = 0 /\
  elems (obj_n_list (slot_get a' x)) = [] /\ old_ids a' x = [] /\
  (forall z, live a z -> obj_id (slot_get a z) < id /\ id ∉ old_ids a z).
Proof.
  intros Hr Hmax Hrun Hok x.
  destruct (reachable_inv sinf a Hr) as [Hinv Hpos].
  pose proof (reachable_cinv sinf a Hr) as Hc.
  destruct (aoi_enter_first_free a ud Hpos Hmax)
    as [(c & Hcr & Hused & Hfree & E)|[_ E]]; rewrite E in Hrun.
  2:{ injection Hrun as _ <-. contradiction. }
  injection Hrun as <- <-. fold x in Hfree |- *.
  set (a1 := slot_set (set_aoi_id a (c + 1)) x (fresh_object c)).
  assert (HF : forall {A} (F : aoi_object -> A), link_blind 0 F -> link_blind 1 F ->
            (forall v o, F (set_n_list v o) = F o) ->
            (forall v o, F (set_o_list v o) = F o) ->
            (forall v o, F (set_ud v o) = F o) ->
            F (slot_get (_aoi_enter_finish a1 x ud) x) = F (fresh_object c)).
  { intros A F H0 H1 H2 H3 H4.
    rewrite (same_on_enter_finish F a1 x ud H0 H1 H2 H3 H4 x).
    unfold a1. rewrite slot_get_set_eq. reflexivity. }
  destruct (enter_finish_lists a1 x ud) as (Hnl & Hol & _).
  assert (Hobj' : _aoi_object (_aoi_enter_finish a1 x ud) c = Some x).
  { apply _aoi_object_Some. split; [lia|]. split; [reflexivity|].
    rewrite (HF _ obj_id), (HF _ obj_type) by auto with blind.
    split; [reflexivity | discriminate]. }
  split; [lia|].
  split; [rewrite aoi_id_enter_finish; unfold a1;
          rewrite aoi_id_slot_set, aoi_id_set_aoi_id; reflexivity|].
  split; [exact Hused|].
  split.
  { apply _aoi_object_None. right. right. fold x.
    unfold live in Hfree. destruct (decide (obj_type (slot_get a x) = AOI_OBJECT_INVALID));
      [assumption | contradiction]. }
  split; [exact Hobj'|].
  unfold aoi_ud, aoi_pos, aoi_moving, coord, old_ids. rewrite Hobj'.
  rewrite enter_finish_ud, Hnl, Hol.
  rewrite (HF _ obj_p), (HF _ obj_n_tick), (HF _ obj_speed) by auto with blind.
  split; [reflexivity|]. split; [reflexivity|]. split; [reflexivity|].
  split; [reflexivity|].
  split; [apply (is_buf_elems _ _ is_buf_new_list)|].
  split; [apply (is_buf_elems _ _ is_buf_new_list)|].
  intros z Hz. split.
  - pose proof (cinv_ids a Hc z Hz). lia.
  - intros Hin. pose proof (cinv_old a Hc z c Hz Hin). lia.
Qed.

(** X13.  In a reachable state, as long as the id counter cannot overflow, a
    successful [aoi_enter] links the new entity in front of both axis lists
    and leaves the entities behind it in the order they were in. *)
Theorem enter_links_at_head (a : aoi) (ud : Z) :
  reachable sinf a -> aoi_id a + AOI_MAX_AOI <= Int.INT_MAX ->
  snd (aoi_enter a ud) ≠ -1 ->
  let x := AOI_HASH_ID (snd (aoi_enter a ud)) in
  exists lx ly,
    chain a 0 lx /\ chain a 1 ly /\
    chain (fst (aoi_enter a ud)) 0 (x :: lx) /\
    chain (fst (aoi_enter a ud)) 1 (x :: ly).
Proof.
  intros Hr Hmax Hok.
  destruct (reachable_inv sinf a Hr) as [Hinv Hpos].
  destruct (aoi_enter_cases a ud Hpos Hmax) as [(c & Hc & Hfree & E)| E];
    rewrite E in Hok |- *; cbn [fst snd] in Hok |- *; [|contradiction].
  set (x := AOI_HASH_ID c) in *. cbv zeta.
  set (a1 := slot_set (set_aoi_id a (c + 1)) x (fresh_object c)).
  assert (Hget1 : forall z, z ≠ x -> slot_get a1 z = slot_get a z).
  { intros z Hz. unfold a1. rewrite slot_get_set_ne by congruence. reflexivity. }
  destruct (inv_chain a Hinv 0) as (l0 & Hc0 & Hmem0); [auto|].
  destruct (inv_chain a Hinv 1) as (l1 & Hc1 & Hmem1); [auto|].
  assert (Hx0 : x ∉ l0) by (intros Hin; apply Hfree, Hmem0, Hin).
  assert (Hx1 : x ∉ l1) by (intros Hin; apply Hfree, Hmem1, Hin).
  assert (Hc0' : chain a1 0 l0).
  { eapply chain_ext; [| |exact Hc0]; [reflexivity|].
    intros z Hz. unfold prev_of, next_of. rewrite Hget1 by congruence. auto. }
  assert (Hc1' : chain a1 1 l1).
  { eapply chain_ext; [| |exact Hc1]; [reflexivity|].
    intros z Hz. unfold prev_of, next_of. rewrite Hget1 by congruence. auto. }
  exists l0, l1. split; [exact Hc0|]. split; [exact Hc1|].
  apply (enter_finish_chains a1 x ud l0 l1 Hc0' Hc1' Hx0 Hx1).
  unfold a1. rewrite slot_get_set_eq. reflexivity.
Qed.

End EnterFresh.

Lemma enter_fresh_witness :
  let a' := fst (aoi_enter pair_apart 5) in
  let x := AOI_HASH_ID 2 in
  aoi_id pair_apart <= 2 /\ aoi_id a' = 2 + 1 /\
  (forall k, aoi_id pair_apart <= k < 2 -> live pair_apart (AOI_HASH_ID k)) /\
  _aoi_object pair_apart 2 = None /\ _aoi_object a' 2 = Some x /\
  aoi_ud a' 2 = 5 /\ (forall pxy, aoi_pos a' 2 pxy = (0, 0)) /\
  aoi_moving a' 2 = 0 /\ obj_speed (slot_get a' x) = 0 /\
  elems (obj_n_list (slot_get a' x)) = [] /\ old_ids a' x = [] /\
  (forall z, live pair_apart z ->
     obj_id (slot_get pair_apart z) < 2 /\ 2 ∉ old_ids pair_apart z).
Proof.
  apply (enter_fresh (fun _ => F32.zero) pair_apart (fst (aoi_enter pair_apart 5)) 5 2).
  - apply reachable_pair_apart.
  - vm_compute. discriminate.
  - vm_compute. reflexivity.
  - lia.
Defined.

Lemma enter_links_at_head_witness :
  let x := AOI_HASH_ID (snd (aoi_enter pair_apart 5)) in
  exists lx ly,
    chain pair_apart 0 lx /\ chain pair_apart 1 ly /\
    chain (fst (aoi_enter pair_apart 5)) 0 (x :: lx) /\
    chain (fst (aoi_enter pair_apart 5)) 1 (x :: ly).
Proof.
  apply (enter_links_at_head (fun _ => F32.zero) pair_apart 5).
  - apply reachable_pair_apart.
  - vm_compute. discriminate.
  - vm_compute. discriminate.
Defined.

(** ** Ids over time *)

(** Which fields the movement operations and the scan leave alone. *)
Lemma same_on_locate {A} (F : aoi_object -> A) a id x y a' :
  link_blind 0 F -> link_blind 1 F -> (forall v o, F (set_p v o) = F o) ->
  aoi_locate a id x y = Some a' -> same_on F a a'.
Proof.
  intros H0 H1 Hp H. unfold aoi_locate in H.
  destruct (_aoi_object a id) as [obj|]; [|injection H as <-; apply same_on_refl].
  cbv zeta in H.
  eapply same_on_trans; [|exact (same_on_update_list F _ _ _ _ H0 H1 H)].
  apply same_on_upd_r; [intros; apply Hp|]. apply same_on_upd; intros; apply Hp.
Qed.

Lemma same_on_trigger {A} (F : aoi_object -> A) a id enter_r leave_r a' r :
  list_blind F -> aoi_trigger a id enter_r leave_r = Some (a', r) -> same_on F a a'.
Proof.
  intros [HF1 HF2] H. unfold aoi_trigger in H.
  destruct (_aoi_object a id) as [x|]; [|injection H as <- _; apply same_on_refl].
  cbv zeta in H.
  repeat match type of H with
         | (?m ≫= _) = Some _ => destruct m; [cbn [mbind option_bind] in H | discriminate]
         end.
  injection H as <- _.
  apply same_on_upd_r; [intros; apply HF2|].
  apply same_on_upd_r; [intros; apply HF1|].
  apply same_on_set_aoi_elist_r.
  apply same_on_upd; intros; apply HF1.
Qed.

Lemma aoi_list_trigger a id enter_r leave_r a' r :
  aoi_trigger a id enter_r leave_r = Some (a', r) -> aoi_list a' = aoi_list a.
Proof.
  unfold aoi_trigger. destruct (_aoi_object a id); [|intros [= <- _]; reflexivity].
  cbv zeta. intros H.
  repeat match type of H with
         | (?m ≫= _) = Some _ => destruct m; [cbn [mbind option_bind] in H | discriminate]
         end.
  injection H as <- _. reflexivity.
Qed.

Section Moves.
Variable sinf : float -> float.

Lemma same_on_update_place {A} (F : aoi_object -> A) a obj tick :
  (forall v o, F (set_p v o) = F o) ->
  (forall v o, F (set_n_tick v o) = F o) ->
  (forall v o, F (set_p_tick v o) = F o) ->
  same_on F a (_aoi_update_place sinf a obj tick).
Proof.
  intros Hp Hn Ht. unfold _aoi_update_place. cbv zeta.
  destruct (_ <=? 0); [|unfold _aoi_step_axis];
    repeat (apply same_on_upd_r; [intros; first [apply Hp | apply Hn | apply Ht]|]);
    apply same_on_refl.
Qed.

Lemma same_on_update {A} (F : aoi_object -> A) a id tick a' :
  link_blind 0 F -> link_blind 1 F ->
  (forall v o, F (set_p v o) = F o) ->
  (forall v o, F (set_n_tick v o) = F o) ->
  (forall v o, F (set_p_tick v o) = F o) ->
  aoi_update sinf a id tick = Some a' -> same_on F a a'.
Proof.
  intros H0 H1 Hp Hn Ht H.
  destruct (aoi_update_cases sinf a id tick) as [E|(obj & Ho & _ & _ & E)]; rewrite E in H.
  - injection H as <-. apply same_on_refl.
  - rewrite _aoi_object_update_unfold in H.
    eapply same_on_trans; [|exact (same_on_update_list F _ _ _ _ H0 H1 H)].
    apply same_on_update_place; assumption.
Qed.

End Moves.

(** The lookup of any id depends on the id and type fields alone. *)
Lemma lookup_frame a a' id :
  same_on obj_id a a' -> same_on obj_type a a' -> _aoi_object a' id = _aoi_object a id.
Proof. intros H1 H2. apply _aoi_object_ext; assumption. Qed.

Lemma lookup_enter_stale a ud id :
  0 <= aoi_id a -> aoi_id a + AOI_MAX_AOI <= Int.INT_MAX ->
  id < aoi_id a -> _aoi_object a id = None ->
  _aoi_object (fst (aoi_enter a ud)) id = None.
Proof.
  intros Hpos Hmax Hid Hst.
  destruct (aoi_enter_cases a ud Hpos Hmax) as [(c & Hc & Hfree & ->)| ->]; cbn [fst].
  2:{ rewrite <- Hst. apply lookup_frame; intros z; reflexivity. }
  set (x := AOI_HASH_ID c) in *.
  set (a1 := slot_set (set_aoi_id a (c + 1)) x (fresh_object c)).
  assert (Hoid : same_on obj_id a1 (_aoi_enter_finish a1 x ud))
    by (apply same_on_enter_finish; auto with blind).
  assert (Hty : same_on obj_type a1 (_aoi_enter_finish a1 x ud))
    by (apply same_on_enter_finish; auto with blind).
  apply _aoi_object_None. rewrite Hoid, Hty.
  destruct (Z.ltb_spec id 0) as [Hneg|Hnn]; [left; exact Hneg|]. right.
  destruct (decide (AOI_HASH_ID id = x)) as [E|E].
  - left. rewrite E. unfold a1. rewrite slot_get_set_eq. cbn [obj_id fresh_object set_id]. lia.
  - unfold a1. rewrite !slot_get_set_ne by congruence.
    apply _aoi_object_None in Hst as [?|Hst]; [lia | exact Hst].
Qed.

Section Traces.
Variable sinf : float -> float.

(** [reaches a b] : the state [b] is reached from [a] by API calls, under the
    same condition on the id counter as in [reachable]. *)
Inductive reaches (a : aoi) : aoi -> Prop :=
| reaches_here : reaches a a
| reaches_enter b ud :
    reaches a b -> aoi_id b + AOI_MAX_AOI <= Int.INT_MAX ->
    reaches a (fst (aoi_enter b ud))
| reaches_leave b id : reaches a b -> reaches a (aoi_leave b id)
| reaches_locate b id x y b' :
    reaches a b -> aoi_locate b id x y = Some b' -> reaches a b'
| reaches_move b id x y : reaches a b -> reaches a (aoi_move b id x y)
| reaches_speed b id speed : reaches a b -> reaches a (aoi_speed b id speed)
| reaches_update b id tick b' :
    reaches a b -> aoi_update sinf b id tick = Some b' -> reaches a b'
| reaches_trigger b id enter_r leave_r b' r :
    reaches a b -> aoi_trigger b id enter_r leave_r = Some (b', r) -> reaches a b'.

Lemma reaches_reachable a b : reachable sinf a -> reaches a b -> reachable sinf b.
Proof.
  intros Ha. induction 1.
  - exact Ha.
  - apply reach_enter; assumption.
  - apply reach_leave; assumption.
  - eapply reach_locate; eassumption.
  - apply reach_move; assumption.
  - apply reach_speed; assumption.
  - eapply reach_update; eassumption.
  - eapply reach_trigger; eassumption.
Qed.

Lemma reaches_counter a b : reachable sinf a -> reaches a b -> aoi_id a <= aoi_id b.
Proof.
  intros Ha Hab. induction Hab as [|b ud Hab IH Hmax|b id Hab IH|b id x y b' Hab IH Hrun
                                  |b id x y Hab IH|b id speed Hab IH
                                  |b id tick b' Hab IH Hrun|b id er lr b' r Hab IH Hrun].
  - lia.
  - pose proof (reaches_reachable a b Ha Hab) as Hb.
    destruct (reachable_inv sinf b Hb) as [_ Hpos].
    pose proof (aoi_id_enter b ud Hpos Hmax). lia.
  - rewrite aoi_id_leave. exact IH.
  - rewrite (aoi_id_locate _ _ _ _ _ Hrun). exact IH.
  - destruct (struct_eq_move b id x y) as (-> & _). exact IH.
  - destruct (struct_eq_speed b id speed) as (-> & _). exact IH.
  - rewrite (aoi_id_update sinf _ _ _ _ Hrun). exact IH.
  - rewrite (aoi_id_trigger _ _ _ _ _ _ Hrun). exact IH.
Qed.

(** X14.  Ids are handed out in increasing order: as long as the id counter
    does not overflow, an id handed out by [aoi_enter] is smaller than every
    id handed out by a later [aoi_enter], whatever calls lie in between. *)
Theorem enter_ids_increase (a b : aoi) (ud1 ud2 : Z) :
  reachable sinf a -> aoi_id a + AOI_MAX_AOI <= Int.INT_MAX ->
  reaches (fst (aoi_enter a ud1)) b -> aoi_id b + AOI_MAX_AOI <= Int.INT_MAX ->
  snd (aoi_enter a ud1) ≠ -1 -> snd (aoi_enter b ud2) ≠ -1 ->
  snd (aoi_enter a ud1) < snd (aoi_enter b ud2).
Proof.
  intros Ha Hmax Hab Hmaxb Hok1 Hok2.
  destruct (reachable_inv sinf a Ha) as [_ Hpos].
  pose proof (reach_enter sinf a ud1 Ha Hmax) as Ha1.
  pose proof (reaches_counter _ b Ha1 Hab) as Hcnt.
  pose proof (reaches_reachable _ b Ha1 Hab) as Hb.
  destruct (reachable_inv sinf b Hb) as [_ Hposb].
  destruct (aoi_enter_cases a ud1 Hpos Hmax) as [(c1 & Hc1 & _ & E1)|E1];
    rewrite E1 in Hok1, Hcnt |- *; cbn [fst snd] in Hok1, Hcnt |- *; [|contradiction].
  rewrite aoi_id_enter_finish, aoi_id_slot_set, aoi_id_set_aoi_id in Hcnt.
  destruct (aoi_enter_cases b ud2 Hposb Hmaxb) as [(c2 & Hc2 & _ & E2)|E2];
    rewrite E2 in Hok2 |- *; cbn [fst snd] in Hok2 |- *; [lia | contradiction].
Qed.

(** X15.  A destroyed id stays stale: an id below the id counter whose
    lookup fails in a reachable state is found in no state reached from
    there, as long as the id counter does not overflow. *)
Theorem stale_stays_stale (a b : aoi) (id : Z) :
  reachable sinf a -> reaches a b ->
  id < aoi_id a -> _aoi_object a id = None ->
  _aoi_object b id = None.
Proof.
  intros Ha Hab Hid Hst.
  induction Hab as [|b ud Hab IH Hmax|b id0 Hab IH|b id0 x y b' Hab IH Hrun
                   |b id0 x y Hab IH|b id0 speed Hab IH
                   |b id0 tick b' Hab IH Hrun|b id0 er lr b' r Hab IH Hrun].
  - exact Hst.
  - pose proof (reaches_reachable a b Ha Hab) as Hb.
    destruct (reachable_inv sinf b Hb) as [_ Hpos].
    pose proof (reaches_counter a b Ha Hab).
    apply lookup_enter_stale; [exact Hpos | exact Hmax | lia | exact IH].
  - destruct (decide (id = id0)) as [->|Hne]; [apply leave_object_same|].
    rewrite leave_object_other by exact Hne. exact IH.
  - rewrite <- IH. apply lookup_frame;
      (eapply same_on_locate; [| | |exact Hrun]; auto with blind).
  - rewrite <- IH. destruct (struct_eq_move b id0 x y) as (_ & _ & _ & HF).
    apply lookup_frame; apply HF; auto with blind.
  - rewrite <- IH. destruct (struct_eq_speed b id0 speed) as (_ & _ & _ & HF).
    apply lookup_frame; apply HF; auto with blind.
  - rewrite <- IH. apply lookup_frame;
      (eapply same_on_update; [| | | | |exact Hrun]; auto with blind).
  - rewrite <- IH. apply lookup_frame;
      (eapply same_on_trigger; [|exact Hrun]; split; reflexivity).
Qed.

End Traces.

(** An entity is created and destroyed; the next one gets the next id. *)
Definition created_destroyed : aoi := aoi_leave (fst (aoi_enter aoi_init 0)) 0.

Lemma reachable_created_destroyed sinf : reachable sinf created_destroyed.
Proof.
  apply reach_leave, reach_enter; [apply reach_init|]. vm_compute. discriminate.
Qed.

Lemma enter_ids_increase_witness :
  snd (aoi_enter aoi_init 0) < snd (aoi_enter created_destroyed 0).
Proof.
  apply (enter_ids_increase (fun _ => F32.zero) aoi_init created_destroyed 0 0).
  - apply reach_init.
  - vm_compute. discriminate.
  - apply reaches_leave, reaches_here.
  - vm_compute. discriminate.
  - vm_compute. discriminate.
  - vm_compute. discriminate.
Defined.

Lemma stale_stays_stale_witness :
  _aoi_object (fst (aoi_enter created_destroyed 0)) 0 = None.
Proof.
  apply (stale_stays_stale (fun _ => F32.zero) created_destroyed
           (fst (aoi_enter created_destroyed 0)) 0).
  - apply reachable_created_destroyed.
  - apply reaches_enter; [apply reaches_here|]. vm_compute. discriminate.
  - vm_compute. reflexivity.
  - reflexivity.
Defined.

(** ** Teleporting *)

Lemma reorder_fwd (x : Z) (l1 tw dw : list Z) :
  l1 ++ tw ++ x :: dw ≡ₚ l1 ++ x :: tw ++ dw /\
  filter (fun z => z ≠ x) (l1 ++ tw ++ x :: dw)
  = filter (fun z => z ≠ x) (l1 ++ x :: tw ++ dw).
Proof.
  split.
  - apply Permutation_app_head. symmetry. apply Permutation_middle.
  - rewrite !filter_app, !filter_cons, !filter_app.
    destruct (decide (x ≠ x)); [contradiction | reflexivity].
Qed.

Lemma reorder_bwd (x : Z) (up tw l2 : list Z) :
  up ++ x :: tw ++ l2 ≡ₚ up ++ tw ++ x :: l2 /\
  filter (fun z => z ≠ x) (up ++ x :: tw ++ l2)
  = filter (fun z => z ≠ x) (up ++ tw ++ x :: l2).
Proof.
  split.
  - apply Permutation_app_head. apply Permutation_middle.
  - rewrite !filter_app, !filter_cons, !filter_app.
    destruct (decide (x ≠ x)); [contradiction | reflexivity].
Qed.

(** One axis of [_aoi_update_list] moves [x] within the list of that axis
    and leaves the other entities in the order they were in. *)
Lemma update_list_axis_reorder a i x di l a' :
  chain a i l -> x ∈ l -> (length l < walk_fuel)%nat ->
  _aoi_update_list_axis a x i di = Some a' ->
  exists l', chain a' i l' /\ l' ≡ₚ l /\
    filter (fun z => z ≠ x) l' = filter (fun z => z ≠ x) l.
Proof.
  intros Hc Hx Hlen Hrun.
  destruct (update_list_axis_spec a i x di l Hc Hx Hlen) as (a'' & Hrun' & Hcases).
  rewrite Hrun in Hrun'. injection Hrun' as <-.
  destruct Hcases as [(_ & l1 & tw & dw & -> & _ & _ & Hc')
                     |[(_ & up & tw & l2 & -> & _ & _ & Hc')|(_ & ->)]].
  - eexists. split; [exact Hc'|]. apply reorder_fwd.
  - eexists. split; [exact Hc'|]. apply reorder_bwd.
  - exists l. split; [exact Hc|]. split; reflexivity.
Qed.

Lemma update_list_reorder a x d a' lx ly :
  inv a -> live a x ->
  chain a 0 lx -> chain a 1 ly ->
  (forall z, z ∈ lx <-> live a z) -> (forall z, z ∈ ly <-> live a z) ->
  _aoi_update_list a x d = Some a' ->
  exists lx' ly',
    chain a' 0 lx' /\ chain a' 1 ly' /\ lx' ≡ₚ lx /\ ly' ≡ₚ ly /\
    filter (fun z => z ≠ x) lx' = filter (fun z => z ≠ x) lx /\
    filter (fun z => z ≠ x) ly' = filter (fun z => z ≠ x) ly.
Proof.
  intros Hinv Hx Hcx Hcy Hmx Hmy H. unfold _aoi_update_list in H.
  destruct (_aoi_update_list_axis a x 0 (get2 0 d)) as [a1|] eqn:E; [|discriminate].
  change (_aoi_update_list_axis a1 x 1 (get2 1 d) = Some a') in H.
  destruct (update_list_axis_reorder a 0 x (get2 0 d) lx a1 Hcx) as (lx' & Hcx' & Hpx & Hfx);
    [apply Hmx; exact Hx | apply (chain_fuel a 0 lx Hinv Hcx Hmx) | exact E|].
  pose proof (off_axis_update_list_axis 0 a x (get2 0 d) a1 (or_introl eq_refl) E) as Hoff0.
  pose proof (chain_off_axis 0 1 a a1 ly ltac:(lia) Hoff0 Hcy) as Hcy1.
  destruct (update_list_axis_reorder a1 1 x (get2 1 d) ly a' Hcy1) as (ly' & Hcy' & Hpy & Hfy);
    [apply Hmy; exact Hx | apply (chain_fuel a 1 ly Hinv Hcy Hmy) | exact H|].
  pose proof (off_axis_update_list_axis 1 a1 x (get2 1 d) a' (or_intror eq_refl) H) as Hoff1.
  pose proof (chain_off_axis 1 0 a1 a' lx' ltac:(lia) Hoff1 Hcx') as Hcx2.
  exists lx', ly'. auto 10.
Qed.

Section Teleport.
Variable sinf : float -> float.



End Teleport.



(** ** What a scan reports *)

(** Reading the buffer back gives the events that were emitted. *)
Lemma emit_all_below evs m r0 k :
  k < r0 -> fst (emit_all evs (m, r0)) !! k = m !! k.
Proof.
  revert m r0. induction evs as [|ev evs IH]; intros m r0 Hk; [reflexivity|].
  cbn [emit_all fold_left]. change (fold_left _ evs ?s) with (emit_all evs s).
  unfold _emit. cbn [fst snd]. rewrite IH by lia. apply lookup_insert_ne. lia.
Qed.

Lemma emit_all_lookup evs m r0 (k : nat) :
  (k < length evs)%nat ->
  fst (emit_all evs (m, r0)) !! (r0 + Z.of_nat k) = evs !! k.
Proof.
  revert m r0 k. induction evs as [|ev evs IH]; intros m r0 k Hk; [cbn [length] in Hk; lia|].
  cbn [emit_all fold_left]. change (fold_left _ evs ?s) with (emit_all evs s).
  unfold _emit. cbn [fst snd]. destruct k as [|k].
  - rewrite Z.add_0_r, emit_all_below by lia. rewrite lookup_insert_eq.
    destruct ev; reflexivity.
  - cbn [length] in Hk.
    replace (r0 + Z.of_nat (S k)) with (r0 + 1 + Z.of_nat k) by lia.
    rewrite IH by lia. reflexivity.
Qed.

Lemma events_emit_all a evs m :
  aoi_elist a = fst (emit_all evs (m, 0)) ->
  events a (Z.of_nat (length evs)) = evs.
Proof.
  intros He. unfold events. rewrite Nat2Z.id, He. apply list_eq. intros i.
  rewrite list_lookup_fmap.
  destruct (decide (i < length evs)%nat) as [Hi|Hi].
  - rewrite lookup_seq_lt by exact Hi. cbn [fmap option_fmap option_map Nat.add].
    pose proof (emit_all_lookup evs m 0 i Hi) as Hl. rewrite Z.add_0_l in Hl. rewrite Hl.
    destruct (lookup_lt_is_Some_2 evs i Hi) as [ev ->]. reflexivity.
  - rewrite lookup_seq_ge by lia. rewrite lookup_ge_None_2 by lia. reflexivity.
Qed.

(** The events of a diff: ENTER for an id of the new list that is not in the
    old one, LEAVE for an id of the old list that is not in the new one. *)
Definition diff_spec (O N : list Z) (ev : aoi_event) : Prop :=
  (ev_e ev = AOI_ENTER /\ ev_id ev ∈ N /\ ev_id ev ∉ O) \/
  (ev_e ev = AOI_LEAVE /\ ev_id ev ∈ O /\ ev_id ev ∉ N).

Lemma diff_spec_map_enter N ev :
  ev ∈ map (fun id => mk_event id AOI_ENTER) N -> diff_spec [] N ev.
Proof.
  intros H. apply list_elem_of_fmap in H as (u & -> & Hu). left. cbn [ev_e ev_id].
  split; [reflexivity|]. split; [exact Hu|]. intros Hin. inversion Hin.
Qed.

Lemma diff_spec_map_leave O ev :
  ev ∈ map (fun id => mk_event id AOI_LEAVE) O -> diff_spec O [] ev.
Proof.
  intros H. apply list_elem_of_fmap in H as (u & -> & Hu). right. cbn [ev_e ev_id].
  split; [reflexivity|]. split; [exact Hu|]. intros Hin. inversion Hin.
Qed.

Lemma merge_abs_sound al O N :
  ssorted O -> ssorted N -> (forall n, n ∈ N -> al n = true) ->
  forall ev, ev ∈ merge_abs al O N -> diff_spec O N ev.
Proof.
  revert N. induction O as [|o O IHO]; intros N HO HN Hal.
  { rewrite merge_abs_nil_l. apply diff_spec_map_enter. }
  apply ssorted_inv in HO as [HO' Ho].
  induction N as [|n N IHN].
  { rewrite merge_abs_nil_r. apply diff_spec_map_leave. }
  pose proof HN as HN0. apply ssorted_inv in HN0 as [HN' Hn].
  assert (Hal' : forall m, m ∈ N -> al m = true)
    by (intros m Hm; apply Hal, elem_of_cons; auto).
  rewrite merge_abs_cons. destruct (al o) eqn:Halo.
  - destruct (Z.ltb_spec n o) as [Hlt|Hge].
    + intros ev Hev. apply elem_of_cons in Hev as [->|Hev].
      * left. cbn [ev_e ev_id]. split; [reflexivity|].
        split; [apply elem_of_cons; auto|].
        intros Hin. apply elem_of_cons in Hin as [->|Hin]; [lia|].
        specialize (Ho n Hin). lia.
      * destruct (IHN HN' Hal' ev Hev) as [(He & H1 & H2)|(He & H1 & H2)].
        -- left. split; [exact He|]. split; [apply elem_of_cons; auto | exact H2].
        -- right. split; [exact He|]. split; [exact H1|].
           intros Hin. apply elem_of_cons in Hin as [E|Hin]; [|contradiction].
           apply elem_of_cons in H1 as [E1|H1]; [lia|]. specialize (Ho _ H1). lia.
    + destruct (Z.eqb_spec n o) as [->|Hne].
      * intros ev Hev.
        destruct (IHO N HO' HN' Hal' ev Hev) as [(He & H1 & H2)|(He & H1 & H2)].
        -- left. split; [exact He|]. split; [apply elem_of_cons; auto|].
           intros Hin. apply elem_of_cons in Hin as [E|Hin]; [|contradiction].
           specialize (Hn _ H1). lia.
        -- right. split; [exact He|]. split; [apply elem_of_cons; auto|].
           intros Hin. apply elem_of_cons in Hin as [E|Hin]; [|contradiction].
           specialize (Ho _ H1). lia.
      * intros ev Hev. apply elem_of_cons in Hev as [->|Hev].
        -- right. cbn [ev_e ev_id]. split; [reflexivity|].
           split; [apply elem_of_cons; auto|].
           intros Hin. apply elem_of_cons in Hin as [E|Hin]; [lia|].
           specialize (Hn _ Hin). lia.
        -- destruct (IHO (n :: N) HO' HN Hal ev Hev) as [(He & H1 & H2)|(He & H1 & H2)].
           ++ left. split; [exact He|]. split; [exact H1|].
              intros Hin. apply elem_of_cons in Hin as [E|Hin]; [|contradiction].
              apply elem_of_cons in H1 as [E1|H1]; [lia|]. specialize (Hn _ H1). lia.
           ++ right. split; [exact He|]. split; [apply elem_of_cons; auto | exact H2].
  - intros ev Hev.
    destruct (IHO (n :: N) HO' HN Hal ev Hev) as [(He & H1 & H2)|(He & H1 & H2)].
    + left. split; [exact He|]. split; [exact H1|].
      intros Hin. apply elem_of_cons in Hin as [E|Hin]; [|contradiction].
      rewrite E in H1. specialize (Hal _ H1). congruence.
    + right. split; [exact He|]. split; [apply elem_of_cons; auto | exact H2].
Qed.

Lemma merge_abs_complete al O N :
  ssorted O -> ssorted N -> (forall n, n ∈ N -> al n = true) ->
  (forall u, u ∈ N -> u ∉ O -> mk_event u AOI_ENTER ∈ merge_abs al O N) /\
  (forall u, u ∈ O -> u ∉ N -> al u = true -> mk_event u AOI_LEAVE ∈ merge_abs al O N).
Proof.
  revert N. induction O as [|o O IHO]; intros N HO HN Hal.
  { rewrite merge_abs_nil_l. split.
    - intros u Hu _. apply list_elem_of_fmap. exists u. auto.
    - intros u Hu. inversion Hu. }
  apply ssorted_inv in HO as [HO' Ho].
  induction N as [|n N IHN].
  { rewrite merge_abs_nil_r. split.
    - intros u Hu. inversion Hu.
    - intros u Hu _ _. apply list_elem_of_fmap. exists u. auto. }
  pose proof HN as HN0. apply ssorted_inv in HN0 as [HN' Hn].
  assert (Hal' : forall m, m ∈ N -> al m = true)
    by (intros m Hm; apply Hal, elem_of_cons; auto).
  rewrite merge_abs_cons. destruct (al o) eqn:Halo.
  - destruct (Z.ltb_spec n o) as [Hlt|Hge].
    + destruct (IHN HN' Hal') as [IE IL]. split.
      * intros u Hu Hout. apply elem_of_cons in Hu as [->|Hu]; apply elem_of_cons; auto.
      * intros u Hu Hout Hau. apply elem_of_cons. right. apply IL; [exact Hu| |exact Hau].
        intros Hin. apply Hout. apply elem_of_cons. auto.
    + destruct (Z.eqb_spec n o) as [->|Hne].
      * destruct (IHO N HO' HN' Hal') as [IE IL]. split.
        -- intros u Hu Hout. apply elem_of_cons in Hu as [->|Hu];
             [exfalso; apply Hout, elem_of_cons; auto|].
           apply IE; [exact Hu|]. intros Hin. apply Hout, elem_of_cons. auto.
        -- intros u Hu Hout Hau. apply elem_of_cons in Hu as [->|Hu];
             [exfalso; apply Hout, elem_of_cons; auto|].
           apply IL; [exact Hu| |exact Hau]. intros Hin. apply Hout, elem_of_cons. auto.
      * destruct (IHO (n :: N) HO' HN Hal) as [IE IL]. split.
        -- intros u Hu Hout. apply elem_of_cons. right. apply IE; [exact Hu|].
           intros Hin. apply Hout, elem_of_cons. auto.
        -- intros u Hu Hout Hau. apply elem_of_cons in Hu as [->|Hu]; apply elem_of_cons; auto.
  - destruct (IHO (n :: N) HO' HN Hal) as [IE IL]. split.
    + intros u Hu Hout. apply IE; [exact Hu|].
      intros Hin. apply Hout, elem_of_cons. auto.
    + intros u Hu Hout Hau. apply elem_of_cons in Hu as [->|Hu]; [congruence|].
      apply IL; assumption.
Qed.

Lemma diff_events_sound a O N :
  ssorted O -> ssorted N -> (forall n, n ∈ N -> alive a n = true) ->
  forall ev, ev ∈ diff_events a O N -> diff_spec O N ev.
Proof.
  intros HO HN Hal. destruct O as [|o O]; [apply diff_spec_map_enter|].
  apply merge_abs_sound; assumption.
Qed.

Lemma diff_events_complete a O N :
  ssorted O -> ssorted N -> (forall n, n ∈ N -> alive a n = true) ->
  (forall u, u ∈ N -> u ∉ O -> mk_event u AOI_ENTER ∈ diff_events a O N) /\
  (forall u, u ∈ O -> u ∉ N -> alive a u = true ->
     mk_event u AOI_LEAVE ∈ diff_events a O N).
Proof.
  intros HO HN Hal. destruct O as [|o O]; [|apply merge_abs_complete; assumption].
  cbn [diff_events]. split.
  - intros u Hu _. apply list_elem_of_fmap. exists u. auto.
  - intros u Hu. inversion Hu.
Qed.

Lemma reached_in_range a x leave_r nodes n :
  n ∈ reached a x leave_r nodes -> in_x_range a x leave_r n = true.
Proof.
  induction nodes as [|m rest IH]; cbn [reached]; [intros H; inversion H|].
  destruct (in_x_range a x leave_r m) eqn:E; [|intros H; inversion H].
  intros H. apply elem_of_cons in H as [->|H]; [exact E | apply IH; exact H].
Qed.

Section Scan.
Variable sinf : float -> float.

(** A scan of a live entity in a reachable state, with everything the
    properties below need: the old snapshot [O], the new one [N], the list
    of the x axis around the slot, and what the scan leaves alone. *)
Lemma trigger_run a id x enter_r leave_r :
  reachable sinf a -> _aoi_object a id = Some x ->
  exists a' O N l1 l2,
    aoi_trigger a id enter_r leave_r
      = Some (a', Z.of_nat (length (diff_events a O N))) /\
    events a' (Z.of_nat (length (diff_events a O N))) = diff_events a O N /\
    old_ids a x = O /\ old_ids a' x = N /\ ssorted O /\ ssorted N /\
    (forall n, n ∈ N -> alive a n = true) /\
    chain a 0 (l1 ++ x :: l2) /\ (forall z, z ∈ l1 ++ x :: l2 <-> live a z) /\
    N = scan_ids a x enter_r leave_r O l1 l2 /\
    obj_n_list (slot_get a' x) = obj_o_list (slot_get a x) /\
    (forall z, z ≠ x ->
       obj_o_list (slot_get a' z) = obj_o_list (slot_get a z) /\
       obj_n_list (slot_get a' z) = obj_n_list (slot_get a z)).
Proof.
  intros Hr Hobj. destruct (reachable_inv sinf a Hr) as [Hinv _].
  pose proof (object_live a id x Hobj) as [Hx _].
  destruct (inv_chain_split a x Hinv Hx) as (l1 & l2 & Hch & Hmem).
  destruct (inv_bufs a Hinv x Hx) as [_ (O & HO & HsO)].
  destruct (aoi_trigger_spec a id enter_r leave_r x l1 l2 O Hinv Hobj Hch Hmem HO)
    as (a' & cur_list & Hrun & Hb & _ & _ & Helist & _ & Hol & Hnl & Hother).
  exists a', O, (scan_ids a x enter_r leave_r O l1 l2), l1, l2.
  split; [exact Hrun|].
  split; [apply (events_emit_all a' _ (aoi_elist a)); exact Helist|].
  split; [apply is_buf_elems; exact HO|].
  split; [unfold old_ids; rewrite Hol; apply is_buf_elems; exact Hb|].
  split; [exact HsO|]. split; [apply scan_ids_sorted|].
  split.
  { intros n Hn. apply scan_ids_live in Hn as (z & Hz & ->).
    unfold alive. rewrite (live_object a z Hinv); [reflexivity|].
    apply Hmem. revert Hz. repeat first [rewrite elem_of_app | rewrite elem_of_cons]. tauto. }
  split; [exact Hch|]. split; [exact Hmem|]. split; [reflexivity|].
  split; [exact Hnl | exact Hother].
Qed.




End Scan.

Lemma axis_sorted_pair_apart i : i = 0 \/ i = 1 -> axis_sorted pair_apart i.
Proof.
  intros Hi. apply axis_sortedb_sound;
    [apply (reachable_inv (fun _ => F32.zero)), reachable_pair_apart | exact Hi|].
  destruct Hi as [-> | ->]; vm_compute; reflexivity.
Qed.

(** Entity 0 with neighbours coming and going.  Three entities stand at the
    origin and 0 has scanned (snapshot [1; 2]); then 2 is teleported to
    (200,0) and a fourth entity, id 3, is created at the origin.  The next scan
    of 0 finds the snapshot [1; 3] and reports LEAVE 2 and ENTER 3. *)
Definition three_scanned : aoi :=
  Eval vm_compute in default aoi_init (fst <$> aoi_trigger three_entities 0 100 130).
Definition three_moved : aoi :=
  Eval vm_compute in default aoi_init (aoi_locate three_scanned 2 200 0).
Definition crossing_state : aoi :=
  Eval vm_compute in fst (aoi_enter three_moved 0).

Lemma reachable_crossing_state sinf : reachable sinf crossing_state.
Proof.
  assert (H3 : reachable sinf three_entities).
  { apply reach_enter; [apply reach_enter; [apply reach_enter; [apply reach_init|]|]|];
      vm_compute; discriminate. }
  assert (Hs : reachable sinf three_scanned).
  { apply (reach_trigger sinf three_entities 0 100 130 three_scanned 2 H3).
    vm_compute. reflexivity. }
  assert (Hm : reachable sinf three_moved).
  { apply (reach_locate sinf three_scanned 2 200 0 three_moved Hs). vm_compute. reflexivity. }
  assert (E : crossing_state = fst (aoi_enter three_moved 0)) by (vm_compute; reflexivity).
  rewrite E. apply reach_enter; [exact Hm|]. vm_compute. discriminate.
Qed.

Lemma crossing_state_scan :
  (fun p => (old_ids crossing_state 0, old_ids (fst p) 0,
             elems (obj_n_list (slot_get (fst p) 0)), events (fst p) (snd p)))
    <$> aoi_trigger crossing_state 0 100 130
  = Some ([1; 2], [1; 3], [1; 2], [mk_event 2 AOI_LEAVE; mk_event 3 AOI_ENTER]).
Proof. vm_compute. reflexivity. Qed.

Lemma axis_sorted_crossing_state i : i = 0 \/ i = 1 -> axis_sorted crossing_state i.
Proof.
  intros Hi. apply axis_sortedb_sound;
    [apply (reachable_inv (fun _ => F32.zero)), reachable_crossing_state | exact Hi|].
  destruct Hi as [-> | ->]; vm_compute; reflexivity.
Qed.




(** ** Who is in the snapshot *)

(** [dx] and [d] of the candidate walk, as [aoi_trigger] computes them in
    [int]. *)
Definition dx_of (a : aoi) (x n : Z) : Z :=
  Int.abs (Int.sub (coord a 0 x) (coord a 0 n)).
Definition dist2 (a : aoi) (x n : Z) : Z :=
  let dx := Int.abs (Int.sub (coord a 0 x) (coord a 0 n)) in
  let dy := Int.abs (Int.sub (coord a 1 x) (coord a 1 n)) in
  Int.add (Int.mul dx dx) (Int.mul dy dy).

Lemma selected_dist2 a x enter_r leave_r O n :
  ssorted O ->
  selected a x enter_r leave_r O n
  = (dist2 a x n <=? Int.mul enter_r enter_r) ||
    ((dist2 a x n <=? Int.mul leave_r leave_r) &&
     bool_decide (obj_id (slot_get a n) ∈ O)).
Proof.
  intros Hs. unfold selected, dist2. cbv zeta. rewrite (find_abs_spec _ O Hs).
  destruct (bool_decide (obj_id (slot_get a n) ∈ O)); reflexivity.
Qed.

Lemma in_x_range_dx a x leave_r n :
  in_x_range a x leave_r n = true <-> dx_of a x n <= leave_r.
Proof.
  unfold in_x_range, dx_of.
  destruct (Z.gtb_spec (Int.abs (Int.sub (coord a 0 x) (coord a 0 n))) leave_r);
    cbn [negb]; split; intros; first [lia | reflexivity | discriminate].
Qed.

Lemma scan_ids_member a x enter_r leave_r O l1 l2 u :
  ssorted O -> NoDup (l1 ++ x :: l2) ->
  u ∈ scan_ids a x enter_r leave_r O l1 l2 ->
  exists n, n ∈ l1 ++ l2 /\ n ≠ x /\ obj_id (slot_get a n) = u /\
    dx_of a x n <= leave_r /\
    (dist2 a x n <= Int.mul enter_r enter_r \/
     (dist2 a x n <= Int.mul leave_r leave_r /\ u ∈ O)).
Proof.
  intros Hs Hnd Hu. apply scan_ids_elem in Hu as (n & Hn & Hsel & ->).
  apply NoDup_mid in Hnd as (_ & _ & Hx1 & Hx2 & _).
  exists n.
  assert (Hin : n ∈ l1 ++ l2 /\ dx_of a x n <= leave_r).
  { apply elem_of_app in Hn as [Hn|Hn];
      (split; [|apply in_x_range_dx, (reached_in_range _ _ _ _ _ Hn)]);
      apply reached_elem in Hn; apply elem_of_app;
      [left; apply elem_of_rev; exact Hn | right; exact Hn]. }
  destruct Hin as [Hin Hdx]. split; [exact Hin|].
  split; [intros ->; apply elem_of_app in Hin as [?|?]; contradiction|].
  split; [reflexivity|]. split; [exact Hdx|].
  rewrite (selected_dist2 _ _ _ _ _ _ Hs) in Hsel.
  apply orb_true_iff in Hsel as [H|H]; [left; apply Z.leb_le; exact H|].
  apply andb_true_iff in H as [H1 H2]. right.
  split; [apply Z.leb_le; exact H1 | apply bool_decide_eq_true in H2; exact H2].
Qed.

Section Snapshot.
Variable sinf : float -> float.


End Snapshot.


(** The list of an axis is determined by the links. *)
Lemma dseg_unique pv nx pp l l' :
  dseg pv nx pp l None -> dseg pv nx pp l' None ->
  head_or l None = head_or l' None -> l = l'.
Proof.
  revert pp l'. induction l as [|x l IH]; intros pp l' H H' Hh.
  - destruct l' as [|x' l']; [reflexivity | discriminate].
  - destruct l' as [|x' l']; [discriminate|].
    cbn [head_or] in Hh. injection Hh as <-.
    cbn [dseg] in H, H'. destruct H as (_ & Hn & H). destruct H' as (_ & Hn' & H').
    f_equal. apply (IH (Some x) l' H H'). congruence.
Qed.

Lemma chain_unique a i l l' : chain a i l -> chain a i l' -> l = l'.
Proof.
  intros (Hh & Hd & _) (Hh' & Hd' & _).
  apply (dseg_unique _ _ None l l' Hd Hd'). congruence.
Qed.

Lemma live_pair_apart z : live pair_apart z <-> z = 0 \/ z = 1.
Proof.
  destruct (reachable_inv (fun _ => F32.zero) pair_apart (reachable_pair_apart _))
    as [Hinv _].
  destruct (inv_chain pair_apart Hinv 0) as (l & Hc & Hmem); [auto|].
  assert (Hc' : chain pair_apart 0 [0; 1]).
  { split; [reflexivity|]. split; [repeat split|].
    apply NoDup_cons. split; [|apply NoDup_singleton].
    intros H. apply list_elem_of_singleton in H. discriminate. }
  rewrite (chain_unique _ _ _ _ Hc Hc') in Hmem. rewrite <- Hmem.
  rewrite elem_of_cons, list_elem_of_singleton. reflexivity.
Qed.

(** Within these bounds the differences, squares and sums of the scan stay
    within [int]. *)
Lemma int_exact_dist (cx cn yx yn : Z) :
  -16383 <= cx <= 16383 -> -16383 <= cn <= 16383 ->
  -16383 <= yx <= 16383 -> -16383 <= yn <= 16383 ->
  Int.abs (Int.sub cx cn) = Z.abs (cx - cn) /\
  Int.add (Int.mul (Int.abs (Int.sub cx cn)) (Int.abs (Int.sub cx cn)))
          (Int.mul (Int.abs (Int.sub yx yn)) (Int.abs (Int.sub yx yn)))
  = (cx - cn) * (cx - cn) + (yx - yn) * (yx - yn).
Proof.
  intros H1 H2 H3 H4.
  assert (Hs : forall u v, -16383 <= u <= 16383 -> -16383 <= v <= 16383 ->
             Int.abs (Int.sub u v) = Z.abs (u - v)).
  { intros u v Hu Hv. unfold Int.abs, Int.sub.
    rewrite (Int.wrap_id (u - v)) by (unfold Int.in_range, Int.INT_MIN, Int.INT_MAX; lia).
    apply Int.wrap_id. unfold Int.in_range, Int.INT_MIN, Int.INT_MAX. lia. }
  rewrite !Hs by assumption. split; [reflexivity|].
  rewrite <- (Z.abs_square (cx - cn)), <- (Z.abs_square (yx - yn)).
  generalize (Z.abs (cx - cn)) (Z.abs (yx - yn))
             (Z.abs_nonneg (cx - cn)) (Z.abs_nonneg (yx - yn))
             (Z.abs_le (cx - cn) 32766) (Z.abs_le (yx - yn) 32766).
  intros p q Hp Hq Hpb Hqb.
  assert (Hp' : 0 <= p <= 32766) by (split; [exact Hp | apply Hpb; lia]).
  assert (Hq' : 0 <= q <= 32766) by (split; [exact Hq | apply Hqb; lia]).
  assert (Hpp : 0 <= p * p <= 1073610756) by nia.
  assert (Hqq : 0 <= q * q <= 1073610756) by nia.
  unfold Int.add, Int.mul.
  rewrite (Int.wrap_id (p * p)), (Int.wrap_id (q * q))
    by (unfold Int.in_range, Int.INT_MIN, Int.INT_MAX; lia).
  apply Int.wrap_id. unfold Int.in_range, Int.INT_MIN, Int.INT_MAX. lia.
Qed.

Lemma int_exact_square r : 0 <= r <= 46340 -> Int.mul r r = r * r.
Proof.
  intros H. unfold Int.mul. apply Int.wrap_id.
  unfold Int.in_range, Int.INT_MIN, Int.INT_MAX. nia.
Qed.

Lemma reached_prefix a x leave_r pre rest :
  (forall m, m ∈ pre -> in_x_range a x leave_r m = true) ->
  reached a x leave_r (pre ++ rest) = pre ++ reached a x leave_r rest.
Proof.
  induction pre as [|m pre IH]; intros H; [reflexivity|].
  cbn [app reached]. rewrite (H m) by (apply elem_of_cons; auto).
  f_equal. apply IH. intros k Hk. apply H. apply elem_of_cons. auto.
Qed.

Lemma reached_through a x leave_r pre n rest :
  (forall m, m ∈ pre -> in_x_range a x leave_r m = true) ->
  in_x_range a x leave_r n = true ->
  n ∈ reached a x leave_r (pre ++ n :: rest).
Proof.
  intros Hpre Hn. rewrite (reached_prefix _ _ _ _ _ Hpre). cbn [reached]. rewrite Hn.
  apply elem_of_app. right. apply elem_of_cons. auto.
Qed.

(** On an x list in non-decreasing order, with coordinates and radii small
    enough for the arithmetic of the scan to be exact, the walk reaches
    every entity within the leave radius. *)
Lemma sorted_walk_reaches a x leave_r l1 l2 n :
  sorted_by (coord a 0) (l1 ++ x :: l2) ->
  (forall z, z ∈ l1 ++ x :: l2 ->
     -16383 <= coord a 0 z <= 16383 /\ -16383 <= coord a 1 z <= 16383) ->
  n ∈ l1 ++ l2 ->
  Z.abs (coord a 0 x - coord a 0 n) <= leave_r ->
  n ∈ reached a x leave_r (rev l1) ++ reached a x leave_r l2.
Proof.
  intros Hs Hb Hn Hdx.
  assert (Hxin : x ∈ l1 ++ x :: l2) by (apply elem_of_app; right; apply elem_of_cons; auto).
  assert (Hrange : forall m, m ∈ l1 ++ x :: l2 ->
            Z.abs (coord a 0 x - coord a 0 m) <= leave_r ->
            in_x_range a x leave_r m = true).
  { intros m Hm Hle. apply in_x_range_dx. unfold dx_of.
    destruct (Hb x Hxin) as [Hx0 Hx1]. destruct (Hb m Hm) as [Hm0 Hm1].
    destruct (int_exact_dist _ _ _ _ Hx0 Hm0 Hx1 Hm1) as [-> _]. exact Hle. }
  pose proof (StronglySorted_app_1_l _ _ _ Hs) as Hs1.
  pose proof (StronglySorted_app_1_r _ _ _ Hs) as Hs2.
  apply StronglySorted_cons in Hs2 as [Hx2 Hs2]. rewrite Forall_forall in Hx2.
  apply elem_of_app in Hn as [Hn|Hn]; apply elem_of_app.
  - left. apply list_elem_of_split in Hn as (u & v & ->).
    rewrite rev_app_distr. cbn [rev]. rewrite <- app_assoc. cbn [app].
    pose proof (StronglySorted_app_1_r _ _ _ Hs1) as Hnv.
    apply StronglySorted_cons in Hnv as [Hnv _]. rewrite Forall_forall in Hnv.
    assert (Hnx : coord a 0 n <= coord a 0 x).
    { apply (StronglySorted_app_1_elem_of _ _ _ n x Hs);
        [apply elem_of_app; right; apply elem_of_cons; auto | apply elem_of_cons; auto]. }
    apply reached_through.
    + intros m Hm. rewrite elem_of_rev in Hm.
      assert (Hml : m ∈ u ++ n :: v)
        by (apply elem_of_app; right; apply elem_of_cons; auto).
      assert (Hmx : coord a 0 m <= coord a 0 x)
        by (apply (StronglySorted_app_1_elem_of _ _ _ m x Hs);
            [exact Hml | apply elem_of_cons; auto]).
      specialize (Hnv m Hm). cbv beta in Hnv.
      apply Hrange; [apply elem_of_app; auto | lia].
    + apply Hrange; [|exact Hdx].
      apply elem_of_app. left. apply elem_of_app. right. apply elem_of_cons. auto.
  - right. apply list_elem_of_split in Hn as (u & v & ->).
    assert (Hxn : coord a 0 x <= coord a 0 n)
      by (apply Hx2; apply elem_of_app; right; apply elem_of_cons; auto).
    apply reached_through.
    + intros m Hm.
      assert (Hmn : coord a 0 m <= coord a 0 n)
        by (apply (StronglySorted_app_1_elem_of _ _ _ m n Hs2);
            [exact Hm | apply elem_of_cons; auto]).
      assert (Hxm : coord a 0 x <= coord a 0 m) by (apply Hx2; apply elem_of_app; auto).
      apply Hrange; [|lia].
      apply elem_of_app. right. apply elem_of_cons. right. apply elem_of_app. auto.
    + apply Hrange; [|exact Hdx].
      apply elem_of_app. right. apply elem_of_cons. right.
      apply elem_of_app. right. apply elem_of_cons. auto.
Qed.

(** The ids that the two walks pick, on a sorted x list within the bounds. *)
Lemma scan_ids_exact a x enter_r leave_r O l1 l2 :
  chain a 0 (l1 ++ x :: l2) -> (forall z, z ∈ l1 ++ x :: l2 <-> live a z) ->
  ssorted O -> axis_sorted a 0 ->
  (forall z i, live a z -> i = 0 \/ i = 1 -> -16383 <= coord a i z <= 16383) ->
  0 <= enter_r <= leave_r -> leave_r <= 46340 ->
  forall u, u ∈ scan_ids a x enter_r leave_r O l1 l2 <->
    exists n, live a n /\ n ≠ x /\ obj_id (slot_get a n) = u /\
      ((coord a 0 x - coord a 0 n) * (coord a 0 x - coord a 0 n)
       + (coord a 1 x - coord a 1 n) * (coord a 1 x - coord a 1 n) <= enter_r * enter_r \/
       ((coord a 0 x - coord a 0 n) * (coord a 0 x - coord a 0 n)
        + (coord a 1 x - coord a 1 n) * (coord a 1 x - coord a 1 n) <= leave_r * leave_r /\
        u ∈ O)).
Proof.
  intros Hch Hmem HsO Hsorted Hbound Her Hlr.
  assert (Hx : live a x) by (apply Hmem, elem_of_app; right; apply elem_of_cons; auto).
  pose proof Hch as (_ & _ & Hnd).
  assert (Hdist : forall n, live a n ->
            dx_of a x n = Z.abs (coord a 0 x - coord a 0 n) /\
            dist2 a x n
            = (coord a 0 x - coord a 0 n) * (coord a 0 x - coord a 0 n)
              + (coord a 1 x - coord a 1 n) * (coord a 1 x - coord a 1 n)).
  { intros n Hn. unfold dx_of, dist2. cbv zeta. apply int_exact_dist; auto. }
  assert (Hin : forall n, n ∈ l1 ++ l2 -> live a n /\ n ≠ x).
  { intros n Hn. split.
    - apply Hmem. revert Hn. repeat first [rewrite elem_of_app | rewrite elem_of_cons]. tauto.
    - apply NoDup_mid in Hnd as (_ & _ & Hx1 & Hx2 & _).
      intros ->. apply elem_of_app in Hn as [?|?]; contradiction. }
  intros u. split.
  - intros Hu.
    destruct (scan_ids_member a x enter_r leave_r O l1 l2 u HsO Hnd Hu)
      as (n & Hn & Hne & Hid & _ & Hsel).
    destruct (Hin n Hn) as [Hln _]. exists n.
    split; [exact Hln|]. split; [exact Hne|]. split; [exact Hid|].
    destruct (Hdist n Hln) as [_ <-].
    rewrite <- (int_exact_square enter_r), <- (int_exact_square leave_r) by lia.
    exact Hsel.
  - intros (n & Hln & Hne & <- & Hsel).
    destruct (Hdist n Hln) as [Hdx Hd2].
    apply scan_ids_elem. exists n.
    assert (Hnl : n ∈ l1 ++ l2).
    { apply Hmem in Hln. revert Hln.
      repeat first [rewrite elem_of_app | rewrite elem_of_cons]. tauto. }
    split; [|split; [|reflexivity]].
    + apply sorted_walk_reaches.
      * apply (axis_sorted_chain a 0 _ Hch Hmem). exact Hsorted.
      * intros z Hz. apply Hmem in Hz. split; apply Hbound; auto.
      * exact Hnl.
      * clear Hdx Hd2. revert Hsel.
        generalize (coord a 0 x - coord a 0 n) (coord a 1 x - coord a 1 n).
        intros p q Hsel.
        assert (Hpp : p * p <= leave_r * leave_r) by nia.
        apply Z.abs_le. split; nia.
    + rewrite (selected_dist2 _ _ _ _ _ _ HsO), Hd2.
      rewrite !int_exact_square by lia.
      destruct Hsel as [H|[H1 H2]].
      * apply orb_true_iff. left. apply Z.leb_le. exact H.
      * apply orb_true_iff. right. apply andb_true_iff.
        split; [apply Z.leb_le; exact H1 | apply bool_decide_eq_true; exact H2].
Qed.

Section SnapshotExact.
Variable sinf : float -> float.


End SnapshotExact.

Lemma live_crossing_state z :
  live crossing_state z <-> z = 3 \/ z = 1 \/ z = 0 \/ z = 2.
Proof.
  destruct (reachable_inv (fun _ => F32.zero) crossing_state (reachable_crossing_state _))
    as [Hinv _].
  destruct (inv_chain crossing_state Hinv 0) as (l & Hc & Hmem); [auto|].
  assert (Hc' : chain crossing_state 0 [3; 1; 0; 2]).
  { split; [reflexivity|]. split; [repeat split|].
    repeat (apply NoDup_cons; split; [rewrite ?elem_of_cons, elem_of_nil; lia|]).
    apply NoDup_nil_2. }
  rewrite (chain_unique _ _ _ _ Hc Hc') in Hmem. rewrite <- Hmem.
  rewrite !elem_of_cons, elem_of_nil. tauto.
Qed.

Lemma bounds_crossing_state z i :
  live crossing_state z -> i = 0 \/ i = 1 -> -16383 <= coord crossing_state i z <= 16383.
Proof.
  intros Hz Hi. apply live_crossing_state in Hz.
  destruct Hz as [-> |[-> |[-> | ->]]]; destruct Hi as [-> | ->];
    vm_compute; split; discriminate.
Qed.


(** ** An entity and its own snapshot *)

(** No id of an old list hashes to the slot of the list: the ids came from
    other slots. *)
Definition noself (a : aoi) : Prop :=
  forall x s, live a x -> s ∈ old_ids a x -> AOI_HASH_ID s ≠ x.

Lemma noself_mono a a' :
  (forall z, live a' z ->
     (live a z /\ old_ids a' z = old_ids a z) \/ old_ids a' z = []) ->
  noself a -> noself a'.
Proof.
  intros Hslots H x s Hx Hs. destruct (Hslots x Hx) as [[Hl E]|E]; rewrite E in Hs.
  - apply (H x s Hl Hs).
  - inversion Hs.
Qed.

Lemma noself_frame a a' :
  same_on obj_type a a' -> same_on obj_o_list a a' -> noself a -> noself a'.
Proof.
  intros Hty Hol. apply noself_mono. intros z Hz. left.
  unfold live, old_ids in *. rewrite <- Hty, Hol. auto.
Qed.

Lemma noself_leave a id : noself a -> noself (aoi_leave a id).
Proof.
  apply noself_mono. intros z Hz. left.
  destruct (_aoi_object a id) as [x|] eqn:Hobj.
  2:{ unfold aoi_leave in *. rewrite Hobj in *. auto. }
  destruct (decide (z = x)) as [->|Hne].
  - exfalso. apply Hz. unfold live. rewrite (leave_slot a id x Hobj). reflexivity.
  - unfold live, old_ids in *.
    rewrite (leave_frame a id x z obj_type Hobj Hne) in Hz by (split; reflexivity).
    rewrite (leave_frame a id x z obj_o_list Hobj Hne) by (split; reflexivity). auto.
Qed.

Lemma noself_enter a ud :
  0 <= aoi_id a -> aoi_id a + AOI_MAX_AOI <= Int.INT_MAX ->
  noself a -> noself (fst (aoi_enter a ud)).
Proof.
  intros Hpos Hmax. apply noself_mono.
  destruct (aoi_enter_cases a ud Hpos Hmax) as [(c & Hc & Hfree & ->)| ->]; cbn [fst].
  2:{ intros z Hz. left. auto. }
  set (x := AOI_HASH_ID c) in *.
  set (a1 := slot_set (set_aoi_id a (c + 1)) x (fresh_object c)).
  destruct (enter_finish_lists a1 x ud) as (_ & Hol & Hother).
  intros z Hz. destruct (decide (z = x)) as [->|Hne].
  - right. unfold old_ids. rewrite Hol. apply (is_buf_elems _ _ is_buf_new_list).
  - left. unfold live, old_ids in *.
    rewrite (enter_finish_other a1 x ud z obj_type Hne) in Hz by (split; reflexivity).
    destruct (Hother z Hne) as [_ ->]. unfold a1 in *.
    rewrite slot_get_set_ne in * by congruence. auto.
Qed.

Section NoSelf.
Variable sinf : float -> float.

Lemma noself_trigger a id enter_r leave_r a' r :
  reachable sinf a -> noself a ->
  aoi_trigger a id enter_r leave_r = Some (a', r) -> noself a'.
Proof.
  intros Hr Hns Hrun. destruct (_aoi_object a id) as [x|] eqn:Hobj.
  2:{ unfold aoi_trigger in Hrun. rewrite Hobj in Hrun. injection Hrun as <- _. exact Hns. }
  destruct (reachable_inv sinf a Hr) as [Hinv _].
  destruct (trigger_run sinf a id x enter_r leave_r Hr Hobj)
    as (a'' & O & N & l1 & l2 & Hrun' & _ & HO & HN & HsO & _ & _ & Hch & Hmem & HNs
        & _ & Hother).
  rewrite Hrun in Hrun'. injection Hrun' as <- _.
  assert (Hty : same_on obj_type a a')
    by (apply (same_on_trigger obj_type _ _ _ _ _ _ ltac:(split; reflexivity) Hrun)).
  intros z s Hz Hs. unfold live in Hz. rewrite Hty in Hz.
  destruct (decide (z = x)) as [->|Hne].
  - rewrite HN, HNs in Hs. pose proof Hch as (_ & _ & Hnd).
    destruct (scan_ids_member a x enter_r leave_r O l1 l2 s HsO Hnd Hs)
      as (n & Hn & Hnx & <- & _).
    assert (Hln : live a n).
    { apply Hmem. revert Hn. repeat first [rewrite elem_of_app | rewrite elem_of_cons]. tauto. }
    destruct (inv_ids a Hinv n Hln) as [_ ->]. exact Hnx.
  - unfold old_ids in Hs. destruct (Hother z Hne) as [E _]. rewrite E in Hs.
    apply (Hns z s Hz Hs).
Qed.

Lemma reachable_noself a : reachable sinf a -> noself a.
Proof.
  induction 1 as [|a ud Hr IH Hmax|a id _ IH|a id x y a' _ IH Hrun
                 |a id x y _ IH|a id speed _ IH
                 |a id tick a' _ IH Hrun|a id er lr a' r Hr IH Hrun].
  - intros x s Hx. exfalso. apply Hx. reflexivity.
  - apply noself_enter; [apply (reachable_inv sinf a Hr) | exact Hmax | exact IH].
  - apply noself_leave. exact IH.
  - revert IH. apply noself_frame;
      (eapply same_on_locate; [| | |exact Hrun]; auto with blind).
  - revert IH. destruct (struct_eq_move a id x y) as (_ & _ & _ & HF).
    apply noself_frame; apply HF; auto with blind.
  - revert IH. destruct (struct_eq_speed a id speed) as (_ & _ & _ & HF).
    apply noself_frame; apply HF; auto with blind.
  - revert IH. apply noself_frame;
      (eapply same_on_update; [| | | | |exact Hrun]; auto with blind).
  - exact (noself_trigger a id er lr a' r Hr IH Hrun).
Qed.


End NoSelf.


(** ** Starting a move and changing the speed *)

(** What [aoi_move] does when it takes effect. *)
Lemma aoi_move_run a id x px py :
  _aoi_object a id = Some x -> 0 < obj_speed (slot_get a x) ->
  px ≠ coord a 0 x \/ py ≠ coord a 1 x ->
  let a' := aoi_move a id px py in
  let d0 := Int.sub px (coord a 0 x) in
  let d1 := Int.sub py (coord a 1 x) in
  obj_sp (slot_get a' x) = obj_p (slot_get a x) /\
  obj_dp (slot_get a' x) = (px, py) /\
  obj_p_tick (slot_get a' x) = 0 /\
  obj_n_tick (slot_get a' x)
    = Int.div (F32.to_int (F32.sqrtf (F32.of_int (Int.add (Int.mul d0 d0) (Int.mul d1 d1)))))
              (obj_speed (slot_get a x)) /\
  obj_p (slot_get a' x) = obj_p (slot_get a x) /\
  obj_speed (slot_get a' x) = obj_speed (slot_get a x) /\
  obj_ud (slot_get a' x) = obj_ud (slot_get a x) /\
  (forall z, z ≠ x -> slot_get a' z = slot_get a z).
Proof.
  intros Hobj Hs Hp. cbv zeta. unfold aoi_move. rewrite Hobj. unfold coord in *.
  destruct (Z.leb_spec (obj_speed (slot_get a x)) 0) as [?|_]; [lia|].
  assert (Hc : (px =? get2 0 (obj_p (slot_get a x))) && (py =? get2 1 (obj_p (slot_get a x)))
               = false).
  { apply andb_false_iff. destruct Hp as [Hp|Hp]; [left | right]; apply Z.eqb_neq; exact Hp. }
  rewrite Hc. cbn [orb]. unfold _aoi_move_axis, coord. cbv zeta beta iota.
  rewrite !slot_get_upd_eq.
  destruct (slot_get a x) as [oid [p0 p1] [sp0 sp1] [dp0 dp1] dd ee pt nt ty spd pv nx nl ol ud].
  cbn [obj_sp obj_dp obj_p obj_p_tick obj_n_tick obj_speed obj_ud
       set_sp set_dp set_d set_e set_n_tick set_p_tick get2 set2 fst snd].
  change (0 =? 0) with true. change (1 =? 0) with false. cbv iota. cbn [fst snd].
  repeat (split; [reflexivity|]).
  intros z Hz. rewrite !slot_get_upd_ne by congruence. reflexivity.
Qed.

Lemma lookup_struct_eq a a' id : struct_eq a a' -> _aoi_object a' id = _aoi_object a id.
Proof. intros (_ & _ & _ & HF). apply lookup_frame; apply HF; auto with blind. Qed.

(** X24.  [aoi_move] on a live id with positive speed and a destination
    other than the current position starts a move: the start point is the
    current position, the destination is the point given, no tick has
    passed, and the ticks to go are the truncated distance divided by the
    speed.  Position, speed and user data of the entity, every other slot,
    the axis lists, the id counter and every lookup are as before. *)
Theorem move_starts (a : aoi) (id x px py : Z) :
  _aoi_object a id = Some x -> 0 < obj_speed (slot_get a x) ->
  px ≠ coord a 0 x \/ py ≠ coord a 1 x ->
  let a' := aoi_move a id px py in
  let d0 := Int.sub px (coord a 0 x) in
  let d1 := Int.sub py (coord a 1 x) in
  (obj_sp (slot_get a' x) = obj_p (slot_get a x) /\
   obj_dp (slot_get a' x) = (px, py) /\
   obj_p_tick (slot_get a' x) = 0 /\
   obj_n_tick (slot_get a' x)
     = Int.div (F32.to_int (F32.sqrtf (F32.of_int (Int.add (Int.mul d0 d0) (Int.mul d1 d1)))))
               (obj_speed (slot_get a x)) /\
   obj_p (slot_get a' x) = obj_p (slot_get a x) /\
   obj_speed (slot_get a' x) = obj_speed (slot_get a x) /\
   obj_ud (slot_get a' x) = obj_ud (slot_get a x) /\
   (forall z, z ≠ x -> slot_get a' z = slot_get a z)) /\
  aoi_list a' = aoi_list a /\ aoi_id a' = aoi_id a /\
  (forall id', _aoi_object a' id' = _aoi_object a id').
Proof.
  intros Hobj Hs Hp. cbv zeta. split; [apply (aoi_move_run a id x px py Hobj Hs Hp)|].
  pose proof (struct_eq_move a id px py) as Hse.
  destruct Hse as (Hid & Hl & _). split; [exact Hl|]. split; [exact Hid|].
  intros id'. apply lookup_struct_eq. apply struct_eq_move.
Qed.

Lemma move_starts_witness :
  let a := aoi_speed (fst (aoi_enter aoi_init 0)) 0 5 in
  let a' := aoi_move a 0 100 0 in
  let d0 := Int.sub 100 (coord a 0 0) in
  let d1 := Int.sub 0 (coord a 1 0) in
  (obj_sp (slot_get a' 0) = obj_p (slot_get a 0) /\
   obj_dp (slot_get a' 0) = (100, 0) /\
   obj_p_tick (slot_get a' 0) = 0 /\
   obj_n_tick (slot_get a' 0)
     = Int.div (F32.to_int (F32.sqrtf (F32.of_int (Int.add (Int.mul d0 d0) (Int.mul d1 d1)))))
               (obj_speed (slot_get a 0)) /\
   obj_p (slot_get a' 0) = obj_p (slot_get a 0) /\
   obj_speed (slot_get a' 0) = obj_speed (slot_get a 0) /\
   obj_ud (slot_get a' 0) = obj_ud (slot_get a 0) /\
   (forall z, z ≠ 0 -> slot_get a' z = slot_get a z)) /\
  aoi_list a' = aoi_list a /\ aoi_id a' = aoi_id a /\
  (forall id', _aoi_object a' id' = _aoi_object a id').
Proof.
  apply (move_starts (aoi_speed (fst (aoi_enter aoi_init 0)) 0 5) 0 0 100 0).
  - reflexivity.
  - vm_compute. reflexivity.
  - left. vm_compute. discriminate.
Defined.

(** X25.  [aoi_speed] on a live id sets the speed and keeps the position,
    the destination and the user data of the entity, every other slot and
    every lookup.  When the entity is not moving, or the new speed is zero
    or negative, the speed is the only field that changes.  When it is
    moving, the new speed is positive and the position is not the
    destination, the move starts again from the current position with no tick
    passed. *)
Theorem speed_sets_speed (a : aoi) (id x speed : Z) :
  _aoi_object a id = Some x ->
  let a' := aoi_speed a id speed in
  obj_speed (slot_get a' x) = speed /\
  obj_p (slot_get a' x) = obj_p (slot_get a x) /\
  obj_dp (slot_get a' x) = obj_dp (slot_get a x) /\
  obj_ud (slot_get a' x) = obj_ud (slot_get a x) /\
  (forall z, z ≠ x -> slot_get a' z = slot_get a z) /\
  (forall id', _aoi_object a' id' = _aoi_object a id') /\
  (obj_n_tick (slot_get a x) <= 0 \/ speed <= 0 -> a' = slot_upd a x (set_speed speed)) /\
  (0 < obj_n_tick (slot_get a x) -> 0 < speed ->
   obj_p (slot_get a x) ≠ obj_dp (slot_get a x) ->
   obj_sp (slot_get a' x) = obj_p (slot_get a x) /\ obj_p_tick (slot_get a' x) = 0).
Proof.
  intros Hobj. cbv zeta.
  pose proof Hobj as Hobj0. apply _aoi_object_Some in Hobj0 as (Hid & Hh & Hoid & Hty).
  set (a1 := slot_upd a x (set_speed speed)).
  assert (Hg1 : slot_get a1 x = set_speed speed (slot_get a x))
    by (unfold a1; apply slot_get_upd_eq).
  assert (Hother1 : forall z, z ≠ x -> slot_get a1 z = slot_get a z)
    by (intros z Hz; unfold a1; apply slot_get_upd_ne; congruence).
  assert (Ho1 : _aoi_object a1 id = Some x).
  { rewrite <- Hobj. apply _aoi_object_ext; intros z; unfold a1;
      rewrite slot_get_upd; destruct (decide (x = z)); subst; reflexivity. }
  assert (Hrun : aoi_speed a id speed
                 = if obj_n_tick (slot_get a x) >? 0
                   then aoi_move a1 id (get2 0 (obj_dp (slot_get a x)))
                                       (get2 1 (obj_dp (slot_get a x)))
                   else a1).
  { unfold aoi_speed. rewrite Hobj. cbv zeta. fold a1. rewrite Hg1.
    cbn [obj_n_tick obj_id obj_dp set_speed]. rewrite Hoid. reflexivity. }
  assert (Hlook : forall id', _aoi_object (aoi_speed a id speed) id' = _aoi_object a id')
    by (intros id'; apply lookup_struct_eq, struct_eq_speed).
  assert (Hquiet : aoi_speed a id speed = a1 ->
            obj_speed (slot_get (aoi_speed a id speed) x) = speed /\
            obj_p (slot_get (aoi_speed a id speed) x) = obj_p (slot_get a x) /\
            obj_dp (slot_get (aoi_speed a id speed) x) = obj_dp (slot_get a x) /\
            obj_ud (slot_get (aoi_speed a id speed) x) = obj_ud (slot_get a x) /\
            (forall z, z ≠ x -> slot_get (aoi_speed a id speed) z = slot_get a z)).
  { intros ->. rewrite Hg1. repeat (split; [reflexivity|]). exact Hother1. }
  destruct (Z.gtb_spec (obj_n_tick (slot_get a x)) 0) as [Hn|Hn].
  2:{ destruct (Hquiet Hrun) as (H1 & H2 & H3 & H4 & H5).
      repeat (split; [assumption|]). split; [intros _; exact Hrun | lia]. }
  destruct (Z.leb_spec speed 0) as [Hs|Hs].
  { assert (E : aoi_speed a id speed = a1).
    { rewrite Hrun. apply (aoi_move_slow a1 id x); [exact Ho1|].
      rewrite Hg1. cbn [obj_speed set_speed]. exact Hs. }
    destruct (Hquiet E) as (H1 & H2 & H3 & H4 & H5).
    repeat (split; [assumption|]). split; [intros _; exact E | lia]. }
  destruct (decide (obj_p (slot_get a x) = obj_dp (slot_get a x))) as [Hat|Hat].
  { assert (E : aoi_speed a id speed = a1).
    { rewrite Hrun. unfold aoi_move. rewrite Ho1, Hg1. cbn [obj_speed obj_p set_speed].
      rewrite Hat, !Z.eqb_refl. rewrite orb_true_r. reflexivity. }
    destruct (Hquiet E) as (H1 & H2 & H3 & H4 & H5).
    repeat (split; [assumption|]). split; [lia | intros _ _ Hne; contradiction]. }
  assert (Hp : get2 0 (obj_dp (slot_get a x)) ≠ coord a1 0 x \/
               get2 1 (obj_dp (slot_get a x)) ≠ coord a1 1 x).
  { unfold coord. rewrite Hg1. cbn [obj_p set_speed].
    destruct (obj_p (slot_get a x)) as [p0 p1], (obj_dp (slot_get a x)) as [q0 q1].
    cbn [get2 fst snd]. change (0 =? 0) with true. change (1 =? 0) with false. cbv iota.
    destruct (decide (q0 = p0)) as [->|]; [|auto].
    destruct (decide (q1 = p1)) as [->|]; [contradiction | auto]. }
  assert (Hs1 : 0 < obj_speed (slot_get a1 x))
    by (rewrite Hg1; cbn [obj_speed set_speed]; lia).
  destruct (aoi_move_run a1 id x _ _ Ho1 Hs1 Hp) as (M1 & M2 & M3 & _ & M5 & M6 & M7 & M8).
  rewrite Hrun. rewrite Hg1 in M1, M5, M6, M7. cbn [obj_p obj_speed obj_ud set_speed] in *.
  split; [exact M6|]. split; [exact M5|].
  split; [rewrite M2; destruct (obj_dp (slot_get a x)); reflexivity|].
  split; [exact M7|].
  split; [intros z Hz; rewrite (M8 z Hz); apply Hother1; exact Hz|].
  split; [intros id'; rewrite <- Hrun; apply Hlook|].
  split; [lia|]. intros _ _ _. split; [exact M1 | exact M3].
Qed.

Lemma speed_sets_speed_witness :
  let a' := aoi_speed moving_entity 0 7 in
  obj_speed (slot_get a' 0) = 7 /\
  obj_p (slot_get a' 0) = obj_p (slot_get moving_entity 0) /\
  obj_dp (slot_get a' 0) = obj_dp (slot_get moving_entity 0) /\
  obj_ud (slot_get a' 0) = obj_ud (slot_get moving_entity 0) /\
  (forall z, z ≠ 0 -> slot_get a' z = slot_get moving_entity z) /\
  (forall id', _aoi_object a' id' = _aoi_object moving_entity id') /\
  (obj_n_tick (slot_get moving_entity 0) <= 0 \/ 7 <= 0 ->
   a' = slot_upd moving_entity 0 (set_speed 7)) /\
  (0 < obj_n_tick (slot_get moving_entity 0) -> 0 < 7 ->
   obj_p (slot_get moving_entity 0) ≠ obj_dp (slot_get moving_entity 0) ->
   obj_sp (slot_get a' 0) = obj_p (slot_get moving_entity 0) /\
   obj_p_tick (slot_get a' 0) = 0).
Proof. apply (speed_sets_speed moving_entity 0 0 7). reflexivity. Defined.

(** ** A step of a move *)

Section Step.
Variable sinf : float -> float.

Lemma update_place_step a obj tick :
  0 <= tick < obj_n_tick (slot_get a obj) ->
  obj_n_tick (slot_get a obj) <= Int.INT_MAX ->
  obj_n_tick (slot_get (_aoi_update_place sinf a obj tick) obj)
    = obj_n_tick (slot_get a obj) - tick /\
  obj_p_tick (slot_get (_aoi_update_place sinf a obj tick) obj)
    = Int.add (obj_p_tick (slot_get a obj)) tick.
Proof.
  intros Ht Hmax. unfold _aoi_update_place. cbv zeta.
  rewrite Z.min_l by lia.
  assert (Hsub : Int.sub (obj_n_tick (slot_get a obj)) tick
                 = obj_n_tick (slot_get a obj) - tick).
  { unfold Int.sub. apply Int.wrap_id.
    unfold Int.in_range, Int.INT_MIN, Int.INT_MAX in *. lia. }
  rewrite !slot_get_upd_eq. cbn [obj_n_tick obj_p_tick set_n_tick set_p_tick].
  rewrite Hsub.
  destruct (Z.leb_spec (obj_n_tick (slot_get a obj) - tick) 0) as [?|_]; [lia|].
  unfold _aoi_step_axis. rewrite !slot_get_upd_eq.
  cbn [obj_n_tick obj_p_tick set_n_tick set_p_tick set_p]. auto.
Qed.


End Step.


(** ** The axis list operations *)

Lemma chain_pair_apart_x : chain pair_apart 0 ([] ++ 0 :: [1]).
Proof.
  split; [reflexivity|]. split; [repeat split|].
  apply NoDup_cons. split; [|apply NoDup_singleton].
  intros H. apply list_elem_of_singleton in H. discriminate.
Qed.

(** X27.  Taking an entity out of an axis list and putting it back.  On a
    well-formed list [_aoi_list_erase] unlinks the entity, clears its two
    links and leaves the others in order; [_aoi_list_insert_after] and
    [_aoi_list_insert_before] then link it right behind, or right in front
    of, whichever entity of the rest is given. *)
Theorem axis_list_ops (a : aoi) (i : Z) (l1 l2 : list Z) (x : Z) :
  chain a i (l1 ++ x :: l2) ->
  let a1 := _aoi_list_erase a i x in
  chain a1 i (l1 ++ l2) /\
  prev_of a1 i x = None /\ next_of a1 i x = None /\
  forall m1 p m2, l1 ++ l2 = m1 ++ p :: m2 ->
    chain (_aoi_list_insert_after a1 i x p) i (m1 ++ p :: x :: m2) /\
    chain (_aoi_list_insert_before a1 i x p) i (m1 ++ x :: p :: m2).
Proof.
  intros Hc a1. destruct (erase_chain a i l1 x l2 Hc) as (Hc1 & Hp & Hn). fold a1 in Hc1, Hp, Hn.
  split; [exact Hc1|]. split; [exact Hp|]. split; [exact Hn|].
  intros m1 p m2 E. rewrite E in Hc1.
  assert (Hx : x ∉ m1 ++ p :: m2).
  { rewrite <- E. destruct Hc as (_ & _ & Hnd).
    apply NoDup_mid in Hnd as (_ & _ & Hx1 & Hx2 & _).
    intros Hin. apply elem_of_app in Hin as [?|?]; contradiction. }
  split; [apply insert_after_chain | apply insert_before_chain]; assumption.
Qed.

Lemma axis_list_ops_witness :
  let a1 := _aoi_list_erase pair_apart 0 0 in
  chain a1 0 ([] ++ [1]) /\
  prev_of a1 0 0 = None /\ next_of a1 0 0 = None /\
  forall m1 p m2, [] ++ [1] = m1 ++ p :: m2 ->
    chain (_aoi_list_insert_after a1 0 0 p) 0 (m1 ++ p :: 0 :: m2) /\
    chain (_aoi_list_insert_before a1 0 0 p) 0 (m1 ++ 0 :: p :: m2).
Proof. apply (axis_list_ops pair_apart 0 [] [1] 0). exact chain_pair_apart_x. Defined.

(** X28.  One axis of [_aoi_update_list] on a well-formed list of at most
    [AOI_MAX_AOI] entities: the walk ends.  With a positive delta the entity
    is moved towards the tail, past the entities that follow it as long as
    their coordinate is not above its own, and put in front of the first one
    whose coordinate is above (or at the end); with a negative delta it is
    moved towards the head in the same way; with delta 0 nothing changes. *)
Theorem update_list_axis_places (a : aoi) (i x di : Z) (l : list Z) :
  chain a i l -> x ∈ l -> Z.of_nat (length l) <= AOI_MAX_AOI ->
  exists a',
    _aoi_update_list_axis a x i di = Some a' /\
    (di = 0 -> a' = a) /\
    (0 < di -> exists l1 tw dw,
       l = l1 ++ x :: tw ++ dw /\
       (forall n, n ∈ tw -> coord a i n <= coord a i x) /\
       (forall n, head dw = Some n -> coord a i x < coord a i n) /\
       chain a' i (l1 ++ tw ++ x :: dw)) /\
    (di < 0 -> exists up tw l2,
       l = up ++ tw ++ x :: l2 /\
       (forall n, n ∈ tw -> coord a i x <= coord a i n) /\
       (forall n, last up = Some n -> coord a i n < coord a i x) /\
       chain a' i (up ++ x :: tw ++ l2)).
Proof.
  intros Hc Hx Hlen.
  assert (Hfuel : (length l < walk_fuel)%nat).
  { unfold walk_fuel. rewrite AOI_MAX_AOI_eq in Hlen.
    change (Z.to_nat AOI_MAX_AOI) with (Z.to_nat 65536). lia. }
  destruct (update_list_axis_spec a i x di l Hc Hx Hfuel) as (a' & Hrun & Hcases).
  exists a'. split; [exact Hrun|].
  destruct Hcases as [(Hd & H)|[(Hd & H)|(Hd & H)]].
  - split; [lia|]. split; [intros _; exact H | lia].
  - split; [lia|]. split; [lia | intros _; exact H].
  - split; [intros _; exact H|]. split; lia.
Qed.

Lemma update_list_axis_places_witness :
  exists a',
    _aoi_update_list_axis pair_apart 0 0 1 = Some a' /\
    (1 = 0 -> a' = pair_apart) /\
    (0 < 1 -> exists l1 tw dw,
       [0; 1] = l1 ++ 0 :: tw ++ dw /\
       (forall n, n ∈ tw -> coord pair_apart 0 n <= coord pair_apart 0 0) /\
       (forall n, head dw = Some n -> coord pair_apart 0 0 < coord pair_apart 0 n) /\
       chain a' 0 (l1 ++ tw ++ 0 :: dw)) /\
    (1 < 0 -> exists up tw l2,
       [0; 1] = up ++ tw ++ 0 :: l2 /\
       (forall n, n ∈ tw -> coord pair_apart 0 0 <= coord pair_apart 0 n) /\
       (forall n, last up = Some n -> coord pair_apart 0 n < coord pair_apart 0 0) /\
       chain a' 0 (up ++ 0 :: tw ++ l2)).
Proof.
  apply (update_list_axis_places pair_apart 0 0 1 [0; 1]).
  - exact chain_pair_apart_x.
  - apply elem_of_cons. auto.
  - rewrite AOI_MAX_AOI_eq. cbn [length]. lia.
Defined.

(** ** Crossing the radii *)

Section Crossings.
Variable sinf : float -> float.


End Crossings.


(** ** The caller's array of [aoi_around] *)

Lemma rd_wr_ne (l : list Z) i j v : i ≠ j -> rd (wr l i v) j = rd l j.
Proof.
  intros Hne. unfold rd, wr. destruct (j <? 0) eqn:Hj; [reflexivity|].
  destruct (i <? 0) eqn:Hi; [reflexivity|].
  apply Z.ltb_ge in Hj, Hi. rewrite list_lookup_insert_ne by lia. reflexivity.
Qed.

Lemma length_wr (l : list Z) i v : length (wr l i v) = length l.
Proof. unfold wr. destruct (i <? 0); [reflexivity | apply length_insert]. Qed.

Lemma _aoi_around_copy_frame k src i out :
  length (_aoi_around_copy k src i out) = length out /\
  forall j, j < i \/ i + Z.of_nat k <= j ->
    rd (_aoi_around_copy k src i out) j = rd out j.
Proof.
  revert i out. induction k as [|k IH]; intros i out; cbn [_aoi_around_copy].
  - auto.
  - destruct (IH (i + 1) (wr out i (rd src i))) as [Hl Hr]. split.
    + rewrite Hl. apply length_wr.
    + intros j Hj. rewrite Hr by lia. apply rd_wr_ne. lia.
Qed.

(** X30.  [aoi_around] never writes past the count it returns.  The count
    [k] is at most [n] (or 0 when [n] is negative); the caller's array keeps
    its length and every cell at an index from [k] on; with [n <= 0] no cell
    is written; on a stale id the count is 0 and no cell is written. *)
Theorem aoi_around_bounds (a : aoi) (id : Z) (out : list Z) (n : Z) :
  let out' := fst (aoi_around a id out n) in
  let k := snd (aoi_around a id out n) in
  k <= Z.max 0 n /\
  length out' = length out /\
  (forall j, k <= j -> rd out' j = rd out j) /\
  (n <= 0 -> out' = out) /\
  (_aoi_object a id = None -> k = 0 /\ out' = out).
Proof.
  cbv zeta. unfold aoi_around. destruct (_aoi_object a id) as [x|]; cbn [fst snd].
  2:{ repeat split; lia. }
  set (cnt := rd (obj_n_list (slot_get a x)) 0).
  set (k := if n >? cnt then cnt else n).
  assert (Hk : k <= n) by (unfold k; destruct (Z.gtb_spec n cnt); lia).
  destruct (_aoi_around_copy_frame (Z.to_nat k) (obj_n_list (slot_get a x)) 0 out)
    as [Hl Hr].
  split; [lia|]. split; [exact Hl|].
  split; [intros j Hj; apply Hr; lia|].
  split; [|discriminate].
  intros Hn. replace (Z.to_nat k) with 0%nat by lia. reflexivity.
Qed.

(** * The event buffer after the id counter has wrapped *)

(** ** Allocation at the end of the id range and below zero *)

(** On a pool whose slots are all in use the allocation loop gives up; the
    counter has moved on by the slots tried, past [INT_MAX] if it comes to
    that. *)
Lemma _aoi_next_id_loop_busy n a :
  0 <= aoi_id a <= Int.INT_MAX -> aoi_id a + Z.of_nat n <= Int.INT_MAX + 1 ->
  (forall k, aoi_id a <= k < aoi_id a + Z.of_nat n ->
     obj_type (slot_get a (AOI_HASH_ID k)) ≠ AOI_OBJECT_INVALID) ->
  _aoi_next_id_loop n a = (set_aoi_id a (Int.wrap (aoi_id a + Z.of_nat n)), -1).
Proof.
  revert a. induction n as [|n IH]; intros a Hpos Hmax Hbusy.
  - cbn [_aoi_next_id_loop]. rewrite Z.add_0_r, Int.wrap_id.
    + destruct a; reflexivity.
    + unfold Int.in_range, Int.INT_MIN, Int.INT_MAX in *. lia.
  - cbn [_aoi_next_id_loop].
    destruct (Z.ltb_spec (aoi_id a) 0) as [?|_]; [lia|].
    rewrite slot_get_set_aoi_id.
    destruct (Z.eqb_spec (obj_type (slot_get a (AOI_HASH_ID (aoi_id a)))) AOI_OBJECT_INVALID)
      as [Hfree|_]; [exfalso; apply (Hbusy (aoi_id a)); [lia | exact Hfree]|].
    destruct n as [|n].
    + cbn [_aoi_next_id_loop]. unfold Int.add. reflexivity.
    + assert (Hadd : Int.add (aoi_id a) 1 = aoi_id a + 1).
      { apply Int.wrap_id. unfold Int.in_range, Int.INT_MIN, Int.INT_MAX in *. lia. }
      rewrite Hadd. rewrite IH.
      * unfold set_aoi_id. cbn [aoi_id aoi_slot aoi_list aoi_elist].
        f_equal. f_equal. f_equal. lia.
      * cbn [aoi_id set_aoi_id]. unfold Int.INT_MAX in *. lia.
      * cbn [aoi_id set_aoi_id]. lia.
      * intros k Hk. cbn [aoi_id set_aoi_id] in Hk. rewrite slot_get_set_aoi_id.
        apply Hbusy. lia.
Qed.

(** With a negative counter [INT_MIN + k] the loop tries the ids [k],
    [k + 1], ... and takes the first whose slot is free. *)
Lemma _aoi_next_id_loop_neg n a k :
  aoi_id a = Int.INT_MIN + k -> 0 <= k -> k + Z.of_nat n <= Int.INT_MAX ->
  (exists c, k <= c < k + Z.of_nat n /\
     (forall j, k <= j < c ->
        obj_type (slot_get a (AOI_HASH_ID j)) ≠ AOI_OBJECT_INVALID) /\
     obj_type (slot_get a (AOI_HASH_ID c)) = AOI_OBJECT_INVALID /\
     _aoi_next_id_loop n a
       = (slot_set (set_aoi_id a (Int.INT_MIN + c + 1)) (AOI_HASH_ID c) (fresh_object c), c))
  \/ ((forall j, k <= j < k + Z.of_nat n ->
         obj_type (slot_get a (AOI_HASH_ID j)) ≠ AOI_OBJECT_INVALID) /\
      _aoi_next_id_loop n a = (set_aoi_id a (Int.INT_MIN + k + Z.of_nat n), -1)).
Proof.
  revert a k. induction n as [|n IH]; intros a k Hid Hk Hmax.
  - right. split; [intros j Hj; lia|]. cbn [_aoi_next_id_loop].
    rewrite Z.add_0_r, <- Hid. destruct a; reflexivity.
  - cbn [_aoi_next_id_loop].
    assert (Hadd : Int.add (aoi_id a) 1 = Int.INT_MIN + k + 1).
    { rewrite Hid. apply Int.wrap_id. unfold Int.in_range, Int.INT_MIN, Int.INT_MAX in *. lia. }
    destruct (Z.ltb_spec (aoi_id a) 0) as [_|?]; [|unfold Int.INT_MIN, Int.INT_MAX in *; lia].
    rewrite Hadd. cbn [aoi_id set_aoi_id].
    assert (Hcand : Int.add (Int.INT_MIN + k + 1) 2147483647 = k).
    { unfold Int.add. replace (Int.INT_MIN + k + 1 + 2147483647) with k
        by (unfold Int.INT_MIN; lia).
      apply Int.wrap_id. unfold Int.in_range, Int.INT_MIN, Int.INT_MAX in *. lia. }
    rewrite Hcand. rewrite slot_get_set_aoi_id.
    destruct (Z.eqb_spec (obj_type (slot_get a (AOI_HASH_ID k))) AOI_OBJECT_INVALID)
      as [Hfree|Hocc].
    + left. exists k. split; [lia|]. split; [intros j Hj; lia|].
      split; [exact Hfree | reflexivity].
    + destruct (IH (set_aoi_id a (Int.INT_MIN + k + 1)) (k + 1))
        as [(c & Hc & Hbefore & Hc0 & Heq)|[Hall Heq]];
        [cbn [aoi_id set_aoi_id]; lia | lia | lia | |].
      * left. exists c. split; [lia|]. split; [|split].
        -- intros j Hj. destruct (decide (j = k)) as [->|Hne]; [exact Hocc|].
           rewrite <- (slot_get_set_aoi_id a (Int.INT_MIN + k + 1)). apply Hbefore. lia.
        -- rewrite slot_get_set_aoi_id in Hc0. exact Hc0.
        -- rewrite Heq. reflexivity.
      * right. split.
        -- intros j Hj. destruct (decide (j = k)) as [->|Hne]; [exact Hocc|].
           rewrite <- (slot_get_set_aoi_id a (Int.INT_MIN + k + 1)). apply Hall. lia.
        -- rewrite Heq. unfold set_aoi_id. cbn [aoi_id aoi_slot aoi_list aoi_elist].
           f_equal. f_equal. lia.
Qed.

Lemma aoi_enter_ok_at a c c' ud :
  0 <= c ->
  _aoi_next_id a = (slot_set (set_aoi_id a c') (AOI_HASH_ID c) (fresh_object c), c) ->
  aoi_enter a ud
    = (_aoi_enter_finish
         (slot_set (set_aoi_id a c') (AOI_HASH_ID c) (fresh_object c))
         (AOI_HASH_ID c) ud, c).
Proof.
  intros Hc H. unfold aoi_enter. rewrite H.
  destruct (Z.eqb_spec c (-1)) as [?|_]; [lia|].
  assert (Ho : _aoi_object
                 (slot_set (set_aoi_id a c') (AOI_HASH_ID c) (fresh_object c)) c
               = Some (AOI_HASH_ID c)).
  { apply _aoi_object_Some. rewrite slot_get_set_eq. repeat split; auto; try discriminate. }
  rewrite Ho. reflexivity.
Qed.

(** Filling a free slot keeps the invariant, wherever the counter stands. *)
Lemma inv_enter_finish a c c' ud :
  inv a -> 0 <= c -> ~ live a (AOI_HASH_ID c) ->
  inv (_aoi_enter_finish
         (slot_set (set_aoi_id a c') (AOI_HASH_ID c) (fresh_object c)) (AOI_HASH_ID c) ud).
Proof.
  intros Hinv Hc Hfree.
  set (x := AOI_HASH_ID c) in *.
  set (a1 := slot_set (set_aoi_id a c') x (fresh_object c)).
  assert (Hget1 : forall z, z ≠ x -> slot_get a1 z = slot_get a z).
  { intros z Hz. unfold a1. rewrite slot_get_set_ne by congruence. reflexivity. }
  assert (Hget1x : slot_get a1 x = fresh_object c) by (unfold a1; apply slot_get_set_eq).
  assert (Hty : same_on obj_type a1 (_aoi_enter_finish a1 x ud))
    by (apply same_on_enter_finish; auto with blind).
  assert (Hoid : same_on obj_id a1 (_aoi_enter_finish a1 x ud))
    by (apply same_on_enter_finish; auto with blind).
  assert (Hlive : forall z, live (_aoi_enter_finish a1 x ud) z <-> z = x \/ live a z).
  { intros z. unfold live. rewrite Hty. destruct (decide (z = x)) as [->|Hne].
    - rewrite Hget1x. cbn. split; [auto | intros _; discriminate].
    - rewrite Hget1 by exact Hne. tauto. }
  destruct (enter_finish_lists a1 x ud) as (Hnl & Hol & Hother).
  split.
  - intros z Hz. rewrite Hoid. apply Hlive in Hz.
    destruct (decide (z = x)) as [->|Hne].
    + rewrite Hget1x. cbn. split; [lia | reflexivity].
    + rewrite Hget1 by exact Hne. apply (inv_ids a Hinv). tauto.
  - intros i Hi.
    destruct (inv_chain a Hinv 0) as (l0 & Hc0 & Hmem0); [auto|].
    destruct (inv_chain a Hinv 1) as (l1 & Hc1 & Hmem1); [auto|].
    assert (Hx0 : x ∉ l0) by (intros E; apply Hfree, Hmem0, E).
    assert (Hx1 : x ∉ l1) by (intros E; apply Hfree, Hmem1, E).
    assert (Hc0' : chain a1 0 l0).
    { eapply chain_ext; [| |exact Hc0]; [reflexivity|].
      intros z Hz. unfold prev_of, next_of. rewrite Hget1 by congruence. auto. }
    assert (Hc1' : chain a1 1 l1).
    { eapply chain_ext; [| |exact Hc1]; [reflexivity|].
      intros z Hz. unfold prev_of, next_of. rewrite Hget1 by congruence. auto. }
    destruct (enter_finish_chains a1 x ud l0 l1 Hc0' Hc1' Hx0 Hx1) as [Hf0 Hf1].
    { rewrite Hget1x. reflexivity. }
    destruct Hi as [-> | ->].
    + exists (x :: l0). split; [exact Hf0|].
      intros z. rewrite Hlive, elem_of_cons, Hmem0. tauto.
    + exists (x :: l1). split; [exact Hf1|].
      intros z. rewrite Hlive, elem_of_cons, Hmem1. tauto.
  - intros z Hz. apply Hlive in Hz. destruct (decide (z = x)) as [->|Hne].
    + rewrite Hnl, Hol. split; [exists []; apply is_buf_new_list|].
      exists []. split; [apply is_buf_new_list | apply ssorted_nil].
    + destruct (Hother z Hne) as [-> ->]. rewrite Hget1 by exact Hne.
      apply (inv_bufs a Hinv). tauto.
Qed.

(** ** A pool of entities that all stand at the origin *)

(** What a slot holds: the id of an entity, or nothing. *)
Definition slot_is (a : aoi) (z : Z) (s : option Z) : Prop :=
  match s with
  | Some i => live a z /\ obj_id (slot_get a z) = i
  | None => ~ live a z
  end.

(** The state of the engine when every entity stands at the origin: [f] says
    what each slot holds and [O0] is the old list of slot 0. *)
Record pool_at (f : Z -> option Z) (O0 : list Z) (a : aoi) : Prop := mk_pool_at {
  pa_inv : inv a;
  pa_pos : forall z, obj_p (slot_get a z) = (0, 0);
  pa_slots : forall z, 0 <= z < 65536 -> slot_is a z (f z);
  pa_old : old_ids a 0 = O0
}.

Definition put (f : Z -> option Z) (x : Z) (s : option Z) : Z -> option Z :=
  fun z => if decide (z = x) then s else f z.

Lemma pool_at_ext f f' O0 a :
  (forall z, 0 <= z < 65536 -> f' z = f z) -> pool_at f O0 a -> pool_at f' O0 a.
Proof.
  intros H [H1 H2 H3 H4]. split; auto. intros z Hz. rewrite H by exact Hz. auto.
Qed.

Lemma pool_at_set_aoi_id f O0 a v : pool_at f O0 a -> pool_at f O0 (set_aoi_id a v).
Proof.
  intros [H1 H2 H3 H4]. split.
  - revert H1. apply inv_frame; try reflexivity; intros z; reflexivity.
  - intros z. rewrite slot_get_set_aoi_id. apply H2.
  - intros z Hz. specialize (H3 z Hz).
    destruct (f z); unfold slot_is, live in *; rewrite ?slot_get_set_aoi_id; exact H3.
  - unfold old_ids. rewrite slot_get_set_aoi_id. exact H4.
Qed.

Lemma pool_at_object f O0 a i :
  pool_at f O0 a -> 0 <= i -> f (AOI_HASH_ID i) = Some i ->
  _aoi_object a i = Some (AOI_HASH_ID i).
Proof.
  intros [H1 H2 H3 H4] Hi Hf.
  pose proof (AOI_HASH_ID_range i Hi) as Hr. rewrite AOI_MAX_AOI_eq in Hr.
  pose proof (H3 _ Hr) as Hs. rewrite Hf in Hs. destruct Hs as [Hl Hid].
  apply _aoi_object_Some; auto.
Qed.

Lemma pool_at_leave f O0 a i :
  pool_at f O0 a -> 0 <= i -> AOI_HASH_ID i ≠ 0 -> f (AOI_HASH_ID i) = Some i ->
  pool_at (put f (AOI_HASH_ID i) None) O0 (aoi_leave a i).
Proof.
  intros Hp Hi Hne Hf.
  pose proof (pool_at_object f O0 a i Hp Hi Hf) as Hobj.
  destruct Hp as [H1 H2 H3 H4]. split.
  - apply inv_leave, H1.
  - intros z. destruct (decide (z = AOI_HASH_ID i)) as [->|Hz].
    + rewrite (leave_slot a i _ Hobj). reflexivity.
    + rewrite (leave_frame a i _ z obj_p Hobj Hz) by auto with blind. apply H2.
  - intros z Hz. unfold put. destruct (decide (z = AOI_HASH_ID i)) as [->|Hzne].
    + cbn [slot_is]. unfold live. rewrite (leave_slot a i _ Hobj). intros H; apply H; reflexivity.
    + specialize (H3 z Hz). destruct (f z); cbn [slot_is] in *; unfold live in *;
        rewrite (leave_frame a i _ z obj_type Hobj Hzne) by auto with blind;
        rewrite ?(leave_frame a i _ z obj_id Hobj Hzne) by auto with blind; exact H3.
  - unfold old_ids.
    rewrite (leave_frame a i _ 0 obj_o_list Hobj) by (auto with blind). exact H4.
Qed.

Lemma pool_at_enter_finish f O0 a c c' ud :
  pool_at f O0 a -> 0 <= c -> f (AOI_HASH_ID c) = None ->
  pool_at (put f (AOI_HASH_ID c) (Some c))
    (if decide (AOI_HASH_ID c = 0) then [] else O0)
    (_aoi_enter_finish
       (slot_set (set_aoi_id a c') (AOI_HASH_ID c) (fresh_object c)) (AOI_HASH_ID c) ud).
Proof.
  intros [H1 H2 H3 H4] Hc Hf.
  pose proof (AOI_HASH_ID_range c Hc) as Hr. rewrite AOI_MAX_AOI_eq in Hr.
  pose proof (H3 _ Hr) as Hfree. rewrite Hf in Hfree. cbn [slot_is] in Hfree.
  set (x := AOI_HASH_ID c) in *.
  set (a1 := slot_set (set_aoi_id a c') x (fresh_object c)).
  assert (Hget1 : forall z, z ≠ x -> slot_get a1 z = slot_get a z).
  { intros z Hz. unfold a1. rewrite slot_get_set_ne by congruence. reflexivity. }
  assert (Hget1x : slot_get a1 x = fresh_object c) by (unfold a1; apply slot_get_set_eq).
  assert (Hty : same_on obj_type a1 (_aoi_enter_finish a1 x ud))
    by (apply same_on_enter_finish; auto with blind).
  assert (Hoid : same_on obj_id a1 (_aoi_enter_finish a1 x ud))
    by (apply same_on_enter_finish; auto with blind).
  assert (Hpp : same_on obj_p a1 (_aoi_enter_finish a1 x ud))
    by (apply same_on_enter_finish; auto with blind).
  destruct (enter_finish_lists a1 x ud) as (Hnl & Hol & Hother).
  split.
  - apply inv_enter_finish; assumption.
  - intros z. rewrite Hpp. destruct (decide (z = x)) as [->|Hz].
    + rewrite Hget1x. reflexivity.
    + rewrite Hget1 by exact Hz. apply H2.
  - intros z Hz. unfold put. destruct (decide (z = x)) as [->|Hzne].
    + cbn [slot_is]. unfold live. rewrite Hty, Hoid, Hget1x. split; [discriminate | reflexivity].
    + specialize (H3 z Hz). destruct (f z); cbn [slot_is] in *; unfold live in *;
        rewrite Hty, ?Hoid, Hget1 by exact Hzne; exact H3.
  - unfold old_ids. destruct (decide (x = 0)) as [E|E].
    + rewrite <- E at 1. rewrite Hol. reflexivity.
    + destruct (Hother 0 ltac:(congruence)) as [_ ->]. rewrite Hget1 by congruence. exact H4.
Qed.

Lemma fuel_pool : Z.of_nat (Z.to_nat AOI_MAX_AOI) = 65536.
Proof. rewrite AOI_MAX_AOI_eq. apply Z2Nat.id. lia. Qed.

Lemma pool_at_busy f O0 a k :
  pool_at f O0 a -> 0 <= k -> f (AOI_HASH_ID k) ≠ None ->
  obj_type (slot_get a (AOI_HASH_ID k)) ≠ AOI_OBJECT_INVALID.
Proof.
  intros Hp Hk Hf.
  pose proof (AOI_HASH_ID_range k Hk) as Hr. rewrite AOI_MAX_AOI_eq in Hr.
  pose proof (pa_slots f O0 a Hp _ Hr) as Hs.
  destruct (f (AOI_HASH_ID k)); [|congruence]. apply Hs.
Qed.

Lemma pool_at_free f O0 a k :
  pool_at f O0 a -> 0 <= k -> f (AOI_HASH_ID k) = None ->
  obj_type (slot_get a (AOI_HASH_ID k)) = AOI_OBJECT_INVALID.
Proof.
  intros Hp Hk Hf.
  pose proof (AOI_HASH_ID_range k Hk) as Hr. rewrite AOI_MAX_AOI_eq in Hr.
  pose proof (pa_slots f O0 a Hp _ Hr) as Hs. rewrite Hf in Hs. cbn [slot_is] in Hs.
  unfold live in Hs.
  destruct (decide (obj_type (slot_get a (AOI_HASH_ID k)) = AOI_OBJECT_INVALID)); tauto.
Qed.

(** A creation with the counter at [aoi_id a >= 0]: the id is the first one
    from the counter on whose slot is free. *)
Lemma pool_at_enter_pos f O0 a c ud :
  pool_at f O0 a -> 0 <= aoi_id a <= c -> c < aoi_id a + 65536 ->
  aoi_id a + 65536 <= Int.INT_MAX ->
  (forall k, aoi_id a <= k < c -> f (AOI_HASH_ID k) ≠ None) ->
  f (AOI_HASH_ID c) = None ->
  aoi_enter a ud
  = (_aoi_enter_finish
       (slot_set (set_aoi_id a (c + 1)) (AOI_HASH_ID c) (fresh_object c))
       (AOI_HASH_ID c) ud, c).
Proof.
  intros Hp Hlo Hhi Hmax Hbusy Hfree.
  destruct (_aoi_next_id_loop_spec (Z.to_nat AOI_MAX_AOI) a ltac:(lia)
              ltac:(rewrite fuel_pool; exact Hmax))
    as [(c0 & Hc0 & Hbefore & Hfree0 & Heq)|[Hall _]].
  - rewrite fuel_pool in Hc0.
    assert (c0 = c) as ->.
    { destruct (Z.lt_trichotomy c0 c) as [Hlt|[E|Hgt]]; [|exact E|].
      - exfalso. apply (pool_at_busy f O0 a c0 Hp); [lia | apply Hbusy; lia | exact Hfree0].
      - exfalso. apply (Hbefore c); [lia|]. apply (pool_at_free f O0 a c Hp); [lia | exact Hfree]. }
    apply aoi_enter_ok_at; [lia | exact Heq].
  - exfalso. apply (Hall c); [rewrite fuel_pool; lia|].
    apply (pool_at_free f O0 a c Hp); [lia | exact Hfree].
Qed.

(** A creation after the counter has wrapped: with the counter at
    [INT_MIN + k] the id is the first one from [k] on whose slot is free. *)
Lemma pool_at_enter_neg f O0 a k c ud :
  pool_at f O0 a -> aoi_id a = Int.INT_MIN + k -> 0 <= k <= c -> c < k + 65536 ->
  k + 65536 <= Int.INT_MAX ->
  (forall j, k <= j < c -> f (AOI_HASH_ID j) ≠ None) ->
  f (AOI_HASH_ID c) = None ->
  aoi_enter a ud
  = (_aoi_enter_finish
       (slot_set (set_aoi_id a (Int.INT_MIN + c + 1)) (AOI_HASH_ID c) (fresh_object c))
       (AOI_HASH_ID c) ud, c).
Proof.
  intros Hp Hid Hlo Hhi Hmax Hbusy Hfree.
  destruct (_aoi_next_id_loop_neg (Z.to_nat AOI_MAX_AOI) a k Hid ltac:(lia)
              ltac:(rewrite fuel_pool; exact Hmax))
    as [(c0 & Hc0 & Hbefore & Hfree0 & Heq)|[Hall _]].
  - rewrite fuel_pool in Hc0.
    assert (c0 = c) as ->.
    { destruct (Z.lt_trichotomy c0 c) as [Hlt|[E|Hgt]]; [|exact E|].
      - exfalso. apply (pool_at_busy f O0 a c0 Hp); [lia | apply Hbusy; lia | exact Hfree0].
      - exfalso. apply (Hbefore c); [lia|]. apply (pool_at_free f O0 a c Hp); [lia | exact Hfree]. }
    apply aoi_enter_ok_at; [lia | exact Heq].
  - exfalso. apply (Hall c); [rewrite fuel_pool; lia|].
    apply (pool_at_free f O0 a c Hp); [lia | exact Hfree].
Qed.

(** A creation on a full pool fails and moves the counter on by the size of
    the pool. *)
Lemma pool_at_enter_full f O0 a ud :
  pool_at f O0 a -> 0 <= aoi_id a -> aoi_id a + 65536 <= Int.INT_MAX + 1 ->
  (forall z, 0 <= z < 65536 -> f z ≠ None) ->
  aoi_enter a ud = (set_aoi_id a (Int.wrap (aoi_id a + 65536)), -1).
Proof.
  intros Hp Hpos Hmax Hfull. apply aoi_enter_fail. unfold _aoi_next_id.
  rewrite _aoi_next_id_loop_busy.
  - rewrite fuel_pool. reflexivity.
  - unfold Int.INT_MAX in *. lia.
  - rewrite fuel_pool. exact Hmax.
  - intros k Hk. apply (pool_at_busy f O0 a k Hp); [lia|].
    apply Hfull. rewrite <- AOI_MAX_AOI_eq. apply AOI_HASH_ID_range. lia.
Qed.

(** A scan of entity 0 with everybody at the origin: the new old list holds
    the ids of all other entities. *)
Lemma pool_at_trigger f O0 a Nw :
  pool_at f O0 a -> f 0 = Some 0 -> ssorted Nw ->
  (forall u, u ∈ Nw <-> exists z, 0 < z < 65536 /\ f z = Some u) ->
  exists a',
    aoi_trigger a 0 100 130 = Some (a', Z.of_nat (length (diff_events a O0 Nw))) /\
    events a' (Z.of_nat (length (diff_events a O0 Nw))) = diff_events a O0 Nw /\
    pool_at f Nw a' /\ aoi_id a' = aoi_id a.
Proof.
  intros Hp Hf0 HsN Hmem.
  pose proof Hp as [Hinv Hpos Hslots Hold].
  pose proof (Hslots 0 ltac:(lia)) as Hs0. rewrite Hf0 in Hs0. destruct Hs0 as [Hl0 Hid0].
  assert (Hobj : _aoi_object a 0 = Some 0).
  { apply _aoi_object_Some. rewrite AOI_HASH_ID_small by (rewrite AOI_MAX_AOI_eq; lia).
    repeat split; auto; lia. }
  destruct (inv_chain_split a 0 Hinv Hl0) as (l1 & l2 & Hch & Hlm).
  destruct (inv_bufs a Hinv 0 Hl0) as [_ (Eo & HEo & HsO)].
  assert (Eo = O0) as -> by (rewrite <- Hold; unfold old_ids; symmetry; apply is_buf_elems, HEo).
  assert (Hcoord : forall i z, coord a i z = 0).
  { intros i z. unfold coord. rewrite Hpos. unfold get2. destruct (i =? 0); reflexivity. }
  assert (Hscan : scan_ids a 0 100 130 O0 l1 l2 = Nw).
  { apply ssorted_ext_eq; [apply scan_ids_sorted | exact HsN|].
    intros u. rewrite Hmem.
    rewrite (scan_ids_exact a 0 100 130 O0 l1 l2 Hch Hlm HsO); try lia.
    - split.
      + intros (n & Hn & Hne & Hid & _).
        pose proof (live_range a n Hinv Hn) as Hr. rewrite AOI_MAX_AOI_eq in Hr.
        exists n. split; [lia|]. specialize (Hslots n Hr).
        destruct (f n); cbn [slot_is] in Hslots; [|tauto]. destruct Hslots as [_ E]. congruence.
      + intros (z & Hz & Hfz). specialize (Hslots z ltac:(lia)). rewrite Hfz in Hslots.
        destruct Hslots as [Hlz Hidz]. exists z. split; [exact Hlz|]. split; [lia|].
        split; [exact Hidz|]. left. rewrite !Hcoord. lia.
    - intros x y _ _. rewrite !Hcoord. lia.
    - intros z i _ _. rewrite Hcoord. lia. }
  destruct (aoi_trigger_spec a 0 100 130 0 l1 l2 O0 Hinv Hobj Hch Hlm HEo)
    as (a' & cur & Hrun & Hcur & Hida & _ & Hel & Hsame & Hox & _ & _).
  rewrite Hscan in Hrun, Hcur, Hel.
  exists a'. split; [exact Hrun|].
  split; [exact (events_emit_all a' _ _ Hel)|]. split; [|exact Hida].
  assert (Hty : same_on obj_type a a') by (apply Hsame; split; reflexivity).
  assert (Hoid : same_on obj_id a a') by (apply Hsame; split; reflexivity).
  assert (Hpp : same_on obj_p a a') by (apply Hsame; split; reflexivity).
  split.
  - apply (inv_trigger a 0 100 130 a' _ Hinv Hrun).
  - intros z. rewrite Hpp. apply Hpos.
  - intros z Hz. specialize (Hslots z Hz).
    destruct (f z); cbn [slot_is] in *; unfold live in *; rewrite Hty, ?Hoid; exact Hslots.
  - unfold old_ids. rewrite Hox. apply is_buf_elems, Hcur.
Qed.

(** ** The run *)

(** [n] creations in a row, and the destruction of the [n] ids from [id]
    on. *)
Fixpoint enter_n (n : nat) (a : aoi) : aoi :=
  match n with
  | O => a
  | S n' => let '(a1, _) := aoi_enter a 0 in enter_n n' a1
  end.

Fixpoint leave_from (id : Z) (n : nat) (a : aoi) : aoi :=
  match n with
  | O => a
  | S n' => leave_from (id + 1) n' (aoi_leave a id)
  end.

Lemma enter_n_S n a a1 id : aoi_enter a 0 = (a1, id) -> enter_n (S n) a = enter_n n a1.
Proof. intros H. cbn [enter_n]. rewrite H. reflexivity. Qed.

Lemma leave_from_S id n a : leave_from id (S n) a = leave_from (id + 1) n (aoi_leave a id).
Proof. reflexivity. Qed.

(** The pool is filled; all entities but 0 are replaced, and 0 takes its
    snapshot of the new ones. *)
Definition before_wrap : aoi :=
  enter_n (Z.to_nat 65535) (leave_from 1 (Z.to_nat 65535) (enter_n (Z.to_nat 65536) aoi_init)).

(** Creations on the full pool take the id counter past [INT_MAX]; all but
    the first of the new entities are replaced again, now by entities with
    small ids. *)
Definition after_wrap (a : aoi) : aoi :=
  enter_n (Z.to_nat 65534) (leave_from 65538 (Z.to_nat 65534) (enter_n (Z.to_nat 32766) a)).

(** Entity 0 scans before and after. *)
Definition overflow_run : option (aoi * Z) :=
  match aoi_trigger before_wrap 0 100 130 return option (aoi * Z) with
  | Some (a, _) => aoi_trigger (after_wrap a) 0 100 130
  | None => None
  end.

(** What the slots hold in the course of the run. *)
Definition while_filling (k : Z) (z : Z) : option Z :=
  if z <? k then Some z else None.
Definition while_clearing (j : Z) (z : Z) : option Z :=
  if z =? 0 then Some 0 else if z <? j then None else Some z.
Definition while_refilling (j : Z) (z : Z) : option Z :=
  if z =? 0 then Some 0 else if z <? j then Some (65536 + z) else None.
Definition while_clearing_again (j : Z) (z : Z) : option Z :=
  if z =? 0 then Some 0 else if z =? 1 then Some 65537
  else if z <? j then None else Some (65536 + z).
Definition while_refilling_again (j : Z) (z : Z) : option Z :=
  if z =? 0 then Some 0 else if z =? 1 then Some 65537
  else if z <? j then Some z else None.

Lemma AOI_HASH_ID_second z : 0 <= z < 65536 -> AOI_HASH_ID (65536 + z) = z.
Proof.
  intros Hz. rewrite AOI_HASH_ID_mod by lia.
  symmetry. apply (Z.mod_unique_pos _ _ 1); lia.
Qed.

Lemma AOI_HASH_ID_first z : 0 <= z < 65536 -> AOI_HASH_ID z = z.
Proof. intros Hz. apply AOI_HASH_ID_small. rewrite AOI_MAX_AOI_eq. exact Hz. Qed.

Ltac layout :=
  unfold put, while_filling, while_clearing, while_refilling, while_clearing_again,
    while_refilling_again;
  repeat match goal with
         | |- context [decide (?x = ?y)] => destruct (decide (x = y))
         | |- context [?x =? ?y] => destruct (Z.eqb_spec x y)
         | |- context [?x <? ?y] => destruct (Z.ltb_spec x y)
         end;
  try reflexivity; try congruence; try lia; try (f_equal; lia).

Lemma pool_at_init : pool_at (while_filling 0) [] aoi_init.
Proof.
  split.
  - apply inv_init.
  - intros z. unfold slot_get, aoi_init. cbn [aoi_slot]. rewrite lookup_empty. reflexivity.
  - intros z Hz. replace (while_filling 0 z) with (@None Z) by layout.
    cbn [slot_is]. unfold live, slot_get, aoi_init. cbn [aoi_slot].
    rewrite lookup_empty. intros H. apply H. reflexivity.
  - unfold old_ids, slot_get, aoi_init. cbn [aoi_slot]. rewrite lookup_empty. reflexivity.
Qed.

Lemma run_filling n : forall k a,
  pool_at (while_filling k) [] a -> aoi_id a = k -> 0 <= k -> k + Z.of_nat n <= 65536 ->
  pool_at (while_filling (k + Z.of_nat n)) [] (enter_n n a) /\
  aoi_id (enter_n n a) = k + Z.of_nat n.
Proof.
  induction n as [|n IH]; intros k a Hp Hid Hk Hn.
  - cbn [enter_n]. rewrite Z.add_0_r. auto.
  - assert (Hh : AOI_HASH_ID k = k) by (apply AOI_HASH_ID_first; lia).
    rewrite (enter_n_S n a _ _ (pool_at_enter_pos (while_filling k) [] a k 0 Hp
      ltac:(lia) ltac:(lia) ltac:(unfold Int.INT_MAX; lia) ltac:(intros j Hj; lia)
      ltac:(rewrite Hh; layout))).
    rewrite Hh.
    replace (k + Z.of_nat (S n)) with ((k + 1) + Z.of_nat n) by lia.
    apply IH; [| rewrite aoi_id_enter_finish, aoi_id_slot_set, aoi_id_set_aoi_id; reflexivity
               | lia | lia].
    pose proof (pool_at_enter_finish (while_filling k) [] a k (k + 1) 0 Hp Hk
                  ltac:(rewrite Hh; layout)) as Hq.
    rewrite Hh in Hq. replace (if decide (k = 0) then [] else []) with (@nil Z) in Hq
      by (destruct (decide (k = 0)); reflexivity).
    revert Hq. apply pool_at_ext. intros z Hz. layout.
Qed.

Lemma run_clearing n : forall j a O0,
  pool_at (while_clearing j) O0 a -> 1 <= j -> j + Z.of_nat n <= 65536 ->
  pool_at (while_clearing (j + Z.of_nat n)) O0 (leave_from j n a) /\
  aoi_id (leave_from j n a) = aoi_id a.
Proof.
  induction n as [|n IH]; intros j a O0 Hp Hj Hn.
  - cbn [leave_from]. rewrite Z.add_0_r. auto.
  - rewrite leave_from_S.
    assert (Hh : AOI_HASH_ID j = j) by (apply AOI_HASH_ID_first; lia).
    replace (j + Z.of_nat (S n)) with ((j + 1) + Z.of_nat n) by lia.
    rewrite <- (aoi_id_leave a j).
    apply IH; [|lia|lia].
    pose proof (pool_at_leave (while_clearing j) O0 a j Hp ltac:(lia) ltac:(lia)
                  ltac:(rewrite Hh; layout)) as Hq.
    rewrite Hh in Hq. revert Hq. apply pool_at_ext. intros z Hz. layout.
Qed.

Lemma run_refilling n : forall j a O0,
  pool_at (while_refilling j) O0 a -> 1 <= j -> j + Z.of_nat n <= 65536 ->
  65536 + j - 1 <= aoi_id a <= 65536 + j ->
  pool_at (while_refilling (j + Z.of_nat n)) O0 (enter_n n a) /\
  ((0 < n)%nat -> aoi_id (enter_n n a) = 65536 + j + Z.of_nat n).
Proof.
  induction n as [|n IH]; intros j a O0 Hp Hj Hn Hid.
  - cbn [enter_n]. rewrite Z.add_0_r. split; [exact Hp | lia].
  - assert (Hh : AOI_HASH_ID (65536 + j) = j) by (apply AOI_HASH_ID_second; lia).
    assert (Hbusy : forall k, aoi_id a <= k < 65536 + j ->
              while_refilling j (AOI_HASH_ID k) ≠ None).
    { intros k Hk. replace k with (65536 + (j - 1)) by lia.
      rewrite AOI_HASH_ID_second by lia. layout. }
    rewrite (enter_n_S n a _ _ (pool_at_enter_pos (while_refilling j) O0 a (65536 + j) 0 Hp
      ltac:(lia) ltac:(lia) ltac:(unfold Int.INT_MAX; lia) Hbusy ltac:(rewrite Hh; layout))).
    rewrite Hh.
    replace (j + Z.of_nat (S n)) with ((j + 1) + Z.of_nat n) by lia.
    set (a' := _aoi_enter_finish _ _ _).
    assert (Hid' : aoi_id a' = 65536 + (j + 1)).
    { unfold a'. rewrite aoi_id_enter_finish, aoi_id_slot_set, aoi_id_set_aoi_id. lia. }
    destruct (IH (j + 1) a' O0) as [Hq Hc]; [|lia|lia|lia|].
    + pose proof (pool_at_enter_finish (while_refilling j) O0 a (65536 + j)
                    (65536 + j + 1) 0 Hp ltac:(lia) ltac:(rewrite Hh; layout)) as Hq.
      rewrite Hh in Hq. fold a' in Hq.
      destruct (decide (j = 0)) as [?|_]; [lia|].
      revert Hq. apply pool_at_ext. intros z Hz. layout.
    + split; [exact Hq|]. intros _. destruct n as [|n].
      * cbn [enter_n]. rewrite Hid'. lia.
      * rewrite Hc by lia. lia.
Qed.

Lemma run_failing f O0 n : forall a,
  pool_at f O0 a -> (forall z, 0 <= z < 65536 -> f z ≠ None) ->
  aoi_id a = 131072 -> Z.of_nat n <= 32766 ->
  pool_at f O0 (enter_n n a) /\
  aoi_id (enter_n n a) = Int.wrap (131072 + 65536 * Z.of_nat n).
Proof.
  intros a Hp Hfull Hid.
  assert (Hgen : forall k a, pool_at f O0 a ->
            aoi_id a = Int.wrap (131072 + 65536 * k) -> 0 <= k ->
            k + Z.of_nat n <= 32766 ->
            pool_at f O0 (enter_n n a) /\
            aoi_id (enter_n n a) = Int.wrap (131072 + 65536 * (k + Z.of_nat n))).
  { clear a Hp Hid. induction n as [|n IH]; intros k a Hp Hid Hk Hn.
    - cbn [enter_n]. rewrite Z.add_0_r. auto.
    - rewrite Int.wrap_id in Hid
        by (unfold Int.in_range, Int.INT_MIN, Int.INT_MAX; lia).
      rewrite (enter_n_S n a _ _ (pool_at_enter_full f O0 a 0 Hp ltac:(lia)
        ltac:(unfold Int.INT_MAX; lia) Hfull)).
      replace (k + Z.of_nat (S n)) with ((k + 1) + Z.of_nat n) by lia.
      apply IH; [apply pool_at_set_aoi_id, Hp | | lia | lia].
      rewrite aoi_id_set_aoi_id, Hid. f_equal. lia. }
  intros Hn. destruct (Hgen 0 a Hp) as [H1 H2]; [|lia|lia|].
  - rewrite Hid. symmetry. apply Int.wrap_id.
    unfold Int.in_range, Int.INT_MIN, Int.INT_MAX. lia.
  - split; [exact H1|]. rewrite H2. f_equal.
Qed.

Lemma run_clearing_again n : forall j a O0,
  pool_at (while_clearing_again j) O0 a -> 2 <= j -> j + Z.of_nat n <= 65536 ->
  pool_at (while_clearing_again (j + Z.of_nat n)) O0 (leave_from (65536 + j) n a) /\
  aoi_id (leave_from (65536 + j) n a) = aoi_id a.
Proof.
  induction n as [|n IH]; intros j a O0 Hp Hj Hn.
  - cbn [leave_from]. rewrite Z.add_0_r. auto.
  - rewrite leave_from_S.
    assert (Hh : AOI_HASH_ID (65536 + j) = j) by (apply AOI_HASH_ID_second; lia).
    replace (j + Z.of_nat (S n)) with ((j + 1) + Z.of_nat n) by lia.
    replace (65536 + j + 1) with (65536 + (j + 1)) by lia.
    rewrite <- (aoi_id_leave a (65536 + j)).
    apply IH; [|lia|lia].
    pose proof (pool_at_leave (while_clearing_again j) O0 a (65536 + j) Hp ltac:(lia)
                  ltac:(lia) ltac:(rewrite Hh; layout)) as Hq.
    rewrite Hh in Hq. revert Hq. apply pool_at_ext. intros z Hz. layout.
Qed.

Lemma run_refilling_again n : forall j k a O0,
  pool_at (while_refilling_again j) O0 a -> 2 <= j -> j + Z.of_nat n <= 65536 ->
  aoi_id a = Int.INT_MIN + k -> 0 <= k <= j ->
  pool_at (while_refilling_again (j + Z.of_nat n)) O0 (enter_n n a).
Proof.
  induction n as [|n IH]; intros j k a O0 Hp Hj Hn Hid Hk.
  - cbn [enter_n]. rewrite Z.add_0_r. exact Hp.
  - assert (Hh : AOI_HASH_ID j = j) by (apply AOI_HASH_ID_first; lia).
    assert (Hbusy : forall i, k <= i < j -> while_refilling_again j (AOI_HASH_ID i) ≠ None).
    { intros i Hi. rewrite AOI_HASH_ID_first by lia. layout. }
    rewrite (enter_n_S n a _ _ (pool_at_enter_neg (while_refilling_again j) O0 a k j 0 Hp Hid
      ltac:(lia) ltac:(lia) ltac:(unfold Int.INT_MAX; lia) Hbusy ltac:(rewrite Hh; layout))).
    rewrite Hh.
    replace (j + Z.of_nat (S n)) with ((j + 1) + Z.of_nat n) by lia.
    apply (IH (j + 1) (j + 1)); [|lia|lia| |lia].
    + pose proof (pool_at_enter_finish (while_refilling_again j) O0 a j
                    (Int.INT_MIN + j + 1) 0 Hp ltac:(lia) ltac:(rewrite Hh; layout)) as Hq.
      rewrite Hh in Hq.
      destruct (decide (j = 0)) as [?|_]; [lia|].
      revert Hq. apply pool_at_ext. intros z Hz. layout.
    + rewrite aoi_id_enter_finish, aoi_id_slot_set, aoi_id_set_aoi_id. lia.
Qed.

Lemma ssorted_seqZ m n : ssorted (seqZ m n).
Proof.
  destruct (Z.le_gt_cases 0 n) as [Hn|Hn].
  - rewrite <- (Z2Nat.id n Hn). generalize (Z.to_nat n). clear n Hn. intros n.
    induction n as [|n IH]; [apply ssorted_nil|].
    rewrite seqZ_S. apply ssorted_snoc; [exact IH|].
    intros y Hy. apply elem_of_seqZ in Hy. lia.
  - replace (seqZ m n) with (@nil Z); [apply ssorted_nil|].
    unfold seqZ. replace (Z.to_nat n) with 0%nat by lia. reflexivity.
Qed.

Lemma merge_abs_flush al O :
  merge_abs al O [] = map (fun id => mk_event id AOI_LEAVE) O.
Proof. destruct O; reflexivity. Qed.

(** The merge when the new list ends with the first old id and is otherwise
    smaller: ENTER for the new ids, and then every other old id is flushed. *)
Lemma merge_abs_enter_then_flush al o O L :
  al o = true -> (forall x, x ∈ L -> x < o) ->
  merge_abs al (o :: O) (L ++ [o])
  = map (fun id => mk_event id AOI_ENTER) L ++ map (fun id => mk_event id AOI_LEAVE) O.
Proof.
  intros Hal. induction L as [|x L IH]; intros Hlt.
  - cbn [app map]. rewrite merge_abs_cons, Hal, Z.ltb_irrefl, Z.eqb_refl.
    apply merge_abs_flush.
  - cbn [app map]. rewrite merge_abs_cons, Hal.
    destruct (Z.ltb_spec x o) as [_|Hge].
    + f_equal. apply IH. intros y Hy. apply Hlt. apply elem_of_cons. auto.
    + specialize (Hlt x ltac:(apply elem_of_cons; auto)). lia.
Qed.

Lemma overflow_run_states n1 n2 n3 n4 :
  Z.of_nat n1 = 65536 -> Z.of_nat n2 = 65535 -> Z.of_nat n3 = 32766 -> Z.of_nat n4 = 65534 ->
  exists a4 r4 a8,
    aoi_trigger (enter_n n2 (leave_from 1 n2 (enter_n n1 aoi_init))) 0 100 130
      = Some (a4, r4) /\
    aoi_trigger (enter_n n4 (leave_from (65536 + 2) n4 (enter_n n3 a4))) 0 100 130
      = Some (a8, 131068) /\
    events a8 131068
    = map (fun id => mk_event id AOI_ENTER) (seqZ 2 65534)
      ++ map (fun id => mk_event id AOI_LEAVE) (seqZ 65538 65534).
Proof.
  intros Hn1 Hn2 Hn3 Hn4.
  (* the pool is filled *)
  destruct (run_filling n1 0 aoi_init pool_at_init eq_refl ltac:(lia) ltac:(lia)) as [Hp1 Hc1].
  set (a1 := enter_n n1 aoi_init) in *.
  replace (0 + Z.of_nat n1) with 65536 in Hp1, Hc1 by lia.
  (* all but entity 0 leave *)
  destruct (run_clearing n2 1 a1 []) as [Hp2 Hc2]; [|lia|lia|].
  { revert Hp1. apply pool_at_ext. intros z Hz. layout. }
  set (a2 := leave_from 1 n2 a1) in *.
  replace (1 + Z.of_nat n2) with 65536 in Hp2 by lia.
  (* their slots are taken again *)
  destruct (run_refilling n2 1 a2 []) as [Hp3 Hc3]; [|lia|lia|lia|].
  { revert Hp2. apply pool_at_ext. intros z Hz. layout. }
  set (a3 := enter_n n2 a2) in *.
  replace (1 + Z.of_nat n2) with 65536 in Hp3 by lia.
  specialize (Hc3 ltac:(lia)).
  (* entity 0 scans *)
  destruct (pool_at_trigger (while_refilling 65536) [] a3 (seqZ 65537 65535) Hp3 eq_refl
              (ssorted_seqZ _ _)) as (a4 & Hrun4 & _ & Hp4 & Hc4).
  { intros u. rewrite elem_of_seqZ. split.
    - intros Hu. exists (u - 65536). split; [lia|].
      replace (while_refilling 65536 (u - 65536)) with (Some (65536 + (u - 65536))) by layout.
      f_equal. lia.
    - intros (z & Hz & Hfz).
      replace (while_refilling 65536 z) with (Some (65536 + z)) in Hfz by layout.
      injection Hfz as <-. lia. }
  exists a4, (Z.of_nat (length (diff_events a3 [] (seqZ 65537 65535)))).
  (* creations fail until the counter wraps *)
  destruct (run_failing (while_refilling 65536) (seqZ 65537 65535) n3 a4 Hp4) as [Hp5 Hc5];
    [intros z Hz; layout | lia | lia |].
  set (a5 := enter_n n3 a4) in *.
  assert (Hc5' : aoi_id a5 = Int.INT_MIN + 0) by (rewrite Hc5, Hn3; reflexivity).
  (* all but the entities 0 and 65537 leave *)
  destruct (run_clearing_again n4 2 a5 (seqZ 65537 65535)) as [Hp6 Hc6]; [|lia|lia|].
  { revert Hp5. apply pool_at_ext. intros z Hz. layout. }
  set (a6 := leave_from (65536 + 2) n4 a5) in *.
  replace (2 + Z.of_nat n4) with 65536 in Hp6 by lia.
  (* their slots are taken by entities with small ids *)
  pose proof (run_refilling_again n4 2 0 a6 (seqZ 65537 65535)) as Hp7.
  specialize (Hp7 ltac:(revert Hp6; apply pool_at_ext; intros z Hz; layout)
                  ltac:(lia) ltac:(lia) ltac:(congruence) ltac:(lia)).
  set (a7 := enter_n n4 a6) in *.
  replace (2 + Z.of_nat n4) with 65536 in Hp7 by lia.
  (* entity 0 scans *)
  destruct (pool_at_trigger (while_refilling_again 65536) (seqZ 65537 65535) a7
              (seqZ 2 65534 ++ [65537]) Hp7 eq_refl) as (a8 & Hrun8 & Hev8 & _ & _).
  { apply ssorted_snoc; [apply ssorted_seqZ|]. intros y Hy. apply elem_of_seqZ in Hy. lia. }
  { intros u. rewrite elem_of_app, elem_of_seqZ, list_elem_of_singleton. split.
    - intros [Hu| ->].
      + exists u. split; [lia|]. layout.
      + exists 1. split; [lia | reflexivity].
    - intros (z & Hz & Hfz). revert Hfz. layout; intros Hfz; try discriminate;
        injection Hfz as <-; lia. }
  assert (Hal : alive a7 65537 = true).
  { unfold alive.
    rewrite (pool_at_object (while_refilling_again 65536) _ a7 65537 Hp7 ltac:(lia));
      [reflexivity|].
    change 65537 with (65536 + 1) at 1. rewrite AOI_HASH_ID_second by lia. reflexivity. }
  assert (Hdiff : diff_events a7 (seqZ 65537 65535) (seqZ 2 65534 ++ [65537])
                  = map (fun id => mk_event id AOI_ENTER) (seqZ 2 65534)
                    ++ map (fun id => mk_event id AOI_LEAVE) (seqZ 65538 65534)).
  { rewrite (seqZ_cons 65537 65535) by lia. unfold diff_events.
    apply (merge_abs_enter_then_flush _ _ _ _ Hal).
    intros x Hx. apply elem_of_seqZ in Hx. lia. }
  assert (Hlen : Z.of_nat (length (diff_events a7 (seqZ 65537 65535)
                                     (seqZ 2 65534 ++ [65537]))) = 131068).
  { rewrite Hdiff, length_app, !length_map, !length_seqZ. lia. }
  rewrite Hlen in Hrun8, Hev8. rewrite Hdiff in Hev8.
  exists a8. split; [exact Hrun4|]. split; [exact Hrun8 | exact Hev8].
Qed.

(** C9, at a concrete run of the interface.  The pool is filled and all
    entities but 0 are replaced; 0 scans; 32766 creations on the full pool
    take the id counter past [INT_MAX]; all but one of the neighbours are
    replaced by entities with the ids 2 .. 65535, which the wrapped counter
    hands out again; 0 scans.  This scan returns 131068, more than the
    [AOI_MAX_AOI] cells of the event buffer: ENTER for the 65534 new
    neighbours and then, from the loop that flushes the rest of the old list
    without looking whether an id is still alive, LEAVE for the 65534
    destroyed ones. *)
Theorem scan_after_wrap_overflows_buffer :
  exists a,
    overflow_run = Some (a, 131068) /\
    AOI_MAX_AOI < 131068 /\
    events a 131068
    = map (fun id => mk_event id AOI_ENTER) (seqZ 2 65534)
      ++ map (fun id => mk_event id AOI_LEAVE) (seqZ 65538 65534).
Proof.
  destruct (overflow_run_states (Z.to_nat 65536) (Z.to_nat 65535) (Z.to_nat 32766)
              (Z.to_nat 65534)) as (a4 & r4 & a8 & H4 & H8 & Hev);
    try (apply Z2Nat.id; lia).
  exists a8. split; [|split; [rewrite AOI_MAX_AOI_eq; lia | exact Hev]].
  unfold overflow_run, before_wrap, after_wrap. rewrite H4. exact H8.
Qed.
